(** * MyCache: LRU, LRU-K, LFU, LFU-aging, sharded and ARC cache policies

  A shallow embedding of the cache-replacement engines of the MyCache
  repository ([KLruCache.h], [KLfuCache.h], [KArcCache.h],
  [KArcLruPart.h], [KArcLfuPart.h], [KArcCacheNode.h]) and the proofs of
  the properties its specification states about them.

  Conventions of the embedding.
  - A sentinel-bounded doubly linked list is a Rocq [list] of its real
    nodes, read from the head sentinel to the tail sentinel.
  - A container whose hash index is written only together with its list
    (the LRU engine, the ARC main lists) is the list alone: [find] on the
    index is a search of the list by key, [size] is its length.
  - A container whose index can be written on its own (the LFU node map
    and its frequency buckets, the ARC ghost lists) keeps the index as a
    [gmap] next to the lists.
  - [int] is a 32-bit signed and [size_t] a 64-bit unsigned integer; both
    are [Z] with the conversions of [MachineInt] written where the source
    converts.  Signed overflow is undefined in C++ and is not modelled:
    [int] arithmetic is arithmetic of [Z].
  - [double] is IEEE-754 binary64 as [SpecFloat] specifies it.
  - A [std::unordered_map] is a [gmap].  Where the code walks one and the
    order of the walk shows in the result (the aging pass of the LFU
    engine), the order is an argument of the call: any listing of the
    map's entries, each once.
  - Locks are not modelled: every method is one atomic step.  The one
    exception is [Value KLruKCache::get(Key)], which takes the mutex it
    already holds. *)

From stdpp Require Import base gmap list.
From Stdlib Require Import ZArith Lia SpecFloat.

Local Open Scope Z_scope.

(** ** Machine integers *)

Module MachineInt.

(** [size_t]: 64-bit unsigned, conversion is reduction modulo [2^64]. *)
Definition to_size_t (z : Z) : Z := z mod 2 ^ 64.

(** [int]: 32-bit signed, conversion keeps the low 32 bits. *)
Definition to_int (z : Z) : Z := (z + 2 ^ 31) mod 2 ^ 32 - 2 ^ 31.

Definition INT8_MAX : Z := 127.

End MachineInt.

Import MachineInt.

(** What a constructor hands back: the object, or a configuration error.
  No constructor of the repository throws, so every constructor below
  builds [Constructed]. *)
Inductive construction (A : Type) : Type :=
| Constructed (a : A)
| ConfigurationError.
Arguments Constructed {A} a.
Arguments ConfigurationError {A}.

(** ** The LRU engine, [KLruCache<Key, Value>] *)

Module Lru.
Section KLruCache.
Context {Key : Type} `{EqDecision Key} {Value : Type}.

(** [LruNode]: the links are the positions in [nodes_]. *)
Record LruNode : Type := mkLruNode {
  key_ : Key;
  value_ : Value;
  accessCount_ : Z
}.

Definition setValue (n : LruNode) (value : Value) : LruNode :=
  {| key_ := key_ n; value_ := value; accessCount_ := accessCount_ n |}.

(** [nodes_] runs from [dummyHead_->next_] (least recent) to
    [dummyTail_->prev_] (most recent); [nodeMap_] indexes these nodes. *)
Record KLruCache : Type := mkKLruCache {
  capacity_ : Z;
  nodes_ : list LruNode
}.

Definition with_nodes (s : KLruCache) (l : list LruNode) : KLruCache :=
  {| capacity_ := capacity_ s; nodes_ := l |}.

(** [KLruCache(int capacity)]: stores the capacity, links the sentinels. *)
Definition KLruCache_new (capacity : Z) : KLruCache :=
  {| capacity_ := capacity; nodes_ := [] |}.

Definition KLruCache_ctor (capacity : Z) : construction KLruCache :=
  Constructed (KLruCache_new capacity).

(** [nodeMap_.find(key)] *)
Fixpoint find_node (key : Key) (l : list LruNode) : option LruNode :=
  match l with
  | [] => None
  | n :: l' => if decide (key_ n = key) then Some n else find_node key l'
  end.

(** [removeNode(node)]: unlink the node (the one indexed under its key). *)
Fixpoint removeNode (key : Key) (l : list LruNode) : list LruNode :=
  match l with
  | [] => []
  | n :: l' => if decide (key_ n = key) then l' else n :: removeNode key l'
  end.

(** [insertNode(node)]: link before [dummyTail_]. *)
Definition insertNode (n : LruNode) (l : list LruNode) : list LruNode :=
  l ++ [n].

Definition moveToMostRecent (n : LruNode) (l : list LruNode) : list LruNode :=
  insertNode n (removeNode (key_ n) l).

Definition updateExistingNode (n : LruNode) (value : Value)
    (l : list LruNode) : list LruNode :=
  moveToMostRecent (setValue n value) l.

(** [evictLeastRecent()]: unlink [dummyHead_->next_] and erase its key.
    It is called only when [size >= capacity_ > 0], never on an empty list. *)
Definition evictLeastRecent (l : list LruNode) : list LruNode :=
  match l with
  | [] => []
  | _ :: l' => l'
  end.

(** [addNewNode]: [nodeMap_.size() >= capacity_] compares as [size_t]. *)
Definition addNewNode (key : Key) (value : Value) (s : KLruCache) : KLruCache :=
  let l :=
    if bool_decide (to_size_t (capacity_ s) ≤ Z.of_nat (length (nodes_ s)))
    then evictLeastRecent (nodes_ s)
    else nodes_ s in
  with_nodes s (insertNode (mkLruNode key value 1) l).

Definition put (key : Key) (value : Value) (s : KLruCache) : KLruCache :=
  if bool_decide (capacity_ s ≤ 0) then s
  else match find_node key (nodes_ s) with
       | Some n => with_nodes s (updateExistingNode n value (nodes_ s))
       | None => addNewNode key value s
       end.

(** [bool get(Key key, Value& value)]: [value] comes in and goes out. *)
Definition get (key : Key) (value : Value) (s : KLruCache)
    : bool * Value * KLruCache :=
  match find_node key (nodes_ s) with
  | Some n => (true, value_ n, with_nodes s (moveToMostRecent n (nodes_ s)))
  | None => (false, value, s)
  end.

(** [Value get(Key key)]: [dflt] is the value-initialised [Value{}]. *)
Definition get_value (dflt : Value) (key : Key) (s : KLruCache)
    : Value * KLruCache :=
  let '(_, v, s') := get key dflt s in (v, s').

Definition remove (key : Key) (s : KLruCache) : KLruCache :=
  match find_node key (nodes_ s) with
  | Some n => with_nodes s (removeNode (key_ n) (nodes_ s))
  | None => s
  end.

Definition contains (key : Key) (s : KLruCache) : bool :=
  match find_node key (nodes_ s) with
  | Some _ => true
  | None => false
  end.

(** The keys of the linked nodes, in list order. *)
Definition keys (l : list LruNode) : list Key := key_ <$> l.

(** The value stored under a key, without touching recency. *)
Definition stored (key : Key) (s : KLruCache) : option Value :=
  value_ <$> find_node key (nodes_ s).

(** Calls a client can make, and the states they lead to. *)
Inductive call : Type :=
  | CallPut (key : Key) (value : Value)
  | CallGet (key : Key) (value : Value)
  | CallRemove (key : Key).

Definition step (s : KLruCache) (c : call) : KLruCache :=
  match c with
  | CallPut key value => put key value s
  | CallGet key value => (get key value s).2
  | CallRemove key => remove key s
  end.

Definition run (cs : list call) (s : KLruCache) : KLruCache :=
  foldl step s cs.

Definition reachable (s : KLruCache) : Prop :=
  ∃ capacity cs, s = run cs (KLruCache_new capacity).

(** What every reachable state satisfies: one node per key, and nothing
    stored when the capacity is not positive. *)
Definition well_formed (s : KLruCache) : Prop :=
  NoDup (keys (nodes_ s)) ∧ (capacity_ s ≤ 0 → nodes_ s = []).

End KLruCache.
Arguments LruNode : clear implicits.
Arguments KLruCache : clear implicits.
Arguments call : clear implicits.
End Lru.

(** ** The LRU-K decorator, [KLruKCache<Key, Value>] *)

Module LruK.
Section KLruKCache.
Context {Key : Type} `{EqDecision Key} {Value : Type}.

(** The base object is the main cache; [historyList_] is a
    [KLruCache<Key, size_t>] of access counts. *)
Record KLruKCache : Type := mkKLruKCache {
  base : Lru.KLruCache Key Value;
  historyList_ : Lru.KLruCache Key Z;
  k_ : Z
}.

Definition KLruKCache_new (capacity historyCapacity k : Z) : KLruKCache :=
  {| base := Lru.KLruCache_new capacity;
     historyList_ := Lru.KLruCache_new historyCapacity;
     k_ := k |}.

Definition KLruKCache_ctor (capacity historyCapacity k : Z)
    : construction KLruKCache :=
  Constructed (KLruKCache_new capacity historyCapacity k).

(** [bool get(Key key, Value& value)].  [historyList_->get(key)] yields
    the value-initialised [0] for an unknown key; the count is read into an
    [int] and written back as a [size_t]. *)
Definition get (key : Key) (value : Value) (s : KLruKCache)
    : bool * Value * KLruKCache :=
  if Lru.contains key (base s) then
    let '(hit, v, b) := Lru.get key value (base s) in
    (hit, v, {| base := b; historyList_ := historyList_ s; k_ := k_ s |})
  else
    let '(hv, h1) := Lru.get_value 0 key (historyList_ s) in
    let historyCount := to_int hv in
    let h2 := Lru.put key (to_size_t (historyCount + 1)) h1 in
    let '(h3, b1) :=
      if bool_decide (k_ s ≤ historyCount + 1)
      then (Lru.remove key h2, Lru.put key value (base s))
      else (h2, base s) in
    let '(hit, v, b2) := Lru.get key value b1 in
    (hit, v, {| base := b2; historyList_ := h3; k_ := k_ s |}).

(** [void put(Key key, Value value)] *)
Definition put (key : Key) (value : Value) (s : KLruKCache) : KLruKCache :=
  if Lru.contains key (base s) then
    {| base := Lru.put key value (base s);
       historyList_ := historyList_ s; k_ := k_ s |}
  else
    let '(hv, h1) := Lru.get_value 0 key (historyList_ s) in
    let historyCount := to_int hv in
    let h2 := Lru.put key (to_size_t (historyCount + 1)) h1 in
    if bool_decide (k_ s ≤ historyCount + 1)
    then {| base := Lru.put key value (base s);
            historyList_ := Lru.remove key h2; k_ := k_ s |}
    else {| base := base s; historyList_ := h2; k_ := k_ s |}.

(** [std::lock_guard<std::mutex>] on a mutex that the calling thread
    holds or not.  A [std::mutex] is not recursive: the thread that holds
    it does not get it a second time, and the call does not return. *)
Definition lock_guard (held : bool) : option bool :=
  if held then None else Some true.

(** [Value get(Key key)]: it takes [mutex_], which is free when a client
    calls, and with it held calls [get(key, value)], which takes [mutex_]
    first thing.  [None] is a call that does not return. *)
Definition get_value (dflt : Value) (key : Key) (s : KLruKCache)
    : option (Value * KLruKCache) :=
  held ← lock_guard false;
  held' ← lock_guard held;
  let '(_, v, s') := get key dflt s in Some (v, s').

(** What [get] and [put] do to the history of a key that is not in the
    main cache: the count read as an [int], and the history after the read
    and the write-back of the count plus one. *)
Definition read_count (key : Key) (s : KLruKCache) : Z :=
  to_int (default 0 (Lru.stored key (historyList_ s))).

Definition counted (key : Key) (s : KLruKCache) : Lru.KLruCache Key Z :=
  Lru.put key (to_size_t (read_count key s + 1))
    (Lru.get_value 0 key (historyList_ s)).2.

Inductive call : Type :=
  | CallPut (key : Key) (value : Value)
  | CallGet (key : Key) (value : Value).

Definition call_key (c : call) : Key :=
  match c with
  | CallPut key _ => key
  | CallGet key _ => key
  end.

Definition call_value (c : call) : Value :=
  match c with
  | CallPut _ value => value
  | CallGet _ value => value
  end.

Definition step (s : KLruKCache) (c : call) : KLruKCache :=
  match c with
  | CallPut key value => put key value s
  | CallGet key value => (get key value s).2
  end.

Definition run (cs : list call) (s : KLruKCache) : KLruKCache :=
  foldl step s cs.

(** How many of the calls touch [key]. *)
Definition accesses (key : Key) (cs : list call) : nat :=
  length (filter (λ c, call_key c = key) cs).

(** A recorded count is at least 1 and below [k_]. *)
Definition counts_below (s : KLruKCache) : Prop :=
  ∀ key n, Lru.stored key (historyList_ s) = Some n → 1 ≤ n < k_ s.

Definition reachable (s : KLruKCache) : Prop :=
  ∃ capacity historyCapacity k cs,
    s = run cs (KLruKCache_new capacity historyCapacity k).

Definition well_formed (s : KLruKCache) : Prop :=
  Lru.well_formed (base s) ∧ Lru.well_formed (historyList_ s).

(** A key the cache has no trace of: neither admitted nor counted. *)
Definition unseen (key : Key) (s : KLruKCache) : Prop :=
  Lru.stored key (base s) = None ∧ Lru.stored key (historyList_ s) = None.

(** The gate of a key that was touched at most [m] times: it is not in the
    main cache and its recorded count is at most [m]. *)
Definition gated (key : Key) (m : Z) (s : KLruKCache) : Prop :=
  well_formed s ∧ k_ s = 3 ∧ Lru.stored key (base s) = None
  ∧ ∀ c, Lru.stored key (historyList_ s) = Some c → 0 ≤ c ≤ m.

End KLruKCache.
Arguments KLruKCache : clear implicits.
Arguments call : clear implicits.
End LruK.

(** ** The LFU engine, [KLfuCache<Key, Value>]

    [nodeMap_] maps a key to its node (frequency and value; the key is the
    map key).  [freqToFreqList_] maps a frequency to the keys of the nodes
    linked in that [FreqList], oldest first; a [FreqList] is never erased
    from the map.  A method that dereferences a bucket the map does not
    hold (a null [FreqList*]) has no result: [None]. *)

Module Lfu.
Section KLfuCache.
Context {Key : Type} `{Countable Key} {Value : Type}.

(** The key field of a [FreqList]'s tail sentinel: [Key()] for a class
    type.  [kickOut] reads it when the bucket it looks at is empty. *)
Variable sentinelKey : Key.

Record Node : Type := mkNode {
  freq : Z;
  value : Value
}.

Record KLfuCache : Type := mkKLfuCache {
  capacity_ : Z;
  minFreq_ : Z;
  nodeMap_ : gmap Key Node;
  freqToFreqList_ : gmap Z (list Key)
}.

(** [KLfuCache(int capacity)] *)
Definition KLfuCache_new (capacity : Z) : KLfuCache :=
  {| capacity_ := capacity; minFreq_ := INT8_MAX;
     nodeMap_ := ∅; freqToFreqList_ := ∅ |}.

Definition KLfuCache_ctor (capacity : Z) : construction KLfuCache :=
  Constructed (KLfuCache_new capacity).

Definition with_index (s : KLfuCache) (m : gmap Key Node)
    (b : gmap Z (list Key)) : KLfuCache :=
  {| capacity_ := capacity_ s; minFreq_ := minFreq_ s;
     nodeMap_ := m; freqToFreqList_ := b |}.

Definition with_minFreq (s : KLfuCache) (f : Z) : KLfuCache :=
  {| capacity_ := capacity_ s; minFreq_ := f;
     nodeMap_ := nodeMap_ s; freqToFreqList_ := freqToFreqList_ s |}.

(** [FreqList::removeNode(node)] for the node the index holds under [key]:
    it is the one linked last among the nodes of that key; a node that is
    not linked ([pre] or [next] null) is left alone. *)
Fixpoint unlink (key : Key) (l : list Key) : list Key :=
  match l with
  | [] => []
  | x :: l' =>
      if decide (key ∈ l') then x :: unlink key l'
      else if decide (x = key) then l' else x :: l'
  end.

(** [addToFreqList(node)]: create the bucket if missing, link at its tail. *)
Definition addToFreqList (key : Key) (f : Z) (b : gmap Z (list Key))
    : gmap Z (list Key) :=
  <[f := default [] (b !! f) ++ [key]]> b.

(** [removeFromFreqList(node)]: [freqToFreqList_[node->freq]->removeNode]. *)
Definition removeFromFreqList (key : Key) (f : Z) (b : gmap Z (list Key))
    : option (gmap Z (list Key)) :=
  l ← b !! f; Some (<[f := unlink key l]> b).

(** [freqToFreqList_[minFreq_]->getFirstNode()]: the key and the frequency
    of the first node, which is the tail sentinel (frequency 1) when the
    bucket is empty. *)
Definition firstNode (s : KLfuCache) : option (Key * Z) :=
  l ← freqToFreqList_ s !! minFreq_ s;
  Some match l with
       | key :: _ => (key, minFreq_ s)
       | [] => (sentinelKey, 1)
       end.

(** [kickOut()]: unlink the first node of the [minFreq_] bucket and erase
    its key.  On the sentinel [removeNode] returns at once (its [next] is
    null), after [freqToFreqList_[1]] was dereferenced. *)
Definition kickOut (s : KLfuCache) : option KLfuCache :=
  l ← freqToFreqList_ s !! minFreq_ s;
  match l with
  | key :: l' =>
      Some (with_index s (delete key (nodeMap_ s))
              (<[minFreq_ s := l']> (freqToFreqList_ s)))
  | [] =>
      _ ← freqToFreqList_ s !! 1;
      Some (with_index s (delete sentinelKey (nodeMap_ s)) (freqToFreqList_ s))
  end.

(** [getInternal(node, value)] for the node under [key].  The bucket the
    node left is looked at only when its frequency was [minFreq_]. *)
Definition getInternal (key : Key) (s : KLfuCache) : option (Value * KLfuCache) :=
  node ← nodeMap_ s !! key;
  b1 ← removeFromFreqList key (freq node) (freqToFreqList_ s);
  let f := freq node + 1 in
  let b2 := addToFreqList key f b1 in
  let m := <[key := {| freq := f; value := value node |}]> (nodeMap_ s) in
  let minFreq :=
    if bool_decide (f - 1 = minFreq_ s) && bool_decide (b2 !! (f - 1) = Some [])
    then minFreq_ s + 1 else minFreq_ s in
  Some (value node,
        {| capacity_ := capacity_ s; minFreq_ := minFreq;
           nodeMap_ := m; freqToFreqList_ := b2 |}).

(** [nodeMap_.size() == capacity_], compared as [size_t]. *)
Definition full (s : KLfuCache) : bool :=
  bool_decide (Z.of_nat (size (nodeMap_ s)) = to_size_t (capacity_ s)).

(** [putInternal] after the eviction: the new node, frequency 1. *)
Definition insertNew (key : Key) (v : Value) (s : KLfuCache) : KLfuCache :=
  {| capacity_ := capacity_ s; minFreq_ := Z.min (minFreq_ s) 1;
     nodeMap_ := <[key := {| freq := 1; value := v |}]> (nodeMap_ s);
     freqToFreqList_ := addToFreqList key 1 (freqToFreqList_ s) |}.

Definition putInternal (key : Key) (v : Value) (s : KLfuCache) : option KLfuCache :=
  s1 ← (if full s then kickOut s else Some s);
  Some (insertNew key v s1).

(** [it->second->value = value] *)
Definition setValue (key : Key) (v : Value) (s : KLfuCache) : KLfuCache :=
  with_index s (alter (λ n, {| freq := freq n; value := v |}) key (nodeMap_ s))
    (freqToFreqList_ s).

Definition put (key : Key) (v : Value) (s : KLfuCache) : option KLfuCache :=
  if bool_decide (capacity_ s = 0) then Some s
  else match nodeMap_ s !! key with
       | Some _ => snd <$> getInternal key (setValue key v s)
       | None => putInternal key v s
       end.

(** [bool get(Key key, Value& value)] *)
Definition get (key : Key) (v : Value) (s : KLfuCache)
    : option (bool * Value * KLfuCache) :=
  match nodeMap_ s !! key with
  | Some _ => r ← getInternal key s; Some (true, r.1, r.2)
  | None => Some (false, v, s)
  end.

(** [purge()]: both maps cleared, [minFreq_] kept. *)
Definition purge (s : KLfuCache) : KLfuCache := with_index s ∅ ∅.

Inductive call : Type :=
  | CallPut (key : Key) (v : Value)
  | CallGet (key : Key) (v : Value)
  | CallPurge.

Definition step (s : KLfuCache) (c : call) : option KLfuCache :=
  match c with
  | CallPut key v => put key v s
  | CallGet key v => snd <$> get key v s
  | CallPurge => Some (purge s)
  end.

Fixpoint run (cs : list call) (s : KLfuCache) : option KLfuCache :=
  match cs with
  | [] => Some s
  | c :: cs' => s' ← step s c; run cs' s'
  end.

(** A state some client can bring about: the capacity is an [int]. *)
Definition reachable (s : KLfuCache) : Prop :=
  ∃ capacity cs, - 2 ^ 31 ≤ capacity < 2 ^ 31
    ∧ run cs (KLfuCache_new capacity) = Some s.

(** [f] is the least frequency whose bucket holds a node. *)
Definition least_occupied (f : Z) (b : gmap Z (list Key)) : Prop :=
  (∃ l, b !! f = Some l ∧ l ≠ [])
  ∧ ∀ g l, b !! g = Some l → l ≠ [] → f ≤ g.

(** The buckets and the index hold the same nodes, each node once and in
    the bucket of its frequency, and frequencies start at 1. *)
Record linked (s : KLfuCache) : Prop := {
  linked_bucket : ∀ f l, freqToFreqList_ s !! f = Some l →
    NoDup l ∧ ∀ key, key ∈ l → ∃ v, nodeMap_ s !! key = Some (mkNode f v);
  linked_index : ∀ key n, nodeMap_ s !! key = Some n →
    ∃ l, freqToFreqList_ s !! freq n = Some l ∧ key ∈ l;
  linked_positive : 1 ≤ minFreq_ s
    ∧ ∀ key n, nodeMap_ s !! key = Some n → 1 ≤ freq n;
  linked_capacity : - 2 ^ 31 ≤ capacity_ s < 2 ^ 31
}.

(** What every reachable state satisfies: it is linked, and while it holds
    a node [minFreq_] is the least occupied frequency. *)
Definition well_formed (s : KLfuCache) : Prop :=
  linked s
  ∧ (nodeMap_ s ≠ ∅ → least_occupied (minFreq_ s) (freqToFreqList_ s)).

End KLfuCache.
Arguments Node : clear implicits.
Arguments KLfuCache Key {_ _} Value.
Arguments call : clear implicits.
End Lfu.

(** ** The LFU aging engine, [KLfuAgingCache<Key, Value>]

    The derived class adds three counters and overrides [getInternal],
    [putInternal] and [kickOut]; the inherited [put] and [get] dispatch to
    the overrides. *)

Module LfuAging.
Section KLfuAgingCache.
Context {Key : Type} `{Countable Key} {Value : Type}.
Variable sentinelKey : Key.

Record KLfuAgingCache : Type := mkKLfuAgingCache {
  lfu : Lfu.KLfuCache Key Value;
  maxAverageNum_ : Z;
  curTotalNum_ : Z;
  curAverageNum_ : Z
}.

(** [KLfuAgingCache(int capacity, int maxAverageNum)] *)
Definition KLfuAgingCache_new (capacity maxAverageNum : Z) : KLfuAgingCache :=
  {| lfu := Lfu.KLfuCache_new capacity; maxAverageNum_ := maxAverageNum;
     curTotalNum_ := 0; curAverageNum_ := 0 |}.

Definition KLfuAgingCache_ctor (capacity maxAverageNum : Z)
    : construction KLfuAgingCache :=
  Constructed (KLfuAgingCache_new capacity maxAverageNum).

Definition with_lfu (a : KLfuAgingCache) (s : Lfu.KLfuCache Key Value)
    : KLfuAgingCache :=
  {| lfu := s; maxAverageNum_ := maxAverageNum_ a;
     curTotalNum_ := curTotalNum_ a; curAverageNum_ := curAverageNum_ a |}.

(** [curTotalNum_ / nodeMap_.size()]: the [int] is converted to [size_t],
    the quotient is stored in an [int]; [0] for an empty map. *)
Definition average (total : Z) (m : gmap Key (Lfu.Node Value)) : Z :=
  if decide (size m = 0%nat) then 0
  else to_int (to_size_t total / Z.of_nat (size m)).

(** [updateMinFreq()]: the scan starts from [INT8_MAX] and takes
    [INT8_MAX] at its end for an empty cache. *)
Definition scanMinFreq (b : gmap Z (list Key)) : Z :=
  map_fold (λ f l acc, match l with [] => acc | _ :: _ => Z.min acc f end)
    INT8_MAX b.

Definition updateMinFreq (s : Lfu.KLfuCache Key Value) : Lfu.KLfuCache Key Value :=
  Lfu.with_minFreq s
    (if bool_decide (scanMinFreq (Lfu.freqToFreqList_ s) = INT8_MAX) then 1
     else scanMinFreq (Lfu.freqToFreqList_ s)).

(** A frequency lowered by half the ceiling ([int] division truncates),
    not below 1. *)
Definition aged (maxAverageNum f : Z) : Z :=
  if bool_decide (f - maxAverageNum `quot` 2 < 1) then 1
  else f - maxAverageNum `quot` 2.

(** The order in which [nodeMap_], a [std::unordered_map], hands out its
    entries is not specified, and it depends on how the table came about,
    not only on what it holds.  A call that may walk the map is given the
    walk as [order]: any function that lists the entries of a map, each
    once. *)
Definition Iteration : Type :=
  gmap Key (Lfu.Node Value) → list (Key * Lfu.Node Value).

Definition iterates (order : Iteration) : Prop :=
  ∀ m, order m ≡ₚ map_to_list m.

(** One such order, other than that of [map_to_list]. *)
Definition backwards : Iteration := λ m, reverse (map_to_list m).

(** The loop of [handleOverMaxAverageNum] over the nodes of [nodeMap_], in
    the order the map hands them out. *)
Fixpoint relocate (maxAverageNum : Z) (nodes : list (Key * Lfu.Node Value))
    (s : Lfu.KLfuCache Key Value) : option (Lfu.KLfuCache Key Value) :=
  match nodes with
  | [] => Some s
  | (key, node) :: rest =>
      b1 ← Lfu.removeFromFreqList key (Lfu.freq node) (Lfu.freqToFreqList_ s);
      let f := aged maxAverageNum (Lfu.freq node) in
      relocate maxAverageNum rest
        (Lfu.with_index s
           (<[key := Lfu.mkNode f (Lfu.value node)]> (Lfu.nodeMap_ s))
           (Lfu.addToFreqList key f b1))
  end.

Definition handleOverMaxAverageNum (order : Iteration) (a : KLfuAgingCache)
    : option KLfuAgingCache :=
  if decide (size (Lfu.nodeMap_ (lfu a)) = 0%nat) then Some a
  else
    s ← relocate (maxAverageNum_ a) (order (Lfu.nodeMap_ (lfu a))) (lfu a);
    Some (with_lfu a (updateMinFreq s)).

Definition addFreqNum (order : Iteration) (a : KLfuAgingCache)
    : option KLfuAgingCache :=
  let total := curTotalNum_ a + 1 in
  let a' := {| lfu := lfu a; maxAverageNum_ := maxAverageNum_ a;
               curTotalNum_ := total;
               curAverageNum_ := average total (Lfu.nodeMap_ (lfu a)) |} in
  if bool_decide (maxAverageNum_ a' < curAverageNum_ a')
  then handleOverMaxAverageNum order a' else Some a'.

Definition decreaseFreqNum (num : Z) (a : KLfuAgingCache) : KLfuAgingCache :=
  let total := curTotalNum_ a - num in
  {| lfu := lfu a; maxAverageNum_ := maxAverageNum_ a;
     curTotalNum_ := total;
     curAverageNum_ := average total (Lfu.nodeMap_ (lfu a)) |}.

(** The override of [kickOut]: the base [kickOut], then the total lowered
    by the frequency of the node that was first in the bucket. *)
Definition kickOut (a : KLfuAgingCache) : option KLfuAgingCache :=
  node ← Lfu.firstNode sentinelKey (lfu a);
  s ← Lfu.kickOut sentinelKey (lfu a);
  Some (decreaseFreqNum node.2 (with_lfu a s)).

Definition getInternal (order : Iteration) (key : Key) (a : KLfuAgingCache)
    : option (Value * KLfuAgingCache) :=
  r ← Lfu.getInternal key (lfu a);
  a' ← addFreqNum order (with_lfu a r.2);
  Some (r.1, a').

(** The override of [putInternal]: the base [putInternal], whose [kickOut]
    is the override, then [addFreqNum]. *)
Definition putInternal (order : Iteration) (key : Key) (v : Value)
    (a : KLfuAgingCache) : option KLfuAgingCache :=
  a1 ← (if Lfu.full (lfu a) then kickOut a else Some a);
  addFreqNum order (with_lfu a1 (Lfu.insertNew key v (lfu a1))).

(** The inherited [put] and [get]. *)
Definition put (order : Iteration) (key : Key) (v : Value) (a : KLfuAgingCache)
    : option KLfuAgingCache :=
  if bool_decide (Lfu.capacity_ (lfu a) = 0) then Some a
  else match Lfu.nodeMap_ (lfu a) !! key with
       | Some _ =>
           snd <$> getInternal order key
                     (with_lfu a (Lfu.setValue key v (lfu a)))
       | None => putInternal order key v a
       end.

Definition get (order : Iteration) (key : Key) (v : Value) (a : KLfuAgingCache)
    : option (bool * Value * KLfuAgingCache) :=
  match Lfu.nodeMap_ (lfu a) !! key with
  | Some _ => r ← getInternal order key a; Some (true, r.1, r.2)
  | None => Some (false, v, a)
  end.

Definition purge (a : KLfuAgingCache) : KLfuAgingCache :=
  with_lfu a (Lfu.purge (lfu a)).

Inductive call : Type :=
  | CallPut (key : Key) (v : Value)
  | CallGet (key : Key) (v : Value)
  | CallPurge.

Definition step (order : Iteration) (a : KLfuAgingCache) (c : call)
    : option KLfuAgingCache :=
  match c with
  | CallPut key v => put order key v a
  | CallGet key v => snd <$> get order key v a
  | CallPurge => Some (purge a)
  end.

(** A run of calls, each with the order in which the map would be walked
    during it. *)
Fixpoint run (cs : list (Iteration * call)) (a : KLfuAgingCache)
    : option KLfuAgingCache :=
  match cs with
  | [] => Some a
  | oc :: cs' => a' ← step oc.1 a oc.2; run cs' a'
  end.

(** The states a client can bring about, whatever the order in which the
    map is walked during each call. *)
Definition reachable (a : KLfuAgingCache) : Prop :=
  ∃ capacity maxAverageNum cs, - 2 ^ 31 ≤ capacity < 2 ^ 31
    ∧ Forall (λ oc, iterates oc.1) cs
    ∧ run cs (KLfuAgingCache_new capacity maxAverageNum) = Some a.

(** What keeps every method of the aging engine defined: the bucket of
    every resident frequency exists, buckets exist for frequencies from 1
    on only, and while the cache holds a node the buckets of [minFreq_]
    and of frequency 1 exist. *)
Record usable (s : Lfu.KLfuCache Key Value) : Prop := {
  usable_index : ∀ key n, Lfu.nodeMap_ s !! key = Some n →
    is_Some (Lfu.freqToFreqList_ s !! Lfu.freq n);
  usable_buckets : ∀ f, is_Some (Lfu.freqToFreqList_ s !! f) → 1 ≤ f;
  usable_minFreq : 1 ≤ Lfu.minFreq_ s;
  usable_first : Lfu.nodeMap_ s ≠ ∅ →
    is_Some (Lfu.freqToFreqList_ s !! Lfu.minFreq_ s)
    ∧ is_Some (Lfu.freqToFreqList_ s !! 1);
  usable_capacity : - 2 ^ 31 ≤ Lfu.capacity_ s < 2 ^ 31
}.

End KLfuAgingCache.
Arguments KLfuAgingCache Key {_ _} Value.
Arguments Iteration Key {_ _} Value.
Arguments call : clear implicits.

(** A run for the examples: three keys, ceiling 1, key 1 read four times.
    The last read lowers the frequencies (by [1/2 = 0]) and links every
    node to the tail of its bucket again, in the order of the walk. *)
Definition three_keys (order : Iteration Z Z)
    : list (Iteration Z Z * call Z Z) :=
  pair order <$> [CallPut 1 10; CallPut 2 20; CallPut 3 30;
                  CallGet 1 0; CallGet 1 0; CallGet 1 0; CallGet 1 0].

End LfuAging.

(** ** The ARC node, [ArcNode<Key, Value>] *)

Module ArcNode.
Section ArcNode.
Context {Key Value : Type}.

Record ArcNode : Type := mkArcNode {
  key_ : Key;
  value_ : Value;
  accessCount_ : Z
}.

Definition setValue (n : ArcNode) (value : Value) : ArcNode :=
  {| key_ := key_ n; value_ := value; accessCount_ := accessCount_ n |}.

(** [++accessCount_] on a [size_t] *)
Definition incrementAccessCount (n : ArcNode) : ArcNode :=
  {| key_ := key_ n; value_ := value_ n;
     accessCount_ := to_size_t (accessCount_ n + 1) |}.

Definition resetAccessCount (n : ArcNode) : ArcNode :=
  {| key_ := key_ n; value_ := value_ n; accessCount_ := 1 |}.

End ArcNode.
Arguments ArcNode : clear implicits.
End ArcNode.

(** ** The LRU part of ARC, [ArcLruPart<Key, Value>]

    [main_] is the main list from [mainHead_->next_] (most recent) to
    [mainTail_->prev_] (least recent); [mainCache_] indexes its nodes.
    [ghost_] is the ghost list from [ghostHead_->next_] (newest) to
    [ghostTail_->prev_] (oldest); [ghostCache_] is its index, written by
    [addToGhost] whether or not the key is already there. *)

Module ArcLru.
Import ArcNode.
Section ArcLruPart.
Context {Key : Type} `{Countable Key} {Value : Type}.

Record ArcLruPart : Type := mkArcLruPart {
  capacity_ : Z;
  ghostCapacity_ : Z;
  transformThreshold_ : Z;
  main_ : list (ArcNode Key Value);
  ghostCache_ : gmap Key (ArcNode Key Value);
  ghost_ : list (ArcNode Key Value)
}.

(** [ArcLruPart(size_t capacity, size_t transformThreshold)] *)
Definition ArcLruPart_new (capacity transformThreshold : Z) : ArcLruPart :=
  {| capacity_ := capacity; ghostCapacity_ := capacity;
     transformThreshold_ := transformThreshold;
     main_ := []; ghostCache_ := ∅; ghost_ := [] |}.

Definition with_main (s : ArcLruPart) (l : list (ArcNode Key Value)) : ArcLruPart :=
  {| capacity_ := capacity_ s; ghostCapacity_ := ghostCapacity_ s;
     transformThreshold_ := transformThreshold_ s;
     main_ := l; ghostCache_ := ghostCache_ s; ghost_ := ghost_ s |}.

Definition with_ghost (s : ArcLruPart) (m : gmap Key (ArcNode Key Value))
    (l : list (ArcNode Key Value)) : ArcLruPart :=
  {| capacity_ := capacity_ s; ghostCapacity_ := ghostCapacity_ s;
     transformThreshold_ := transformThreshold_ s;
     main_ := main_ s; ghostCache_ := m; ghost_ := l |}.

Definition with_capacity (s : ArcLruPart) (capacity : Z) : ArcLruPart :=
  {| capacity_ := capacity; ghostCapacity_ := ghostCapacity_ s;
     transformThreshold_ := transformThreshold_ s;
     main_ := main_ s; ghostCache_ := ghostCache_ s; ghost_ := ghost_ s |}.

(** [mainCache_.find(key)] *)
Fixpoint find_node (key : Key) (l : list (ArcNode Key Value))
    : option (ArcNode Key Value) :=
  match l with
  | [] => None
  | n :: l' => if decide (key_ n = key) then Some n else find_node key l'
  end.

(** Unlinking the node of a key that stands first among the nodes of that
    key: [removeFromMain], and [removeFromGhost] of the node the ghost
    index holds (the newest of its key, linked nearest to the head). *)
Fixpoint unlink (key : Key) (l : list (ArcNode Key Value))
    : list (ArcNode Key Value) :=
  match l with
  | [] => []
  | n :: l' => if decide (key_ n = key) then l' else n :: unlink key l'
  end.

(** [updateNodeAccess(node)]: to the front, count up; the node after it. *)
Definition accessed (n : ArcNode Key Value) : ArcNode Key Value :=
  incrementAccessCount n.

Definition shouldPromote (s : ArcLruPart) (n : ArcNode Key Value) : bool :=
  bool_decide (transformThreshold_ s ≤ accessCount_ (accessed n)).

(** [removeOldestGhost()] *)
Definition removeOldestGhost (s : ArcLruPart) : ArcLruPart :=
  match last (ghost_ s) with
  | None => s
  | Some n => with_ghost s (delete (key_ n) (ghostCache_ s)) (removelast (ghost_ s))
  end.

(** [addToGhost(node)]: count reset, linked at the head, indexed. *)
Definition addToGhost (n : ArcNode Key Value) (s : ArcLruPart) : ArcLruPart :=
  with_ghost s (<[key_ n := resetAccessCount n]> (ghostCache_ s))
    (resetAccessCount n :: ghost_ s).

(** [evictLeastRecent()] *)
Definition evictLeastRecent (s : ArcLruPart) : ArcLruPart :=
  match last (main_ s) with
  | None => s
  | Some n =>
      let s1 :=
        if bool_decide (ghostCapacity_ s ≤ Z.of_nat (size (ghostCache_ s)))
        then removeOldestGhost s else s in
      with_main (addToGhost n s1) (removelast (main_ s))
  end.

(** [addNewNode(key, value)] *)
Definition addNewNode (key : Key) (value : Value) (s : ArcLruPart) : ArcLruPart :=
  let s1 :=
    if bool_decide (capacity_ s ≤ Z.of_nat (length (main_ s)))
    then evictLeastRecent s else s in
  with_main s1 (mkArcNode key value 1 :: main_ s1).

(** [bool put(Key key, Value value)]: the result tells the coordinator to
    move the entry to the LFU part. *)
Definition put (key : Key) (value : Value) (s : ArcLruPart) : bool * ArcLruPart :=
  if bool_decide (capacity_ s = 0) then (false, s)
  else match find_node key (main_ s) with
       | Some n =>
           (shouldPromote s n,
            with_main s (setValue (accessed n) value :: unlink key (main_ s)))
       | None => (true, addNewNode key value s)
       end.

(** [bool get(Key key, Value& value, bool& shouldTransform)] *)
Definition get (key : Key) (value : Value) (shouldTransform : bool) (s : ArcLruPart)
    : bool * Value * bool * ArcLruPart :=
  match find_node key (main_ s) with
  | Some n =>
      (true, value_ n, shouldPromote s n,
       with_main s (accessed n :: unlink key (main_ s)))
  | None => (false, value, shouldTransform, s)
  end.

(** [bool checkGhost(Key key, Value& ghostValue)]: [ghostValue] is written
    on a hit only; the result is the value written, if any. *)
Definition checkGhost (key : Key) (s : ArcLruPart) : option Value * ArcLruPart :=
  match ghostCache_ s !! key with
  | Some n => (Some (value_ n),
               with_ghost s (delete key (ghostCache_ s)) (unlink key (ghost_ s)))
  | None => (None, s)
  end.

Definition increaseCapacity (s : ArcLruPart) : ArcLruPart :=
  with_capacity s (to_size_t (capacity_ s + 1)).

Definition decreaseCapacity (s : ArcLruPart) : bool * ArcLruPart :=
  if bool_decide (capacity_ s ≤ 0) then (false, s)
  else
    let s1 :=
      if bool_decide (Z.of_nat (length (main_ s)) = capacity_ s)
      then evictLeastRecent s else s in
    (true, with_capacity s1 (to_size_t (capacity_ s1 - 1))).

Definition remove (key : Key) (s : ArcLruPart) : ArcLruPart :=
  match find_node key (main_ s) with
  | Some _ => with_main s (unlink key (main_ s))
  | None => s
  end.

Definition existsInMain (key : Key) (s : ArcLruPart) : bool :=
  bool_decide (is_Some (find_node key (main_ s))).

(** The keys the part holds, and the keys its ghost index holds. *)
Definition mainKeys (s : ArcLruPart) : gset Key := list_to_set (key_ <$> main_ s).
Definition ghostKeys (s : ArcLruPart) : gset Key := dom (ghostCache_ s).

(** The ghost list and its index hold the same keys, each once, and no
    more than the ghost capacity [g] allows (one, when [g] is zero). *)
Definition ghost_bounded (g : Z) (s : ArcLruPart) : Prop :=
  ghostCapacity_ s = g
  ∧ NoDup (key_ <$> ghost_ s)
  ∧ ghostKeys s = list_to_set (key_ <$> ghost_ s)
  ∧ Z.of_nat (size (ghostCache_ s)) ≤ Z.max 1 g.

End ArcLruPart.
Arguments ArcLruPart Key {_ _} Value.
End ArcLru.

(** ** The LFU part of ARC, [ArcLfuPart<Key, Value>]

    [freqMap_] is a [std::map] from a frequency to the list of the nodes
    of that frequency, oldest first; a node is changed only while it moves
    between lists, so a list holds its nodes as they are.  [ghost_] is the
    ghost list from [ghostHead_->next_] (oldest) to [ghostTail_->prev_]
    (newest). *)

Module ArcLfu.
Import ArcNode.
Section ArcLfuPart.
Context {Key : Type} `{Countable Key} {Value : Type}.

Record ArcLfuPart : Type := mkArcLfuPart {
  capacity_ : Z;
  ghostCapacity_ : Z;
  transformThreshold_ : Z;
  minFreq_ : Z;
  mainCache_ : gmap Key (ArcNode Key Value);
  freqMap_ : gmap Z (list (ArcNode Key Value));
  ghostCache_ : gmap Key (ArcNode Key Value);
  ghost_ : list (ArcNode Key Value)
}.

(** [ArcLfuPart(size_t capacity, size_t transformThreshold)] *)
Definition ArcLfuPart_new (capacity transformThreshold : Z) : ArcLfuPart :=
  {| capacity_ := capacity; ghostCapacity_ := capacity;
     transformThreshold_ := transformThreshold; minFreq_ := 0;
     mainCache_ := ∅; freqMap_ := ∅; ghostCache_ := ∅; ghost_ := [] |}.

Definition with_main (s : ArcLfuPart) (minFreq : Z)
    (m : gmap Key (ArcNode Key Value))
    (fm : gmap Z (list (ArcNode Key Value))) : ArcLfuPart :=
  {| capacity_ := capacity_ s; ghostCapacity_ := ghostCapacity_ s;
     transformThreshold_ := transformThreshold_ s; minFreq_ := minFreq;
     mainCache_ := m; freqMap_ := fm;
     ghostCache_ := ghostCache_ s; ghost_ := ghost_ s |}.

Definition with_ghost (s : ArcLfuPart) (m : gmap Key (ArcNode Key Value))
    (l : list (ArcNode Key Value)) : ArcLfuPart :=
  {| capacity_ := capacity_ s; ghostCapacity_ := ghostCapacity_ s;
     transformThreshold_ := transformThreshold_ s; minFreq_ := minFreq_ s;
     mainCache_ := mainCache_ s; freqMap_ := freqMap_ s;
     ghostCache_ := m; ghost_ := l |}.

Definition with_capacity (s : ArcLfuPart) (capacity : Z) : ArcLfuPart :=
  {| capacity_ := capacity; ghostCapacity_ := ghostCapacity_ s;
     transformThreshold_ := transformThreshold_ s; minFreq_ := minFreq_ s;
     mainCache_ := mainCache_ s; freqMap_ := freqMap_ s;
     ghostCache_ := ghostCache_ s; ghost_ := ghost_ s |}.

(** [oldList.remove(node)]: every element that is the node of [key]. *)
Definition without (key : Key) (l : list (ArcNode Key Value))
    : list (ArcNode Key Value) :=
  filter (λ n, key_ n ≠ key) l.

(** [removeFromGhost] of the node the ghost index holds: the newest of its
    key, linked nearest to the tail. *)
Fixpoint unlink (key : Key) (l : list (ArcNode Key Value))
    : list (ArcNode Key Value) :=
  match l with
  | [] => []
  | n :: l' =>
      if decide (key ∈ key_ <$> l')
      then n :: unlink key l'
      else if decide (key_ n = key) then l' else n :: l'
  end.

(** The least key of a [std::map]: [freqMap_.begin()->first]. *)
Definition first_key (fm : gmap Z (list (ArcNode Key Value))) : option Z :=
  match (map_to_list fm).*1 with
  | [] => None
  | f :: fs => Some (foldr Z.min f fs)
  end.

(** [updateNodeFrequency(node)]; [freqMap_[oldFreq]] is created when it
    is missing and erased when it is left empty. *)
Definition updateNodeFrequency (n : ArcNode Key Value) (s : ArcLfuPart) : ArcLfuPart :=
  let oldFreq := accessCount_ n in
  let n' := incrementAccessCount n in
  let newFreq := accessCount_ n' in
  let oldList := without (key_ n) (default [] (freqMap_ s !! oldFreq)) in
  let fm1 :=
    match oldList with
    | [] => delete oldFreq (freqMap_ s)
    | _ :: _ => <[oldFreq := oldList]> (freqMap_ s)
    end in
  let minFreq :=
    match oldList with
    | [] => if bool_decide (oldFreq = minFreq_ s) then newFreq else minFreq_ s
    | _ :: _ => minFreq_ s
    end in
  with_main s minFreq (<[key_ n := n']> (mainCache_ s))
    (<[newFreq := default [] (fm1 !! newFreq) ++ [n']]> fm1).

(** [updateExistingNode(node, value)] *)
Definition updateExistingNode (n : ArcNode Key Value) (value : Value)
    (s : ArcLfuPart) : ArcLfuPart :=
  updateNodeFrequency (setValue n value)
    (with_main s (minFreq_ s) (<[key_ n := setValue n value]> (mainCache_ s))
       (freqMap_ s)).

(** [removeOldestGhost()] *)
Definition removeOldestGhost (s : ArcLfuPart) : ArcLfuPart :=
  match ghost_ s with
  | [] => s
  | n :: l => with_ghost s (delete (key_ n) (ghostCache_ s)) l
  end.

(** [addToGhost(node)]: linked at the tail, indexed. *)
Definition addToGhost (n : ArcNode Key Value) (s : ArcLfuPart) : ArcLfuPart :=
  with_ghost s (<[key_ n := n]> (ghostCache_ s)) (ghost_ s ++ [n]).

(** [evictLeastFrequent()]; [freqMap_[minFreq_]] is created, empty, when
    it is missing. *)
Definition evictLeastFrequent (s : ArcLfuPart) : ArcLfuPart :=
  if decide (size (freqMap_ s) = 0%nat) then s
  else match freqMap_ s !! minFreq_ s with
       | None => with_main s (minFreq_ s) (mainCache_ s)
                   (<[minFreq_ s := []]> (freqMap_ s))
       | Some [] => s
       | Some (leastNode :: rest) =>
           let fm :=
             match rest with
             | [] => delete (minFreq_ s) (freqMap_ s)
             | _ :: _ => <[minFreq_ s := rest]> (freqMap_ s)
             end in
           let minFreq :=
             match rest with
             | [] => default (minFreq_ s) (first_key fm)
             | _ :: _ => minFreq_ s
             end in
           let s1 :=
             if bool_decide (ghostCapacity_ s ≤ Z.of_nat (size (ghostCache_ s)))
             then removeOldestGhost s else s in
           with_main (addToGhost leastNode s1) minFreq
             (delete (key_ leastNode) (mainCache_ s)) fm
       end.

(** [addNewNode(key, value)] *)
Definition addNewNode (key : Key) (value : Value) (s : ArcLfuPart) : ArcLfuPart :=
  let s1 :=
    if bool_decide (capacity_ s ≤ Z.of_nat (size (mainCache_ s)))
    then evictLeastFrequent s else s in
  let n := mkArcNode key value 1 in
  with_main s1 1 (<[key := n]> (mainCache_ s1))
    (<[1 := default [] (freqMap_ s1 !! 1) ++ [n]]> (freqMap_ s1)).

(** [bool put(Key key, Value value)] *)
Definition put (key : Key) (value : Value) (s : ArcLfuPart) : bool * ArcLfuPart :=
  if bool_decide (capacity_ s = 0) then (false, s)
  else match mainCache_ s !! key with
       | Some n => (true, updateExistingNode n value s)
       | None => (true, addNewNode key value s)
       end.

(** [bool get(Key key, Value& value)] *)
Definition get (key : Key) (value : Value) (s : ArcLfuPart)
    : bool * Value * ArcLfuPart :=
  match mainCache_ s !! key with
  | Some n => (true, value_ n, updateNodeFrequency n s)
  | None => (false, value, s)
  end.

(** [bool checkGhost(Key key, Value& ghostValue)]: the value written, if any. *)
Definition checkGhost (key : Key) (s : ArcLfuPart) : option Value * ArcLfuPart :=
  match ghostCache_ s !! key with
  | Some n => (Some (value_ n),
               with_ghost s (delete key (ghostCache_ s)) (unlink key (ghost_ s)))
  | None => (None, s)
  end.

Definition increaseCapacity (s : ArcLfuPart) : ArcLfuPart :=
  with_capacity s (to_size_t (capacity_ s + 1)).

Definition decreaseCapacity (s : ArcLfuPart) : bool * ArcLfuPart :=
  if bool_decide (capacity_ s ≤ 0) then (false, s)
  else
    let s1 :=
      if bool_decide (Z.of_nat (size (mainCache_ s)) = capacity_ s)
      then evictLeastFrequent s else s in
    (true, with_capacity s1 (to_size_t (capacity_ s1 - 1))).

Definition existsInMain (key : Key) (s : ArcLfuPart) : bool :=
  bool_decide (is_Some (mainCache_ s !! key)).

(** What the main structure of the part satisfies in every state a client
    can bring about: the lists and the index hold the same nodes, each node
    once and in the list of its count, no list is empty, and while the part
    holds a node the list of [minFreq_] exists. *)
Record linked (s : ArcLfuPart) : Prop := {
  linked_list : ∀ f l, freqMap_ s !! f = Some l →
    l ≠ [] ∧ NoDup (key_ <$> l)
    ∧ ∀ n, n ∈ l → mainCache_ s !! key_ n = Some n ∧ accessCount_ n = f;
  linked_index : ∀ key n, mainCache_ s !! key = Some n →
    key_ n = key ∧ ∃ l, freqMap_ s !! accessCount_ n = Some l ∧ n ∈ l;
  linked_minFreq : mainCache_ s ≠ ∅ → is_Some (freqMap_ s !! minFreq_ s)
}.

Definition mainKeys (s : ArcLfuPart) : gset Key := dom (mainCache_ s).
Definition ghostKeys (s : ArcLfuPart) : gset Key := dom (ghostCache_ s).

Definition ghost_bounded (g : Z) (s : ArcLfuPart) : Prop :=
  ghostCapacity_ s = g
  ∧ NoDup (key_ <$> ghost_ s)
  ∧ ghostKeys s = list_to_set (key_ <$> ghost_ s)
  ∧ Z.of_nat (size (ghostCache_ s)) ≤ Z.max 1 g.

End ArcLfuPart.
Arguments ArcLfuPart Key {_ _} Value.
End ArcLfu.

(** ** The ARC coordinator, [KArcCache<Key, Value>] *)

Module Arc.
Import ArcNode.
Section KArcCache.
Context {Key : Type} `{Countable Key} {Value : Type}.

Record KArcCache : Type := mkKArcCache {
  capacity_ : Z;
  transformThreshold_ : Z;
  lruPart_ : ArcLru.ArcLruPart Key Value;
  lfuPart_ : ArcLfu.ArcLfuPart Key Value
}.

(** [KArcCache(size_t capacity, size_t transformThreshold)]: each part is
    built with [capacity/2]. *)
Definition KArcCache_new (capacity transformThreshold : Z) : KArcCache :=
  {| capacity_ := capacity; transformThreshold_ := transformThreshold;
     lruPart_ := ArcLru.ArcLruPart_new (capacity `div` 2) transformThreshold;
     lfuPart_ := ArcLfu.ArcLfuPart_new (capacity `div` 2) transformThreshold |}.

Definition KArcCache_ctor (capacity transformThreshold : Z)
    : construction KArcCache :=
  Constructed (KArcCache_new capacity transformThreshold).

Definition with_parts (s : KArcCache) (lru : ArcLru.ArcLruPart Key Value)
    (lfu : ArcLfu.ArcLfuPart Key Value) : KArcCache :=
  {| capacity_ := capacity_ s; transformThreshold_ := transformThreshold_ s;
     lruPart_ := lru; lfuPart_ := lfu |}.

(** The first half of [checkGhostCaches]: the LRU ghost list. *)
Definition checkLruGhost (key : Key) (s : KArcCache) : option Value * KArcCache :=
  let '(g, lru) := ArcLru.checkGhost key (lruPart_ s) in
  match g with
  | Some _ =>
      let '(shrunk, lfu) := ArcLfu.decreaseCapacity (lfuPart_ s) in
      (g, with_parts s (if shrunk then ArcLru.increaseCapacity lru else lru) lfu)
  | None => (g, with_parts s lru (lfuPart_ s))
  end.

(** The second half: the LFU ghost list. *)
Definition checkLfuGhost (key : Key) (s : KArcCache) : option Value * KArcCache :=
  let '(g, lfu) := ArcLfu.checkGhost key (lfuPart_ s) in
  match g with
  | Some _ =>
      let '(shrunk, lru) := ArcLru.decreaseCapacity (lruPart_ s) in
      (g, with_parts s lru (if shrunk then ArcLfu.increaseCapacity lfu else lfu))
  | None => (g, with_parts s (lruPart_ s) lfu)
  end.

(** [bool checkGhostCaches(Key key, Value& gValue)]: [gValue] is written
    by each list that holds the key, the LFU list last; the result is the
    value written, if any ([inGhost] is whether there is one). *)
Definition checkGhostCaches (key : Key) (s : KArcCache) : option Value * KArcCache :=
  let '(g1, s1) := checkLruGhost key s in
  let '(g2, s2) := checkLfuGhost key s1 in
  (match g2 with Some v => Some v | None => g1 end, s2).

(** The LRU branch of a hit: the entry moves to the LFU part when the LRU
    part says so. *)
Definition transform (key : Key) (value : Value) (shouldTransform : bool)
    (lru : ArcLru.ArcLruPart Key Value) (lfu : ArcLfu.ArcLfuPart Key Value)
    : ArcLru.ArcLruPart Key Value * ArcLfu.ArcLfuPart Key Value :=
  if shouldTransform
  then (ArcLru.remove key lru, (ArcLfu.put key value lfu).2)
  else (lru, lfu).

(** [void put(Key key, Value value)] *)
Definition put (key : Key) (value : Value) (s : KArcCache) : KArcCache :=
  let '(_, s1) := checkGhostCaches key s in
  let inLru := ArcLru.existsInMain key (lruPart_ s1) in
  let inLfu := ArcLfu.existsInMain key (lfuPart_ s1) in
  if inLru || inLfu then
    let lfu1 := if inLfu then (ArcLfu.put key value (lfuPart_ s1)).2
                else lfuPart_ s1 in
    if inLru then
      let '(shouldTransform, lru1) := ArcLru.put key value (lruPart_ s1) in
      let '(lru2, lfu2) := transform key value shouldTransform lru1 lfu1 in
      with_parts s1 lru2 lfu2
    else with_parts s1 (lruPart_ s1) lfu1
  else with_parts s1 (ArcLru.put key value (lruPart_ s1)).2 (lfuPart_ s1).

(** [bool get(Key key, Value& value)] *)
Definition get (key : Key) (value : Value) (s : KArcCache)
    : bool * Value * KArcCache :=
  let '(ghostValue, s1) := checkGhostCaches key s in
  let inLru := ArcLru.existsInMain key (lruPart_ s1) in
  let inLfu := ArcLfu.existsInMain key (lfuPart_ s1) in
  if inLru || inLfu then
    let '(_, value1, lfu1) :=
      if inLfu then ArcLfu.get key value (lfuPart_ s1)
      else (false, value, lfuPart_ s1) in
    if inLru then
      let '(_, value2, shouldTransform, lru1) :=
        ArcLru.get key value1 false (lruPart_ s1) in
      let '(lru2, lfu2) := transform key value2 shouldTransform lru1 lfu1 in
      (true, value2, with_parts s1 lru2 lfu2)
    else (true, value1, with_parts s1 (lruPart_ s1) lfu1)
  else
    match ghostValue with
    | Some gv =>
        (false, value,
         with_parts s1 (ArcLru.put key gv (lruPart_ s1)).2 (lfuPart_ s1))
    | None => (false, value, s1)
    end.

(** [Value get(Key key)]: [dflt] is the value-initialised [Value{}]. *)
Definition get_value (dflt : Value) (key : Key) (s : KArcCache)
    : Value * KArcCache :=
  let '(_, v, s') := get key dflt s in (v, s').

Inductive call : Type :=
  | CallPut (key : Key) (value : Value)
  | CallGet (key : Key) (value : Value).

Definition step (s : KArcCache) (c : call) : KArcCache :=
  match c with
  | CallPut key value => put key value s
  | CallGet key value => (get key value s).2
  end.

Definition run (cs : list call) (s : KArcCache) : KArcCache :=
  foldl step s cs.

(** A state some client can bring about: the capacity is a [size_t]. *)
Definition reachable (s : KArcCache) : Prop :=
  ∃ capacity transformThreshold cs, 0 ≤ capacity < 2 ^ 64
    ∧ s = run cs (KArcCache_new capacity transformThreshold).

Definition lruCapacity (s : KArcCache) : Z := ArcLru.capacity_ (lruPart_ s).
Definition lfuCapacity (s : KArcCache) : Z := ArcLfu.capacity_ (lfuPart_ s).

(** The two part capacities share [total], and the LFU part is linked. *)
Definition balanced (total : Z) (s : KArcCache) : Prop :=
  0 ≤ lruCapacity s ∧ 0 ≤ lfuCapacity s
  ∧ lruCapacity s + lfuCapacity s = total ∧ total < 2 ^ 64
  ∧ ArcLfu.linked (lfuPart_ s).

(** Where a key can be: in at most one of the two main parts, once, and
    then in neither ghost index; and no part holds more than its capacity. *)
Record coherent (s : KArcCache) : Prop := {
  coherent_once : NoDup (key_ <$> ArcLru.main_ (lruPart_ s));
  coherent_mains : ArcLru.mainKeys (lruPart_ s) ## ArcLfu.mainKeys (lfuPart_ s);
  coherent_lru_ghost :
    ArcLru.ghostKeys (lruPart_ s)
    ## ArcLru.mainKeys (lruPart_ s) ∪ ArcLfu.mainKeys (lfuPart_ s);
  coherent_lfu_ghost :
    ArcLfu.ghostKeys (lfuPart_ s)
    ## ArcLru.mainKeys (lruPart_ s) ∪ ArcLfu.mainKeys (lfuPart_ s);
  coherent_lru_room :
    Z.of_nat (length (ArcLru.main_ (lruPart_ s))) ≤ lruCapacity s;
  coherent_lfu_room :
    Z.of_nat (size (ArcLfu.mainCache_ (lfuPart_ s))) ≤ lfuCapacity s
}.

End KArcCache.
Arguments KArcCache Key {_ _} Value.
Arguments call : clear implicits.
End Arc.

(** ** The arithmetic of the sharded caches

    [std::ceil(capacity / static_cast<double>(sliceNum_))] in binary64,
    the choice of the shard count, and [Hash(key) % sliceNum_]. *)

Module Slices.

Definition of_Z (z : Z) : spec_float := binary_normalize 53 1024 z 0 false.

Definition div (x y : spec_float) : spec_float := SFdiv 53 1024 x y.

(** [std::ceil] and the conversion of its result to an integer; the
    conversion of an infinity or a NaN is undefined, here 0. *)
Definition ceil (x : spec_float) : Z :=
  match x with
  | S754_zero _ => 0
  | S754_finite s m e =>
      let v := if s then Z.neg m else Z.pos m in
      if bool_decide (0 ≤ e) then v * 2 ^ e else - ((- v) `div` 2 ^ (- e))
  | S754_infinity _ => 0
  | S754_nan => 0
  end.

(** [size_t sliceSize = std::ceil(capacity / static_cast<double>(sliceNum_))] *)
Definition sliceSize (capacity sliceNum : Z) : Z :=
  to_size_t (ceil (div (of_Z capacity) (of_Z sliceNum))).

(** [sliceNum > 0 ? sliceNum : std::thread::hardware_concurrency()], stored
    in an [int]. *)
Definition resolve (hardware_concurrency sliceNum : Z) : Z :=
  if bool_decide (0 < sliceNum) then sliceNum else to_int hardware_concurrency.

(** [Hash(key) % sliceNum_]: the [int] is converted to [size_t]; the
    remainder by zero is undefined. *)
Definition sliceIndex (hash sliceNum : Z) : option nat :=
  if bool_decide (to_size_t sliceNum = 0) then None
  else Some (Z.to_nat (to_size_t hash `mod` to_size_t sliceNum)).

(** The exact ceiling of a quotient, to compare with. *)
Definition ceil_div (a b : Z) : Z := - ((- a) `div` b).

End Slices.

(** ** The sharded LRU cache, [KHashLruCaches<Key, Value>]

    [Hash] is [std::hash<Key>], [hardware_concurrency] what
    [std::thread::hardware_concurrency()] returns on the host.  A call
    that indexes the vector of shards out of its range has no result. *)

Module HashLru.
Section KHashLruCaches.
Context {Key : Type} `{EqDecision Key} {Value : Type}.
Variable Hash : Key → Z.
Variable hardware_concurrency : Z.

Record KHashLruCaches : Type := mkKHashLruCaches {
  capacity_ : Z;
  sliceNum_ : Z;
  lruSliceCaches_ : list (Lru.KLruCache Key Value)
}.

(** [KHashLruCaches(size_t capacity, int sliceNum)]: each shard is a
    [KLruCache(int)] built from the [size_t sliceSize]. *)
Definition KHashLruCaches_new (capacity sliceNum : Z) : KHashLruCaches :=
  let n := Slices.resolve hardware_concurrency sliceNum in
  {| capacity_ := capacity; sliceNum_ := n;
     lruSliceCaches_ :=
       replicate (Z.to_nat n)
         (Lru.KLruCache_new (to_int (Slices.sliceSize capacity n))) |}.

Definition KHashLruCaches_ctor (capacity sliceNum : Z)
    : construction KHashLruCaches :=
  Constructed (KHashLruCaches_new capacity sliceNum).

Definition with_shard (s : KHashLruCaches) (i : nat)
    (shard : Lru.KLruCache Key Value) : KHashLruCaches :=
  {| capacity_ := capacity_ s; sliceNum_ := sliceNum_ s;
     lruSliceCaches_ := <[i := shard]> (lruSliceCaches_ s) |}.

Definition put (key : Key) (value : Value) (s : KHashLruCaches)
    : option KHashLruCaches :=
  i ← Slices.sliceIndex (Hash key) (sliceNum_ s);
  shard ← lruSliceCaches_ s !! i;
  Some (with_shard s i (Lru.put key value shard)).

Definition get (key : Key) (value : Value) (s : KHashLruCaches)
    : option (bool * Value * KHashLruCaches) :=
  i ← Slices.sliceIndex (Hash key) (sliceNum_ s);
  shard ← lruSliceCaches_ s !! i;
  let r := Lru.get key value shard in
  Some (r.1, with_shard s i r.2).

(** What the constructor sets up and [put] and [get] keep. *)
Definition sound (s : KHashLruCaches) : Prop :=
  0 < sliceNum_ s < 2 ^ 31
  ∧ length (lruSliceCaches_ s) = Z.to_nat (sliceNum_ s)
  ∧ Forall Lru.well_formed (lruSliceCaches_ s).

End KHashLruCaches.
Arguments KHashLruCaches : clear implicits.
End HashLru.

(** ** The sharded LFU cache, [KHashLfuCache<Key, Value>] *)

Module HashLfu.
Section KHashLfuCache.
Context {Key : Type} `{Countable Key} {Value : Type}.
Variable Hash : Key → Z.
Variable hardware_concurrency : Z.
Variable sentinelKey : Key.

Record KHashLfuCache : Type := mkKHashLfuCache {
  capacity_ : Z;
  sliceNum_ : Z;
  lfuSliceCaches_ : list (LfuAging.KLfuAgingCache Key Value)
}.

(** [KHashLfuCache(size_t capacity, int sliceNum, int maxAverageNum)] *)
Definition KHashLfuCache_new (capacity sliceNum maxAverageNum : Z) : KHashLfuCache :=
  let n := Slices.resolve hardware_concurrency sliceNum in
  {| capacity_ := capacity; sliceNum_ := n;
     lfuSliceCaches_ :=
       replicate (Z.to_nat n)
         (LfuAging.KLfuAgingCache_new (to_int (Slices.sliceSize capacity n))
            maxAverageNum) |}.

Definition KHashLfuCache_ctor (capacity sliceNum maxAverageNum : Z)
    : construction KHashLfuCache :=
  Constructed (KHashLfuCache_new capacity sliceNum maxAverageNum).

Definition with_shard (s : KHashLfuCache) (i : nat)
    (shard : LfuAging.KLfuAgingCache Key Value) : KHashLfuCache :=
  {| capacity_ := capacity_ s; sliceNum_ := sliceNum_ s;
     lfuSliceCaches_ := <[i := shard]> (lfuSliceCaches_ s) |}.

(** [order] is the order in which the shard would walk its map during the
    call. *)
Definition put (order : LfuAging.Iteration Key Value) (key : Key) (v : Value)
    (s : KHashLfuCache) : option KHashLfuCache :=
  i ← Slices.sliceIndex (Hash key) (sliceNum_ s);
  shard ← lfuSliceCaches_ s !! i;
  shard' ← LfuAging.put sentinelKey order key v shard;
  Some (with_shard s i shard').

Definition get (order : LfuAging.Iteration Key Value) (key : Key) (v : Value)
    (s : KHashLfuCache) : option (bool * Value * KHashLfuCache) :=
  i ← Slices.sliceIndex (Hash key) (sliceNum_ s);
  shard ← lfuSliceCaches_ s !! i;
  r ← LfuAging.get order key v shard;
  Some (r.1, with_shard s i r.2).

(** [purge()]: every shard is purged. *)
Definition purge (s : KHashLfuCache) : KHashLfuCache :=
  {| capacity_ := capacity_ s; sliceNum_ := sliceNum_ s;
     lfuSliceCaches_ := LfuAging.purge <$> lfuSliceCaches_ s |}.

Definition sound (s : KHashLfuCache) : Prop :=
  0 < sliceNum_ s < 2 ^ 31
  ∧ length (lfuSliceCaches_ s) = Z.to_nat (sliceNum_ s)
  ∧ Forall (λ a, LfuAging.usable (LfuAging.lfu a)) (lfuSliceCaches_ s).

End KHashLfuCache.
Arguments KHashLfuCache Key {_ _} Value.
End HashLfu.

(** * Proofs *)

(** ** Machine integers *)

Module MachineIntFacts.

Lemma to_size_t_small z : 0 ≤ z < 2 ^ 64 → to_size_t z = z.
Proof. intros Hz. unfold to_size_t. by apply Z.mod_small. Qed.

Lemma to_size_t_range z : 0 ≤ to_size_t z < 2 ^ 64.
Proof. unfold to_size_t. apply Z.mod_pos_bound. lia. Qed.

Lemma to_int_small z : - 2 ^ 31 ≤ z < 2 ^ 31 → to_int z = z.
Proof. intros Hz. unfold to_int. rewrite Z.mod_small; lia. Qed.

End MachineIntFacts.

(** ** The LRU engine *)

Module LruFacts.
Import Lru.
Section KLruCache.
Context {Key : Type} `{EqDecision Key} {Value : Type}.
Implicit Types (s : KLruCache Key Value) (l : list (LruNode Key Value)).
Implicit Types (n : LruNode Key Value) (key : Key) (value : Value).

Lemma find_node_Some key l n : find_node key l = Some n → key_ n = key ∧ n ∈ l.
Proof.
  induction l as [|m l IH]; simpl; [done|].
  destruct (decide (key_ m = key)) as [Hk|Hk].
  - intros [= <-]. split; [done|]. by left.
  - intros Hf. destruct (IH Hf) as [? ?]. split; [done|]. by right.
Qed.

Lemma find_node_None key l : find_node key l = None ↔ key ∉ keys l.
Proof.
  unfold keys. induction l as [|m l IH]; simpl.
  - split; [intros _; apply not_elem_of_nil|done].
  - destruct (decide (key_ m = key)) as [Hk|Hk].
    + split; [done|]. intros Hn. exfalso. apply Hn. rewrite Hk. by left.
    + rewrite IH, not_elem_of_cons. split; [by intros ?|by intros [_ ?]].
Qed.

Lemma find_node_app key l1 l2 :
  find_node key (l1 ++ l2) =
  match find_node key l1 with Some n => Some n | None => find_node key l2 end.
Proof.
  induction l1 as [|m l1 IH]; simpl; [done|].
  by destruct (decide (key_ m = key)).
Qed.

Lemma find_node_removeNode_ne key key' l :
  key' ≠ key → find_node key' (removeNode key l) = find_node key' l.
Proof.
  intros Hne. induction l as [|m l IH]; simpl; [done|].
  destruct (decide (key_ m = key)) as [Hk|Hk]; simpl.
  - destruct (decide (key_ m = key')); [congruence|done].
  - destruct (decide (key_ m = key')); [done|apply IH].
Qed.

Lemma keys_removeNode_subseteq key l : keys (removeNode key l) ⊆ keys l.
Proof.
  unfold keys. induction l as [|m l IH]; simpl; [done|].
  destruct (decide (key_ m = key)); simpl.
  - intros x Hx. by right.
  - intros x. rewrite !elem_of_cons. intros [->|Hx]; [by left|right; by apply IH].
Qed.

Lemma NoDup_removeNode key l : NoDup (keys l) → NoDup (keys (removeNode key l)).
Proof.
  unfold keys. induction l as [|m l IH]; simpl; [done|].
  rewrite NoDup_cons. intros [Hm Hl].
  destruct (decide (key_ m = key)); simpl; [done|].
  apply NoDup_cons. split; [|by apply IH].
  intros Hin. apply Hm. by apply (keys_removeNode_subseteq key l).
Qed.

Lemma find_node_removeNode_eq key l :
  NoDup (keys l) → find_node key (removeNode key l) = None.
Proof.
  unfold keys. induction l as [|m l IH]; simpl; [done|].
  rewrite NoDup_cons. intros [Hm Hl].
  destruct (decide (key_ m = key)) as [Hk|Hk]; simpl.
  - apply find_node_None. by rewrite <- Hk.
  - destruct (decide (key_ m = key)); [done|by apply IH].
Qed.

Lemma length_removeNode key l n :
  find_node key l = Some n → S (length (removeNode key l)) = length l.
Proof.
  induction l as [|m l IH]; simpl; [done|].
  destruct (decide (key_ m = key)); [done|].
  intros Hf. simpl. by rewrite IH.
Qed.

Lemma keys_app l1 l2 : keys (l1 ++ l2) = keys l1 ++ keys l2.
Proof. unfold keys. apply fmap_app. Qed.

Lemma NoDup_insertNode n l :
  NoDup (keys l) → key_ n ∉ keys l → NoDup (keys (insertNode n l)).
Proof.
  intros Hl Hn. unfold insertNode. rewrite keys_app. apply NoDup_app.
  split; [done|]. split.
  - intros x Hx. simpl. rewrite list_elem_of_singleton. by intros ->.
  - simpl. apply NoDup_singleton.
Qed.

Lemma NoDup_moveToMostRecent n l :
  NoDup (keys l) → NoDup (keys (moveToMostRecent n l)).
Proof.
  intros Hl. unfold moveToMostRecent. apply NoDup_insertNode.
  - by apply NoDup_removeNode.
  - apply find_node_None. by apply find_node_removeNode_eq.
Qed.

Lemma NoDup_evictLeastRecent l :
  NoDup (keys l) → NoDup (keys (evictLeastRecent l)).
Proof. destruct l as [|m l]; simpl; [done|]. by intros [_ ?]%NoDup_cons. Qed.

Lemma find_node_evictLeastRecent_None key l :
  find_node key l = None → find_node key (evictLeastRecent l) = None.
Proof.
  destruct l as [|m l]; simpl; [done|]. by destruct (decide (key_ m = key)).
Qed.

Lemma lru_well_formed_new capacity : well_formed (@KLruCache_new Key Value capacity).
Proof. split; simpl; [apply NoDup_nil_2|done]. Qed.

Lemma lru_well_formed_put key value s : well_formed s → well_formed (put key value s).
Proof.
  intros [Hnd Hcap]. unfold put. case_bool_decide as Hc; [by split|].
  destruct (find_node key (nodes_ s)) as [n|] eqn:Hf; split; simpl; try lia.
  - unfold updateExistingNode. by apply NoDup_moveToMostRecent.
  - apply NoDup_insertNode; simpl.
    + case_bool_decide; [by apply NoDup_evictLeastRecent|done].
    + apply find_node_None.
      case_bool_decide; [by apply find_node_evictLeastRecent_None|done].
Qed.

Lemma lru_well_formed_get key value s : well_formed s → well_formed (get key value s).2.
Proof.
  intros [Hnd Hcap]. unfold get.
  destruct (find_node key (nodes_ s)) as [n|] eqn:Hf; [|by split].
  split; simpl.
  - by apply NoDup_moveToMostRecent.
  - intros Hc. rewrite (Hcap Hc) in Hf. done.
Qed.

Lemma well_formed_remove key s : well_formed s → well_formed (remove key s).
Proof.
  intros [Hnd Hcap]. unfold remove.
  destruct (find_node key (nodes_ s)) as [n|] eqn:Hf; [|by split].
  split; simpl.
  - by apply NoDup_removeNode.
  - intros Hc. rewrite (Hcap Hc) in Hf. done.
Qed.

Lemma lru_well_formed_step s c : well_formed s → well_formed (step s c).
Proof.
  destruct c; simpl;
    auto using lru_well_formed_put, lru_well_formed_get, well_formed_remove.
Qed.

Lemma lru_well_formed_run cs s : well_formed s → well_formed (run cs s).
Proof.
  unfold run. revert s. induction cs as [|c cs IH]; simpl; [done|].
  intros s Hs. apply IH. by apply lru_well_formed_step.
Qed.

Lemma lru_reachable_well_formed s : reachable s → well_formed s.
Proof.
  intros (capacity & cs & ->). apply lru_well_formed_run, lru_well_formed_new.
Qed.

(** A put on a present key, on the list. *)
Lemma put_present key value s n :
  0 < capacity_ s → find_node key (nodes_ s) = Some n →
  nodes_ (put key value s) = removeNode key (nodes_ s) ++ [setValue n value].
Proof.
  intros Hc Hf. unfold put. rewrite bool_decide_eq_false_2 by lia.
  rewrite Hf. simpl. unfold updateExistingNode, moveToMostRecent, insertNode.
  simpl. by destruct (find_node_Some _ _ _ Hf) as [-> _].
Qed.

(** A put on an absent key, on the list. *)
Lemma lru_put_absent key value s :
  0 < capacity_ s → find_node key (nodes_ s) = None →
  ∃ l, nodes_ (put key value s) = l ++ [mkLruNode key value 1]
       ∧ find_node key l = None.
Proof.
  intros Hc Hf. unfold put. rewrite bool_decide_eq_false_2 by lia.
  rewrite Hf. unfold addNewNode, insertNode. simpl.
  eexists. split; [done|].
  case_bool_decide; [by apply find_node_evictLeastRecent_None|done].
Qed.

Lemma stored_put key value s :
  well_formed s → 0 < capacity_ s → stored key (put key value s) = Some value.
Proof.
  intros [Hnd _] Hc. unfold stored.
  destruct (find_node key (nodes_ s)) as [n|] eqn:Hf.
  - rewrite (put_present _ _ _ n) by done. rewrite find_node_app.
    rewrite find_node_removeNode_eq by done. simpl.
    destruct (find_node_Some _ _ _ Hf) as [Hk _].
    by rewrite decide_True.
  - destruct (lru_put_absent key value s Hc Hf) as (l & -> & Hl).
    rewrite find_node_app, Hl. simpl. by rewrite decide_True.
Qed.

Lemma get_stored key value s :
  (get key value s).1 =
  match stored key s with Some v => (true, v) | None => (false, value) end.
Proof.
  unfold get, stored. by destruct (find_node key (nodes_ s)).
Qed.

Lemma contains_stored key s : contains key s = bool_decide (is_Some (stored key s)).
Proof.
  unfold contains, stored. by destruct (find_node key (nodes_ s)).
Qed.

(** Put then get on the LRU engine. *)
Lemma lru_put_get key value value0 s :
  well_formed s → 0 < capacity_ s →
  (get key value0 (put key value s)).1 = (true, value).
Proof.
  intros Hs Hc. rewrite get_stored. by rewrite stored_put.
Qed.

(** Calls on another key leave a key's entry alone, or evict it. *)
Lemma stored_put_ne key key' value s :
  well_formed s → key' ≠ key →
  stored key (put key' value s) = stored key s
  ∨ stored key (put key' value s) = None.
Proof.
  intros [Hnd _] Hne. unfold put. case_bool_decide; [by left|].
  destruct (find_node key' (nodes_ s)) as [n|] eqn:Hf; unfold stored; simpl.
  - left. unfold updateExistingNode, moveToMostRecent, insertNode. simpl.
    destruct (find_node_Some _ _ _ Hf) as [Hk _].
    rewrite find_node_app, Hk, find_node_removeNode_ne by done.
    destruct (find_node key (nodes_ s)); [done|]. simpl.
    by rewrite decide_False by congruence.
  - unfold insertNode. rewrite find_node_app.
    case_bool_decide.
    + destruct (nodes_ s) as [|m l]; simpl.
      * left. by rewrite decide_False.
      * destruct (decide (key_ m = key)) as [Hm|Hm].
        -- right. apply NoDup_cons in Hnd as [Hin _].
           assert (find_node key l = None) as ->.
           { apply find_node_None. by rewrite <- Hm. }
           simpl. by rewrite decide_False.
        -- left. destruct (find_node key l); [done|].
           simpl. by rewrite decide_False.
    + left. destruct (find_node key (nodes_ s)); [done|].
      simpl. by rewrite decide_False.
Qed.

Lemma stored_get_ne key key' value s :
  key' ≠ key → stored key (get key' value s).2 = stored key s.
Proof.
  intros Hne. unfold get.
  destruct (find_node key' (nodes_ s)) as [n|] eqn:Hf; [|done].
  unfold stored, moveToMostRecent, insertNode. simpl.
  destruct (find_node_Some _ _ _ Hf) as [Hk _].
  rewrite find_node_app, Hk, find_node_removeNode_ne by done.
  destruct (find_node key (nodes_ s)); [done|]. simpl.
  by rewrite decide_False by congruence.
Qed.

Lemma stored_get_value key dflt s :
  (get_value dflt key s).1 = default dflt (stored key s).
Proof.
  unfold get_value, get, stored. by destruct (find_node key (nodes_ s)).
Qed.

Lemma stored_get_value_ne key key' dflt s :
  key' ≠ key → stored key (get_value dflt key' s).2 = stored key s.
Proof.
  intros Hne. rewrite <- (stored_get_ne key key' dflt s Hne).
  unfold get_value. by destruct (get key' dflt s) as [[? ?] ?].
Qed.

Lemma stored_get_value_eq key dflt s :
  well_formed s → stored key (get_value dflt key s).2 = stored key s.
Proof.
  intros [Hnd _]. unfold get_value, get, stored.
  destruct (find_node key (nodes_ s)) as [n|] eqn:Hf; simpl; [|by rewrite Hf].
  unfold moveToMostRecent, insertNode.
  destruct (find_node_Some _ _ _ Hf) as [Hk _].
  rewrite find_node_app, Hk, find_node_removeNode_eq by done.
  simpl. by rewrite decide_True.
Qed.

Lemma well_formed_get_value key dflt s :
  well_formed s → well_formed (get_value dflt key s).2.
Proof.
  intros Hs. pose proof (lru_well_formed_get key dflt s Hs) as Hg.
  unfold get_value. by destruct (get key dflt s) as [[? ?] ?].
Qed.

Lemma capacity_get_value key dflt s :
  capacity_ (get_value dflt key s).2 = capacity_ s.
Proof.
  unfold get_value, get. by destruct (find_node key (nodes_ s)).
Qed.

Lemma stored_remove_ne key key' s :
  key' ≠ key → stored key (remove key' s) = stored key s.
Proof.
  intros Hne. unfold remove.
  destruct (find_node key' (nodes_ s)) as [n|] eqn:Hf; [|done].
  unfold stored. simpl. destruct (find_node_Some _ _ _ Hf) as [Hk _].
  by rewrite Hk, find_node_removeNode_ne.
Qed.

Lemma put_nonpositive key value s : capacity_ s ≤ 0 → put key value s = s.
Proof. intros Hc. unfold put. by rewrite bool_decide_eq_true_2. Qed.

Lemma lru_capacity_put key value s : capacity_ (put key value s) = capacity_ s.
Proof.
  unfold put. case_bool_decide; [done|].
  by destruct (find_node key (nodes_ s)).
Qed.

Lemma stored_remove_eq key s : well_formed s → stored key (remove key s) = None.
Proof.
  intros [Hnd _]. unfold remove, stored.
  destruct (find_node key (nodes_ s)) as [n|] eqn:Hf; simpl; [|by rewrite Hf].
  destruct (find_node_Some _ _ _ Hf) as [Hk _].
  by rewrite Hk, find_node_removeNode_eq.
Qed.

Lemma reachable_present_capacity key s n :
  well_formed s → find_node key (nodes_ s) = Some n → 0 < capacity_ s.
Proof.
  intros [_ Hcap] Hf. destruct (decide (capacity_ s ≤ 0)) as [Hc|Hc]; [|lia].
  rewrite (Hcap Hc) in Hf. done.
Qed.

(** C9: on the LRU engine, [put] on a key that is present rewrites that
    key's value and moves its node to the most-recent end, and nothing
    else: no node is evicted (the list keeps its length and every key its
    membership), the other nodes keep their relative order, and every
    other key keeps its value. *)
Theorem lru_put_present_frame key value s n :
  reachable s → find_node key (nodes_ s) = Some n →
  nodes_ (put key value s) = removeNode key (nodes_ s) ++ [setValue n value]
  ∧ length (nodes_ (put key value s)) = length (nodes_ s)
  ∧ capacity_ (put key value s) = capacity_ s
  ∧ stored key (put key value s) = Some value
  ∧ (∀ key', key' ≠ key → stored key' (put key value s) = stored key' s)
  ∧ (∀ key', contains key' (put key value s) = contains key' s).
Proof.
  intros Hr Hf. pose proof (lru_reachable_well_formed s Hr) as Hwf.
  pose proof (reachable_present_capacity key s n Hwf Hf) as Hc.
  pose proof (put_present key value s n Hc Hf) as Hput.
  assert (Hother : ∀ key', key' ≠ key →
            stored key' (put key value s) = stored key' s).
  { intros key' Hne. unfold stored. rewrite Hput, find_node_app.
    rewrite find_node_removeNode_ne by done.
    destruct (find_node key' (nodes_ s)); [done|]. simpl.
    destruct (find_node_Some _ _ _ Hf) as [Hk _].
    by rewrite decide_False by congruence. }
  split; [done|]. split.
  { rewrite Hput, length_app. simpl.
    rewrite <- (length_removeNode key (nodes_ s) n Hf). lia. }
  split.
  { unfold put. rewrite bool_decide_eq_false_2 by lia. by rewrite Hf. }
  split; [by apply stored_put|]. split; [done|].
  intros key'. rewrite !contains_stored.
  destruct (decide (key' = key)) as [->|Hne].
  - rewrite stored_put by done. unfold stored. by rewrite Hf.
  - by rewrite Hother.
Qed.

End KLruCache.

(** The frame property at work: capacity 2 holding keys 1 and 2, key 1
    rewritten. *)
Lemma lru_put_present_frame_witness :
  let s := run [CallPut 1 10; CallPut 2 20] (KLruCache_new 2) in
  nodes_ (put 1 11 s) = [mkLruNode 2 20 1; mkLruNode 1 11 1]
  ∧ stored 2 (put 1 11 s) = Some 20.
Proof.
  pose (s := run [CallPut 1 10; CallPut 2 20] (@KLruCache_new Z Z 2)).
  assert (Hr : reachable s) by (by exists 2, [CallPut 1 10; CallPut 2 20]).
  destruct (lru_put_present_frame 1 11 s (mkLruNode 1 10 1) Hr eq_refl)
    as (Hn & _ & _ & _ & Ho & _).
  split; [exact Hn|]. exact (Ho 2 ltac:(done)).
Defined.

End LruFacts.

(** ** The LRU-K decorator *)

Module LruKFacts.
Import LruK.
Section KLruKCache.
Context {Key : Type} `{EqDecision Key} {Value : Type}.
Implicit Types (s : KLruKCache Key Value) (key : Key) (value : Value).
Implicit Types (c : call Key Value).

Lemma contains_false key {V} (b : Lru.KLruCache Key V) :
  Lru.contains key b = false ↔ Lru.stored key b = None.
Proof.
  unfold Lru.contains, Lru.stored.
  by destruct (Lru.find_node key (Lru.nodes_ b)).
Qed.

Lemma lruk_well_formed_new capacity historyCapacity k :
  well_formed (@KLruKCache_new Key Value capacity historyCapacity k).
Proof. split; apply LruFacts.lru_well_formed_new. Qed.

Lemma lruk_well_formed_put key value s : well_formed s → well_formed (put key value s).
Proof.
  intros [Hb Hh]. unfold put.
  destruct (Lru.contains key (base s)).
  { split; simpl; [by apply LruFacts.lru_well_formed_put|done]. }
  pose proof (LruFacts.well_formed_get_value key 0 _ Hh) as Hh1.
  destruct (Lru.get_value 0 key (historyList_ s)) as [hv h1]. simpl in Hh1.
  case_bool_decide; split; simpl;
    auto using LruFacts.lru_well_formed_put, LruFacts.well_formed_remove.
Qed.

Lemma lruk_well_formed_get key value s : well_formed s → well_formed (get key value s).2.
Proof.
  intros [Hb Hh]. unfold get.
  destruct (Lru.contains key (base s)).
  { pose proof (LruFacts.lru_well_formed_get key value _ Hb) as Hg.
    destruct (Lru.get key value (base s)) as [[hit v] b]. by split. }
  pose proof (LruFacts.well_formed_get_value key 0 _ Hh) as Hh1.
  destruct (Lru.get_value 0 key (historyList_ s)) as [hv h1]. simpl in Hh1.
  case_bool_decide.
  - pose proof (LruFacts.lru_well_formed_get key value _
      (LruFacts.lru_well_formed_put key value _ Hb)) as Hg.
    destruct (Lru.get key value (Lru.put key value (base s))) as [[hit v] b].
    split; simpl;
      auto using LruFacts.lru_well_formed_put, LruFacts.well_formed_remove.
  - pose proof (LruFacts.lru_well_formed_get key value _ Hb) as Hg.
    destruct (Lru.get key value (base s)) as [[hit v] b].
    split; simpl; auto using LruFacts.lru_well_formed_put.
Qed.

Lemma lruk_well_formed_step s c : well_formed s → well_formed (step s c).
Proof.
  destruct c; simpl; auto using lruk_well_formed_put, lruk_well_formed_get.
Qed.

Lemma lruk_well_formed_run cs s : well_formed s → well_formed (run cs s).
Proof.
  unfold run. revert s. induction cs as [|c cs IH]; simpl; [done|].
  intros s Hs. apply IH. by apply lruk_well_formed_step.
Qed.

Lemma lruk_reachable_well_formed s : reachable s → well_formed s.
Proof.
  intros (capacity & historyCapacity & k & cs & ->).
  apply lruk_well_formed_run, lruk_well_formed_new.
Qed.

Lemma get_absent key value s :
  Lru.stored key (base s) = None →
  get key value s =
  if bool_decide (k_ s ≤ read_count key s + 1) then
    ((Lru.get key value (Lru.put key value (base s))).1,
     {| base := (Lru.get key value (Lru.put key value (base s))).2;
        historyList_ := Lru.remove key (counted key s); k_ := k_ s |})
  else (false, value,
        {| base := base s; historyList_ := counted key s; k_ := k_ s |}).
Proof.
  intros Hb. unfold get, counted, read_count.
  rewrite (proj2 (contains_false key (base s)) Hb).
  rewrite <- (LruFacts.stored_get_value key 0 (historyList_ s)).
  destruct (Lru.get_value 0 key (historyList_ s)) as [hv h1]. simpl.
  case_bool_decide.
  - by destruct (Lru.get key value (Lru.put key value (base s))) as [[hit v] b].
  - rewrite (surjective_pairing (Lru.get key value (base s))).
    rewrite (surjective_pairing (Lru.get key value (base s)).1).
    pose proof (LruFacts.get_stored key value (base s)) as Hg.
    rewrite Hb in Hg. rewrite Hg. simpl. unfold Lru.get.
    unfold Lru.stored in Hb.
    by destruct (Lru.find_node key (Lru.nodes_ (base s))).
Qed.

Lemma lruk_put_absent key value s :
  Lru.stored key (base s) = None →
  put key value s =
  if bool_decide (k_ s ≤ read_count key s + 1) then
    {| base := Lru.put key value (base s);
       historyList_ := Lru.remove key (counted key s); k_ := k_ s |}
  else {| base := base s; historyList_ := counted key s; k_ := k_ s |}.
Proof.
  intros Hb. unfold put, counted, read_count.
  rewrite (proj2 (contains_false key (base s)) Hb).
  rewrite <- (LruFacts.stored_get_value key 0 (historyList_ s)).
  by destruct (Lru.get_value 0 key (historyList_ s)) as [hv h1].
Qed.

Lemma well_formed_counted key s :
  Lru.well_formed (historyList_ s) → Lru.well_formed (counted key s).
Proof.
  intros Hh. unfold counted.
  by apply LruFacts.lru_well_formed_put, LruFacts.well_formed_get_value.
Qed.

Lemma stored_counted_ne key key' s :
  Lru.well_formed (historyList_ s) → key' ≠ key →
  Lru.stored key (counted key' s) = Lru.stored key (historyList_ s)
  ∨ Lru.stored key (counted key' s) = None.
Proof.
  intros Hh Hne. unfold counted.
  rewrite <- (LruFacts.stored_get_value_ne key key' 0 (historyList_ s) Hne).
  apply LruFacts.stored_put_ne; [|done].
  by apply LruFacts.well_formed_get_value.
Qed.

Lemma stored_counted key s :
  Lru.well_formed (historyList_ s) →
  Lru.stored key (counted key s) =
  if bool_decide (Lru.capacity_ (historyList_ s) ≤ 0)
  then Lru.stored key (historyList_ s)
  else Some (to_size_t (read_count key s + 1)).
Proof.
  intros Hh. unfold counted. case_bool_decide as Hc.
  - rewrite LruFacts.put_nonpositive
      by (by rewrite LruFacts.capacity_get_value).
    by apply LruFacts.stored_get_value_eq.
  - apply LruFacts.stored_put.
    + by apply LruFacts.well_formed_get_value.
    + rewrite LruFacts.capacity_get_value. lia.
Qed.

Lemma gated_read_count key m s :
  gated key m s → 0 ≤ m < 2 ^ 31 → 0 ≤ read_count key s ≤ m.
Proof.
  intros (_ & _ & _ & Hcnt) Hm. unfold read_count.
  destruct (Lru.stored key (historyList_ s)) as [c|] eqn:Hc; simpl.
  - specialize (Hcnt c eq_refl).
    rewrite MachineIntFacts.to_int_small; lia.
  - rewrite MachineIntFacts.to_int_small; lia.
Qed.

(** A call on the key itself, while it was touched at most once before. *)
Lemma gated_step_same key m s c :
  gated key m s → 0 ≤ m ≤ 1 → call_key c = key → gated key (m + 1) (step s c).
Proof.
  intros Hg Hm Hk.
  pose proof (gated_read_count key m s Hg ltac:(lia)) as Hrc.
  destruct Hg as ([Hb Hh] & Hk3 & Hbase & Hcnt).
  assert (Hnew : ∀ n : Z, Lru.stored key (counted key s) = Some n →
                          0 ≤ n ≤ m + 1).
  { intros n. rewrite stored_counted by done. case_bool_decide.
    - intros Hn. specialize (Hcnt n Hn). lia.
    - intros [= <-]. rewrite MachineIntFacts.to_size_t_small; lia. }
  destruct c as [key0 value|key0 value]; simpl in Hk; subst key0; simpl.
  - rewrite lruk_put_absent by done.
    rewrite bool_decide_eq_false_2 by lia.
    split; [split; simpl; [done|by apply well_formed_counted]|].
    split; [done|split; [done|exact Hnew]].
  - rewrite get_absent by done.
    rewrite bool_decide_eq_false_2 by lia.
    split; [split; simpl; [done|by apply well_formed_counted]|].
    split; [done|split; [done|exact Hnew]].
Qed.

Lemma stored_absent_kept key key' {V} (v : V) (b : Lru.KLruCache Key V) :
  Lru.well_formed b → key' ≠ key → Lru.stored key b = None →
  Lru.stored key (Lru.put key' v b) = None.
Proof.
  intros Hb Hne Hs.
  destruct (LruFacts.stored_put_ne key key' v b Hb Hne) as [->| ->]; done.
Qed.

(** A call on another key: the gate of [key] does not move. *)
Lemma gated_step_other key m s c :
  gated key m s → call_key c ≠ key → gated key m (step s c).
Proof.
  intros ([Hb Hh] & Hk3 & Hbase & Hcnt) Hk.
  assert (Hother : ∀ n : Z, Lru.stored key (counted (call_key c) s) = Some n →
                            0 ≤ n ≤ m).
  { intros n Hn.
    destruct (stored_counted_ne key (call_key c) s Hh Hk) as [He|He];
      rewrite He in Hn; [by apply Hcnt|done]. }
  assert (Hremoved : ∀ n : Z,
    Lru.stored key (Lru.remove (call_key c) (counted (call_key c) s)) = Some n →
    0 ≤ n ≤ m).
  { intros n. rewrite LruFacts.stored_remove_ne by done. apply Hother. }
  split; [by apply lruk_well_formed_step|].
  destruct c as [key' value|key' value]; simpl in *.
  - destruct (Lru.stored key' (base s)) as [v|] eqn:Hin.
    + unfold put. unfold Lru.contains. unfold Lru.stored in Hin.
      destruct (Lru.find_node key' (Lru.nodes_ (base s))); [|done]. simpl.
      split; [done|]. split; [by apply stored_absent_kept|done].
    + rewrite lruk_put_absent by done. case_bool_decide; simpl.
      * split; [done|]. split; [by apply stored_absent_kept|done].
      * by split.
  - destruct (Lru.stored key' (base s)) as [v|] eqn:Hin.
    + unfold get. unfold Lru.contains. unfold Lru.stored in Hin.
      destruct (Lru.find_node key' (Lru.nodes_ (base s))) eqn:Hf; [|done].
      pose proof (LruFacts.stored_get_ne key key' value (base s) Hk) as Hg.
      destruct (Lru.get key' value (base s)) as [[hit v'] b]. simpl in *.
      split; [done|]. split; [by rewrite Hg|done].
    + rewrite get_absent by done. case_bool_decide; simpl.
      * split; [done|]. split; [|done].
        rewrite LruFacts.stored_get_ne by done.
        by apply stored_absent_kept.
      * by split.
Qed.

Lemma accesses_cons key c cs :
  accesses key (c :: cs) =
  if decide (call_key c = key) then S (accesses key cs) else accesses key cs.
Proof.
  unfold accesses. rewrite filter_cons. by destruct (decide (call_key c = key)).
Qed.

Lemma gated_run key cs : ∀ m s,
  gated key m s → 0 ≤ m → m + Z.of_nat (accesses key cs) ≤ 2 →
  gated key (m + Z.of_nat (accesses key cs)) (run cs s).
Proof.
  induction cs as [|c cs IH]; intros m s Hg Hm Hacc.
  - simpl. by rewrite Z.add_0_r.
  - rewrite accesses_cons in *. unfold run in *. simpl.
    destruct (decide (call_key c = key)) as [Hk|Hk].
    + replace (m + Z.of_nat (S (accesses key cs)))
        with ((m + 1) + Z.of_nat (accesses key cs)) in * by lia.
      apply IH; [|lia|done]. apply gated_step_same; [done|lia|done].
    + apply IH; [|done|done]. by apply gated_step_other.
Qed.

Lemma gated_new key capacity historyCapacity :
  gated key 0 (@KLruKCache_new Key Value capacity historyCapacity 3).
Proof. split; [apply lruk_well_formed_new|]. by repeat split. Qed.

(** An access that leaves the count below [k_]: only the history moves. *)
Lemma step_counted key s c :
  Lru.stored key (base s) = None → call_key c = key →
  read_count key s + 1 < k_ s →
  step s c = {| base := base s; historyList_ := counted key s; k_ := k_ s |}.
Proof.
  intros Hb Hk Hlt. destruct c as [key' value|key' value];
    simpl in Hk; subst key'; simpl.
  - rewrite lruk_put_absent by done. by rewrite bool_decide_eq_false_2 by lia.
  - rewrite get_absent by done. by rewrite bool_decide_eq_false_2 by lia.
Qed.

(** The access on which the count reaches [k_]: a [get] admits the key
    with the value its caller passed in, and reports a hit. *)
Lemma get_promotes key value s :
  well_formed s → Lru.stored key (base s) = None →
  k_ s ≤ read_count key s + 1 → 0 < Lru.capacity_ (base s) →
  (get key value s).1 = (true, value)
  ∧ Lru.stored key (base (get key value s).2) = Some value.
Proof.
  intros [Hb Hh] Hbase Hk Hc. rewrite get_absent by done.
  rewrite bool_decide_eq_true_2 by done. simpl.
  pose proof (LruFacts.lru_put_get key value value (base s) Hb Hc) as Hg.
  split; [done|].
  pose proof (LruFacts.lru_well_formed_put key value _ Hb) as Hwf.
  pose proof (LruFacts.stored_put key value _ Hb Hc) as Hst.
  revert Hwf Hst. generalize (Lru.put key value (base s)). intros b [Hnd _] Hst.
  unfold Lru.get, Lru.stored in *.
  destruct (Lru.find_node key (Lru.nodes_ b)) as [n|] eqn:Hf; [|done].
  simpl in *. unfold Lru.moveToMostRecent, Lru.insertNode.
  destruct (LruFacts.find_node_Some _ _ _ Hf) as [Hkn _].
  rewrite LruFacts.find_node_app, Hkn, LruFacts.find_node_removeNode_eq by done.
  simpl. by rewrite decide_True.
Qed.

Lemma read_count_counted key s :
  Lru.well_formed (historyList_ s) → 0 < Lru.capacity_ (historyList_ s) →
  0 ≤ read_count key s < 2 ^ 31 - 1 →
  read_count key
    {| base := base s; historyList_ := counted key s; k_ := k_ s |}
  = read_count key s + 1.
Proof.
  intros Hh Hc Hr. unfold read_count at 1. simpl.
  rewrite stored_counted by done. rewrite bool_decide_eq_false_2 by lia.
  simpl. rewrite MachineIntFacts.to_size_t_small by lia.
  rewrite MachineIntFacts.to_int_small; lia.
Qed.

Lemma capacity_counted key s :
  Lru.capacity_ (counted key s) = Lru.capacity_ (historyList_ s).
Proof.
  unfold counted.
  by rewrite LruFacts.lru_capacity_put, LruFacts.capacity_get_value.
Qed.

(** [Value get(Key)] of the LRU-K cache does not return: [mutex_] is held
    when [get(key, value)] asks for it. *)
Lemma lruk_get_value_blocks (dflt : Value) key s : get_value dflt key s = None.
Proof. done. Qed.

(** The access on which the count reaches [k_], a [put] or a [get]: the
    key goes into the main cache with the value of the call. *)
Lemma step_promotes key s c :
  well_formed s → Lru.stored key (base s) = None → call_key c = key →
  k_ s ≤ read_count key s + 1 → 0 < Lru.capacity_ (base s) →
  Lru.stored key (base (step s c)) = Some (call_value c).
Proof.
  intros Hwf Hbase Hk Hcnt Hc.
  destruct c as [key' value|key' value]; simpl in Hk; subst key'; simpl.
  - rewrite lruk_put_absent by done. rewrite bool_decide_eq_true_2 by done.
    simpl. apply LruFacts.stored_put; [apply Hwf|done].
  - by apply get_promotes.
Qed.

(** C3 (as the code has it): with [k = 3], a key the cache has no trace
    of is not in the main cache after any calls of which at most two touch
    it (the main cache's [get] misses).  With room in the main cache and
    in the history, the third of three successive accesses to the key, a
    [put] or a [get], on which the count reaches [k], moves the key into
    the main cache with the value of that call; when it is a [get] it
    reports a hit for that same call and hands back the value the caller
    passed in. *)
Theorem lruk_gating key s :
  reachable s → k_ s = 3 → unseen key s →
  (∀ cs value, (accesses key cs ≤ 2)%nat →
     (Lru.get key value (base (run cs s))).1 = (false, value))
  ∧ (0 < Lru.capacity_ (base s) → 0 < Lru.capacity_ (historyList_ s) →
     ∀ a1 a2 a3, call_key a1 = key → call_key a2 = key → call_key a3 = key →
       Lru.stored key (base (run [a1; a2; a3] s)) = Some (call_value a3)
       ∧ ∀ value, (get key value (run [a1; a2] s)).1 = (true, value)).
Proof.
  intros Hr Hk [Hbase Hhist].
  pose proof (lruk_reachable_well_formed s Hr) as Hwf.
  assert (Hg0 : gated key 0 s).
  { split; [done|]. split; [done|]. split; [done|].
    intros c. by rewrite Hhist. }
  split.
  - intros cs value Hacc.
    destruct (gated_run key cs 0 s Hg0 ltac:(lia) ltac:(lia))
      as (_ & _ & Hb & _).
    rewrite LruFacts.get_stored. by rewrite Hb.
  - intros Hcap Hhcap a1 a2 a3 Ha1 Ha2 Ha3.
    assert (Hr0 : read_count key s = 0).
    { unfold read_count. by rewrite Hhist. }
    destruct Hwf as [Hwb Hwh].
    unfold run. simpl.
    rewrite (step_counted key s a1) by (done || lia).
    set (s1 := {| base := base s; historyList_ := counted key s; k_ := k_ s |}).
    assert (Hr1 : read_count key s1 = 1).
    { unfold s1. rewrite read_count_counted by (done || lia). lia. }
    assert (Hwh1 : Lru.well_formed (historyList_ s1))
      by (by apply well_formed_counted).
    assert (Hc1 : 0 < Lru.capacity_ (historyList_ s1))
      by (simpl; by rewrite capacity_counted).
    rewrite (step_counted key s1 a2) by (done || simpl; lia).
    set (s2 := {| base := base s1; historyList_ := counted key s1;
                  k_ := k_ s1 |}).
    assert (Hr2 : read_count key s2 = 2).
    { unfold s2. rewrite read_count_counted by (done || lia). lia. }
    assert (Hwf2 : well_formed s2).
    { split; simpl; [done|by apply well_formed_counted]. }
    split.
    + apply step_promotes; simpl; [done|done|done|lia|done].
    + intros value. apply get_promotes; simpl; [done|done|lia|done].
Qed.

End KLruKCache.

(** The gate at work on a cache of capacity 2 with [k = 3]: two accesses
    leave the key out; the third, a [put] or a [get], brings it in. *)
Lemma lruk_gating_witness :
  (Lru.get 7 0 (base (run [CallGet 7 0; CallPut 8 1; CallGet 7 0]
                        (KLruKCache_new 2 2 3)))).1 = (false, 0)
  ∧ Lru.stored 7 (base (run [CallPut 7 5; CallGet 7 0; CallPut 7 6]
                          (KLruKCache_new 2 2 3))) = Some 6
  ∧ Lru.stored 7 (base (run [CallPut 7 5; CallGet 7 0; CallGet 7 99]
                          (KLruKCache_new 2 2 3))) = Some 99
  ∧ (get 7 99 (run [CallPut 7 5; CallGet 7 0] (KLruKCache_new 2 2 3))).1
    = (true, 99).
Proof.
  assert (Hr : reachable (@KLruKCache_new Z Z 2 2 3)) by (by exists 2, 2, 3, []).
  destruct (lruk_gating 7 (KLruKCache_new 2 2 3) Hr eq_refl
              (conj eq_refl eq_refl)) as [Ha Hb].
  specialize (Hb eq_refl eq_refl).
  split; [|split; [|split]].
  - apply (Ha [CallGet 7 0; CallPut 8 1; CallGet 7 0] 0). vm_compute. lia.
  - apply (Hb (CallPut 7 5) (CallGet 7 0) (CallPut 7 6) eq_refl eq_refl eq_refl).
  - apply (Hb (CallPut 7 5) (CallGet 7 0) (CallGet 7 99)
             eq_refl eq_refl eq_refl).
  - apply (Hb (CallPut 7 5) (CallGet 7 0) (CallGet 7 99)
             eq_refl eq_refl eq_refl).
Defined.

(** Against C3 as the specification words it: the third access, a [get]
    on which the count reaches [k = 3], reports a hit, not a miss. *)
Lemma lruk_third_get_hits :
  Lru.contains 7 (base (run [CallGet 7 0; CallGet 7 0] (KLruKCache_new 2 2 3)))
  = false
  ∧ (get 7 99 (run [CallGet 7 0; CallGet 7 0] (KLruKCache_new 2 2 3))).1
    = (true, 99).
Proof. split; reflexivity. Qed.

End LruKFacts.

(** ** The LFU engine *)

Module LfuFacts.
Import Lfu.
Section KLfuCache.
Context {Key : Type} `{Countable Key} {Value : Type}.
Variable sentinelKey : Key.
Implicit Types (s : KLfuCache Key Value) (key : Key) (v : Value).
Implicit Types (l : list Key) (b : gmap Z (list Key)) (f g : Z).
Implicit Types (m : gmap Key (Node Value)) (n : Node Value).

Lemma unlink_subseteq key l x : x ∈ unlink key l → x ∈ l.
Proof.
  induction l as [|y l IH]; simpl; [done|].
  destruct (decide (key ∈ l)).
  - rewrite !elem_of_cons. intros [->|Hx]; [by left|right; by apply IH].
  - destruct (decide (y = key)); [intros Hx; by right|done].
Qed.

Lemma unlink_NoDup key l : NoDup l → NoDup (unlink key l).
Proof.
  induction l as [|y l IH]; simpl; [done|].
  rewrite NoDup_cons. intros [Hy Hl].
  destruct (decide (key ∈ l)).
  - apply NoDup_cons. split; [|by apply IH].
    intros Hin. apply Hy. by apply (unlink_subseteq key).
  - destruct (decide (y = key)); [done|]. by apply NoDup_cons.
Qed.

Lemma elem_of_unlink key l x :
  NoDup l → x ∈ unlink key l ↔ x ∈ l ∧ x ≠ key.
Proof.
  induction l as [|y l IH]; simpl.
  - intros _. split; [by intros ?%elem_of_nil|by intros [?%elem_of_nil _]].
  - rewrite NoDup_cons. intros [Hy Hl].
    destruct (decide (key ∈ l)) as [Hk|Hk].
    + rewrite !elem_of_cons, (IH Hl). split.
      * intros [->|[? ?]]; split; auto. by intros ->.
      * intros [[->|?] ?]; auto.
    + destruct (decide (y = key)) as [->|Hne].
      * rewrite elem_of_cons. split.
        -- intros Hx. split; [by right|]. by intros ->.
        -- by intros [[->|?] ?].
      * split.
        -- intros Hx. split; [done|]. intros ->.
           apply elem_of_cons in Hx as [->|?]; done.
        -- by intros [? _].
Qed.

Lemma unlink_absent key l : key ∉ l → unlink key l = l.
Proof.
  induction l as [|y l IH]; simpl; [done|].
  rewrite not_elem_of_cons. intros [Hne Hl].
  rewrite decide_False by done. by rewrite decide_False by done.
Qed.

(** The buckets after a node moved from frequency [f] to [f + 1]. *)
Lemma lookup_moved key f l b b1 g :
  b !! f = Some l → removeFromFreqList key f b = Some b1 →
  addToFreqList key (f + 1) b1 !! g =
  if decide (g = f + 1) then Some (default [] (b !! (f + 1)) ++ [key])
  else if decide (g = f) then Some (unlink key l) else b !! g.
Proof.
  intros Hl. unfold removeFromFreqList, addToFreqList. rewrite Hl. simpl.
  intros [= <-]. destruct (decide (g = f + 1)) as [->|Hg1].
  - rewrite lookup_insert_eq. by rewrite lookup_insert_ne by lia.
  - rewrite lookup_insert_ne by lia. destruct (decide (g = f)) as [->|Hg].
    + by rewrite lookup_insert_eq.
    + by rewrite lookup_insert_ne by lia.
Qed.

Lemma linked_setValue key v s : linked s → linked (setValue key v s).
Proof.
  intros [Hb Hi Hp Hc]. split; simpl; [| | |done].
  - intros f l Hl. destruct (Hb f l Hl) as [Hnd Hin]. split; [done|].
    intros key0 Hk0. destruct (Hin key0 Hk0) as [v0 Hv0].
    rewrite lookup_alter. case_decide as Hk.
    + subst key0. rewrite Hv0. simpl. eauto.
    + eauto.
  - intros key0 n. rewrite lookup_alter. case_decide as Hk.
    + subst key0. destruct (nodeMap_ s !! key) as [n0|] eqn:Hn0; [|done].
      simpl. intros [= <-]. simpl. by apply (Hi key n0).
    + apply Hi.
  - destruct Hp as [Hm Hf]. split; [done|].
    intros key0 n. rewrite lookup_alter. case_decide as Hk.
    + subst key0. destruct (nodeMap_ s !! key) as [n0|] eqn:Hn0; [|done].
      simpl. intros [= <-]. simpl. by apply (Hf key n0).
    + apply Hf.
Qed.

Lemma nodeMap_setValue_empty key v s :
  nodeMap_ (setValue key v s) = ∅ ↔ nodeMap_ s = ∅.
Proof.
  simpl. split; intros He.
  - apply map_eq. intros key0. rewrite lookup_empty.
    pose proof (f_equal (λ m, m !! key0) He) as Hk. simpl in Hk.
    rewrite lookup_empty, lookup_alter in Hk. case_decide as Hd; [|done].
    subst key0. by apply fmap_None in Hk.
  - rewrite He. apply map_eq. intros key0.
    rewrite lookup_alter, lookup_empty. by case_decide.
Qed.

Lemma well_formed_setValue key v s : well_formed s → well_formed (setValue key v s).
Proof.
  intros [Hl Hm]. split; [by apply linked_setValue|].
  rewrite nodeMap_setValue_empty. exact Hm.
Qed.

Lemma lfu_well_formed_new capacity :
  - 2 ^ 31 ≤ capacity < 2 ^ 31 →
  well_formed (@KLfuCache_new Key _ _ Value capacity).
Proof.
  intros Hc. split; [|done]. split; simpl; [done|done| |done].
  split; [unfold INT8_MAX; lia|done].
Qed.

Lemma well_formed_purge s : well_formed s → well_formed (purge s).
Proof.
  intros [[Hb Hi Hp Hc] _]. split; [|done]. split; simpl; [done|done| |done].
  split; [by destruct Hp|done].
Qed.

(** A bucket that holds a key is the bucket of the key's frequency. *)
Lemma linked_bucket_freq s f l key n :
  linked s → freqToFreqList_ s !! f = Some l → key ∈ l →
  nodeMap_ s !! key = Some n → freq n = f.
Proof.
  intros Hs Hl Hk Hn. destruct (linked_bucket s Hs f l Hl) as [_ Hin].
  destruct (Hin key Hk) as [v Hv]. rewrite Hn in Hv. by injection Hv as ->.
Qed.

Lemma linked_occupied_positive s f l :
  linked s → freqToFreqList_ s !! f = Some l → l ≠ [] → 1 ≤ f.
Proof.
  intros Hs Hl Hne. destruct l as [|key l]; [done|].
  destruct (linked_bucket s Hs f _ Hl) as [_ Hin].
  destruct (Hin key ltac:(by left)) as [v Hv].
  destruct (linked_positive s Hs) as [_ Hp]. exact (Hp key _ Hv).
Qed.

(** [getInternal] on a resident key: it has a result, the node moves one
    frequency up and keeps its value, and the state stays well formed. *)
Lemma getInternal_spec key s n :
  well_formed s → nodeMap_ s !! key = Some n →
  ∃ s', getInternal key s = Some (value n, s')
        ∧ well_formed s'
        ∧ nodeMap_ s' = <[key := mkNode (freq n + 1) (value n)]> (nodeMap_ s)
        ∧ capacity_ s' = capacity_ s.
Proof.
  intros [Hs Hmin] Hn.
  destruct (linked_index s Hs key n Hn) as (l & Hl & Hkl).
  destruct (linked_bucket s Hs _ l Hl) as [Hnd Hlin].
  unfold getInternal. rewrite Hn. simpl.
  destruct (removeFromFreqList key (freq n) (freqToFreqList_ s)) as [b1|] eqn:Hb1;
    [|by unfold removeFromFreqList in Hb1; rewrite Hl in Hb1].
  simpl. eexists. split; [done|].
  pose proof (λ g, lookup_moved key (freq n) l _ b1 g Hl Hb1) as Hlook.
  replace (freq n + 1 - 1) with (freq n) by lia.
  set (b2 := addToFreqList key (freq n + 1) b1) in *.
  assert (Hfresh : ∀ l1, freqToFreqList_ s !! (freq n + 1) = Some l1 → key ∉ l1).
  { intros l1 Hl1 Hin.
    pose proof (linked_bucket_freq s _ l1 key n Hs Hl1 Hin Hn). lia. }
  split; [|done]. split.
  - (* linked *)
    split; simpl.
    + intros g l' Hg. rewrite Hlook in Hg.
      destruct (decide (g = freq n + 1)) as [->|Hg1].
      { injection Hg as <-.
        destruct (freqToFreqList_ s !! (freq n + 1)) as [l1|] eqn:Hl1; simpl.
        - destruct (linked_bucket s Hs _ l1 Hl1) as [Hnd1 Hin1]. split.
          + apply NoDup_app. split; [done|]. split; [|apply NoDup_singleton].
            intros x Hx. rewrite list_elem_of_singleton. intros ->.
            by apply (Hfresh l1).
          + intros key0. rewrite elem_of_app, list_elem_of_singleton.
            intros [Hk0| ->].
            * destruct (Hin1 key0 Hk0) as [v0 Hv0]. exists v0.
              rewrite lookup_insert_ne; [done|]. intros <-.
              by apply (Hfresh l1).
            * exists (value n). by rewrite lookup_insert_eq.
        - split; [apply NoDup_singleton|].
          intros key0. rewrite list_elem_of_singleton. intros ->.
          exists (value n). by rewrite lookup_insert_eq. }
      destruct (decide (g = freq n)) as [->|Hg0].
      { injection Hg as <-. split; [by apply unlink_NoDup|].
        intros key0. rewrite elem_of_unlink by done. intros [Hk0 Hne].
        destruct (Hlin key0 Hk0) as [v0 Hv0]. exists v0.
        by rewrite lookup_insert_ne. }
      destruct (linked_bucket s Hs g l' Hg) as [Hnd' Hin']. split; [done|].
      intros key0 Hk0. destruct (Hin' key0 Hk0) as [v0 Hv0]. exists v0.
      rewrite lookup_insert_ne; [done|]. intros Heq. subst key0.
      pose proof (linked_bucket_freq s g l' key n Hs Hg Hk0 Hn). lia.
    + intros key0 n0. destruct (decide (key0 = key)) as [->|Hne].
      * rewrite lookup_insert_eq. intros [= <-]. simpl.
        rewrite Hlook, decide_True by done. eexists. split; [done|].
        rewrite elem_of_app, list_elem_of_singleton. by right.
      * rewrite lookup_insert_ne by done. intros Hn0.
        destruct (linked_index s Hs key0 n0 Hn0) as (l0 & Hl0 & Hk0).
        rewrite Hlook. destruct (decide (freq n0 = freq n + 1)) as [He|He1].
        { rewrite He in Hl0. rewrite Hl0. simpl. eexists. split; [done|].
          rewrite elem_of_app. by left. }
        destruct (decide (freq n0 = freq n)) as [He|He0].
        { rewrite He, Hl in Hl0. injection Hl0 as <-. eexists. split; [done|].
          by rewrite elem_of_unlink. }
        eauto.
    + destruct (linked_positive s Hs) as [Hm Hf]. split.
      * destruct (_ && _); lia.
      * intros key0 n0. destruct (decide (key0 = key)) as [->|Hne].
        -- rewrite lookup_insert_eq. intros [= <-]. simpl.
           specialize (Hf key n Hn). lia.
        -- rewrite lookup_insert_ne by done. apply Hf.
    + apply (linked_capacity s Hs).
  - (* minFreq_ *)
    simpl. intros _.
    assert (Hne : nodeMap_ s ≠ ∅) by (intros He; by rewrite He in Hn).
    destruct (Hmin Hne) as [(lm & Hlm & Hlmne) Hleast].
    assert (Hge : minFreq_ s ≤ freq n).
    { apply (Hleast _ l Hl). intros ->. by apply elem_of_nil in Hkl. }
    assert (Hnew : ∃ l1, b2 !! (freq n + 1) = Some l1 ∧ l1 ≠ []).
    { rewrite Hlook, decide_True by done. eexists. split; [done|].
      by destruct (default [] _). }
    rewrite (Hlook (freq n)), decide_False, decide_True by lia.
    destruct (decide (freq n = minFreq_ s ∧ unlink key l = [])) as [[He Hu]|Hno].
    + rewrite !bool_decide_eq_true_2 by (done || by rewrite Hu). simpl.
      rewrite <- He. split; [done|].
      intros g l' Hg Hl'. rewrite Hlook in Hg.
      destruct (decide (g = freq n + 1)); [lia|].
      destruct (decide (g = freq n)) as [->|]; [congruence|].
      pose proof (Hleast g l' Hg Hl'). lia.
    + assert ((bool_decide (freq n = minFreq_ s)
               && bool_decide (Some (unlink key l) = Some [])) = false) as ->.
      { apply andb_false_iff.
        destruct (decide (freq n = minFreq_ s)) as [He|He];
          [right|left; by apply bool_decide_eq_false_2].
        apply bool_decide_eq_false_2. intros [= Hu]. by apply Hno. }
      split.
      * destruct (decide (minFreq_ s = freq n + 1)) as [He|He1];
          [by rewrite He|].
        destruct (decide (minFreq_ s = freq n)) as [He|He0].
        -- exists (unlink key l). rewrite Hlook, decide_False, decide_True by lia.
           split; [done|]. intros Hu. by apply Hno.
        -- exists lm. by rewrite Hlook, !decide_False by lia.
      * intros g l' Hg Hl'. rewrite Hlook in Hg.
        destruct (decide (g = freq n + 1)); [lia|].
        destruct (decide (g = freq n)); [lia|].
        by apply (Hleast g l').
Qed.

(** [kickOut] on a well-formed state that holds a node: the first node of
    the [minFreq_] bucket goes, [minFreq_] stays as it is. *)
Lemma kickOut_spec s :
  well_formed s → nodeMap_ s ≠ ∅ →
  ∃ key l, freqToFreqList_ s !! minFreq_ s = Some (key :: l)
    ∧ kickOut sentinelKey s =
        Some (with_index s (delete key (nodeMap_ s))
                (<[minFreq_ s := l]> (freqToFreqList_ s)))
    ∧ linked (with_index s (delete key (nodeMap_ s))
                (<[minFreq_ s := l]> (freqToFreqList_ s))).
Proof.
  intros [Hs Hmin] Hne. destruct (Hmin Hne) as [(lm & Hlm & Hlmne) _].
  destruct lm as [|key l]; [done|]. exists key, l. split; [done|].
  unfold kickOut. rewrite Hlm. simpl. split; [done|].
  destruct (linked_bucket s Hs _ _ Hlm) as [Hnd Hin].
  apply NoDup_cons in Hnd as [Hkl Hnd].
  split; simpl.
  - intros g l' Hg. destruct (decide (g = minFreq_ s)) as [->|Hgm].
    + rewrite lookup_insert_eq in Hg. injection Hg as <-. split; [done|].
      intros key0 Hk0. destruct (Hin key0 ltac:(by right)) as [v0 Hv0].
      exists v0. rewrite lookup_delete_ne; [done|]. by intros <-.
    + rewrite lookup_insert_ne in Hg by done.
      destruct (linked_bucket s Hs g l' Hg) as [Hnd' Hin']. split; [done|].
      intros key0 Hk0. destruct (Hin' key0 Hk0) as [v0 Hv0]. exists v0.
      rewrite lookup_delete_ne; [done|]. intros Heq. subst key0.
      destruct (Hin key ltac:(by left)) as [v1 Hv1].
      rewrite Hv1 in Hv0. by injection Hv0.
  - intros key0 n. destruct (decide (key0 = key)) as [->|Hk].
    + by rewrite lookup_delete_eq.
    + rewrite lookup_delete_ne by done. intros Hn.
      destruct (linked_index s Hs key0 n Hn) as (l0 & Hl0 & Hk0).
      destruct (decide (freq n = minFreq_ s)) as [He|He].
      * rewrite He in *. rewrite lookup_insert_eq. eexists. split; [done|].
        rewrite Hlm in Hl0. injection Hl0 as <-.
        apply elem_of_cons in Hk0 as [?|?]; done.
      * rewrite lookup_insert_ne by done. eauto.
  - destruct (linked_positive s Hs) as [Hm Hf]. split; [done|].
    intros key0 n. destruct (decide (key0 = key)) as [->|Hk].
    + by rewrite lookup_delete_eq.
    + rewrite lookup_delete_ne by done. apply Hf.
  - apply (linked_capacity s Hs).
Qed.

(** The new node restores [minFreq_]: it is the node of frequency 1. *)
Lemma insertNew_well_formed key v s :
  linked s → nodeMap_ s !! key = None → well_formed (insertNew key v s).
Proof.
  intros Hs Hk.
  assert (Hfresh : ∀ f l, freqToFreqList_ s !! f = Some l → key ∉ l).
  { intros f l Hl Hin. destruct (linked_bucket s Hs f l Hl) as [_ Hall].
    destruct (Hall key Hin) as [v0 Hv0]. by rewrite Hk in Hv0. }
  assert (Hlook : ∀ g, addToFreqList key 1 (freqToFreqList_ s) !! g =
    if decide (g = 1) then Some (default [] (freqToFreqList_ s !! 1) ++ [key])
    else freqToFreqList_ s !! g).
  { intros g. unfold addToFreqList. destruct (decide (g = 1)) as [->|Hg].
    - by rewrite lookup_insert_eq.
    - by rewrite lookup_insert_ne. }
  assert (Hl : linked (insertNew key v s)).
  { split; simpl.
    - intros g l. rewrite Hlook. destruct (decide (g = 1)) as [->|Hg].
      + intros [= <-].
        destruct (freqToFreqList_ s !! 1) as [l1|] eqn:Hl1; simpl.
        * destruct (linked_bucket s Hs 1 l1 Hl1) as [Hnd Hin]. split.
          -- apply NoDup_app. split; [done|]. split; [|apply NoDup_singleton].
             intros x Hx. rewrite list_elem_of_singleton. intros ->.
             by apply (Hfresh 1 l1).
          -- intros key0. rewrite elem_of_app, list_elem_of_singleton.
             intros [Hk0| ->].
             ++ destruct (Hin key0 Hk0) as [v0 Hv0]. exists v0.
                rewrite lookup_insert_ne; [done|]. intros <-.
                by apply (Hfresh 1 l1).
             ++ exists v. by rewrite lookup_insert_eq.
        * split; [apply NoDup_singleton|].
          intros key0. rewrite list_elem_of_singleton. intros ->.
          exists v. by rewrite lookup_insert_eq.
      + intros Hg'. destruct (linked_bucket s Hs g l Hg') as [Hnd Hin].
        split; [done|]. intros key0 Hk0.
        destruct (Hin key0 Hk0) as [v0 Hv0]. exists v0.
        rewrite lookup_insert_ne; [done|]. intros <-. by apply (Hfresh g l).
    - intros key0 n. destruct (decide (key0 = key)) as [->|Hne].
      + rewrite lookup_insert_eq. intros [= <-]. simpl.
        rewrite Hlook, decide_True by done. eexists. split; [done|].
        rewrite elem_of_app, list_elem_of_singleton. by right.
      + rewrite lookup_insert_ne by done. intros Hn.
        destruct (linked_index s Hs key0 n Hn) as (l0 & Hl0 & Hk0).
        rewrite Hlook. destruct (decide (freq n = 1)) as [He|He]; [|eauto].
        rewrite He in Hl0. rewrite Hl0. simpl. eexists. split; [done|].
        rewrite elem_of_app. by left.
    - destruct (linked_positive s Hs) as [Hm Hf]. split; [lia|].
      intros key0 n. destruct (decide (key0 = key)) as [->|Hne].
      + rewrite lookup_insert_eq. by intros [= <-].
      + rewrite lookup_insert_ne by done. apply Hf.
    - apply (linked_capacity s Hs). }
  split; [done|]. intros _. simpl.
  destruct (linked_positive s Hs) as [Hm _].
  rewrite Z.min_r by done. split.
  - rewrite Hlook, decide_True by done. eexists. split; [done|].
    by destruct (default [] _).
  - intros g l Hg Hne. by apply (linked_occupied_positive _ g l Hl).
Qed.

Lemma full_nonempty s :
  - 2 ^ 31 ≤ capacity_ s < 2 ^ 31 → capacity_ s ≠ 0 → full s = true →
  nodeMap_ s ≠ ∅.
Proof.
  intros Hc Hc0 Hfull He. unfold full in Hfull.
  apply bool_decide_eq_true_1 in Hfull. rewrite He, map_size_empty in Hfull.
  unfold to_size_t in Hfull. simpl in Hfull.
  destruct (decide (0 ≤ capacity_ s)).
  - rewrite Z.mod_small in Hfull by lia. lia.
  - assert (capacity_ s mod 2 ^ 64 = capacity_ s + 2 ^ 64); [|lia].
    symmetry. apply (Z.mod_unique_pos _ _ (-1)); lia.
Qed.

Lemma putInternal_spec key v s :
  well_formed s → capacity_ s ≠ 0 → nodeMap_ s !! key = None →
  ∃ s', putInternal sentinelKey key v s = Some s'
        ∧ well_formed s'
        ∧ nodeMap_ s' !! key = Some (mkNode 1 v)
        ∧ capacity_ s' = capacity_ s.
Proof.
  intros Hwf Hc Hk. unfold putInternal.
  destruct (full s) eqn:Hfull.
  - pose proof (full_nonempty s (linked_capacity s (proj1 Hwf)) Hc Hfull) as Hne.
    destruct (kickOut_spec s Hwf Hne) as (key0 & l & _ & -> & Hl).
    simpl. eexists. split; [done|]. split; [|split; [|done]].
    + apply insertNew_well_formed; [done|]. simpl.
      destruct (decide (key = key0)) as [->|Hne0].
      * by rewrite lookup_delete_eq.
      * by rewrite lookup_delete_ne.
    + simpl. by rewrite lookup_insert_eq.
  - simpl. eexists. split; [done|]. split; [|split; [|done]].
    + apply insertNew_well_formed; [by destruct Hwf|done].
    + simpl. by rewrite lookup_insert_eq.
Qed.

Lemma put_spec key v s :
  well_formed s → capacity_ s ≠ 0 →
  ∃ s' f, put sentinelKey key v s = Some s'
          ∧ well_formed s'
          ∧ nodeMap_ s' !! key = Some (mkNode f v)
          ∧ capacity_ s' = capacity_ s.
Proof.
  intros Hwf Hc. unfold put. rewrite bool_decide_eq_false_2 by done.
  destruct (nodeMap_ s !! key) as [n|] eqn:Hn.
  - assert (Hn' : nodeMap_ (setValue key v s) !! key = Some (mkNode (freq n) v)).
    { simpl. by rewrite lookup_alter_eq, Hn. }
    destruct (getInternal_spec key _ _ (well_formed_setValue key v s Hwf) Hn')
      as (s' & -> & Hwf' & Hm & Hc').
    exists s', (freq n + 1). simpl. split; [done|]. split; [done|].
    split; [|done]. rewrite Hm. by rewrite lookup_insert_eq.
  - destruct (putInternal_spec key v s Hwf Hc Hn) as (s' & -> & Hwf' & Hk & Hc').
    by exists s', 1.
Qed.

Lemma put_total key v s :
  well_formed s → ∃ s', put sentinelKey key v s = Some s' ∧ well_formed s'.
Proof.
  intros Hwf. destruct (decide (capacity_ s = 0)) as [Hc|Hc].
  - exists s. unfold put. by rewrite bool_decide_eq_true_2.
  - destruct (put_spec key v s Hwf Hc) as (s' & f & Hp & Hwf' & _). eauto.
Qed.

Lemma get_spec key v s :
  well_formed s →
  ∃ s', get key v s =
          Some (match nodeMap_ s !! key with
                | Some n => (true, value n)
                | None => (false, v)
                end, s')
        ∧ well_formed s' ∧ capacity_ s' = capacity_ s.
Proof.
  intros Hwf. unfold get. destruct (nodeMap_ s !! key) as [n|] eqn:Hn.
  - destruct (getInternal_spec key s n Hwf Hn) as (s' & -> & Hwf' & _ & Hc).
    simpl. by exists s'.
  - by exists s.
Qed.

Lemma step_total s c :
  well_formed s → ∃ s', step sentinelKey s c = Some s' ∧ well_formed s'.
Proof.
  intros Hwf. destruct c as [key v|key v|]; simpl.
  - by apply put_total.
  - destruct (get_spec key v s Hwf) as (s' & -> & Hwf' & _). simpl. eauto.
  - eexists. split; [done|]. by apply well_formed_purge.
Qed.

Lemma run_well_formed cs : ∀ s s',
  well_formed s → run sentinelKey cs s = Some s' → well_formed s'.
Proof.
  induction cs as [|c cs IH]; simpl; intros s s' Hwf.
  - by intros [= <-].
  - destruct (step_total s c Hwf) as (s1 & -> & Hwf1). simpl. by apply IH.
Qed.

Lemma lfu_reachable_well_formed s : reachable sentinelKey s → well_formed s.
Proof.
  intros (capacity & cs & Hc & Hrun).
  eapply run_well_formed; [|done]. by apply lfu_well_formed_new.
Qed.

Lemma run_snoc cs c s s1 s2 :
  run sentinelKey cs s = Some s1 → step sentinelKey s1 c = Some s2 →
  run sentinelKey (cs ++ [c]) s = Some s2.
Proof.
  revert s. induction cs as [|c0 cs IH]; simpl; intros s.
  - intros [= ->]. intros ->. done.
  - destruct (step sentinelKey s c0) as [s0|]; simpl; [|done]. apply IH.
Qed.

Lemma reachable_step s c s' :
  reachable sentinelKey s → step sentinelKey s c = Some s' →
  reachable sentinelKey s'.
Proof.
  intros (capacity & cs & Hc & Hrun) Hstep.
  exists capacity, (cs ++ [c]). split; [done|]. by eapply run_snoc.
Qed.

(** Buckets are never erased by [put] and [get]. *)
Lemma addToFreqList_keeps key f b g :
  is_Some (b !! g) → is_Some (addToFreqList key f b !! g).
Proof.
  unfold addToFreqList. destruct (decide (g = f)) as [->|Hg].
  - by rewrite lookup_insert_eq.
  - by rewrite lookup_insert_ne.
Qed.

Lemma getInternal_keeps key s r g :
  getInternal key s = Some r →
  is_Some (freqToFreqList_ s !! g) → is_Some (freqToFreqList_ r.2 !! g).
Proof.
  unfold getInternal. destruct (nodeMap_ s !! key) as [n|]; simpl; [|done].
  unfold removeFromFreqList.
  destruct (freqToFreqList_ s !! freq n) as [l|] eqn:Hl; simpl; [|done].
  intros [= <-] Hg. simpl. apply addToFreqList_keeps.
  destruct (decide (g = freq n)) as [->|Hne].
  - by rewrite lookup_insert_eq.
  - by rewrite lookup_insert_ne.
Qed.

Lemma kickOut_keeps s s' g :
  kickOut sentinelKey s = Some s' →
  is_Some (freqToFreqList_ s !! g) → is_Some (freqToFreqList_ s' !! g).
Proof.
  unfold kickOut.
  destruct (freqToFreqList_ s !! minFreq_ s) as [[|key l]|] eqn:Hl; simpl;
    [| |done].
  - destruct (freqToFreqList_ s !! 1); simpl; [|done]. by intros [= <-].
  - intros [= <-] Hg. simpl. destruct (decide (g = minFreq_ s)) as [->|Hne].
    + by rewrite lookup_insert_eq.
    + by rewrite lookup_insert_ne.
Qed.

Lemma kickOut_minFreq s s' :
  kickOut sentinelKey s = Some s' → minFreq_ s' = minFreq_ s.
Proof.
  unfold kickOut.
  destruct (freqToFreqList_ s !! minFreq_ s) as [[|key l]|]; simpl; [| |done].
  - destruct (freqToFreqList_ s !! 1); simpl; [|done]. by intros [= <-].
  - by intros [= <-].
Qed.

Lemma put_keeps key v s s' g :
  put sentinelKey key v s = Some s' →
  is_Some (freqToFreqList_ s !! g) → is_Some (freqToFreqList_ s' !! g).
Proof.
  unfold put. case_bool_decide; [by intros [= <-]|].
  destruct (nodeMap_ s !! key) as [n|].
  - destruct (getInternal key (setValue key v s)) as [r|] eqn:Hr; simpl; [|done].
    intros [= <-]. by apply (getInternal_keeps key (setValue key v s)).
  - unfold putInternal. destruct (full s).
    + destruct (kickOut sentinelKey s) as [s1|] eqn:Hk; simpl; [|done].
      intros [= <-] Hg. simpl. apply addToFreqList_keeps.
      by apply (kickOut_keeps s).
    + simpl. intros [= <-] Hg. simpl. by apply addToFreqList_keeps.
Qed.

Lemma get_keeps key v s r g :
  get key v s = Some r →
  is_Some (freqToFreqList_ s !! g) → is_Some (freqToFreqList_ r.2 !! g).
Proof.
  unfold get. destruct (nodeMap_ s !! key) as [n|].
  - destruct (getInternal key s) as [r0|] eqn:Hr; simpl; [|done].
    intros [= <-]. simpl. by apply (getInternal_keeps key s).
  - by intros [= <-].
Qed.

(** C4 (as the code has it): on the LFU engine every call returns, and in
    every reachable state that holds a node the tracked [minFreq_] is the
    least frequency whose bucket holds a node.  A bucket is never taken
    out of the frequency map by [put] or [get]: a bucket that lost its
    last node stays, empty.  [kickOut] leaves [minFreq_] as it is; the
    insertion that follows it sets [minFreq_] to the frequency of the new
    node. *)
Theorem lfu_minFreq_least_occupied s :
  reachable sentinelKey s →
  (∀ c, ∃ s', step sentinelKey s c = Some s' ∧ reachable sentinelKey s')
  ∧ (nodeMap_ s ≠ ∅ → least_occupied (minFreq_ s) (freqToFreqList_ s))
  ∧ (∀ key v s' g, put sentinelKey key v s = Some s' →
       is_Some (freqToFreqList_ s !! g) → is_Some (freqToFreqList_ s' !! g))
  ∧ (∀ key v r g, get key v s = Some r →
       is_Some (freqToFreqList_ s !! g) → is_Some (freqToFreqList_ r.2 !! g))
  ∧ (∀ s', kickOut sentinelKey s = Some s' → minFreq_ s' = minFreq_ s)
  ∧ (∀ key v, minFreq_ (insertNew key v s) = 1).
Proof.
  intros Hr. pose proof (lfu_reachable_well_formed s Hr) as Hwf.
  split.
  { intros c. destruct (step_total s c Hwf) as (s' & Hs' & _).
    exists s'. split; [done|]. by apply (reachable_step s c). }
  split; [by destruct Hwf|].
  split; [intros key v s' g; apply put_keeps|].
  split; [intros key v r g; apply get_keeps|].
  split; [apply kickOut_minFreq|].
  intros key v. simpl.
  destruct (linked_positive s (proj1 Hwf)) as [Hm _]. lia.
Qed.

End KLfuCache.

(** The tracked minimum on a cache of capacity 2 after a put and a get. *)
Lemma lfu_minFreq_least_occupied_witness :
  ∃ s, run 0 [CallPut 1 10; CallGet 1 0] (KLfuCache_new 2) = Some s
       ∧ least_occupied (minFreq_ s) (freqToFreqList_ s).
Proof.
  eexists. split; [reflexivity|].
  refine (proj1 (proj2 (lfu_minFreq_least_occupied 0 _ _)) _).
  - exists 2, [CallPut 1 10; CallGet 1 0]. split; [lia|reflexivity].
  - vm_compute. discriminate.
Defined.

(** Against C4 as the specification words it: after [put 1; get 1] the
    bucket of frequency 1 is still in the map, empty, so the smallest
    frequency present in the map (1) is not [minFreq_] (2); and an eviction
    that empties the [minFreq_] bucket leaves [minFreq_] at 1 although the
    smallest frequency left with a node is 2. *)
Lemma lfu_empty_bucket_stays :
  (∃ s, run 0 [CallPut 1 10; CallGet 1 0] (KLfuCache_new (Value:=Z) 2) = Some s
        ∧ freqToFreqList_ s !! 1 = Some []
        ∧ freqToFreqList_ s !! 2 = Some [1]
        ∧ minFreq_ s = 2)
  ∧ (∃ s s',
        run 0 [CallPut 1 10; CallGet 1 0; CallPut 2 20] (KLfuCache_new (Value:=Z) 2)
          = Some s
        ∧ kickOut 0 s = Some s'
        ∧ freqToFreqList_ s' !! 1 = Some []
        ∧ freqToFreqList_ s' !! 2 = Some [1]
        ∧ minFreq_ s' = 1).
Proof.
  split.
  - eexists. split; [reflexivity|]. by vm_compute.
  - eexists _, _. split; [reflexivity|]. split; [reflexivity|]. by vm_compute.
Qed.

End LfuFacts.

(** ** The LFU aging engine *)

Module LfuAgingFacts.
Import LfuAging.
Section KLfuAgingCache.
Context {Key : Type} `{Countable Key} {Value : Type}.
Variable sentinelKey : Key.
Implicit Types (a : KLfuAgingCache Key Value) (s : Lfu.KLfuCache Key Value).
Implicit Types (key : Key) (v : Value) (n : Lfu.Node Value).
Implicit Types (b : gmap Z (list Key)) (f g : Z).

Lemma addToFreqList_lookup key f b :
  is_Some (Lfu.addToFreqList key f b !! f).
Proof. unfold Lfu.addToFreqList. by rewrite lookup_insert_eq. Qed.

Lemma addToFreqList_dom key f b g :
  is_Some (Lfu.addToFreqList key f b !! g) → g = f ∨ is_Some (b !! g).
Proof.
  unfold Lfu.addToFreqList. destruct (decide (g = f)) as [->|Hg]; [by left|].
  rewrite lookup_insert_ne by done. by right.
Qed.

Lemma removeFromFreqList_dom key f b b1 g :
  Lfu.removeFromFreqList key f b = Some b1 → is_Some (b1 !! g) ↔ is_Some (b !! g).
Proof.
  unfold Lfu.removeFromFreqList. destruct (b !! f) as [l|] eqn:Hl; [|done].
  simpl. intros [= <-]. destruct (decide (g = f)) as [->|Hg].
  - rewrite lookup_insert_eq, Hl. split; eauto.
  - by rewrite lookup_insert_ne.
Qed.

Lemma usable_new capacity :
  - 2 ^ 31 ≤ capacity < 2 ^ 31 →
  usable (@Lfu.KLfuCache_new Key _ _ Value capacity).
Proof.
  intros Hc. split; simpl; try done.
  intros f. rewrite lookup_empty. by intros [? ?].
Qed.

Lemma usable_purge s : usable s → usable (Lfu.purge s).
Proof.
  intros [H1 H2 H3 H4 H5]. split; simpl; [done| |done|done|done].
  intros f. rewrite lookup_empty. by intros [? ?].
Qed.

Lemma usable_setValue key v s : usable s → usable (Lfu.setValue key v s).
Proof.
  intros [H1 H2 H3 H4 H5]. split; simpl; [|done|done| |done].
  - intros key0 n. rewrite lookup_alter. case_decide as Hk.
    + subst key0. destruct (Lfu.nodeMap_ s !! key) as [n0|] eqn:Hn0; [|done].
      simpl. intros [= <-]. simpl. by apply (H1 key n0).
    + apply H1.
  - intros Hne. apply H4. intros He. apply Hne.
    by apply (LfuFacts.nodeMap_setValue_empty key v s).
Qed.

(** The base [getInternal] on a resident key. *)
Lemma usable_getInternal key s n :
  usable s → Lfu.nodeMap_ s !! key = Some n →
  ∃ s', Lfu.getInternal key s = Some (Lfu.value n, s')
        ∧ usable s'
        ∧ Lfu.nodeMap_ s'
          = <[key := Lfu.mkNode (Lfu.freq n + 1) (Lfu.value n)]> (Lfu.nodeMap_ s).
Proof.
  intros [H1 H2 H3 H4 H5] Hn. destruct (H1 key n Hn) as [l Hl].
  unfold Lfu.getInternal. rewrite Hn. simpl.
  unfold Lfu.removeFromFreqList at 1. rewrite Hl. simpl.
  eexists. split; [done|]. split; [|done].
  set (b1 := <[Lfu.freq n := Lfu.unlink key l]> (Lfu.freqToFreqList_ s)).
  assert (Hdom : ∀ g, is_Some (Lfu.freqToFreqList_ s !! g) →
                      is_Some (Lfu.addToFreqList key (Lfu.freq n + 1) b1 !! g)).
  { intros g Hg. apply LfuFacts.addToFreqList_keeps. unfold b1.
    destruct (decide (g = Lfu.freq n)) as [->|Hne].
    - by rewrite lookup_insert_eq.
    - by rewrite lookup_insert_ne. }
  assert (Hn1 : 1 ≤ Lfu.freq n) by (apply H2; eauto).
  split; simpl.
  - intros key0 n0. destruct (decide (key0 = key)) as [->|Hne].
    + rewrite lookup_insert_eq. intros [= <-]. simpl.
      apply addToFreqList_lookup.
    + rewrite lookup_insert_ne by done. intros Hn0. apply Hdom.
      by apply (H1 key0 n0).
  - intros g Hg. apply addToFreqList_dom in Hg as [->|Hg]; [lia|].
    apply H2. unfold b1 in Hg. destruct (decide (g = Lfu.freq n)) as [->|Hne].
    + eauto.
    + by rewrite lookup_insert_ne in Hg.
  - destruct (_ && _); lia.
  - intros _. assert (Hne : Lfu.nodeMap_ s ≠ ∅) by (intros He; by rewrite He in Hn).
    destruct (H4 Hne) as [Hm Hone]. split; [|by apply Hdom].
    destruct (bool_decide (Lfu.freq n + 1 - 1 = Lfu.minFreq_ s)) eqn:He; simpl.
    + apply bool_decide_eq_true_1 in He.
      destruct (bool_decide _); [|by apply Hdom].
      replace (Lfu.minFreq_ s + 1) with (Lfu.freq n + 1) by lia.
      apply addToFreqList_lookup.
    + by apply Hdom.
  - done.
Qed.

(** The base [kickOut] on a cache that holds a node. *)
Lemma usable_kickOut s :
  usable s → Lfu.nodeMap_ s ≠ ∅ →
  ∃ s', Lfu.kickOut sentinelKey s = Some s'
        ∧ is_Some (Lfu.firstNode sentinelKey s)
        ∧ usable s'
        ∧ (∀ key, Lfu.nodeMap_ s !! key = None → Lfu.nodeMap_ s' !! key = None).
Proof.
  intros [H1 H2 H3 H4 H5] Hne. destruct (H4 Hne) as [[l Hl] [l1 Hl1]].
  unfold Lfu.kickOut, Lfu.firstNode. rewrite Hl. simpl.
  destruct l as [|key0 l'].
  - rewrite Hl1. simpl. eexists. split; [done|]. split; [done|].
    split; [|by intros key Hk; simpl; apply lookup_delete_None; right].
    split; simpl; [|done|done| |done].
    + intros key n. destruct (decide (key = sentinelKey)) as [->|Hk].
      * by rewrite lookup_delete_eq.
      * rewrite lookup_delete_ne by done. apply H1.
    + intros _. by apply H4.
  - eexists. split; [done|]. split; [done|].
    split; [|by intros key Hk; simpl; apply lookup_delete_None; right].
    assert (Hdom : ∀ g, is_Some (Lfu.freqToFreqList_ s !! g) ↔
              is_Some (<[Lfu.minFreq_ s := l']> (Lfu.freqToFreqList_ s) !! g)).
    { intros g. destruct (decide (g = Lfu.minFreq_ s)) as [->|Hg].
      - rewrite lookup_insert_eq, Hl. split; eauto.
      - by rewrite lookup_insert_ne. }
    split; simpl; [| |done| |done].
    + intros key n. destruct (decide (key = key0)) as [->|Hk].
      * by rewrite lookup_delete_eq.
      * rewrite lookup_delete_ne by done. intros Hn. apply Hdom.
        by apply (H1 key n).
    + intros g Hg. apply H2. by apply Hdom.
    + intros _. split; apply Hdom; eauto.
Qed.

Lemma usable_insertNew key v s : usable s → usable (Lfu.insertNew key v s).
Proof.
  intros [H1 H2 H3 H4 H5]. split; simpl; [| | | |done].
  - intros key0 n. destruct (decide (key0 = key)) as [->|Hne].
    + rewrite lookup_insert_eq. intros [= <-]. apply addToFreqList_lookup.
    + rewrite lookup_insert_ne by done. intros Hn.
      apply LfuFacts.addToFreqList_keeps. by apply (H1 key0 n).
  - intros g Hg. apply addToFreqList_dom in Hg as [->|Hg]; [lia|]. by apply H2.
  - lia.
  - intros _. rewrite Z.min_r by lia. split; apply addToFreqList_lookup.
Qed.

Lemma aged_positive m f : 1 ≤ aged m f.
Proof. unfold aged. case_bool_decide; lia. Qed.

(** The relocation loop: it has a result, every node keeps its value, and
    the state stays usable but for [minFreq_], which the scan sets next. *)
Lemma relocate_spec m (nodes : list (Key * Lfu.Node Value)) : ∀ s,
  NoDup nodes.*1 →
  (∀ key n, (key, n) ∈ nodes → Lfu.nodeMap_ s !! key = Some n) →
  (∀ key n, Lfu.nodeMap_ s !! key = Some n →
            is_Some (Lfu.freqToFreqList_ s !! Lfu.freq n)) →
  (∀ f, is_Some (Lfu.freqToFreqList_ s !! f) → 1 ≤ f) →
  ∃ s', relocate m nodes s = Some s'
        ∧ (∀ key n, Lfu.nodeMap_ s' !! key = Some n →
                    is_Some (Lfu.freqToFreqList_ s' !! Lfu.freq n))
        ∧ (∀ f, is_Some (Lfu.freqToFreqList_ s' !! f) → 1 ≤ f)
        ∧ (∀ f, is_Some (Lfu.freqToFreqList_ s !! f) →
                is_Some (Lfu.freqToFreqList_ s' !! f))
        ∧ (∀ key, Lfu.value <$> Lfu.nodeMap_ s' !! key
                  = Lfu.value <$> Lfu.nodeMap_ s !! key)
        ∧ Lfu.capacity_ s' = Lfu.capacity_ s.
Proof.
  induction nodes as [|[key n] rest IH]; intros s Hnd Hin H1 H2.
  - exists s. split; [done|]. split; [done|]. split; [done|]. by split.
  - simpl in *. apply NoDup_cons in Hnd as [Hkey Hnd].
    assert (Hn : Lfu.nodeMap_ s !! key = Some n) by (apply Hin; by left).
    destruct (H1 key n Hn) as [l Hl].
    unfold Lfu.removeFromFreqList. rewrite Hl. simpl.
    set (b1 := <[Lfu.freq n := Lfu.unlink key l]> (Lfu.freqToFreqList_ s)).
    set (s1 := Lfu.with_index s _ _).
    assert (Hdom : ∀ g, is_Some (Lfu.freqToFreqList_ s !! g) →
                        is_Some (Lfu.freqToFreqList_ s1 !! g)).
    { intros g Hg. simpl. apply LfuFacts.addToFreqList_keeps. unfold b1.
      destruct (decide (g = Lfu.freq n)) as [->|Hne].
      - by rewrite lookup_insert_eq.
      - by rewrite lookup_insert_ne. }
    destruct (IH s1) as (s' & Hrel & H1' & H2' & H3' & H4' & H5'); [done| | | |].
    + intros key0 n0 Hin0. simpl. rewrite lookup_insert_ne.
      * apply Hin. by right.
      * intros <-. apply Hkey. apply list_elem_of_fmap. by exists (key, n0).
    + intros key0 n0. simpl. destruct (decide (key0 = key)) as [->|Hne].
      * rewrite lookup_insert_eq. intros [= <-]. simpl.
        apply addToFreqList_lookup.
      * rewrite lookup_insert_ne by done. intros Hn0. apply Hdom.
        by apply (H1 key0 n0).
    + intros g Hg. simpl in Hg.
      apply addToFreqList_dom in Hg as [->|Hg]; [apply aged_positive|].
      apply H2. unfold b1 in Hg. destruct (decide (g = Lfu.freq n)) as [->|Hne].
      * eauto.
      * by rewrite lookup_insert_ne in Hg.
    + exists s'. split; [done|]. split; [done|]. split; [done|].
      split; [by intros f Hf; apply H3', Hdom|]. split; [|done].
      intros key0. rewrite H4'. simpl.
      destruct (decide (key0 = key)) as [->|Hne].
      * by rewrite lookup_insert_eq, Hn.
      * by rewrite lookup_insert_ne.
Qed.

(** The scan ends on [INT8_MAX] or on the frequency of a bucket. *)
Lemma scanMinFreq_spec b :
  scanMinFreq b = INT8_MAX ∨ is_Some (b !! scanMinFreq b).
Proof.
  unfold scanMinFreq.
  apply (map_fold_weak_ind (λ r (b : gmap Z (list Key)),
           r = INT8_MAX ∨ is_Some (b !! r))); [by left|].
  intros f l b' r Hf [->|Hr].
  - destruct l as [|key l]; [by left|].
    destruct (Z.min_spec INT8_MAX f) as [[_ ->]|[_ ->]]; [by left|].
    right. by rewrite lookup_insert_eq.
  - destruct l as [|key l].
    + right. destruct (decide (r = f)) as [->|Hne];
        [by rewrite lookup_insert_eq|by rewrite lookup_insert_ne].
    + right. destruct (Z.min_spec r f) as [[_ ->]|[_ ->]].
      * destruct (decide (r = f)) as [->|Hne];
          [by rewrite lookup_insert_eq|by rewrite lookup_insert_ne].
      * by rewrite lookup_insert_eq.
Qed.

Lemma usable_updateMinFreq s :
  (∀ key n, Lfu.nodeMap_ s !! key = Some n →
            is_Some (Lfu.freqToFreqList_ s !! Lfu.freq n)) →
  (∀ f, is_Some (Lfu.freqToFreqList_ s !! f) → 1 ≤ f) →
  (Lfu.nodeMap_ s ≠ ∅ → is_Some (Lfu.freqToFreqList_ s !! 1)) →
  - 2 ^ 31 ≤ Lfu.capacity_ s < 2 ^ 31 →
  usable (updateMinFreq s).
Proof.
  intros H1 H2 H3 H5. unfold updateMinFreq.
  destruct (scanMinFreq_spec (Lfu.freqToFreqList_ s)) as [Hs|Hs].
  - rewrite bool_decide_eq_true_2 by done.
    split; simpl; [done|done|lia| |done]. intros Hne. split; by apply H3.
  - case_bool_decide as Hm.
    + split; simpl; [done|done|lia| |done]. intros Hne. split; by apply H3.
    + split; simpl; [done|done|by apply H2| |done].
      intros Hne. split; [done|by apply H3].
Qed.

Lemma handleOverMaxAverageNum_spec order a :
  iterates order → usable (lfu a) →
  ∃ a', handleOverMaxAverageNum order a = Some a'
        ∧ usable (lfu a')
        ∧ (∀ key, Lfu.value <$> Lfu.nodeMap_ (lfu a') !! key
                  = Lfu.value <$> Lfu.nodeMap_ (lfu a) !! key).
Proof.
  intros Ho Hu. unfold handleOverMaxAverageNum.
  destruct (decide (size (Lfu.nodeMap_ (lfu a)) = 0%nat)) as [Hz|Hz].
  { exists a. split; [done|]. by split. }
  destruct Hu as [H1 H2 H3 H4 H5].
  destruct (relocate_spec (maxAverageNum_ a) (order (Lfu.nodeMap_ (lfu a)))
              (lfu a)) as (s' & -> & H1' & H2' & H3' & H4' & H5').
  - rewrite (Ho (Lfu.nodeMap_ (lfu a))). apply NoDup_fst_map_to_list.
  - intros key n. rewrite (Ho (Lfu.nodeMap_ (lfu a))).
    apply elem_of_map_to_list.
  - done.
  - done.
  - simpl. eexists. split; [done|]. split; [|done]. simpl.
    apply usable_updateMinFreq; [done|done| |by rewrite H5'].
    intros _. apply H3'. apply H4. by apply map_size_non_empty_iff.
Qed.

Lemma addFreqNum_spec order a :
  iterates order → usable (lfu a) →
  ∃ a', addFreqNum order a = Some a'
        ∧ usable (lfu a')
        ∧ (∀ key, Lfu.value <$> Lfu.nodeMap_ (lfu a') !! key
                  = Lfu.value <$> Lfu.nodeMap_ (lfu a) !! key).
Proof.
  intros Ho Hu. unfold addFreqNum. simpl. case_bool_decide.
  - by apply (handleOverMaxAverageNum_spec order
                {| lfu := lfu a; maxAverageNum_ := maxAverageNum_ a;
                   curTotalNum_ := curTotalNum_ a + 1;
                   curAverageNum_ := _ |}).
  - eexists. split; [done|]. by split.
Qed.

(** [put] on the aging engine: it has a result, which holds the key with
    the value. *)
Lemma aging_put_spec order key v a :
  iterates order → usable (lfu a) → Lfu.capacity_ (lfu a) ≠ 0 →
  ∃ a', put sentinelKey order key v a = Some a'
        ∧ usable (lfu a')
        ∧ Lfu.value <$> Lfu.nodeMap_ (lfu a') !! key = Some v.
Proof.
  intros Ho Hu Hc. unfold put. rewrite bool_decide_eq_false_2 by done.
  destruct (Lfu.nodeMap_ (lfu a) !! key) as [n|] eqn:Hn.
  - unfold getInternal. simpl.
    assert (Hn' : Lfu.nodeMap_ (Lfu.setValue key v (lfu a)) !! key
                  = Some (Lfu.mkNode (Lfu.freq n) v)).
    { simpl. by rewrite lookup_alter_eq, Hn. }
    destruct (usable_getInternal key _ _ (usable_setValue key v _ Hu) Hn')
      as (s' & -> & Hu' & Hm). simpl.
    match goal with
    | |- context [addFreqNum order ?x] =>
        destruct (addFreqNum_spec order x Ho Hu') as (a' & -> & Hu'' & Hv)
    end.
    simpl. exists a'. split; [done|]. split; [done|].
    rewrite Hv. simpl. by rewrite Hm, lookup_insert_eq.
  - unfold putInternal.
    assert (∃ a1, (if Lfu.full (lfu a) then kickOut sentinelKey a else Some a)
                  = Some a1 ∧ usable (lfu a1)) as (a1 & -> & Hu1).
    { destruct (Lfu.full (lfu a)) eqn:Hfull; [|by exists a].
      pose proof (LfuFacts.full_nonempty (lfu a) (usable_capacity _ Hu) Hc Hfull)
        as Hne.
      destruct (usable_kickOut (lfu a) Hu Hne) as (s' & Hk & [fn Hfn] & Hu' & _).
      unfold kickOut. rewrite Hfn, Hk. simpl. eexists. by split. }
    simpl.
    destruct (addFreqNum_spec order
                (with_lfu a1 (Lfu.insertNew key v (lfu a1))) Ho
                (usable_insertNew key v _ Hu1)) as (a' & -> & Hu' & Hv).
    exists a'. split; [done|]. split; [done|].
    rewrite Hv. simpl. by rewrite lookup_insert_eq.
Qed.

(** [get] on the aging engine: it has a result, a hit with the stored
    value for a resident key. *)
Lemma aging_get_spec order key v a :
  iterates order → usable (lfu a) →
  ∃ a', get order key v a =
          Some (match Lfu.nodeMap_ (lfu a) !! key with
                | Some n => (true, Lfu.value n)
                | None => (false, v)
                end, a')
        ∧ usable (lfu a').
Proof.
  intros Ho Hu. unfold get.
  destruct (Lfu.nodeMap_ (lfu a) !! key) as [n|] eqn:Hn.
  - unfold getInternal.
    destruct (usable_getInternal key _ _ Hu Hn) as (s' & -> & Hu' & Hm). simpl.
    match goal with
    | |- context [addFreqNum order ?x] =>
        destruct (addFreqNum_spec order x Ho Hu') as (a' & -> & Hu'' & Hv)
    end.
    simpl. by exists a'.
  - by exists a.
Qed.

Lemma aging_put_total order key v a :
  iterates order → usable (lfu a) →
  ∃ a', put sentinelKey order key v a = Some a' ∧ usable (lfu a').
Proof.
  intros Ho Hu. destruct (decide (Lfu.capacity_ (lfu a) = 0)) as [Hc|Hc].
  - exists a. unfold put. by rewrite bool_decide_eq_true_2.
  - destruct (aging_put_spec order key v a Ho Hu Hc) as (a' & Hp & Hu' & _).
    eauto.
Qed.

Lemma aging_step_total order a c :
  iterates order → usable (lfu a) →
  ∃ a', step sentinelKey order a c = Some a' ∧ usable (lfu a').
Proof.
  intros Ho Hu. destruct c as [key v|key v|]; simpl.
  - by apply aging_put_total.
  - destruct (aging_get_spec order key v a Ho Hu) as (a' & -> & Hu').
    simpl. eauto.
  - eexists. split; [done|]. by apply usable_purge.
Qed.

Lemma aging_run_usable cs : ∀ a a',
  Forall (λ oc, iterates oc.1) cs →
  usable (lfu a) → run sentinelKey cs a = Some a' → usable (lfu a').
Proof.
  induction cs as [|[order c] cs IH]; simpl; intros a a' Ho Hu.
  - by intros [= <-].
  - apply Forall_cons in Ho as [Ho Hos]. simpl in Ho.
    destruct (aging_step_total order a c Ho Hu) as (a1 & -> & Hu1). simpl.
    by apply IH.
Qed.

Lemma aging_reachable_usable a : reachable sentinelKey a → usable (lfu a).
Proof.
  intros (capacity & maxAverageNum & cs & Hc & Ho & Hrun).
  eapply aging_run_usable; [done| |done]. by apply usable_new.
Qed.

(** Put then get on the aging engine. *)
Lemma aging_put_get order order' key v v0 a :
  iterates order → iterates order' →
  usable (lfu a) → Lfu.capacity_ (lfu a) ≠ 0 →
  ∃ a' a'', put sentinelKey order key v a = Some a'
            ∧ get order' key v0 a' = Some (true, v, a'').
Proof.
  intros Ho Ho' Hu Hc.
  destruct (aging_put_spec order key v a Ho Hu Hc) as (a' & Hp & Hu' & Hv).
  destruct (aging_get_spec order' key v0 a' Ho' Hu') as (a'' & Hg & _).
  exists a', a''. split; [done|]. rewrite Hg.
  destruct (Lfu.nodeMap_ (lfu a') !! key) as [n|]; [|done].
  simpl in Hv. by injection Hv as ->.
Qed.

Lemma iterates_map_to_list : iterates (Key:=Key) (Value:=Value) map_to_list.
Proof. by intros m. Qed.

Lemma iterates_backwards : iterates (Key:=Key) (Value:=Value) backwards.
Proof. intros m. apply reverse_Permutation. Qed.

(** A map that holds one entry at most is walked in one way only. *)
Lemma iterates_single order (m : gmap Key (Lfu.Node Value)) :
  iterates order → (size m ≤ 1)%nat → order m = map_to_list m.
Proof.
  intros Ho Hm. specialize (Ho m). rewrite <- length_map_to_list in Hm.
  destruct (map_to_list m) as [|x [|y l]]; simpl in Hm.
  - by apply Permutation_nil_r in Ho.
  - by apply Permutation_singleton_r in Ho.
  - lia.
Qed.

Lemma get_single order key v a :
  iterates order →
  (∀ r, Lfu.getInternal key (lfu a) = Some r →
        (size (Lfu.nodeMap_ r.2) ≤ 1)%nat) →
  get order key v a = get map_to_list key v a.
Proof.
  intros Ho Hs. unfold get.
  destruct (Lfu.nodeMap_ (lfu a) !! key); [|done].
  unfold getInternal.
  destruct (Lfu.getInternal key (lfu a)) as [r|] eqn:Hr; [|done].
  simpl. unfold addFreqNum. simpl. case_bool_decide; [|done].
  unfold handleOverMaxAverageNum. simpl.
  by rewrite (iterates_single order) by eauto.
Qed.

Lemma run_app (cs1 cs2 : list (Iteration Key Value * call Key Value)) a :
  run sentinelKey (cs1 ++ cs2) a
  = a' ← run sentinelKey cs1 a; run sentinelKey cs2 a'.
Proof.
  revert a. induction cs1 as [|oc cs1 IH]; intros a; simpl; [done|].
  destruct (step sentinelKey oc.1 a oc.2) as [a1|]; simpl; [apply IH|done].
Qed.

End KLfuAgingCache.

(** Ceiling 252, one key put once and read 252 times, with the map walked
    in the order of [map_to_list]: the state after the last read. *)
Lemma aging_one_key_run :
  ∃ a, run 0 (pair map_to_list <$> CallPut 1 10 :: replicate 252 (CallGet 1 0))
         (KLfuAgingCache_new 1 252) = Some a
       ∧ curAverageNum_ a = 253
       ∧ Lfu.nodeMap_ (lfu a) !! 1 = Some (Lfu.mkNode 127 10)
       ∧ Lfu.freqToFreqList_ (lfu a) !! 127 = Some [1]
       ∧ Lfu.freqToFreqList_ (lfu a) !! 1 = Some []
       ∧ Lfu.minFreq_ (lfu a) = 1.
Proof. eexists. split; [by vm_compute|]. by vm_compute. Qed.

(** The cache of that run holds one key, and the order in which the map
    is walked plays no part in it. *)
Lemma aging_one_key_order (order : Iteration Z Z) :
  iterates order →
  run 0 (pair order <$> CallPut 1 10 :: replicate 252 (CallGet 1 0))
    (KLfuAgingCache_new 1 252)
  = run 0 (pair map_to_list <$> CallPut 1 10 :: replicate 252 (CallGet 1 0))
      (KLfuAgingCache_new 1 252).
Proof.
  intros Ho.
  pose (pre (o : Iteration Z Z) :=
          pair o <$> CallPut 1 10 :: replicate 251 (CallGet 1 0)).
  assert (Hsplit : ∀ o : Iteration Z Z,
            pair o <$> CallPut 1 10 :: replicate 252 (CallGet 1 0)
            = pre o ++ [(o, CallGet 1 0)]).
  { intros o. unfold pre.
    change [(o, CallGet (Key:=Z) (Value:=Z) 1 0)]
      with (pair o <$> [CallGet 1 0]).
    rewrite <- fmap_app. f_equal. }
  rewrite !Hsplit, !run_app.
  assert (Hpre : run 0 (pre order) (KLfuAgingCache_new 1 252)
                 = run 0 (pre map_to_list) (KLfuAgingCache_new 1 252))
    by (vm_compute; reflexivity).
  assert (∃ a1,
    run 0 (pre map_to_list) (KLfuAgingCache_new 1 252) = Some a1
    ∧ ∀ r, Lfu.getInternal 1 (lfu a1) = Some r →
           (size (Lfu.nodeMap_ r.2) ≤ 1)%nat) as (a1 & Ha1 & Hs).
  { eexists. split; [vm_compute; reflexivity|].
    intros r Hr. vm_compute in Hr. injection Hr as <-. vm_compute. lia. }
  rewrite Hpre, Ha1.
  cbn [mbind option_bind fmap list_fmap run fst snd step].
  by rewrite (get_single order).
Qed.

(** C5, where the code leaves it: ceiling 252, one key put once and read
    252 times.  The last read brings the average to 253, every frequency
    is lowered by 126, and the only node lands in the bucket of frequency
    127.  The scan for the new [minFreq_] starts from [INT8_MAX = 127] and
    reads a result of 127 as an empty cache: [minFreq_] is set to 1, the
    frequency of a bucket that holds no node.  This is so whatever the
    order in which the map is walked. *)
Lemma lfu_aging_minFreq_int8 (order : Iteration Z Z) :
  iterates order →
  ∃ a, run 0 (pair order <$> CallPut 1 10 :: replicate 252 (CallGet 1 0))
         (KLfuAgingCache_new 1 252) = Some a
       ∧ curAverageNum_ a = 253
       ∧ Lfu.nodeMap_ (lfu a) !! 1 = Some (Lfu.mkNode 127 10)
       ∧ Lfu.freqToFreqList_ (lfu a) !! 127 = Some [1]
       ∧ Lfu.freqToFreqList_ (lfu a) !! 1 = Some []
       ∧ Lfu.minFreq_ (lfu a) = 1.
Proof.
  intros Ho. rewrite (aging_one_key_order order Ho). exact aging_one_key_run.
Qed.

(** The same run with the map walked in the order of [map_to_list]. *)
Lemma lfu_aging_minFreq_int8_witness :
  ∃ a, run 0 (pair map_to_list <$> CallPut 1 10 :: replicate 252 (CallGet 1 0))
         (KLfuAgingCache_new 1 252) = Some a
       ∧ Lfu.freqToFreqList_ (lfu a) !! 127 = Some [1]
       ∧ Lfu.minFreq_ (lfu a) = 1.
Proof.
  destruct (lfu_aging_minFreq_int8 map_to_list)
    as (a & Ha & _ & _ & H127 & _ & Hm).
  - intros m. reflexivity.
  - exists a. split; [exact Ha|]. split; [exact H127|exact Hm].
Defined.

End LfuAgingFacts.

(** ** The LFU part of ARC *)

Module ArcLfuFacts.
Import ArcNode ArcLfu.
Section ArcLfuPart.
Context {Key : Type} `{Countable Key} {Value : Type}.
Implicit Types (s : ArcLfuPart Key Value) (key : Key) (value : Value).
Implicit Types (n : ArcNode Key Value) (l : list (ArcNode Key Value)).
Implicit Types (fm : gmap Z (list (ArcNode Key Value))) (f g : Z).

Lemma elem_of_without key l n : n ∈ without key l ↔ n ∈ l ∧ key_ n ≠ key.
Proof. unfold without. rewrite list_elem_of_filter. tauto. Qed.

Lemma NoDup_keys_without key l :
  NoDup (key_ <$> l) → NoDup (key_ <$> without key l).
Proof.
  unfold without. induction l as [|m l IH]; simpl; [done|].
  rewrite NoDup_cons. intros [Hm Hl]. rewrite filter_cons.
  destruct (decide (key_ m ≠ key)); [|by apply IH].
  simpl. apply NoDup_cons. split; [|by apply IH].
  rewrite list_elem_of_fmap. intros (m' & Hk & Hin).
  apply list_elem_of_filter in Hin as [_ Hin]. apply Hm.
  rewrite list_elem_of_fmap. eauto.
Qed.

Lemma NoDup_keys_inj l n1 n2 :
  NoDup (key_ <$> l) → n1 ∈ l → n2 ∈ l → key_ n1 = key_ n2 → n1 = n2.
Proof.
  induction l as [|m l IH]; simpl; [by intros _ ?%elem_of_nil|].
  rewrite NoDup_cons, !elem_of_cons. intros [Hm Hl] [->|H1] [->|H2] Hk; auto.
  - exfalso. apply Hm. rewrite Hk. by apply list_elem_of_fmap_2.
  - exfalso. apply Hm. rewrite <- Hk. by apply list_elem_of_fmap_2.
Qed.

Lemma incrementAccessCount_changes n :
  accessCount_ (incrementAccessCount n) ≠ accessCount_ n.
Proof.
  simpl. pose proof (MachineIntFacts.to_size_t_range (accessCount_ n + 1)) as Hr.
  destruct (decide (0 ≤ accessCount_ n < 2 ^ 64 - 1)) as [Hc|Hc].
  - rewrite MachineIntFacts.to_size_t_small by lia. lia.
  - destruct (decide (accessCount_ n = 2 ^ 64 - 1)) as [->|Hne].
    + by vm_compute.
    + lia.
Qed.

Lemma first_key_elem fm f : first_key fm = Some f → is_Some (fm !! f).
Proof.
  unfold first_key.
  destruct ((map_to_list fm).*1) as [|g gs] eqn:Hl; [done|].
  intros [= <-].
  assert (Hin : foldr Z.min g gs ∈ (map_to_list fm).*1).
  { rewrite Hl. clear Hl. induction gs as [|h gs IH]; simpl; [by left|].
    destruct (Z.min_spec h (foldr Z.min g gs)) as [[_ ->]|[_ ->]].
    - right. by left.
    - apply elem_of_cons in IH as [->|IH]; [by left|]. right. by right. }
  apply list_elem_of_fmap in Hin as ([g' l] & -> & Hin). simpl.
  apply elem_of_map_to_list in Hin. eauto.
Qed.

(** The lists after [updateExistingNode]. *)
Lemma lookup_updateExistingNode n value s g :
  freqMap_ (updateExistingNode n value s) !! g =
  if decide (g = to_size_t (accessCount_ n + 1))
  then Some (default [] (freqMap_ s !! g)
             ++ [incrementAccessCount (setValue n value)])
  else if decide (g = accessCount_ n)
  then match without (key_ n) (default [] (freqMap_ s !! g)) with
       | [] => None
       | m :: l => Some (m :: l)
       end
  else freqMap_ s !! g.
Proof.
  pose proof (incrementAccessCount_changes n) as Hne. simpl in Hne.
  unfold updateExistingNode, updateNodeFrequency. simpl.
  set (f := accessCount_ n) in *. set (f' := to_size_t (f + 1)) in *.
  destruct (decide (g = f')) as [->|Hg'].
  - rewrite lookup_insert_eq.
    destruct (without (key_ n) (default [] (freqMap_ s !! f))).
    + by rewrite lookup_delete_ne by done.
    + by rewrite lookup_insert_ne by done.
  - rewrite lookup_insert_ne by done.
    destruct (decide (g = f)) as [->|Hg].
    + destruct (without (key_ n) (default [] (freqMap_ s !! f))).
      * by rewrite lookup_delete_eq.
      * by rewrite lookup_insert_eq.
    + destruct (without (key_ n) (default [] (freqMap_ s !! f))).
      * by rewrite lookup_delete_ne by done.
      * by rewrite lookup_insert_ne by done.
Qed.

Lemma mainCache_updateExistingNode n value s :
  mainCache_ (updateExistingNode n value s) =
  <[key_ n := incrementAccessCount (setValue n value)]> (mainCache_ s).
Proof.
  unfold updateExistingNode, updateNodeFrequency. simpl.
  by rewrite insert_insert_eq.
Qed.

Lemma linked_updateExistingNode n value s :
  linked s → mainCache_ s !! key_ n = Some n →
  linked (updateExistingNode n value s).
Proof.
  intros Hs Hn.
  pose proof (incrementAccessCount_changes n) as Hne. simpl in Hne.
  destruct (linked_index s Hs _ n Hn) as (_ & l & Hl & Hnl).
  destruct (linked_list s Hs _ l Hl) as (_ & Hnd & Hlin).
  set (n' := incrementAccessCount (setValue n value)).
  assert (Hfresh : ∀ l1 m, freqMap_ s !! to_size_t (accessCount_ n + 1) = Some l1
                           → m ∈ l1 → key_ m ≠ key_ n).
  { intros l1 m Hl1 Hm Hk.
    destruct (linked_list s Hs _ l1 Hl1) as (_ & _ & Hin1).
    destruct (Hin1 m Hm) as [Hmm Hmc]. rewrite Hk, Hn in Hmm.
    injection Hmm as <-. done. }
  split.
  - intros g lg. rewrite lookup_updateExistingNode, mainCache_updateExistingNode.
    destruct (decide (g = to_size_t (accessCount_ n + 1))) as [->|Hg'].
    { intros [= <-]. split; [by destruct (default [] _)|].
      destruct (freqMap_ s !! to_size_t (accessCount_ n + 1)) as [l1|] eqn:Hl1;
        simpl.
      - destruct (linked_list s Hs _ l1 Hl1) as (_ & Hnd1 & Hin1). split.
        + rewrite fmap_app. apply NoDup_app. split; [done|].
          split; [|apply NoDup_singleton].
          intros k Hk. simpl. rewrite list_elem_of_singleton. intros ->.
          apply list_elem_of_fmap in Hk as (m & Hkm & Hm).
          by apply (Hfresh l1 m).
        + intros m. rewrite elem_of_app, list_elem_of_singleton.
          intros [Hm| ->].
          * destruct (Hin1 m Hm) as [Hmm Hmc]. split; [|done].
            rewrite lookup_insert_ne; [done|]. intros Hk.
            by apply (Hfresh l1 m).
          * split; [by rewrite lookup_insert_eq|done].
      - split; [apply NoDup_singleton|].
        intros m. rewrite list_elem_of_singleton. intros ->.
        split; [by rewrite lookup_insert_eq|done]. }
    destruct (decide (g = accessCount_ n)) as [->|Hg].
    { rewrite Hl. simpl.
      destruct (without (key_ n) l) as [|m0 l0] eqn:Hw; [done|].
      intros [= <-]. split; [done|]. rewrite <- Hw. split.
      - by apply NoDup_keys_without.
      - intros m. rewrite elem_of_without. intros [Hm Hk].
        destruct (Hlin m Hm) as [Hmm Hmc]. split; [|done].
        by rewrite lookup_insert_ne. }
    intros Hlg. destruct (linked_list s Hs g lg Hlg) as (Hne' & Hnd' & Hin').
    split; [done|]. split; [done|]. intros m Hm.
    destruct (Hin' m Hm) as [Hmm Hmc]. split; [|done].
    rewrite lookup_insert_ne; [done|]. intros Hk.
    rewrite <- Hk, Hn in Hmm. injection Hmm as <-. done.
  - intros key m. rewrite mainCache_updateExistingNode.
    destruct (decide (key = key_ n)) as [->|Hk].
    + rewrite lookup_insert_eq. intros [= <-]. split; [done|].
      rewrite lookup_updateExistingNode. simpl.
      rewrite decide_True by done. eexists. split; [done|].
      rewrite elem_of_app, list_elem_of_singleton. by right.
    + rewrite lookup_insert_ne by done. intros Hm.
      destruct (linked_index s Hs key m Hm) as (Hkm & lm & Hlm & Hmlm).
      split; [done|]. rewrite lookup_updateExistingNode.
      destruct (decide (accessCount_ m = to_size_t (accessCount_ n + 1)))
        as [He'|He'].
      { rewrite Hlm. simpl. eexists. split; [done|].
        rewrite elem_of_app. by left. }
      destruct (decide (accessCount_ m = accessCount_ n)) as [He|He]; [|eauto].
      rewrite Hlm. simpl. rewrite He, Hl in Hlm. injection Hlm as <-.
      assert (Hin : m ∈ without (key_ n) l).
      { apply elem_of_without. split; [done|]. congruence. }
      destruct (without (key_ n) l) as [|m0 l0]; [by apply elem_of_nil in Hin|].
      eauto.
  - intros _. rewrite lookup_updateExistingNode.
    unfold updateExistingNode, updateNodeFrequency. simpl.
    assert (Hmin : is_Some (freqMap_ s !! minFreq_ s)).
    { apply (linked_minFreq s Hs). intros He. by rewrite He in Hn. }
    rewrite Hl. simpl.
    destruct (without (key_ n) l) as [|m0 l0] eqn:Hw.
    + case_bool_decide as Hm.
      * by rewrite decide_True.
      * destruct (decide (minFreq_ s = to_size_t (accessCount_ n + 1)));
          [done|]. by rewrite decide_False by done.
    + destruct (decide (minFreq_ s = to_size_t (accessCount_ n + 1)));
        [done|].
      destruct (decide (minFreq_ s = accessCount_ n)) as [He|He]; [|done].
      rewrite He, Hl. simpl. by rewrite Hw.
Qed.

Lemma updateNodeFrequency_as_update n s :
  mainCache_ s !! key_ n = Some n →
  updateNodeFrequency n s = updateExistingNode n (value_ n) s.
Proof.
  intros Hn. unfold updateExistingNode.
  assert (setValue n (value_ n) = n) as -> by (by destruct n).
  rewrite insert_id by done. by destruct s.
Qed.

Lemma linked_updateNodeFrequency n s :
  linked s → mainCache_ s !! key_ n = Some n → linked (updateNodeFrequency n s).
Proof.
  intros Hs Hn. rewrite updateNodeFrequency_as_update by done.
  by apply linked_updateExistingNode.
Qed.

(** Ghost-list steps leave the main structure alone. *)
Lemma linked_with_ghost s m l : linked s → linked (with_ghost s m l).
Proof. by intros [? ? ?]. Qed.

Lemma linked_with_capacity s c : linked s → linked (with_capacity s c).
Proof. by intros [? ? ?]. Qed.

Lemma linked_removeOldestGhost s : linked s → linked (removeOldestGhost s).
Proof.
  intros Hs. unfold removeOldestGhost. destruct (ghost_ s); [done|].
  by apply linked_with_ghost.
Qed.

Lemma linked_empty_freqMap s :
  linked s → size (freqMap_ s) = 0%nat → mainCache_ s = ∅.
Proof.
  intros Hs Hsz. apply map_size_empty_inv in Hsz. apply map_eq. intros key.
  rewrite lookup_empty. destruct (mainCache_ s !! key) as [n|] eqn:Hn; [|done].
  destruct (linked_index s Hs key n Hn) as (_ & l & Hl & _).
  by rewrite Hsz in Hl.
Qed.

(** [evictLeastFrequent] on a linked part that holds a node: the first
    node of the [minFreq_] list leaves the main structure. *)
Lemma evictLeastFrequent_spec s :
  linked s → mainCache_ s ≠ ∅ →
  ∃ n, mainCache_ s !! key_ n = Some n
       ∧ mainCache_ (evictLeastFrequent s) = delete (key_ n) (mainCache_ s)
       ∧ capacity_ (evictLeastFrequent s) = capacity_ s
       ∧ linked (evictLeastFrequent s).
Proof.
  intros Hs Hne.
  destruct (linked_minFreq s Hs Hne) as [lm Hlm].
  destruct (linked_list s Hs _ lm Hlm) as (Hlmne & Hnd & Hin).
  destruct lm as [|n rest]; [done|].
  destruct (Hin n ltac:(by left)) as [Hn Hnc].
  exists n. split; [done|].
  unfold evictLeastFrequent.
  destruct (decide (size (freqMap_ s) = 0%nat)) as [Hz|Hz].
  { exfalso. apply Hne. by apply linked_empty_freqMap. }
  rewrite Hlm.
  set (s1 := if bool_decide (ghostCapacity_ s ≤ Z.of_nat (size (ghostCache_ s)))
             then removeOldestGhost s else s).
  simpl. split; [done|]. split; [by unfold s1; case_bool_decide;
    [unfold removeOldestGhost; destruct (ghost_ s)|]|].
  apply NoDup_cons in Hnd as [Hnrest Hnd].
  assert (Hrk : ∀ m, m ∈ rest → key_ n ≠ key_ m).
  { intros m Hm Hk. apply Hnrest. rewrite Hk. by apply list_elem_of_fmap_2. }
  assert (Hrin : ∀ m, m ∈ rest →
            mainCache_ s !! key_ m = Some m ∧ accessCount_ m = minFreq_ s).
  { intros m Hm. apply Hin. by right. }
  clear Hnrest Hin.
  set (fm := match rest with
             | [] => delete (minFreq_ s) (freqMap_ s)
             | _ :: _ => <[minFreq_ s := rest]> (freqMap_ s)
             end).
  assert (Hfm : ∀ g, fm !! g =
    if decide (g = minFreq_ s)
    then match rest with [] => None | m :: l => Some (m :: l) end
    else freqMap_ s !! g).
  { intros g. unfold fm. destruct (decide (g = minFreq_ s)) as [->|Hg].
    - destruct rest; [by rewrite lookup_delete_eq|by rewrite lookup_insert_eq].
    - destruct rest;
        [by rewrite lookup_delete_ne by done|by rewrite lookup_insert_ne by done]. }
  split; simpl.
  - intros g lg. rewrite Hfm.
    destruct (decide (g = minFreq_ s)) as [->|Hg].
    + destruct rest as [|m0 l0] eqn:Hrest; [done|]. intros [= <-].
      split; [done|]. split; [done|]. intros m Hm.
      destruct (Hrin m Hm) as [Hmm Hmc]. split; [|done].
      rewrite lookup_delete_ne; [done|]. by apply Hrk.
    + intros Hlg. destruct (linked_list s Hs g lg Hlg) as (Hne' & Hnd' & Hin').
      split; [done|]. split; [done|]. intros m Hm.
      destruct (Hin' m Hm) as [Hmm Hmc]. split; [|done].
      rewrite lookup_delete_ne; [done|]. intros Hk.
      rewrite <- Hk, Hn in Hmm. injection Hmm as <-. lia.
  - intros key m. destruct (decide (key = key_ n)) as [->|Hk].
    + by rewrite lookup_delete_eq.
    + rewrite lookup_delete_ne by done. intros Hm.
      destruct (linked_index s Hs key m Hm) as (Hkm & lk & Hlk & Hmlk).
      split; [done|]. rewrite Hfm.
      destruct (decide (accessCount_ m = minFreq_ s)) as [He|He]; [|eauto].
      rewrite He, Hlm in Hlk. injection Hlk as <-.
      apply elem_of_cons in Hmlk as [->|Hmr]; [done|].
      destruct rest as [|m0 l0]; [by apply elem_of_nil in Hmr|]. eauto.
  - intros Hne'. destruct rest as [|m0 l0] eqn:Hrest.
    + destruct (first_key fm) as [g|] eqn:Hfk; simpl.
      * by apply first_key_elem.
      * exfalso. apply Hne'. apply map_eq. intros key. rewrite lookup_empty.
        destruct (decide (key = key_ n)) as [->|Hk];
          [by rewrite lookup_delete_eq|].
        rewrite lookup_delete_ne by done.
        destruct (mainCache_ s !! key) as [m|] eqn:Hm; [|done].
        destruct (linked_index s Hs key m Hm) as (Hkm & lk & Hlk & Hmlk).
        assert (Hfmk : fm !! accessCount_ m = Some lk).
        { rewrite Hfm. destruct (decide (accessCount_ m = minFreq_ s)) as [He|He];
            [|done]. rewrite He, Hlm in Hlk. injection Hlk as <-.
          apply elem_of_cons in Hmlk as [->|Hmr]; [done|].
          by apply elem_of_nil in Hmr. }
        unfold first_key in Hfk.
        destruct ((map_to_list fm).*1) as [|h hs] eqn:Hl; [|done].
        apply fmap_nil_inv in Hl. apply map_to_list_empty_iff in Hl.
        by rewrite Hl in Hfmk.
    + rewrite Hfm, decide_True by done. eauto.
Qed.

Lemma linked_evictLeastFrequent s : linked s → linked (evictLeastFrequent s).
Proof.
  intros Hs. destruct (decide (mainCache_ s = ∅)) as [He|Hne].
  - unfold evictLeastFrequent.
    destruct (decide (size (freqMap_ s) = 0%nat)) as [Hz|Hz]; [done|].
    exfalso. apply Hz. apply map_size_empty_iff. apply map_eq. intros f.
    rewrite lookup_empty. destruct (freqMap_ s !! f) as [l|] eqn:Hl; [|done].
    destruct (linked_list s Hs f l Hl) as (Hlne & _ & Hin).
    destruct l as [|n l]; [done|].
    destruct (Hin n ltac:(by left)) as [Hn _]. by rewrite He in Hn.
  - by destruct (evictLeastFrequent_spec s Hs Hne) as (m & _ & _ & _ & Hl).
Qed.

Lemma mainCache_evictLeastFrequent_subseteq key s :
  mainCache_ s !! key = None → mainCache_ (evictLeastFrequent s) !! key = None.
Proof.
  intros Hk. unfold evictLeastFrequent.
  destruct (decide (size (freqMap_ s) = 0%nat)); [done|].
  destruct (freqMap_ s !! minFreq_ s) as [[|m0 rest]|]; simpl; try done.
  apply lookup_delete_None. by right.
Qed.

Lemma linked_addNewNode key value s :
  linked s → mainCache_ s !! key = None → linked (addNewNode key value s).
Proof.
  intros Hs Hk. unfold addNewNode.
  set (s1 := if bool_decide (capacity_ s ≤ Z.of_nat (size (mainCache_ s)))
             then evictLeastFrequent s else s).
  assert (Hs1 : linked s1).
  { unfold s1. case_bool_decide; [by apply linked_evictLeastFrequent|done]. }
  assert (Hk1 : mainCache_ s1 !! key = None).
  { unfold s1. case_bool_decide;
      [by apply mainCache_evictLeastFrequent_subseteq|done]. }
  clearbody s1. clear Hs Hk s.
  set (n := mkArcNode key value 1).
  assert (Hfresh : ∀ f l m, freqMap_ s1 !! f = Some l → m ∈ l → key_ m ≠ key).
  { intros f l m Hl Hm Hkm.
    destruct (linked_list s1 Hs1 f l Hl) as (_ & _ & Hin).
    destruct (Hin m Hm) as [Hmm _]. by rewrite Hkm, Hk1 in Hmm. }
  split; simpl.
  - intros g lg. destruct (decide (g = 1)) as [->|Hg].
    + rewrite lookup_insert_eq. intros [= <-].
      split; [by destruct (default [] _)|].
      destruct (freqMap_ s1 !! 1) as [l1|] eqn:Hl1; simpl.
      * destruct (linked_list s1 Hs1 1 l1 Hl1) as (_ & Hnd & Hin). split.
        -- rewrite fmap_app. apply NoDup_app. split; [done|].
           split; [|apply NoDup_singleton].
           intros k Hkin. simpl. rewrite list_elem_of_singleton. intros ->.
           apply list_elem_of_fmap in Hkin as (m & Hkm & Hm).
           by apply (Hfresh 1 l1 m).
        -- intros m. rewrite elem_of_app, list_elem_of_singleton.
           intros [Hm| ->].
           ++ destruct (Hin m Hm) as [Hmm Hmc]. split; [|done].
              rewrite lookup_insert_ne; [done|]. intros Hkm.
              by apply (Hfresh 1 l1 m).
           ++ split; [by rewrite lookup_insert_eq|done].
      * split; [apply NoDup_singleton|].
        intros m. rewrite list_elem_of_singleton. intros ->.
        split; [by rewrite lookup_insert_eq|done].
    + rewrite lookup_insert_ne by done. intros Hlg.
      destruct (linked_list s1 Hs1 g lg Hlg) as (Hne & Hnd & Hin).
      split; [done|]. split; [done|]. intros m Hm.
      destruct (Hin m Hm) as [Hmm Hmc]. split; [|done].
      rewrite lookup_insert_ne; [done|]. intros Hkm.
      by apply (Hfresh g lg m).
  - intros key0 m. destruct (decide (key0 = key)) as [->|Hne].
    + rewrite lookup_insert_eq. intros [= <-]. split; [done|]. simpl.
      rewrite lookup_insert_eq. eexists. split; [done|].
      rewrite elem_of_app, list_elem_of_singleton. by right.
    + rewrite lookup_insert_ne by done. intros Hm.
      destruct (linked_index s1 Hs1 key0 m Hm) as (Hkm & lk & Hlk & Hmlk).
      split; [done|]. destruct (decide (accessCount_ m = 1)) as [He|He].
      * rewrite He in *. rewrite lookup_insert_eq, Hlk. simpl.
        eexists. split; [done|]. rewrite elem_of_app. by left.
      * rewrite lookup_insert_ne by done. eauto.
  - intros _. by rewrite lookup_insert_eq.
Qed.

Lemma linked_new capacity transformThreshold :
  linked (@ArcLfuPart_new Key _ _ Value capacity transformThreshold).
Proof. by split. Qed.

Lemma linked_put key value s : linked s → linked (put key value s).2.
Proof.
  intros Hs. unfold put. case_bool_decide; [done|].
  destruct (mainCache_ s !! key) as [n|] eqn:Hn; simpl.
  - destruct (linked_index s Hs key n Hn) as [Hk _]. subst key.
    by apply linked_updateExistingNode.
  - by apply linked_addNewNode.
Qed.

Lemma linked_get key value s : linked s → linked (get key value s).2.
Proof.
  intros Hs. unfold get.
  destruct (mainCache_ s !! key) as [n|] eqn:Hn; simpl; [|done].
  destruct (linked_index s Hs key n Hn) as [Hk _]. subst key.
  by apply linked_updateNodeFrequency.
Qed.

Lemma linked_checkGhost key s : linked s → linked (checkGhost key s).2.
Proof.
  intros Hs. unfold checkGhost. destruct (ghostCache_ s !! key); [|done].
  by apply linked_with_ghost.
Qed.

Lemma linked_increaseCapacity s : linked s → linked (increaseCapacity s).
Proof. apply linked_with_capacity. Qed.

Lemma linked_decreaseCapacity s : linked s → linked (decreaseCapacity s).2.
Proof.
  intros Hs. unfold decreaseCapacity. case_bool_decide; [done|]. simpl.
  apply linked_with_capacity.
  case_bool_decide; [by apply linked_evictLeastFrequent|done].
Qed.

(** Capacities: only [increaseCapacity] and [decreaseCapacity] move them. *)
Lemma capacity_evictLeastFrequent s :
  capacity_ (evictLeastFrequent s) = capacity_ s.
Proof.
  unfold evictLeastFrequent.
  destruct (decide (size (freqMap_ s) = 0%nat)); [done|].
  destruct (freqMap_ s !! minFreq_ s) as [[|m0 rest]|]; simpl; try done.
  case_bool_decide; [|done]. unfold removeOldestGhost. by destruct (ghost_ s).
Qed.

Lemma arclfu_capacity_put key value s : capacity_ (put key value s).2 = capacity_ s.
Proof.
  unfold put. case_bool_decide; [done|].
  destruct (mainCache_ s !! key); simpl; [done|].
  case_bool_decide; [apply capacity_evictLeastFrequent|done].
Qed.

Lemma arclfu_capacity_get key value s : capacity_ (get key value s).2 = capacity_ s.
Proof. unfold get. by destruct (mainCache_ s !! key). Qed.

Lemma arclfu_capacity_checkGhost key s : capacity_ (checkGhost key s).2 = capacity_ s.
Proof. unfold checkGhost. by destruct (ghostCache_ s !! key). Qed.

Lemma arclfu_decreaseCapacity_capacity s :
  0 ≤ capacity_ s < 2 ^ 64 →
  (decreaseCapacity s).1 = bool_decide (0 < capacity_ s)
  ∧ capacity_ (decreaseCapacity s).2 =
    if bool_decide (0 < capacity_ s) then capacity_ s - 1 else capacity_ s.
Proof.
  intros Hc. unfold decreaseCapacity. case_bool_decide as Hz.
  - by rewrite bool_decide_eq_false_2 by lia.
  - rewrite (bool_decide_eq_true_2 (0 < capacity_ s)) by lia.
    simpl. split; [done|].
    assert ((capacity_ (if bool_decide (Z.of_nat (size (mainCache_ s)) = capacity_ s)
                        then evictLeastFrequent s else s)) = capacity_ s) as ->.
    { case_bool_decide; [apply capacity_evictLeastFrequent|done]. }
    apply MachineIntFacts.to_size_t_small. lia.
Qed.

(** A shrink at full occupancy evicts. *)
Lemma arclfu_decreaseCapacity_evicts s :
  linked s → 0 < capacity_ s → Z.of_nat (size (mainCache_ s)) = capacity_ s →
  S (size (mainCache_ (decreaseCapacity s).2)) = size (mainCache_ s).
Proof.
  intros Hs Hc Hfull. unfold decreaseCapacity.
  rewrite bool_decide_eq_false_2 by lia.
  rewrite bool_decide_eq_true_2 by done. simpl.
  assert (Hne : mainCache_ s ≠ ∅).
  { intros He. rewrite He, map_size_empty in Hfull. simpl in Hfull. lia. }
  destruct (evictLeastFrequent_spec s Hs Hne) as (n & Hn & -> & _).
  rewrite map_size_delete, Hn.
  assert (size (mainCache_ s) ≠ 0%nat) by lia. lia.
Qed.

(** The ghost capacity is never written. *)
Lemma ghostCapacity_evictLeastFrequent s :
  ghostCapacity_ (evictLeastFrequent s) = ghostCapacity_ s.
Proof.
  unfold evictLeastFrequent.
  destruct (decide (size (freqMap_ s) = 0%nat)); [done|].
  destruct (freqMap_ s !! minFreq_ s) as [[|m0 rest]|]; simpl; try done.
  case_bool_decide; [|done]. unfold removeOldestGhost. by destruct (ghost_ s).
Qed.

Lemma ghostCapacity_put key value s :
  ghostCapacity_ (put key value s).2 = ghostCapacity_ s.
Proof.
  unfold put. case_bool_decide; [done|].
  destruct (mainCache_ s !! key); simpl; [done|].
  case_bool_decide; [apply ghostCapacity_evictLeastFrequent|done].
Qed.

Lemma ghostCapacity_get key value s :
  ghostCapacity_ (get key value s).2 = ghostCapacity_ s.
Proof. unfold get. by destruct (mainCache_ s !! key). Qed.

Lemma ghostCapacity_checkGhost key s :
  ghostCapacity_ (checkGhost key s).2 = ghostCapacity_ s.
Proof. unfold checkGhost. by destruct (ghostCache_ s !! key). Qed.

Lemma arclfu_ghostCapacity_increaseCapacity s :
  ghostCapacity_ (increaseCapacity s) = ghostCapacity_ s.
Proof. done. Qed.

Lemma arclfu_ghostCapacity_decreaseCapacity s :
  ghostCapacity_ (decreaseCapacity s).2 = ghostCapacity_ s.
Proof.
  unfold decreaseCapacity. case_bool_decide; [done|]. simpl.
  case_bool_decide; [apply ghostCapacity_evictLeastFrequent|done].
Qed.

(** An eviction writes the ghost index under the key of a node of the
    main structure. *)
Lemma ghostCache_evictLeastFrequent key s :
  linked s → mainCache_ s !! key = None → ghostCache_ s !! key = None →
  ghostCache_ (evictLeastFrequent s) !! key = None.
Proof.
  intros Hs Hm Hg. unfold evictLeastFrequent.
  destruct (decide (size (freqMap_ s) = 0%nat)); [done|].
  destruct (freqMap_ s !! minFreq_ s) as [[|m0 rest]|] eqn:Hl; simpl; try done.
  destruct (linked_list s Hs _ _ Hl) as (_ & _ & Hin).
  destruct (Hin m0 ltac:(by left)) as [Hm0 _].
  rewrite lookup_insert_ne by (intros Hk; by rewrite Hk, Hm in Hm0).
  case_bool_decide; [|done]. unfold removeOldestGhost.
  destruct (ghost_ s) as [|g0 gl]; [done|]. simpl.
  apply lookup_delete_None. by right.
Qed.

Lemma ghostCache_decreaseCapacity key s :
  linked s → mainCache_ s !! key = None → ghostCache_ s !! key = None →
  ghostCache_ (decreaseCapacity s).2 !! key = None.
Proof.
  intros Hs Hm Hg. unfold decreaseCapacity.
  destruct (bool_decide (capacity_ s ≤ 0)); [done|]. simpl.
  destruct (bool_decide (Z.of_nat (size (mainCache_ s)) = capacity_ s)); [|done].
  by apply ghostCache_evictLeastFrequent.
Qed.

Lemma mainCache_decreaseCapacity key s :
  mainCache_ s !! key = None → mainCache_ (decreaseCapacity s).2 !! key = None.
Proof.
  intros Hk. unfold decreaseCapacity.
  destruct (bool_decide (capacity_ s ≤ 0)); [done|]. simpl.
  destruct (bool_decide (Z.of_nat (size (mainCache_ s)) = capacity_ s)); [|done].
  by apply mainCache_evictLeastFrequent_subseteq.
Qed.

Lemma mainCache_checkGhost key s : mainCache_ (checkGhost key s).2 = mainCache_ s.
Proof. unfold checkGhost. by destruct (ghostCache_ s !! key). Qed.

(** Nothing but [put] brings a key into the main structure. *)
Lemma existsInMain_decreaseCapacity key s :
  existsInMain key (decreaseCapacity s).2 = true → existsInMain key s = true.
Proof.
  unfold existsInMain.
  intros Hin%bool_decide_eq_true_1. apply bool_decide_eq_true_2.
  destruct (mainCache_ s !! key) eqn:Hk; [done|].
  exfalso. revert Hin. unfold decreaseCapacity.
  destruct (bool_decide (capacity_ s ≤ 0)); simpl; [rewrite Hk; by intros [? ?]|].
  destruct (bool_decide (Z.of_nat (size (mainCache_ s)) = capacity_ s)).
  - rewrite mainCache_evictLeastFrequent_subseteq by done. by intros [? ?].
  - rewrite Hk. by intros [? ?].
Qed.

End ArcLfuPart.
End ArcLfuFacts.

(** ** The LRU part of ARC *)

Module ArcLruFacts.
Import ArcNode ArcLru.
Section ArcLruPart.
Context {Key : Type} `{Countable Key} {Value : Type}.
Implicit Types (s : ArcLruPart Key Value) (key : Key) (value : Value).
Implicit Types (n : ArcNode Key Value) (l : list (ArcNode Key Value)).

(** Steps that touch the lists only: the three configured sizes stay. *)
Ltac sizes_kept :=
  repeat first
    [ progress simpl
    | case_bool_decide
    | match goal with
      | |- context [match ?x with _ => _ end] => destruct x
      end ];
  done.

Lemma capacity_removeOldestGhost s :
  capacity_ (removeOldestGhost s) = capacity_ s
  ∧ ghostCapacity_ (removeOldestGhost s) = ghostCapacity_ s.
Proof. unfold removeOldestGhost. sizes_kept. Qed.

Lemma capacity_evictLeastRecent s :
  capacity_ (evictLeastRecent s) = capacity_ s
  ∧ ghostCapacity_ (evictLeastRecent s) = ghostCapacity_ s.
Proof.
  unfold evictLeastRecent. destruct (last (main_ s)); [|done]. simpl.
  case_bool_decide; [apply capacity_removeOldestGhost|done].
Qed.

Lemma arclru_capacity_put key value s :
  capacity_ (put key value s).2 = capacity_ s
  ∧ ghostCapacity_ (put key value s).2 = ghostCapacity_ s.
Proof.
  unfold put. case_bool_decide; [done|].
  destruct (find_node key (main_ s)); [done|]. unfold addNewNode. simpl.
  case_bool_decide; [apply capacity_evictLeastRecent|done].
Qed.

Lemma arclru_capacity_get key value b s :
  capacity_ (get key value b s).2 = capacity_ s
  ∧ ghostCapacity_ (get key value b s).2 = ghostCapacity_ s.
Proof. unfold get. by destruct (find_node key (main_ s)). Qed.

Lemma capacity_remove key s :
  capacity_ (remove key s) = capacity_ s
  ∧ ghostCapacity_ (remove key s) = ghostCapacity_ s.
Proof. unfold remove. by destruct (find_node key (main_ s)). Qed.

Lemma arclru_capacity_checkGhost key s :
  capacity_ (checkGhost key s).2 = capacity_ s
  ∧ ghostCapacity_ (checkGhost key s).2 = ghostCapacity_ s.
Proof. unfold checkGhost. by destruct (ghostCache_ s !! key). Qed.

Lemma arclru_ghostCapacity_increaseCapacity s :
  ghostCapacity_ (increaseCapacity s) = ghostCapacity_ s.
Proof. done. Qed.

Lemma arclru_ghostCapacity_decreaseCapacity s :
  ghostCapacity_ (decreaseCapacity s).2 = ghostCapacity_ s.
Proof.
  unfold decreaseCapacity. case_bool_decide; [done|]. simpl.
  case_bool_decide; [apply capacity_evictLeastRecent|done].
Qed.

Lemma arclru_decreaseCapacity_capacity s :
  0 ≤ capacity_ s < 2 ^ 64 →
  (decreaseCapacity s).1 = bool_decide (0 < capacity_ s)
  ∧ capacity_ (decreaseCapacity s).2 =
    if bool_decide (0 < capacity_ s) then capacity_ s - 1 else capacity_ s.
Proof.
  intros Hc. unfold decreaseCapacity. case_bool_decide as Hz.
  - by rewrite bool_decide_eq_false_2 by lia.
  - rewrite (bool_decide_eq_true_2 (0 < capacity_ s)) by lia.
    simpl. split; [done|].
    assert ((capacity_ (if bool_decide (Z.of_nat (length (main_ s)) = capacity_ s)
                        then evictLeastRecent s else s)) = capacity_ s) as ->.
    { case_bool_decide; [apply capacity_evictLeastRecent|done]. }
    apply MachineIntFacts.to_size_t_small. lia.
Qed.

Lemma main_evictLeastRecent s :
  main_ (evictLeastRecent s) = removelast (main_ s).
Proof.
  unfold evictLeastRecent. destruct (last (main_ s)) eqn:Hl; [done|].
  apply last_None in Hl. by rewrite Hl.
Qed.

Lemma length_removelast {A} (l : list A) :
  l ≠ [] → S (length (removelast l)) = length l.
Proof.
  induction l as [|x l IH]; [done|]. intros _. destruct l as [|y l]; [done|].
  simpl in *. rewrite IH; done.
Qed.

(** A shrink at full occupancy evicts. *)
Lemma arclru_decreaseCapacity_evicts s :
  0 < capacity_ s → Z.of_nat (length (main_ s)) = capacity_ s →
  S (length (main_ (decreaseCapacity s).2)) = length (main_ s).
Proof.
  intros Hc Hfull. unfold decreaseCapacity.
  rewrite bool_decide_eq_false_2 by lia.
  rewrite bool_decide_eq_true_2 by done. simpl.
  rewrite main_evictLeastRecent. apply length_removelast.
  intros He. rewrite He in Hfull. simpl in Hfull. lia.
Qed.

Lemma find_node_removelast key l :
  find_node key l = None → find_node key (removelast l) = None.
Proof.
  induction l as [|m l IH]; [done|]. simpl.
  destruct (decide (key_ m = key)); [done|]. intros Hl.
  destruct l as [|m' l]; [done|]. simpl in *.
  rewrite decide_False by done. by apply IH.
Qed.

(** Nothing but [put] brings a key into the main list. *)
Lemma find_node_decreaseCapacity key s :
  find_node key (main_ s) = None →
  find_node key (main_ (decreaseCapacity s).2) = None.
Proof.
  intros Hk. unfold decreaseCapacity.
  destruct (bool_decide (capacity_ s ≤ 0)); [done|]. simpl.
  destruct (bool_decide (Z.of_nat (length (main_ s)) = capacity_ s)); [|done].
  rewrite main_evictLeastRecent. by apply find_node_removelast.
Qed.

Lemma main_checkGhost key s : main_ (checkGhost key s).2 = main_ s.
Proof. unfold checkGhost. by destruct (ghostCache_ s !! key). Qed.

(** A put of a key that is not in the main list: refused when the
    capacity is zero, else the new node stands at the front. *)
Lemma arclru_put_absent key value s :
  find_node key (main_ s) = None →
  if bool_decide (capacity_ s = 0) then (put key value s).2 = s
  else ∃ l, main_ (put key value s).2 = mkArcNode key value 1 :: l
            ∧ find_node key l = None.
Proof.
  intros Hk. unfold put. case_bool_decide; [done|]. rewrite Hk.
  unfold addNewNode. simpl. eexists. split; [done|].
  case_bool_decide; [|done].
  rewrite main_evictLeastRecent. by apply find_node_removelast.
Qed.

End ArcLruPart.
End ArcLruFacts.

(** ** The ARC coordinator *)

Module ArcFacts.
Import ArcNode Arc.
Section KArcCache.
Context {Key : Type} `{Countable Key} {Value : Type}.
Implicit Types (s : KArcCache Key Value) (key : Key) (value : Value).

(** Splits [balanced _ _ ∧ _] into its arithmetic and its linked part. *)
Ltac split_balanced :=
  split; [split; [lia|split; [lia|split; [lia|split; [lia|]]]]|lia].

(** The LRU half of the ghost check: a hit moves one unit of capacity from
    the LFU part to the LRU part when the LFU part has one to give. *)
Lemma checkLruGhost_capacity total key s :
  balanced total s →
  balanced total (checkLruGhost key s).2
  ∧ (if bool_decide (is_Some (ArcLru.ghostCache_ (lruPart_ s) !! key)
                     ∧ 0 < lfuCapacity s)
     then lruCapacity (checkLruGhost key s).2 = lruCapacity s + 1
          ∧ lfuCapacity (checkLruGhost key s).2 = lfuCapacity s - 1
     else lruCapacity (checkLruGhost key s).2 = lruCapacity s
          ∧ lfuCapacity (checkLruGhost key s).2 = lfuCapacity s).
Proof.
  unfold balanced, lruCapacity, lfuCapacity.
  intros (Hlru & Hlfu & Hsum & Htot & Hlinked).
  unfold checkLruGhost.
  pose proof (ArcLruFacts.arclru_capacity_checkGhost key (lruPart_ s)) as [Hcg _].
  unfold ArcLru.checkGhost in *.
  destruct (ArcLru.ghostCache_ (lruPart_ s) !! key) as [n|] eqn:Hg; simpl in *.
  - destruct (ArcLfuFacts.arclfu_decreaseCapacity_capacity (lfuPart_ s) ltac:(lia))
      as [Hd1 Hd2].
    pose proof (ArcLfuFacts.linked_decreaseCapacity _ Hlinked) as Hl'.
    destruct (ArcLfu.decreaseCapacity (lfuPart_ s)) as [shrunk lfu'].
    simpl in *. subst shrunk.
    case_bool_decide as Hpos.
    + rewrite bool_decide_eq_true_2 by (split; [by eexists|lia]).
      simpl. rewrite MachineIntFacts.to_size_t_small by lia.
      split_balanced. done.
    + rewrite bool_decide_eq_false_2 by (intros [_ ?]; lia).
      simpl. split_balanced. done.
  - rewrite ?bool_decide_eq_false_2 by (by intros [[? ?] _]). simpl.
    split_balanced. done.
Qed.

(** The LFU half, symmetric. *)
Lemma checkLfuGhost_capacity total key s :
  balanced total s →
  balanced total (checkLfuGhost key s).2
  ∧ (if bool_decide (is_Some (ArcLfu.ghostCache_ (lfuPart_ s) !! key)
                     ∧ 0 < lruCapacity s)
     then lfuCapacity (checkLfuGhost key s).2 = lfuCapacity s + 1
          ∧ lruCapacity (checkLfuGhost key s).2 = lruCapacity s - 1
     else lfuCapacity (checkLfuGhost key s).2 = lfuCapacity s
          ∧ lruCapacity (checkLfuGhost key s).2 = lruCapacity s).
Proof.
  unfold balanced, lruCapacity, lfuCapacity.
  intros (Hlru & Hlfu & Hsum & Htot & Hlinked).
  unfold checkLfuGhost.
  pose proof (ArcLfuFacts.arclfu_capacity_checkGhost key (lfuPart_ s)) as Hcg.
  pose proof (ArcLfuFacts.linked_checkGhost key _ Hlinked) as Hl'.
  unfold ArcLfu.checkGhost in *.
  destruct (ArcLfu.ghostCache_ (lfuPart_ s) !! key) as [n|] eqn:Hg; simpl in *.
  - destruct (ArcLruFacts.arclru_decreaseCapacity_capacity (lruPart_ s) ltac:(lia))
      as [Hd1 Hd2].
    destruct (ArcLru.decreaseCapacity (lruPart_ s)) as [shrunk lru'].
    simpl in *. subst shrunk.
    case_bool_decide as Hpos.
    + rewrite bool_decide_eq_true_2 by (split; [by eexists|lia]).
      simpl. rewrite MachineIntFacts.to_size_t_small by lia.
      split_balanced. by apply ArcLfuFacts.linked_with_capacity.
    + rewrite bool_decide_eq_false_2 by (intros [_ ?]; lia).
      simpl. split_balanced. done.
  - rewrite ?bool_decide_eq_false_2 by (by intros [[? ?] _]). simpl.
    split_balanced. done.
Qed.

Lemma balanced_checkGhostCaches total key s :
  balanced total s → balanced total (checkGhostCaches key s).2.
Proof.
  intros Hb. unfold checkGhostCaches.
  destruct (checkLruGhost_capacity total key s Hb) as [Hb1 _].
  destruct (checkLruGhost key s) as [g1 s1]. simpl in Hb1.
  destruct (checkLfuGhost_capacity total key s1 Hb1) as [Hb2 _].
  by destruct (checkLfuGhost key s1) as [g2 s2].
Qed.

Lemma transform_kept key value b lru lfu :
  ArcLru.capacity_ (transform key value b lru lfu).1 = ArcLru.capacity_ lru
  ∧ ArcLru.ghostCapacity_ (transform key value b lru lfu).1
    = ArcLru.ghostCapacity_ lru
  ∧ ArcLfu.capacity_ (transform key value b lru lfu).2 = ArcLfu.capacity_ lfu
  ∧ (ArcLfu.linked lfu → ArcLfu.linked (transform key value b lru lfu).2).
Proof.
  unfold transform. destruct b; simpl; [|done].
  destruct (ArcLruFacts.capacity_remove key lru) as [-> ->].
  rewrite ArcLfuFacts.arclfu_capacity_put.
  split; [done|]. split; [done|]. split; [done|]. apply ArcLfuFacts.linked_put.
Qed.

(** After the ghost check, [put] leaves the capacities alone. *)
Lemma put_capacity key value s :
  lruCapacity (put key value s) = lruCapacity (checkGhostCaches key s).2
  ∧ lfuCapacity (put key value s) = lfuCapacity (checkGhostCaches key s).2
  ∧ (ArcLfu.linked (lfuPart_ (checkGhostCaches key s).2) →
     ArcLfu.linked (lfuPart_ (put key value s))).
Proof.
  unfold put, lruCapacity, lfuCapacity.
  destruct (checkGhostCaches key s) as [g s1]. simpl.
  destruct (ArcLru.existsInMain key (lruPart_ s1)) eqn:HinLru;
    destruct (ArcLfu.existsInMain key (lfuPart_ s1)) eqn:HinLfu; simpl.
  - destruct (ArcLruFacts.arclru_capacity_put key value (lruPart_ s1)) as [Hc _].
    destruct (ArcLru.put key value (lruPart_ s1)) as [b lru1]. simpl in Hc.
    destruct (transform_kept key value b lru1
                (ArcLfu.put key value (lfuPart_ s1)).2) as (H1 & _ & H2 & H3).
    destruct (transform key value b lru1 _) as [lru2 lfu2]. simpl in *.
    rewrite H1, H2, Hc, ArcLfuFacts.arclfu_capacity_put.
    split; [done|]. split; [done|].
    intros Hl. by apply H3, ArcLfuFacts.linked_put.
  - destruct (ArcLruFacts.arclru_capacity_put key value (lruPart_ s1)) as [Hc _].
    destruct (ArcLru.put key value (lruPart_ s1)) as [b lru1]. simpl in Hc.
    destruct (transform_kept key value b lru1 (lfuPart_ s1)) as (H1 & _ & H2 & H3).
    destruct (transform key value b lru1 _) as [lru2 lfu2]. simpl in *.
    rewrite H1, H2, Hc. split; [done|]. by split.
  - rewrite ArcLfuFacts.arclfu_capacity_put. split; [done|]. split; [done|].
    apply ArcLfuFacts.linked_put.
  - destruct (ArcLruFacts.arclru_capacity_put key value (lruPart_ s1)) as [Hc _].
    by rewrite Hc.
Qed.

(** After the ghost check, [get] leaves the capacities alone. *)
Lemma get_capacity key value s :
  lruCapacity (get key value s).2 = lruCapacity (checkGhostCaches key s).2
  ∧ lfuCapacity (get key value s).2 = lfuCapacity (checkGhostCaches key s).2
  ∧ (ArcLfu.linked (lfuPart_ (checkGhostCaches key s).2) →
     ArcLfu.linked (lfuPart_ (get key value s).2)).
Proof.
  unfold get, lruCapacity, lfuCapacity.
  destruct (checkGhostCaches key s) as [g s1]. simpl.
  destruct (ArcLru.existsInMain key (lruPart_ s1)) eqn:HinLru;
    destruct (ArcLfu.existsInMain key (lfuPart_ s1)) eqn:HinLfu; simpl.
  - pose proof (ArcLfuFacts.arclfu_capacity_get key value (lfuPart_ s1)) as Hcf.
    pose proof (ArcLfuFacts.linked_get key value (lfuPart_ s1)) as Hlf.
    destruct (ArcLfu.get key value (lfuPart_ s1)) as [[b1 value1] lfu1].
    simpl in *.
    destruct (ArcLruFacts.arclru_capacity_get key value1 false (lruPart_ s1)) as [Hc _].
    destruct (ArcLru.get key value1 false (lruPart_ s1)) as [[[b2 value2] b] lru1].
    simpl in Hc.
    destruct (transform_kept key value2 b lru1 lfu1) as (H1 & _ & H2 & H3).
    destruct (transform key value2 b lru1 lfu1) as [lru2 lfu2]. simpl in *.
    rewrite H1, H2, Hc, Hcf. split; [done|]. split; [done|].
    intros Hl. by apply H3, Hlf.
  - destruct (ArcLruFacts.arclru_capacity_get key value false (lruPart_ s1)) as [Hc _].
    destruct (ArcLru.get key value false (lruPart_ s1)) as [[[b2 value2] b] lru1].
    simpl in Hc.
    destruct (transform_kept key value2 b lru1 (lfuPart_ s1)) as (H1 & _ & H2 & H3).
    destruct (transform key value2 b lru1 _) as [lru2 lfu2]. simpl in *.
    rewrite H1, H2, Hc. split; [done|]. by split.
  - pose proof (ArcLfuFacts.arclfu_capacity_get key value (lfuPart_ s1)) as Hcf.
    pose proof (ArcLfuFacts.linked_get key value (lfuPart_ s1)) as Hlf.
    destruct (ArcLfu.get key value (lfuPart_ s1)) as [[b1 value1] lfu1].
    simpl in *. by rewrite Hcf.
  - destruct g as [gv|]; simpl; [|done].
    destruct (ArcLruFacts.arclru_capacity_put key gv (lruPart_ s1)) as [Hc _].
    by rewrite Hc.
Qed.

Lemma balanced_put total key value s :
  balanced total s → balanced total (put key value s).
Proof.
  intros Hb. pose proof (balanced_checkGhostCaches total key s Hb) as Hb1.
  destruct (put_capacity key value s) as (H1 & H2 & H3).
  unfold balanced in *. rewrite H1, H2.
  destruct Hb1 as (? & ? & ? & ? & Hl).
  split; [done|]. split; [done|]. split; [done|]. split; [done|]. by apply H3.
Qed.

Lemma balanced_get total key value s :
  balanced total s → balanced total (get key value s).2.
Proof.
  intros Hb. pose proof (balanced_checkGhostCaches total key s Hb) as Hb1.
  destruct (get_capacity key value s) as (H1 & H2 & H3).
  unfold balanced in *. rewrite H1, H2.
  destruct Hb1 as (? & ? & ? & ? & Hl).
  split; [done|]. split; [done|]. split; [done|]. split; [done|]. by apply H3.
Qed.

Lemma balanced_run total cs s : balanced total s → balanced total (run cs s).
Proof.
  unfold run. revert s. induction cs as [|c cs IH]; simpl; [done|].
  intros s Hb. apply IH. destruct c; simpl;
    [by apply balanced_put|by apply balanced_get].
Qed.

Lemma balanced_new capacity transformThreshold :
  0 ≤ capacity < 2 ^ 64 →
  balanced (2 * (capacity `div` 2))
    (@KArcCache_new Key _ _ Value capacity transformThreshold).
Proof.
  intros Hc. unfold balanced, lruCapacity, lfuCapacity. simpl.
  pose proof (Z.div_pos capacity 2 ltac:(lia) ltac:(lia)).
  pose proof (Z.mul_div_le capacity 2 ltac:(lia)).
  split; [lia|]. split; [lia|]. split; [lia|]. split; [lia|].
  apply ArcLfuFacts.linked_new.
Qed.

(** The ghost check brings no key into a main part. *)
Lemma checkLruGhost_main key key' s :
  ArcLru.main_ (lruPart_ (checkLruGhost key s).2) = ArcLru.main_ (lruPart_ s)
  ∧ (ArcLfu.mainCache_ (lfuPart_ s) !! key' = None →
     ArcLfu.mainCache_ (lfuPart_ (checkLruGhost key s).2) !! key' = None).
Proof.
  unfold checkLruGhost.
  pose proof (ArcLruFacts.main_checkGhost key (lruPart_ s)) as Hm.
  destruct (ArcLru.checkGhost key (lruPart_ s)) as [g lru]. simpl in Hm.
  destruct g as [v|]; simpl; [|done].
  pose proof (ArcLfuFacts.mainCache_decreaseCapacity key' (lfuPart_ s)) as Hd.
  destruct (ArcLfu.decreaseCapacity (lfuPart_ s)) as [b lfu]. simpl in *.
  split; [by destruct b|done].
Qed.

Lemma checkLfuGhost_main key key' s :
  ArcLfu.mainCache_ (lfuPart_ (checkLfuGhost key s).2)
  = ArcLfu.mainCache_ (lfuPart_ s)
  ∧ (ArcLru.find_node key' (ArcLru.main_ (lruPart_ s)) = None →
     ArcLru.find_node key'
       (ArcLru.main_ (lruPart_ (checkLfuGhost key s).2)) = None).
Proof.
  unfold checkLfuGhost.
  pose proof (ArcLfuFacts.mainCache_checkGhost key (lfuPart_ s)) as Hm.
  destruct (ArcLfu.checkGhost key (lfuPart_ s)) as [g lfu]. simpl in Hm.
  destruct g as [v|]; simpl; [|done].
  pose proof (ArcLruFacts.find_node_decreaseCapacity key' (lruPart_ s)) as Hd.
  destruct (ArcLru.decreaseCapacity (lruPart_ s)) as [b lru]. simpl in *.
  split; [by destruct b|done].
Qed.

Lemma checkGhostCaches_main key key' s :
  (ArcLru.find_node key' (ArcLru.main_ (lruPart_ s)) = None →
   ArcLru.find_node key'
     (ArcLru.main_ (lruPart_ (checkGhostCaches key s).2)) = None)
  ∧ (ArcLfu.mainCache_ (lfuPart_ s) !! key' = None →
     ArcLfu.mainCache_ (lfuPart_ (checkGhostCaches key s).2) !! key' = None).
Proof.
  unfold checkGhostCaches.
  destruct (checkLruGhost_main key key' s) as [H1 H2].
  destruct (checkLruGhost key s) as [g1 s1]. simpl in *.
  destruct (checkLfuGhost_main key key' s1) as [H3 H4].
  destruct (checkLfuGhost key s1) as [g2 s2]. simpl in *.
  split.
  - intros Hk. apply H4. by rewrite H1.
  - intros Hk. rewrite H3. by apply H2.
Qed.

(** What each half of the ghost check writes to [gValue]. *)
Lemma checkLruGhost_value key s :
  (checkLruGhost key s).1 = value_ <$> ArcLru.ghostCache_ (lruPart_ s) !! key.
Proof.
  unfold checkLruGhost, ArcLru.checkGhost.
  destruct (ArcLru.ghostCache_ (lruPart_ s) !! key); simpl; [|done].
  by destruct (ArcLfu.decreaseCapacity (lfuPart_ s)).
Qed.

Lemma checkLfuGhost_value key s :
  (checkLfuGhost key s).1 = value_ <$> ArcLfu.ghostCache_ (lfuPart_ s) !! key.
Proof.
  unfold checkLfuGhost, ArcLfu.checkGhost.
  destruct (ArcLfu.ghostCache_ (lfuPart_ s) !! key); simpl; [|done].
  by destruct (ArcLru.decreaseCapacity (lruPart_ s)).
Qed.

Lemma checkGhostCaches_value key s :
  (checkGhostCaches key s).1 =
  match value_ <$> ArcLfu.ghostCache_ (lfuPart_ (checkLruGhost key s).2) !! key with
  | Some v => Some v
  | None => value_ <$> ArcLru.ghostCache_ (lruPart_ s) !! key
  end.
Proof.
  unfold checkGhostCaches. rewrite <- checkLruGhost_value.
  destruct (checkLruGhost key s) as [g1 s1]. simpl.
  rewrite <- checkLfuGhost_value. by destruct (checkLfuGhost key s1) as [g2 s2].
Qed.

(** The LFU ghost list as the LFU half of the check finds it. *)
Lemma checkLruGhost_lfu_ghost key s :
  ArcLfu.linked (lfuPart_ s) →
  ArcLfu.mainCache_ (lfuPart_ s) !! key = None →
  ArcLfu.ghostCache_ (lfuPart_ (checkLruGhost key s).2) !! key =
  match ArcLru.ghostCache_ (lruPart_ s) !! key with
  | Some _ =>
      ArcLfu.ghostCache_ (ArcLfu.decreaseCapacity (lfuPart_ s)).2 !! key
  | None => ArcLfu.ghostCache_ (lfuPart_ s) !! key
  end.
Proof.
  intros Hl Hm. unfold checkLruGhost, ArcLru.checkGhost.
  destruct (ArcLru.ghostCache_ (lruPart_ s) !! key); simpl; [|done].
  by destruct (ArcLfu.decreaseCapacity (lfuPart_ s)).
Qed.

Lemma checkGhostCaches_halves key s :
  (checkGhostCaches key s).2 = (checkLfuGhost key (checkLruGhost key s).2).2.
Proof.
  unfold checkGhostCaches. destruct (checkLruGhost key s) as [g1 s1].
  simpl. by destruct (checkLfuGhost key s1) as [g2 s2].
Qed.

(** C2: from the initial split on, the two part capacities never go
    negative and add up to the same total after every [put] and [get].
    A hit in the ghost list of one part takes one unit of capacity from
    the other part and gives it to the hitting part, and does neither
    when the other part has none to give; [put] and [get] move capacity
    in the ghost check only.  A shrink of a part whose occupancy equals
    its capacity evicts one entry from that part. *)
Theorem arc_capacity_conserved capacity transformThreshold cs key value :
  0 ≤ capacity < 2 ^ 64 →
  let s := run cs (@KArcCache_new Key _ _ Value capacity transformThreshold) in
  let s1 := (checkLruGhost key s).2 in
  let s2 := (checkLfuGhost key s1).2 in
  (0 ≤ lruCapacity s ∧ 0 ≤ lfuCapacity s
   ∧ lruCapacity s + lfuCapacity s = 2 * (capacity `div` 2))
  ∧ (if bool_decide (is_Some (ArcLru.ghostCache_ (lruPart_ s) !! key)
                     ∧ 0 < lfuCapacity s)
     then lruCapacity s1 = lruCapacity s + 1 ∧ lfuCapacity s1 = lfuCapacity s - 1
     else lruCapacity s1 = lruCapacity s ∧ lfuCapacity s1 = lfuCapacity s)
  ∧ (if bool_decide (is_Some (ArcLfu.ghostCache_ (lfuPart_ s1) !! key)
                     ∧ 0 < lruCapacity s1)
     then lfuCapacity s2 = lfuCapacity s1 + 1 ∧ lruCapacity s2 = lruCapacity s1 - 1
     else lfuCapacity s2 = lfuCapacity s1 ∧ lruCapacity s2 = lruCapacity s1)
  ∧ (checkGhostCaches key s).2 = s2
  ∧ (lruCapacity (put key value s) = lruCapacity s2
     ∧ lfuCapacity (put key value s) = lfuCapacity s2)
  ∧ (lruCapacity (get key value s).2 = lruCapacity s2
     ∧ lfuCapacity (get key value s).2 = lfuCapacity s2)
  ∧ (∀ lru : ArcLru.ArcLruPart Key Value,
       0 < ArcLru.capacity_ lru →
       Z.of_nat (length (ArcLru.main_ lru)) = ArcLru.capacity_ lru →
       S (length (ArcLru.main_ (ArcLru.decreaseCapacity lru).2))
       = length (ArcLru.main_ lru))
  ∧ (0 < lfuCapacity s →
     Z.of_nat (size (ArcLfu.mainCache_ (lfuPart_ s))) = lfuCapacity s →
     S (size (ArcLfu.mainCache_ (ArcLfu.decreaseCapacity (lfuPart_ s)).2))
     = size (ArcLfu.mainCache_ (lfuPart_ s))).
Proof.
  intros Hc s s1 s2.
  assert (Hb : balanced (2 * (capacity `div` 2)) s).
  { apply balanced_run. by apply balanced_new. }
  destruct (checkLruGhost_capacity _ key s Hb) as [Hb1 Hlru].
  destruct (checkLfuGhost_capacity _ key s1 Hb1) as [Hb2 Hlfu].
  pose proof (checkGhostCaches_halves key s) as Hhalves.
  destruct (put_capacity key value s) as (Hp1 & Hp2 & _).
  destruct (get_capacity key value s) as (Hg1 & Hg2 & _).
  rewrite Hhalves in Hp1, Hp2, Hg1, Hg2.
  destruct Hb as (H1 & H2 & H3 & _ & Hl).
  split; [done|]. split; [done|]. split; [done|]. split; [done|].
  split; [done|]. split; [done|].
  split; [apply ArcLruFacts.arclru_decreaseCapacity_evicts|].
  by apply ArcLfuFacts.arclfu_decreaseCapacity_evicts.
Qed.

(** C10: in both ARC parts the ghost capacity is the capacity the part was
    built with ([capacity/2] of the coordinator's) in every state the
    coordinator reaches; [increaseCapacity] and [decreaseCapacity] leave
    it as it is while they move the main capacity. *)
Theorem arc_ghost_capacity_fixed capacity transformThreshold cs :
  ArcLru.ghostCapacity_
    (lruPart_ (run cs (@KArcCache_new Key _ _ Value capacity transformThreshold)))
  = capacity `div` 2
  ∧ ArcLfu.ghostCapacity_
      (lfuPart_ (run cs (@KArcCache_new Key _ _ Value capacity transformThreshold)))
    = capacity `div` 2
  ∧ (∀ c t, ArcLru.ghostCapacity_ (@ArcLru.ArcLruPart_new Key _ _ Value c t) = c
            ∧ ArcLru.capacity_ (@ArcLru.ArcLruPart_new Key _ _ Value c t) = c)
  ∧ (∀ c t, ArcLfu.ghostCapacity_ (@ArcLfu.ArcLfuPart_new Key _ _ Value c t) = c
            ∧ ArcLfu.capacity_ (@ArcLfu.ArcLfuPart_new Key _ _ Value c t) = c)
  ∧ (∀ lru : ArcLru.ArcLruPart Key Value,
       ArcLru.ghostCapacity_ (ArcLru.increaseCapacity lru)
       = ArcLru.ghostCapacity_ lru
       ∧ ArcLru.ghostCapacity_ (ArcLru.decreaseCapacity lru).2
         = ArcLru.ghostCapacity_ lru
       ∧ ArcLru.capacity_ (ArcLru.increaseCapacity lru)
         = to_size_t (ArcLru.capacity_ lru + 1))
  ∧ (∀ lfu : ArcLfu.ArcLfuPart Key Value,
       ArcLfu.ghostCapacity_ (ArcLfu.increaseCapacity lfu)
       = ArcLfu.ghostCapacity_ lfu
       ∧ ArcLfu.ghostCapacity_ (ArcLfu.decreaseCapacity lfu).2
         = ArcLfu.ghostCapacity_ lfu
       ∧ ArcLfu.capacity_ (ArcLfu.increaseCapacity lfu)
         = to_size_t (ArcLfu.capacity_ lfu + 1)).
Proof.
  assert (Hrun : ∀ s : KArcCache Key Value,
    ArcLru.ghostCapacity_ (lruPart_ (run cs s))
      = ArcLru.ghostCapacity_ (lruPart_ s)
    ∧ ArcLfu.ghostCapacity_ (lfuPart_ (run cs s))
      = ArcLfu.ghostCapacity_ (lfuPart_ s)).
  { unfold run. induction cs as [|c cs' IH]; intros s; simpl; [done|].
    destruct (IH (step s c)) as [-> ->]. clear IH.
    assert (Hghost : ∀ key,
      ArcLru.ghostCapacity_ (lruPart_ (checkGhostCaches key s).2)
        = ArcLru.ghostCapacity_ (lruPart_ s)
      ∧ ArcLfu.ghostCapacity_ (lfuPart_ (checkGhostCaches key s).2)
        = ArcLfu.ghostCapacity_ (lfuPart_ s)).
    { intros key. rewrite checkGhostCaches_halves.
      unfold checkLfuGhost, checkLruGhost.
      pose proof (ArcLruFacts.arclru_capacity_checkGhost key (lruPart_ s)) as [_ Hg1].
      destruct (ArcLru.checkGhost key (lruPart_ s)) as [g1 lru1]. simpl in Hg1.
      pose proof (ArcLfuFacts.arclfu_ghostCapacity_decreaseCapacity (lfuPart_ s)) as Hd1.
      destruct (ArcLfu.decreaseCapacity (lfuPart_ s)) as [b1 lfu1]. simpl in Hd1.
      destruct g1 as [v1|]; simpl.
      - pose proof (ArcLfuFacts.ghostCapacity_checkGhost key lfu1) as Hg2.
        destruct (ArcLfu.checkGhost key lfu1) as [g2 lfu2]. simpl in Hg2.
        set (lru2 := if b1 then ArcLru.increaseCapacity lru1 else lru1).
        assert (Hlru2 : ArcLru.ghostCapacity_ lru2 = ArcLru.ghostCapacity_ lru1)
          by (unfold lru2; by destruct b1).
        pose proof (ArcLruFacts.arclru_ghostCapacity_decreaseCapacity lru2) as Hd2.
        destruct (ArcLru.decreaseCapacity lru2) as [b2 lru3]. simpl in Hd2.
        destruct g2 as [v2|]; simpl.
        + split; [congruence|]. destruct b2; simpl; congruence.
        + split; congruence.
      - pose proof (ArcLfuFacts.ghostCapacity_checkGhost key (lfuPart_ s)) as Hg2.
        destruct (ArcLfu.checkGhost key (lfuPart_ s)) as [g2 lfu2]. simpl in Hg2.
        pose proof (ArcLruFacts.arclru_ghostCapacity_decreaseCapacity lru1) as Hd2.
        destruct (ArcLru.decreaseCapacity lru1) as [b2 lru3]. simpl in Hd2.
        destruct g2 as [v2|]; simpl.
        + split; [congruence|]. destruct b2; simpl; congruence.
        + split; congruence. }
    destruct c as [key value|key value]; simpl;
      destruct (Hghost key) as [<- <-]; clear Hghost.
    - unfold put. destruct (checkGhostCaches key s) as [g s1]. simpl.
      destruct (ArcLruFacts.arclru_capacity_put key value (lruPart_ s1)) as [_ Hp].
      destruct (ArcLru.put key value (lruPart_ s1)) as [b lru1]. simpl in Hp.
      pose proof (ArcLfuFacts.ghostCapacity_put key value (lfuPart_ s1)) as Hq.
      destruct (ArcLru.existsInMain key (lruPart_ s1));
        destruct (ArcLfu.existsInMain key (lfuPart_ s1)); simpl; try done.
      + unfold transform. destruct b; simpl; [|done].
        destruct (ArcLruFacts.capacity_remove key lru1) as [_ ->].
        by rewrite ArcLfuFacts.ghostCapacity_put.
      + unfold transform. destruct b; simpl; [|done].
        destruct (ArcLruFacts.capacity_remove key lru1) as [_ ->].
        by rewrite ArcLfuFacts.ghostCapacity_put.
    - unfold get. destruct (checkGhostCaches key s) as [g s1]. simpl.
      pose proof (ArcLfuFacts.ghostCapacity_get key value (lfuPart_ s1)) as Hq.
      destruct (ArcLfu.get key value (lfuPart_ s1)) as [[b1 value1] lfu1].
      simpl in Hq.
      destruct (ArcLru.existsInMain key (lruPart_ s1));
        destruct (ArcLfu.existsInMain key (lfuPart_ s1)); simpl.
      + destruct (ArcLruFacts.arclru_capacity_get key value1 false (lruPart_ s1))
          as [_ Hp].
        destruct (ArcLru.get key value1 false (lruPart_ s1))
          as [[[b2 value2] b] lru1]. simpl in Hp.
        unfold transform. destruct b; simpl; [|done].
        destruct (ArcLruFacts.capacity_remove key lru1) as [_ ->].
        by rewrite ArcLfuFacts.ghostCapacity_put.
      + destruct (ArcLruFacts.arclru_capacity_get key value false (lruPart_ s1))
          as [_ Hp].
        destruct (ArcLru.get key value false (lruPart_ s1))
          as [[[b2 value2] b] lru1]. simpl in Hp.
        unfold transform. destruct b; simpl; [|done].
        destruct (ArcLruFacts.capacity_remove key lru1) as [_ ->].
        by rewrite ArcLfuFacts.ghostCapacity_put.
      + done.
      + destruct g as [gv|]; simpl; [|done].
        by destruct (ArcLruFacts.arclru_capacity_put key gv (lruPart_ s1)) as [_ ->]. }
  destruct (Hrun (KArcCache_new capacity transformThreshold)) as [-> ->].
  split; [done|]. split; [done|]. split; [done|]. split; [done|].
  split.
  - intros lru. split; [done|]. split; [|done].
    apply ArcLruFacts.arclru_ghostCapacity_decreaseCapacity.
  - intros lfu. split; [done|]. split; [|done].
    apply ArcLfuFacts.arclfu_ghostCapacity_decreaseCapacity.
Qed.

Lemma existsInMain_lru_false key (lru : ArcLru.ArcLruPart Key Value) :
  ArcLru.existsInMain key lru = false ↔ ArcLru.find_node key (ArcLru.main_ lru) = None.
Proof.
  unfold ArcLru.existsInMain. by rewrite bool_decide_eq_false, eq_None_not_Some.
Qed.

Lemma existsInMain_lfu_false key (lfu : ArcLfu.ArcLfuPart Key Value) :
  ArcLfu.existsInMain key lfu = false ↔ ArcLfu.mainCache_ lfu !! key = None.
Proof.
  unfold ArcLfu.existsInMain. by rewrite bool_decide_eq_false, eq_None_not_Some.
Qed.

Lemma reachable_balanced s : reachable s → ∃ total, balanced total s.
Proof.
  intros (capacity & transformThreshold & cs & Hc & ->).
  eexists. apply balanced_run. by apply balanced_new.
Qed.

(** What [get] does on a ghost hit, in every state a client can reach.
    [get] reports a hit only for a key that was in a main part when it was
    called.  For a key in neither main part and in a ghost list, [get]
    reports a miss and leaves [value] alone; the ghost check hands out the
    value of the ghost entry, and [lruPart_->put] is called with it: the
    key comes back at the front of the LRU part when that part's capacity,
    after the rebalancing of this very call, is not zero.  When it is zero
    [ArcLruPart::put] returns at once, a result that [get] does not look
    at: the state is the one the ghost check left. *)
Lemma arc_get_ghost_readmits key value s :
  reachable s →
  ((get key value s).1.1 = true →
   ArcLru.existsInMain key (lruPart_ s) = true
   ∨ ArcLfu.existsInMain key (lfuPart_ s) = true)
  ∧ (ArcLru.existsInMain key (lruPart_ s) = false →
     ArcLfu.existsInMain key (lfuPart_ s) = false →
     is_Some (ArcLru.ghostCache_ (lruPart_ s) !! key)
     ∨ is_Some (ArcLfu.ghostCache_ (lfuPart_ s) !! key) →
     ∃ gv, (checkGhostCaches key s).1 = Some gv
       ∧ (∀ n, ArcLru.ghostCache_ (lruPart_ s) !! key = Some n →
               ArcLfu.ghostCache_ (lfuPart_ s) !! key = None → gv = value_ n)
       ∧ (∀ n, ArcLfu.ghostCache_ (lfuPart_ s) !! key = Some n →
               ArcLru.ghostCache_ (lruPart_ s) !! key = None → gv = value_ n)
       ∧ (get key value s).1 = (false, value)
       ∧ (if bool_decide (lruCapacity (checkGhostCaches key s).2 = 0)
          then (get key value s).2 = (checkGhostCaches key s).2
          else lfuPart_ (get key value s).2
               = lfuPart_ (checkGhostCaches key s).2
               ∧ ∃ l, ArcLru.main_ (lruPart_ (get key value s).2)
                      = mkArcNode key gv 1 :: l)).
Proof.
  intros Hr. destruct (reachable_balanced s Hr) as (total & Hb).
  destruct (checkGhostCaches_main key key s) as [Hmlru Hmlfu].
  split.
  - (* a hit needs the key in a main part *)
    intros Hhit.
    destruct (ArcLru.existsInMain key (lruPart_ s)) eqn:HinLru; [by left|].
    destruct (ArcLfu.existsInMain key (lfuPart_ s)) eqn:HinLfu; [by right|].
    exfalso. apply existsInMain_lru_false in HinLru.
    apply existsInMain_lfu_false in HinLfu.
    specialize (Hmlru HinLru). specialize (Hmlfu HinLfu).
    apply existsInMain_lru_false in Hmlru.
    apply existsInMain_lfu_false in Hmlfu.
    revert Hhit. unfold get.
    destruct (checkGhostCaches key s) as [g s1]. simpl in *.
    rewrite Hmlru, Hmlfu. simpl. by destruct g.
  - intros HinLru HinLfu Hghost.
    apply existsInMain_lru_false in HinLru.
    apply existsInMain_lfu_false in HinLfu.
    specialize (Hmlru HinLru). specialize (Hmlfu HinLfu).
    destruct Hb as (_ & _ & _ & _ & Hl).
    pose proof (checkGhostCaches_value key s) as Hval.
    rewrite (checkLruGhost_lfu_ghost key s Hl HinLfu) in Hval.
    assert (∃ gv, (checkGhostCaches key s).1 = Some gv
      ∧ (∀ n, ArcLru.ghostCache_ (lruPart_ s) !! key = Some n →
              ArcLfu.ghostCache_ (lfuPart_ s) !! key = None → gv = value_ n)
      ∧ (∀ n, ArcLfu.ghostCache_ (lfuPart_ s) !! key = Some n →
              ArcLru.ghostCache_ (lruPart_ s) !! key = None → gv = value_ n))
      as (gv & Hgv & Hgv1 & Hgv2).
    { destruct (ArcLru.ghostCache_ (lruPart_ s) !! key) as [n1|] eqn:Hg1.
      - destruct (ArcLfu.ghostCache_ (ArcLfu.decreaseCapacity (lfuPart_ s)).2
                    !! key) as [n2|] eqn:Hg2; simpl in Hval.
        + exists (value_ n2). split; [done|]. split; [|done].
          intros n [= <-] Hnone.
          rewrite ArcLfuFacts.ghostCache_decreaseCapacity in Hg2 by done. done.
        + exists (value_ n1). split; [done|]. split; [|done].
          by intros n [= <-] _.
      - destruct Hghost as [[? ?]|[n2 Hg2]]; [done|].
        rewrite Hg2 in Hval. simpl in Hval.
        exists (value_ n2). split; [done|]. split; [done|].
        intros n Hn _. rewrite Hg2 in Hn. by injection Hn as <-. }
    exists gv. split; [done|]. split; [done|]. split; [done|].
    apply existsInMain_lru_false in Hmlru as Hex1.
    apply existsInMain_lfu_false in Hmlfu as Hex2.
    clear Hval. unfold get, lruCapacity.
    destruct (checkGhostCaches key s) as [g s1]. simpl in *. subst g.
    rewrite Hex1, Hex2. simpl. split; [done|].
    pose proof (ArcLruFacts.arclru_put_absent key gv (lruPart_ s1) Hmlru) as Hput.
    destruct (bool_decide (ArcLru.capacity_ (lruPart_ s1) = 0)).
    + rewrite Hput. by destruct s1.
    + destruct Hput as (l & Hl' & _). split; [done|]. by exists l.
Qed.

End KArcCache.

(** C1, where the code leaves it: capacity 2, threshold 2.  Keys 1 and 2
    are moved to the LFU part and key 1 is evicted to the LFU ghost list.
    [get 1] hits that ghost list: the ghost check takes the entry out and
    moves the LRU part's only unit of capacity to the LFU part, and
    [lruPart_->put], whose result [get] does not look at, returns at once
    on capacity 0.  The source says of this branch that the key should be
    added to the LRU main cache; it is in no main part and no ghost list
    after the call, and the LRU part, at capacity 0, takes no key from
    then on.  A hit in the LRU ghost list, the sibling path, brings the key
    back (the cache of capacity 4 below). *)
Lemma arc_get_ghost_not_readmitted :
  let s := run [CallPut 1 10; CallPut 1 11; CallPut 2 20; CallPut 2 21]
             (KArcCache_new 2 2) in
  let s' := (get 1 0 s).2 in
  ArcLru.existsInMain 1 (lruPart_ s) = false
  ∧ ArcLfu.existsInMain 1 (lfuPart_ s) = false
  ∧ ArcLfu.ghostCache_ (lfuPart_ s) !! 1 = Some (mkArcNode 1 11 1)
  ∧ lruCapacity s = 1
  ∧ (get 1 0 s).1 = (false, 0)
  ∧ lruCapacity s' = 0 ∧ lfuCapacity s' = 2
  ∧ ArcLru.existsInMain 1 (lruPart_ s') = false
  ∧ ArcLfu.existsInMain 1 (lfuPart_ s') = false
  ∧ ArcLru.ghostCache_ (lruPart_ s') !! 1 = None
  ∧ ArcLfu.ghostCache_ (lfuPart_ s') !! 1 = None
  ∧ put 3 30 s' = s'
  ∧ (get 3 0 (put 3 30 s')).1 = (false, 0)
  ∧ (let t := run [CallPut 1 10; CallPut 2 20; CallPut 3 30]
                (KArcCache_new 4 2) in
     ArcLru.ghostCache_ (lruPart_ t) !! 1 = Some (mkArcNode 1 10 1)
     ∧ (get 1 0 t).1 = (false, 0)
     ∧ ArcLru.find_node 1 (ArcLru.main_ (lruPart_ (get 1 0 t).2))
       = Some (mkArcNode 1 10 1)).
Proof. by vm_compute. Qed.

(** The re-admission on a cache of capacity 4: key 1, evicted from the LRU
    part, comes back with its value. *)
Lemma arc_get_ghost_readmits_witness :
  ArcLru.main_
    (lruPart_ (get 1 0 (run [CallPut 1 10; CallPut 2 20; CallPut 3 30]
                          (KArcCache_new 4 2))).2)
  = [mkArcNode 1 10 1; mkArcNode 3 30 1; mkArcNode 2 20 1].
Proof.
  pose (s := run [CallPut 1 10; CallPut 2 20; CallPut 3 30]
               (@KArcCache_new Z _ _ Z 4 2)).
  assert (Hr : reachable s).
  { exists 4, 2, [CallPut 1 10; CallPut 2 20; CallPut 3 30]. split; [lia|done]. }
  destruct (arc_get_ghost_readmits 1 0 s Hr) as [_ Hghost].
  destruct (Hghost eq_refl eq_refl) as (gv & Hgv & _ & _ & _ & Hmain).
  { left. vm_compute. eauto. }
  assert (gv = 10) as -> by (vm_compute in Hgv; congruence).
  destruct Hmain as [_ (l & Hl)]. fold s. rewrite Hl.
  vm_compute in Hl. congruence.
Defined.

(** The capacities of a cache of capacity 4 after a few calls. *)
Lemma arc_capacity_conserved_witness :
  lruCapacity (run [CallPut 1 10; CallPut 2 20; CallPut 3 30; CallGet 1 0]
                 (KArcCache_new 4 2))
  + lfuCapacity (run [CallPut 1 10; CallPut 2 20; CallPut 3 30; CallGet 1 0]
                   (KArcCache_new 4 2)) = 4.
Proof.
  destruct (arc_capacity_conserved (Key:=Z) (Value:=Z) 4 2
              [CallPut 1 10; CallPut 2 20; CallPut 3 30; CallGet 1 0] 1 0
              ltac:(lia)) as ((_ & _ & Hsum) & _).
  exact Hsum.
Defined.

End ArcFacts.

(** ** The sharded caches *)

Module ShardFacts.
Section Shards.
Context {Key : Type} `{Countable Key} {Value : Type}.
Variable Hash : Key → Z.
Variable hardware_concurrency : Z.
Variable sentinelKey : Key.
Implicit Types (key : Key) (v : Value).

(** With a positive shard count every key has its shard. *)
Lemma sliceIndex_valid hash n :
  0 < n < 2 ^ 31 →
  ∃ i, Slices.sliceIndex hash n = Some i ∧ (i < Z.to_nat n)%nat.
Proof.
  intros Hn. unfold Slices.sliceIndex.
  rewrite (MachineIntFacts.to_size_t_small n) by lia.
  rewrite bool_decide_eq_false_2 by lia. eexists. split; [done|].
  pose proof (Z.mod_pos_bound (to_size_t hash) n ltac:(lia)). lia.
Qed.

Lemma shard_lru_sound_new capacity sliceNum :
  0 < Slices.resolve hardware_concurrency sliceNum < 2 ^ 31 →
  HashLru.sound
    (@HashLru.KHashLruCaches_new Key Value hardware_concurrency capacity sliceNum).
Proof.
  intros Hn. split; [done|]. simpl. split; [by rewrite length_replicate|].
  apply Forall_replicate. apply LruFacts.lru_well_formed_new.
Qed.

(** Put then get on the sharded LRU cache. *)
Lemma shard_lru_put_get key v v0 (s : HashLru.KHashLruCaches Key Value) :
  HashLru.sound s →
  (∀ i shard, Slices.sliceIndex (Hash key) (HashLru.sliceNum_ s) = Some i →
              HashLru.lruSliceCaches_ s !! i = Some shard →
              0 < Lru.capacity_ shard) →
  ∃ s' s'', HashLru.put Hash key v s = Some s'
            ∧ HashLru.sound s'
            ∧ HashLru.get Hash key v0 s' = Some (true, v, s'').
Proof.
  intros (Hn & Hlen & Hwf) Hcap.
  destruct (sliceIndex_valid (Hash key) _ Hn) as (i & Hi & Hlt).
  destruct (lookup_lt_is_Some_2 (HashLru.lruSliceCaches_ s) i ltac:(lia))
    as [shard Hshard].
  specialize (Hcap i shard Hi Hshard).
  assert (Hshard_wf : Lru.well_formed shard).
  { rewrite Forall_lookup in Hwf. by apply (Hwf i). }
  unfold HashLru.put, HashLru.get. rewrite Hi. simpl. rewrite Hshard. simpl.
  eexists _, _. split; [done|]. split.
  - split; [done|]. simpl. split; [by rewrite length_insert|].
    apply Forall_insert; [done|]. by apply LruFacts.lru_well_formed_put.
  - simpl. rewrite Hi. simpl. rewrite list_lookup_insert_eq by lia. simpl.
    by rewrite (LruFacts.lru_put_get key v v0 shard Hshard_wf Hcap).
Qed.

Lemma shard_lfu_sound_new capacity sliceNum maxAverageNum :
  0 < Slices.resolve hardware_concurrency sliceNum < 2 ^ 31 →
  HashLfu.sound
    (@HashLfu.KHashLfuCache_new Key _ _ Value hardware_concurrency
       capacity sliceNum maxAverageNum).
Proof.
  intros Hn. split; [done|]. simpl. split; [by rewrite length_replicate|].
  apply Forall_replicate. simpl. apply LfuAgingFacts.usable_new.
  unfold to_int. pose proof (Z.mod_pos_bound
    (Slices.sliceSize capacity (Slices.resolve hardware_concurrency sliceNum)
     + 2 ^ 31) (2 ^ 32) ltac:(lia)). lia.
Qed.

(** Put then get on the sharded LFU cache. *)
Lemma shard_lfu_put_get order order' key v v0
    (s : HashLfu.KHashLfuCache Key Value) :
  LfuAging.iterates order → LfuAging.iterates order' →
  HashLfu.sound s →
  (∀ i shard, Slices.sliceIndex (Hash key) (HashLfu.sliceNum_ s) = Some i →
              HashLfu.lfuSliceCaches_ s !! i = Some shard →
              0 < Lfu.capacity_ (LfuAging.lfu shard)) →
  ∃ s' s'', HashLfu.put Hash sentinelKey order key v s = Some s'
            ∧ HashLfu.sound s'
            ∧ HashLfu.get Hash order' key v0 s' = Some (true, v, s'').
Proof.
  intros Ho Ho' (Hn & Hlen & Hwf) Hcap.
  destruct (sliceIndex_valid (Hash key) _ Hn) as (i & Hi & Hlt).
  destruct (lookup_lt_is_Some_2 (HashLfu.lfuSliceCaches_ s) i ltac:(lia))
    as [shard Hshard].
  specialize (Hcap i shard Hi Hshard).
  assert (Hu : LfuAging.usable (LfuAging.lfu shard)).
  { rewrite Forall_lookup in Hwf. by apply (Hwf i). }
  destruct (LfuAgingFacts.aging_put_spec sentinelKey order key v shard Ho Hu
              ltac:(lia)) as (shard' & Hp & Hu' & Hv).
  destruct (LfuAgingFacts.aging_get_spec order' key v0 shard' Ho' Hu')
    as (shard'' & Hg & _).
  unfold HashLfu.put, HashLfu.get. rewrite Hi. simpl. rewrite Hshard. simpl.
  rewrite Hp. simpl. eexists _, _. split; [done|]. split.
  - split; [done|]. simpl. split; [by rewrite length_insert|].
    by apply Forall_insert.
  - simpl. rewrite Hi. simpl. rewrite list_lookup_insert_eq by lia. simpl.
    rewrite Hg. simpl.
    destruct (Lfu.nodeMap_ (LfuAging.lfu shard') !! key) as [n|]; [|done].
    simpl in Hv. by injection Hv as ->.
Qed.

(** [put] on the sharded LFU cache has a result, which is sound again. *)
Lemma shard_lfu_put_sound order key v (s : HashLfu.KHashLfuCache Key Value) :
  LfuAging.iterates order → HashLfu.sound s →
  ∃ s', HashLfu.put Hash sentinelKey order key v s = Some s'
        ∧ HashLfu.sound s'.
Proof.
  intros Ho (Hn & Hlen & Hwf).
  destruct (sliceIndex_valid (Hash key) _ Hn) as (i & Hi & Hlt).
  destruct (lookup_lt_is_Some_2 (HashLfu.lfuSliceCaches_ s) i ltac:(lia))
    as [shard Hshard].
  assert (Hu : LfuAging.usable (LfuAging.lfu shard)).
  { rewrite Forall_lookup in Hwf. by apply (Hwf i). }
  destruct (LfuAgingFacts.aging_put_total sentinelKey order key v shard Ho Hu)
    as (shard' & Hp & Hu').
  unfold HashLfu.put. rewrite Hi. simpl. rewrite Hshard. simpl.
  rewrite Hp. simpl. eexists. split; [done|].
  split; [done|]. simpl. split; [by rewrite length_insert|].
  by apply Forall_insert.
Qed.

(** The shard count and the shard of a key, as the constructor and the
    calls compute them. *)
Lemma shard_resolve sliceNum :
  (0 < sliceNum → Slices.resolve hardware_concurrency sliceNum = sliceNum)
  ∧ (sliceNum ≤ 0 →
     Slices.resolve hardware_concurrency sliceNum = to_int hardware_concurrency).
Proof.
  unfold Slices.resolve. split; intros Hs.
  - by rewrite bool_decide_eq_true_2.
  - by rewrite bool_decide_eq_false_2 by lia.
Qed.

Lemma shard_lru_delegates key v (s : HashLru.KHashLruCaches Key Value) :
  HashLru.sound s → 0 ≤ Hash key < 2 ^ 64 →
  ∃ shard,
    HashLru.lruSliceCaches_ s
      !! Z.to_nat (Hash key `mod` HashLru.sliceNum_ s) = Some shard
    ∧ HashLru.put Hash key v s =
        Some (HashLru.with_shard s
                (Z.to_nat (Hash key `mod` HashLru.sliceNum_ s))
                (Lru.put key v shard))
    ∧ HashLru.get Hash key v s =
        Some ((Lru.get key v shard).1,
              HashLru.with_shard s
                (Z.to_nat (Hash key `mod` HashLru.sliceNum_ s))
                (Lru.get key v shard).2).
Proof.
  intros (Hn & Hlen & Hwf) Hh.
  pose proof (Z.mod_pos_bound (Hash key) (HashLru.sliceNum_ s) ltac:(lia)).
  destruct (lookup_lt_is_Some_2 (HashLru.lruSliceCaches_ s)
              (Z.to_nat (Hash key `mod` HashLru.sliceNum_ s)) ltac:(lia))
    as [shard Hshard].
  exists shard. split; [done|].
  unfold HashLru.put, HashLru.get, Slices.sliceIndex.
  rewrite (MachineIntFacts.to_size_t_small (HashLru.sliceNum_ s)) by lia.
  rewrite (MachineIntFacts.to_size_t_small (Hash key)) by lia.
  rewrite bool_decide_eq_false_2 by lia. simpl. by rewrite Hshard.
Qed.

End Shards.

(** C8, where the code leaves it: total capacity [2^32], one shard.  The
    ceiling is [2^32], computed exactly in [double]; handed to
    [KLruCache(int capacity)] it keeps its low 32 bits, so the shard is
    built with capacity 0 and stores nothing.  The shard count and the
    capacity of the comment in the source, 100 over 3 shards, come out
    as the claim says. *)
Lemma shard_capacity_narrowed :
  Slices.sliceSize (2 ^ 32) 1 = 2 ^ 32
  ∧ Slices.ceil_div (2 ^ 32) 1 = 2 ^ 32
  ∧ HashLru.lruSliceCaches_ (HashLru.KHashLruCaches_new (Key:=Z) (Value:=Z) 8 (2 ^ 32) 1)
    = [Lru.KLruCache_new 0]
  ∧ HashLru.put (λ k : Z, k) 7 70
      (HashLru.KHashLruCaches_new (Value:=Z) 8 (2 ^ 32) 1)
    = Some (HashLru.KHashLruCaches_new 8 (2 ^ 32) 1)
  ∧ HashLru.get (λ k : Z, k) 7 0
      (HashLru.KHashLruCaches_new (Value:=Z) 8 (2 ^ 32) 1)
    = Some (false, 0, HashLru.KHashLruCaches_new 8 (2 ^ 32) 1)
  ∧ HashLfu.lfuSliceCaches_
      (HashLfu.KHashLfuCache_new (Key:=Z) (Value:=Z) 8 (2 ^ 32) 1 10)
    = [LfuAging.KLfuAgingCache_new 0 10]
  ∧ Slices.sliceSize 100 3 = 34
  ∧ HashLru.lruSliceCaches_ (HashLru.KHashLruCaches_new (Key:=Z) (Value:=Z) 8 100 0)
    = replicate 8 (Lru.KLruCache_new 13).
Proof.
  repeat split; vm_compute; reflexivity.
Qed.

End ShardFacts.

(** ** ARC: where a key can be *)

#[local] Set Warnings "-clear-no-such-hyp".

Module ArcLruKeys.
Import ArcNode ArcLru.
Section ArcLruPart.
Context {Key : Type} `{Countable Key} {Value : Type}.
Implicit Types (s : ArcLruPart Key Value) (l : list (ArcNode Key Value)).
Implicit Types (key : Key).

Lemma elem_of_mainKeys key s : key ∈ mainKeys s ↔ key ∈ key_ <$> main_ s.
Proof. unfold mainKeys. by rewrite elem_of_list_to_set. Qed.

Lemma find_node_keys key l : find_node key l = None ↔ key ∉ key_ <$> l.
Proof.
  induction l as [|n l IH]; simpl.
  - split; [intros _; apply not_elem_of_nil|done].
  - rewrite not_elem_of_cons. destruct (decide (key_ n = key)) as [<-|Hne].
    + split; [done|]. by intros [? _].
    + rewrite IH. split; [by intros ?|by intros [_ ?]].
Qed.

Lemma find_node_key key l n : find_node key l = Some n → key_ n = key.
Proof.
  induction l as [|m l IH]; [done|]. simpl.
  destruct (decide (key_ m = key)); [by intros [= <-]|done].
Qed.

Lemma lrupart_existsInMain_keys key s : existsInMain key s = true ↔ key ∈ mainKeys s.
Proof.
  unfold existsInMain. rewrite bool_decide_eq_true, elem_of_mainKeys.
  destruct (find_node key (main_ s)) as [n|] eqn:Hf.
  - split; [intros _|by eauto].
    destruct (decide (key ∈ key_ <$> main_ s)) as [|Hn]; [done|].
    apply find_node_keys in Hn. congruence.
  - apply find_node_keys in Hf. split; [by intros [? ?]|done].
Qed.

Lemma last_snoc l n : last l = Some n → l = removelast l ++ [n].
Proof.
  induction l as [|m l IH]; [done|].
  destruct l as [|m' l]; [by intros [= <-]|].
  intros Hl. change (m :: m' :: l = m :: (removelast (m' :: l) ++ [n])).
  f_equal. by apply IH.
Qed.

Lemma keys_unlink key l : key_ <$> unlink key l ⊆ key_ <$> l.
Proof.
  induction l as [|n l IH]; [done|]. simpl.
  destruct (decide (key_ n = key)).
  - intros k Hk. by right.
  - simpl. intros k [->|Hk]%elem_of_cons; [by left|]. right. by apply IH.
Qed.

Lemma NoDup_unlink key l : NoDup (key_ <$> l) → NoDup (key_ <$> unlink key l).
Proof.
  induction l as [|n l IH]; [done|]. simpl. intros [Hn Hl]%NoDup_cons.
  destruct (decide (key_ n = key)); [done|]. simpl.
  apply NoDup_cons. split; [|by apply IH].
  intros Hin. apply Hn. by apply (keys_unlink key).
Qed.

Lemma unlink_gone key l : NoDup (key_ <$> l) → key ∉ key_ <$> unlink key l.
Proof.
  induction l as [|n l IH]; [intros _; apply not_elem_of_nil|]. simpl.
  intros [Hn Hl]%NoDup_cons.
  destruct (decide (key_ n = key)) as [<-|Hne]; [done|]. simpl.
  rewrite not_elem_of_cons. split; [done|]. by apply IH.
Qed.

Lemma unlink_other key key' l :
  key' ≠ key → key' ∈ key_ <$> l → key' ∈ key_ <$> unlink key l.
Proof.
  intros Hne. induction l as [|n l IH]; [done|]. simpl.
  intros [->|Hin]%elem_of_cons.
  - rewrite decide_False by done. by left.
  - destruct (decide (key_ n = key)); [done|]. right. by apply IH.
Qed.

Lemma length_unlink key l n :
  find_node key l = Some n → S (length (unlink key l)) = length l.
Proof.
  induction l as [|m l IH]; [done|]. simpl.
  destruct (decide (key_ m = key)); [done|]. intros Hf. simpl. by rewrite IH.
Qed.

(** [evictLeastRecent]: the last node goes from the list to the ghosts. *)
Lemma keys_evictLeastRecent s :
  NoDup (key_ <$> main_ s) →
  NoDup (key_ <$> main_ (evictLeastRecent s))
  ∧ mainKeys (evictLeastRecent s) ⊆ mainKeys s
  ∧ ghostKeys (evictLeastRecent s)
    ⊆ ghostKeys s ∪ (mainKeys s ∖ mainKeys (evictLeastRecent s)).
Proof.
  intros Hnd. unfold evictLeastRecent.
  destruct (last (main_ s)) as [n|] eqn:Hlast; [|set_solver].
  apply last_snoc in Hlast.
  assert (Hk : key_ <$> main_ s = (key_ <$> removelast (main_ s)) ++ [key_ n]).
  { by rewrite Hlast at 1; rewrite fmap_app. }
  rewrite Hk in Hnd. apply NoDup_app in Hnd as (Hnd & Hdis & _).
  unfold mainKeys, ghostKeys. simpl. rewrite Hk, list_to_set_app_L. simpl.
  split; [done|]. split; [set_solver|].
  rewrite dom_insert_L.
  assert (key_ n ∉ key_ <$> removelast (main_ s)).
  { intros Hin. apply (Hdis _ Hin). by left. }
  assert (dom (ghostCache_ (if bool_decide (ghostCapacity_ s
                                            ≤ Z.of_nat (size (ghostCache_ s)))
                            then removeOldestGhost s else s))
          ⊆ dom (ghostCache_ s)).
  { case_bool_decide; [|done]. unfold removeOldestGhost.
    destruct (last (ghost_ s)); [|done]. simpl. rewrite dom_delete_L.
    set_solver. }
  set_solver.
Qed.

Lemma lrupart_keys_decreaseCapacity s :
  NoDup (key_ <$> main_ s) →
  NoDup (key_ <$> main_ (decreaseCapacity s).2)
  ∧ mainKeys (decreaseCapacity s).2 ⊆ mainKeys s
  ∧ ghostKeys (decreaseCapacity s).2
    ⊆ ghostKeys s ∪ (mainKeys s ∖ mainKeys (decreaseCapacity s).2).
Proof.
  intros Hnd. unfold decreaseCapacity. case_bool_decide; [set_solver|].
  simpl. case_bool_decide; [|set_solver].
  by apply keys_evictLeastRecent.
Qed.

Lemma lrupart_room_decreaseCapacity s :
  0 ≤ capacity_ s < 2 ^ 64 →
  Z.of_nat (length (main_ s)) ≤ capacity_ s →
  Z.of_nat (length (main_ (decreaseCapacity s).2))
  ≤ capacity_ (decreaseCapacity s).2.
Proof.
  intros Hc Hroom.
  destruct (ArcLruFacts.arclru_decreaseCapacity_capacity s Hc) as [_ Hcap].
  rewrite Hcap. case_bool_decide as Hpos.
  - destruct (decide (Z.of_nat (length (main_ s)) = capacity_ s)) as [He|Hne].
    + pose proof (ArcLruFacts.arclru_decreaseCapacity_evicts s Hpos He). lia.
    + unfold decreaseCapacity. rewrite bool_decide_eq_false_2 by lia. simpl.
      rewrite bool_decide_eq_false_2 by done. simpl. lia.
  - unfold decreaseCapacity. rewrite bool_decide_eq_true_2 by lia. done.
Qed.

Lemma lrupart_keys_put key value s :
  NoDup (key_ <$> main_ s) →
  NoDup (key_ <$> main_ (put key value s).2)
  ∧ mainKeys (put key value s).2 ⊆ mainKeys s ∪ {[key]}
  ∧ ghostKeys (put key value s).2
    ⊆ ghostKeys s ∪ (mainKeys s ∖ mainKeys (put key value s).2).
Proof.
  intros Hnd. unfold put. case_bool_decide; [set_solver|].
  destruct (find_node key (main_ s)) as [n|] eqn:Hf; simpl.
  - apply find_node_key in Hf as Hk.
    unfold mainKeys, ghostKeys. simpl. rewrite Hk.
    pose proof (unlink_gone key (main_ s) Hnd).
    pose proof (NoDup_unlink key (main_ s) Hnd).
    pose proof (keys_unlink key (main_ s)).
    split; [by apply NoDup_cons|]. split; [set_solver|set_solver].
  - unfold addNewNode.
    set (s1 := if bool_decide (capacity_ s ≤ Z.of_nat (length (main_ s)))
               then evictLeastRecent s else s).
    assert (Hs1 : NoDup (key_ <$> main_ s1) ∧ mainKeys s1 ⊆ mainKeys s
                  ∧ ghostKeys s1 ⊆ ghostKeys s ∪ (mainKeys s ∖ mainKeys s1)).
    { unfold s1. case_bool_decide; [by apply keys_evictLeastRecent|set_solver]. }
    destruct Hs1 as (Hnd1 & Hm1 & Hg1).
    apply find_node_keys in Hf. rewrite <- elem_of_mainKeys in Hf.
    unfold mainKeys, ghostKeys in *. simpl.
    split; [apply NoDup_cons; split; [|done]|split; [set_solver|set_solver]].
    intros Hin. apply Hf. apply Hm1. by rewrite elem_of_list_to_set.
Qed.

Lemma lrupart_room_put key value s :
  0 ≤ capacity_ s →
  Z.of_nat (length (main_ s)) ≤ capacity_ s →
  Z.of_nat (length (main_ (put key value s).2)) ≤ capacity_ (put key value s).2.
Proof.
  intros Hc Hroom. unfold put. case_bool_decide as Hz; [done|].
  destruct (find_node key (main_ s)) as [n|] eqn:Hf; simpl.
  - pose proof (length_unlink key (main_ s) n Hf). lia.
  - unfold addNewNode. case_bool_decide as Hfull; simpl; [|lia].
    rewrite ArcLruFacts.main_evictLeastRecent.
    rewrite (proj1 (ArcLruFacts.capacity_evictLeastRecent s)).
    assert (main_ s ≠ []) by (intros He; rewrite He in Hfull; simpl in *; lia).
    pose proof (ArcLruFacts.length_removelast (main_ s) ltac:(done)). lia.
Qed.

Lemma lrupart_keys_get key value b s :
  NoDup (key_ <$> main_ s) →
  NoDup (key_ <$> main_ (get key value b s).2)
  ∧ mainKeys (get key value b s).2 = mainKeys s
  ∧ ghostKeys (get key value b s).2 = ghostKeys s
  ∧ length (main_ (get key value b s).2) = length (main_ s)
  ∧ capacity_ (get key value b s).2 = capacity_ s.
Proof.
  intros Hnd. unfold get.
  destruct (find_node key (main_ s)) as [n|] eqn:Hf; simpl; [|done].
  apply find_node_key in Hf as Hk.
  pose proof (unlink_gone key (main_ s) Hnd).
  pose proof (NoDup_unlink key (main_ s) Hnd).
  pose proof (keys_unlink key (main_ s)).
  pose proof (length_unlink key (main_ s) n Hf).
  assert (key ∈ key_ <$> main_ s).
  { destruct (decide (key ∈ key_ <$> main_ s)) as [|Hn]; [done|].
    apply find_node_keys in Hn. congruence. }
  unfold mainKeys, ghostKeys. simpl. rewrite Hk.
  split; [by apply NoDup_cons|]. split; [|done].
  apply set_eq. intros k. rewrite elem_of_union, elem_of_singleton,
    !elem_of_list_to_set.
  split.
  - intros [->|Hin]; [done|]. by apply (keys_unlink key).
  - intros Hin. destruct (decide (k = key)) as [->|Hne]; [by left|].
    right. by apply unlink_other.
Qed.

Lemma keys_remove key s :
  NoDup (key_ <$> main_ s) →
  NoDup (key_ <$> main_ (remove key s))
  ∧ mainKeys (remove key s) = mainKeys s ∖ {[key]}
  ∧ ghostKeys (remove key s) = ghostKeys s
  ∧ (length (main_ (remove key s)) ≤ length (main_ s))%nat
  ∧ capacity_ (remove key s) = capacity_ s.
Proof.
  intros Hnd. unfold remove.
  destruct (find_node key (main_ s)) as [n|] eqn:Hf; simpl.
  - pose proof (unlink_gone key (main_ s) Hnd).
    pose proof (length_unlink key (main_ s) n Hf).
    split; [by apply NoDup_unlink|]. split; [|split; [done|split; [lia|done]]].
    unfold mainKeys. simpl. apply set_eq. intros k.
    rewrite elem_of_difference, elem_of_singleton, !elem_of_list_to_set.
    split.
    + intros Hin. split; [by apply (keys_unlink key)|]. by intros ->.
    + intros [Hin Hne]. by apply unlink_other.
  - apply find_node_keys in Hf. rewrite <- elem_of_mainKeys in Hf.
    split; [done|]. split; [set_solver|done].
Qed.

Lemma lrupart_keys_checkGhost key s :
  main_ (checkGhost key s).2 = main_ s
  ∧ ghostKeys (checkGhost key s).2 = ghostKeys s ∖ {[key]}.
Proof.
  unfold checkGhost, ghostKeys.
  destruct (ghostCache_ s !! key) as [n|] eqn:Hg; simpl.
  - by rewrite dom_delete_L.
  - split; [done|]. apply not_elem_of_dom in Hg. set_solver.
Qed.

End ArcLruPart.
End ArcLruKeys.

Module ArcLfuKeys.
Import ArcNode ArcLfu.
Section ArcLfuPart.
Context {Key : Type} `{Countable Key} {Value : Type}.
Implicit Types (s : ArcLfuPart Key Value) (key : Key).

Lemma lfupart_existsInMain_keys key s : existsInMain key s = true ↔ key ∈ mainKeys s.
Proof.
  unfold existsInMain, mainKeys. by rewrite bool_decide_eq_true, elem_of_dom.
Qed.

Lemma keys_evictLeastFrequent s :
  linked s →
  mainKeys (evictLeastFrequent s) ⊆ mainKeys s
  ∧ ghostKeys (evictLeastFrequent s)
    ⊆ ghostKeys s ∪ (mainKeys s ∖ mainKeys (evictLeastFrequent s)).
Proof.
  intros Hs. unfold evictLeastFrequent.
  destruct (decide (size (freqMap_ s) = 0%nat)) as [|Hsz]; [set_solver|].
  destruct (freqMap_ s !! minFreq_ s) as [[|n rest]|] eqn:Hl; [set_solver| |set_solver].
  destruct (linked_list s Hs _ _ Hl) as (_ & _ & Hin).
  destruct (Hin n ltac:(by left)) as [Hn _].
  apply elem_of_dom_2 in Hn.
  unfold mainKeys, ghostKeys in *. simpl.
  rewrite dom_delete_L, dom_insert_L.
  assert (dom (ghostCache_ (if bool_decide (ghostCapacity_ s
                                            ≤ Z.of_nat (size (ghostCache_ s)))
                            then removeOldestGhost s else s))
          ⊆ dom (ghostCache_ s)).
  { case_bool_decide; [|done]. unfold removeOldestGhost.
    destruct (ghost_ s); [done|]. simpl. rewrite dom_delete_L. set_solver. }
  set_solver.
Qed.

Lemma size_evictLeastFrequent s :
  linked s → mainCache_ s ≠ ∅ →
  S (size (mainCache_ (evictLeastFrequent s))) = size (mainCache_ s).
Proof.
  intros Hs Hne.
  destruct (ArcLfuFacts.evictLeastFrequent_spec s Hs Hne) as (n & Hn & Hm & _).
  rewrite Hm. pose proof (map_size_delete (key_ n) (mainCache_ s)) as Hsz.
  rewrite Hn in Hsz. rewrite Hsz.
  assert (size (mainCache_ s) ≠ 0%nat); [|lia].
  by rewrite map_size_non_empty_iff.
Qed.

Lemma lfupart_keys_decreaseCapacity s :
  linked s →
  mainKeys (decreaseCapacity s).2 ⊆ mainKeys s
  ∧ ghostKeys (decreaseCapacity s).2
    ⊆ ghostKeys s ∪ (mainKeys s ∖ mainKeys (decreaseCapacity s).2).
Proof.
  intros Hs. unfold decreaseCapacity. case_bool_decide; [set_solver|].
  simpl. case_bool_decide; [|set_solver].
  by apply keys_evictLeastFrequent.
Qed.

Lemma lfupart_room_decreaseCapacity s :
  linked s → 0 ≤ capacity_ s < 2 ^ 64 →
  Z.of_nat (size (mainCache_ s)) ≤ capacity_ s →
  Z.of_nat (size (mainCache_ (decreaseCapacity s).2))
  ≤ capacity_ (decreaseCapacity s).2.
Proof.
  intros Hs Hc Hroom.
  destruct (ArcLfuFacts.arclfu_decreaseCapacity_capacity s Hc) as [_ Hcap].
  rewrite Hcap. case_bool_decide as Hpos.
  - destruct (decide (Z.of_nat (size (mainCache_ s)) = capacity_ s)) as [He|Hne].
    + pose proof (ArcLfuFacts.arclfu_decreaseCapacity_evicts s Hs Hpos He). lia.
    + unfold decreaseCapacity. rewrite bool_decide_eq_false_2 by lia. simpl.
      rewrite bool_decide_eq_false_2 by done. simpl. lia.
  - unfold decreaseCapacity. rewrite bool_decide_eq_true_2 by lia. done.
Qed.

Lemma ghostCache_updateExistingNode n value s :
  ghostCache_ (updateExistingNode n value s) = ghostCache_ s
  ∧ capacity_ (updateExistingNode n value s) = capacity_ s.
Proof. done. Qed.

Lemma lfupart_keys_put key value s :
  linked s →
  mainKeys (put key value s).2 ⊆ mainKeys s ∪ {[key]}
  ∧ ghostKeys (put key value s).2
    ⊆ ghostKeys s ∪ (mainKeys s ∖ mainKeys (put key value s).2).
Proof.
  intros Hs. unfold put. case_bool_decide; [set_solver|].
  destruct (mainCache_ s !! key) as [n|] eqn:Hn; simpl.
  - destruct (linked_index s Hs key n Hn) as [Hk _].
    unfold mainKeys, ghostKeys.
    rewrite ArcLfuFacts.mainCache_updateExistingNode, dom_insert_L, Hk.
    rewrite (proj1 (ghostCache_updateExistingNode n value s)). set_solver.
  - unfold addNewNode.
    set (s1 := if bool_decide (capacity_ s ≤ Z.of_nat (size (mainCache_ s)))
               then evictLeastFrequent s else s).
    assert (Hs1 : mainKeys s1 ⊆ mainKeys s
                  ∧ ghostKeys s1 ⊆ ghostKeys s ∪ (mainKeys s ∖ mainKeys s1)).
    { unfold s1. case_bool_decide; [by apply keys_evictLeastFrequent|set_solver]. }
    destruct Hs1 as (Hm1 & Hg1). apply not_elem_of_dom in Hn.
    unfold mainKeys, ghostKeys in *. simpl. rewrite dom_insert_L. set_solver.
Qed.

Lemma lfupart_room_put key value s :
  linked s → 0 ≤ capacity_ s →
  Z.of_nat (size (mainCache_ s)) ≤ capacity_ s →
  Z.of_nat (size (mainCache_ (put key value s).2)) ≤ capacity_ (put key value s).2.
Proof.
  intros Hs Hc Hroom. unfold put. case_bool_decide as Hz; [done|].
  destruct (mainCache_ s !! key) as [n|] eqn:Hn; cbn [snd].
  - destruct (linked_index s Hs key n Hn) as [Hk _].
    rewrite ArcLfuFacts.mainCache_updateExistingNode, Hk.
    rewrite (proj2 (ghostCache_updateExistingNode n value s)).
    rewrite <- !size_dom, dom_insert_L.
    apply elem_of_dom_2 in Hn.
    replace ({[key]} ∪ dom (mainCache_ s)) with (dom (mainCache_ s))
      by set_solver.
    by rewrite size_dom.
  - unfold addNewNode. case_bool_decide as Hfull; simpl.
    + rewrite ArcLfuFacts.capacity_evictLeastFrequent.
      rewrite map_size_insert_None
        by by apply ArcLfuFacts.mainCache_evictLeastFrequent_subseteq.
      assert (mainCache_ s ≠ ∅).
      { intros He. rewrite He, map_size_empty in Hfull. simpl in *. lia. }
      pose proof (size_evictLeastFrequent s Hs ltac:(done)). lia.
    + rewrite map_size_insert_None by done. lia.
Qed.

Lemma lfupart_keys_get key value s :
  linked s →
  mainKeys (get key value s).2 = mainKeys s
  ∧ ghostKeys (get key value s).2 = ghostKeys s
  ∧ size (mainCache_ (get key value s).2) = size (mainCache_ s)
  ∧ capacity_ (get key value s).2 = capacity_ s.
Proof.
  intros Hs. unfold get.
  destruct (mainCache_ s !! key) as [n|] eqn:Hn; cbn [snd]; [|done].
  destruct (linked_index s Hs key n Hn) as [Hk _].
  rewrite ArcLfuFacts.updateNodeFrequency_as_update by by rewrite Hk.
  unfold mainKeys, ghostKeys.
  rewrite ArcLfuFacts.mainCache_updateExistingNode, Hk.
  apply elem_of_dom_2 in Hn.
  assert (Hd : dom (<[key := incrementAccessCount (setValue n (value_ n))]>
                      (mainCache_ s)) = dom (mainCache_ s)).
  { rewrite dom_insert_L. set_solver. }
  split; [done|]. split; [done|]. split; [|done].
  by rewrite <- !size_dom, Hd.
Qed.

Lemma lfupart_keys_checkGhost key s :
  mainCache_ (checkGhost key s).2 = mainCache_ s
  ∧ ghostKeys (checkGhost key s).2 = ghostKeys s ∖ {[key]}.
Proof.
  unfold checkGhost, ghostKeys.
  destruct (ghostCache_ s !! key) as [n|] eqn:Hg; simpl.
  - by rewrite dom_delete_L.
  - split; [done|]. apply not_elem_of_dom in Hg. set_solver.
Qed.

End ArcLfuPart.
End ArcLfuKeys.

Module ArcCoherence.
Import ArcNode Arc.
Section KArcCache.
Context {Key : Type} `{Countable Key} {Value : Type}.
Implicit Types (s : KArcCache Key Value) (key : Key) (value : Value).
Implicit Types (lru : ArcLru.ArcLruPart Key Value).
Implicit Types (lfu : ArcLfu.ArcLfuPart Key Value).

(** A change of the LRU part that keeps the cache coherent: keys may leave
    the main list for the ghost index, and keys of [K], held nowhere else,
    may come in. *)
Lemma coherent_lru_update (K : gset Key) c t c' t' lru lfu lru' :
  coherent (mkKArcCache c t lru lfu) →
  NoDup (key_ <$> ArcLru.main_ lru') →
  ArcLru.mainKeys lru' ⊆ ArcLru.mainKeys lru ∪ K →
  ArcLru.ghostKeys lru'
  ⊆ ArcLru.ghostKeys lru ∪ (ArcLru.mainKeys lru ∖ ArcLru.mainKeys lru') →
  K ## ArcLru.ghostKeys lru ∪ ArcLfu.ghostKeys lfu ∪ ArcLfu.mainKeys lfu →
  Z.of_nat (length (ArcLru.main_ lru')) ≤ ArcLru.capacity_ lru' →
  coherent (mkKArcCache c' t' lru' lfu).
Proof.
  intros [Hnd Hmains Hg1 Hg2 Hr1 Hr2] Hnd' Hm' Hg' HK Hr'.
  unfold lruCapacity, lfuCapacity in *. simpl in *.
  split; unfold lruCapacity, lfuCapacity; simpl; [done| | | |done|done].
  - set_solver.
  - set_solver.
  - set_solver.
Qed.

Lemma coherent_lfu_update (K : gset Key) c t c' t' lru lfu lfu' :
  coherent (mkKArcCache c t lru lfu) →
  ArcLfu.mainKeys lfu' ⊆ ArcLfu.mainKeys lfu ∪ K →
  ArcLfu.ghostKeys lfu'
  ⊆ ArcLfu.ghostKeys lfu ∪ (ArcLfu.mainKeys lfu ∖ ArcLfu.mainKeys lfu') →
  K ## ArcLru.ghostKeys lru ∪ ArcLfu.ghostKeys lfu ∪ ArcLru.mainKeys lru →
  Z.of_nat (size (ArcLfu.mainCache_ lfu')) ≤ ArcLfu.capacity_ lfu' →
  coherent (mkKArcCache c' t' lru lfu').
Proof.
  intros [Hnd Hmains Hg1 Hg2 Hr1 Hr2] Hm' Hg' HK Hr'.
  unfold lruCapacity, lfuCapacity in *. simpl in *.
  split; unfold lruCapacity, lfuCapacity; simpl; [done| | | |done|done].
  - set_solver.
  - set_solver.
  - set_solver.
Qed.

Lemma coherent_new capacity transformThreshold :
  0 ≤ capacity →
  coherent (@KArcCache_new Key _ _ Value capacity transformThreshold).
Proof.
  intros Hc. pose proof (Z.div_pos capacity 2 Hc ltac:(lia)).
  split; unfold lruCapacity, lfuCapacity, ArcLru.mainKeys, ArcLfu.mainKeys,
    ArcLru.ghostKeys, ArcLfu.ghostKeys; simpl;
    [apply NoDup_nil_2|set_solver|set_solver|set_solver|done|done].
Qed.

(** The two halves of the ghost check. *)
Lemma coherent_checkLruGhost total key s :
  balanced total s → coherent s → coherent (checkLruGhost key s).2.
Proof.
  intros (Hlru0 & Hlfu0 & Hsum & Htot & Hlinked) Hc.
  destruct s as [c t lru lfu]. unfold lruCapacity, lfuCapacity in *.
  simpl in *. unfold checkLruGhost. simpl.
  destruct (ArcLruKeys.lrupart_keys_checkGhost key lru) as [Hm Hg].
  destruct (ArcLruFacts.arclru_capacity_checkGhost key lru) as [Hcap _].
  pose proof (coherent_once _ Hc) as Hnd.
  pose proof (coherent_lru_room _ Hc) as Hroom.
  pose proof (coherent_lfu_room _ Hc) as Hroom'.
  unfold lruCapacity, lfuCapacity in *. simpl in *.
  destruct (ArcLru.checkGhost key lru) as [[gv|] lru1]; simpl in *.
  - destruct (ArcLfuKeys.lfupart_keys_decreaseCapacity lfu Hlinked) as [HM HG].
    pose proof (ArcLfuKeys.lfupart_room_decreaseCapacity lfu Hlinked ltac:(lia) Hroom')
      as Hr.
    destruct (ArcLfuFacts.arclfu_decreaseCapacity_capacity lfu ltac:(lia))
      as [Hshr _].
    destruct (ArcLfu.decreaseCapacity lfu) as [shrunk lfu1]. simpl in *.
    apply (coherent_lru_update ∅ c t c t lru lfu1).
    + apply (coherent_lfu_update ∅ c t c t lru lfu); [done|set_solver|done|
        set_solver|done].
    + destruct shrunk; simpl; by rewrite Hm.
    + unfold ArcLru.mainKeys. destruct shrunk; simpl; rewrite Hm; set_solver.
    + unfold ArcLru.mainKeys, ArcLru.ghostKeys in *.
      destruct shrunk; simpl; rewrite Hm; set_solver.
    + set_solver.
    + destruct shrunk; simpl; rewrite Hm, ?Hcap; [|done].
      symmetry in Hshr. apply bool_decide_eq_true in Hshr.
      rewrite MachineIntFacts.to_size_t_small by lia. lia.
  - apply (coherent_lru_update ∅ c t c t lru lfu); [done|by rewrite Hm| | |
      set_solver|by rewrite Hm, Hcap].
    + unfold ArcLru.mainKeys. rewrite Hm. set_solver.
    + set_solver.
Qed.

Lemma coherent_checkLfuGhost total key s :
  balanced total s → coherent s → coherent (checkLfuGhost key s).2.
Proof.
  intros (Hlru0 & Hlfu0 & Hsum & Htot & Hlinked) Hc.
  destruct s as [c t lru lfu]. unfold lruCapacity, lfuCapacity in *.
  simpl in *. unfold checkLfuGhost. simpl.
  destruct (ArcLfuKeys.lfupart_keys_checkGhost key lfu) as [Hm Hg].
  pose proof (ArcLfuFacts.arclfu_capacity_checkGhost key lfu) as Hcap.
  pose proof (coherent_once _ Hc) as Hnd.
  pose proof (coherent_lru_room _ Hc) as Hroom.
  pose proof (coherent_lfu_room _ Hc) as Hroom'.
  unfold lruCapacity, lfuCapacity in *. simpl in *.
  destruct (ArcLfu.checkGhost key lfu) as [[gv|] lfu1]; simpl in *.
  - destruct (ArcLruKeys.lrupart_keys_decreaseCapacity lru Hnd) as (Hnd1 & HM & HG).
    pose proof (ArcLruKeys.lrupart_room_decreaseCapacity lru ltac:(lia) Hroom) as Hr.
    destruct (ArcLruFacts.arclru_decreaseCapacity_capacity lru ltac:(lia))
      as [Hshr _].
    destruct (ArcLru.decreaseCapacity lru) as [shrunk lru1]. simpl in *.
    apply (coherent_lfu_update ∅ c t c t lru1 lfu).
    + apply (coherent_lru_update ∅ c t c t lru lfu); [done|done|set_solver|done|
        set_solver|done].
    + unfold ArcLfu.mainKeys. destruct shrunk; simpl; rewrite Hm; set_solver.
    + unfold ArcLfu.mainKeys, ArcLfu.ghostKeys in *.
      destruct shrunk; simpl; rewrite Hm; set_solver.
    + set_solver.
    + destruct shrunk; simpl; rewrite Hm, ?Hcap; [|done].
      symmetry in Hshr. apply bool_decide_eq_true in Hshr.
      rewrite MachineIntFacts.to_size_t_small by lia. lia.
  - apply (coherent_lfu_update ∅ c t c t lru lfu); [done| | |
      set_solver|by rewrite Hm, Hcap].
    + unfold ArcLfu.mainKeys. rewrite Hm. set_solver.
    + set_solver.
Qed.

Lemma coherent_checkGhostCaches total key s :
  balanced total s → coherent s → coherent (checkGhostCaches key s).2.
Proof.
  intros Hb Hc. rewrite ArcFacts.checkGhostCaches_halves.
  apply (coherent_checkLfuGhost total).
  - by apply ArcFacts.checkLruGhost_capacity.
  - by apply (coherent_checkLruGhost total).
Qed.
(** A key in neither main part. *)

Lemma arc_last_key key (l : list (ArcNode Key Value)) n :
  ArcLru.find_node key l = None → last l = Some n → key_ n ≠ key.
Proof.
  induction l as [|n0 l IH]; [done|]. simpl.
  destruct (decide (key_ n0 = key)); [done|]. intros Hf.
  destruct l as [|m l]; [by intros [= <-]|]. by apply IH.
Qed.

Lemma arc_ghost_removeOldestGhost key (lru : ArcLru.ArcLruPart Key Value) :
  ArcLru.ghostCache_ lru !! key = None →
  ArcLru.ghostCache_ (ArcLru.removeOldestGhost lru) !! key = None.
Proof.
  intros Hg. unfold ArcLru.removeOldestGhost.
  destruct (last (ArcLru.ghost_ lru)) as [n|]; [|done]. simpl.
  rewrite lookup_delete. by case_decide.
Qed.

Lemma arc_ghost_evictLeastRecent key (lru : ArcLru.ArcLruPart Key Value) :
  ArcLru.find_node key (ArcLru.main_ lru) = None →
  ArcLru.ghostCache_ lru !! key = None →
  ArcLru.ghostCache_ (ArcLru.evictLeastRecent lru) !! key = None.
Proof.
  intros Hf Hg. unfold ArcLru.evictLeastRecent.
  destruct (last (ArcLru.main_ lru)) as [n|] eqn:Hlast; [|done]. simpl.
  rewrite lookup_insert_ne by by eapply arc_last_key.
  case_bool_decide; [|done]. by apply arc_ghost_removeOldestGhost.
Qed.

Lemma arc_ghost_decreaseCapacity key (lru : ArcLru.ArcLruPart Key Value) :
  ArcLru.find_node key (ArcLru.main_ lru) = None →
  ArcLru.ghostCache_ lru !! key = None →
  ArcLru.ghostCache_ (ArcLru.decreaseCapacity lru).2 !! key = None.
Proof.
  intros Hf Hg. unfold ArcLru.decreaseCapacity.
  case_bool_decide; [done|]. simpl.
  case_bool_decide; [|done]. by apply arc_ghost_evictLeastRecent.
Qed.

Lemma arc_ghost_put key v (lru : ArcLru.ArcLruPart Key Value) :
  ArcLru.find_node key (ArcLru.main_ lru) = None →
  ArcLru.ghostCache_ lru !! key = None →
  ArcLru.ghostCache_ (ArcLru.put key v lru).2 !! key = None.
Proof.
  intros Hf Hg. unfold ArcLru.put. case_bool_decide; [done|].
  rewrite Hf. simpl. unfold ArcLru.addNewNode. simpl.
  case_bool_decide; [|done]. by apply arc_ghost_evictLeastRecent.
Qed.

(** After the ghost check neither ghost index holds the key. *)
Lemma arc_checked_ghosts key s :
  ArcLru.find_node key (ArcLru.main_ (lruPart_ s)) = None →
  ArcLru.ghostCache_ (lruPart_ (checkGhostCaches key s).2) !! key = None
  ∧ ArcLfu.ghostCache_ (lfuPart_ (checkGhostCaches key s).2) !! key = None.
Proof.
  intros Hf. rewrite ArcFacts.checkGhostCaches_halves.
  assert (Hlru : ArcLru.ghostCache_ (lruPart_ (checkLruGhost key s).2)
                   !! key = None
                 ∧ ArcLru.find_node key
                     (ArcLru.main_ (lruPart_ (checkLruGhost key s).2))
                   = None).
  { split; [|by rewrite (proj1 (ArcFacts.checkLruGhost_main key key s))].
    unfold checkLruGhost, ArcLru.checkGhost.
    destruct (ArcLru.ghostCache_ (lruPart_ s) !! key) as [n|] eqn:Hg;
      simpl; [|done].
    destruct (ArcLfu.decreaseCapacity (lfuPart_ s)) as [[] lfu]; simpl;
      apply lookup_delete_eq. }
  destruct Hlru as [Hg1 Hf1].
  generalize dependent (checkLruGhost key s).2. intros s1 Hg1 Hf1.
  unfold checkLfuGhost, ArcLfu.checkGhost.
  destruct (ArcLfu.ghostCache_ (lfuPart_ s1) !! key) as [n|] eqn:Hg;
    simpl; [|done].
  pose proof (arc_ghost_decreaseCapacity key (lruPart_ s1) Hf1 Hg1) as Hd.
  destruct (ArcLru.decreaseCapacity (lruPart_ s1)) as [[] lru]; simpl in *;
    (split; [done|apply lookup_delete_eq]).
Qed.

(** With the key in neither ghost index the ghost check changes nothing. *)
Lemma arc_checkGhostCaches_none key s :
  ArcLru.ghostCache_ (lruPart_ s) !! key = None →
  ArcLfu.ghostCache_ (lfuPart_ s) !! key = None →
  checkGhostCaches key s = (None, s).
Proof.
  intros Hg1 Hg2.
  unfold checkGhostCaches, checkLruGhost, ArcLru.checkGhost.
  rewrite Hg1. simpl.
  unfold checkLfuGhost, ArcLfu.checkGhost. simpl. rewrite Hg2. simpl.
  by destruct s.
Qed.

Lemma arc_put_get_fresh key v v0 s :
  ArcLru.existsInMain key (lruPart_ s) = false →
  ArcLfu.existsInMain key (lfuPart_ s) = false →
  lruCapacity (checkGhostCaches key s).2 ≠ 0 →
  (get key v0 (put key v s)).1 = (true, v).
Proof.
  intros Hlru%ArcFacts.existsInMain_lru_false Hlfu%ArcFacts.existsInMain_lfu_false
    Hcap.
  destruct (ArcFacts.checkGhostCaches_main key key s) as [Hm1 Hm2].
  specialize (Hm1 Hlru). specialize (Hm2 Hlfu).
  destruct (arc_checked_ghosts key s Hlru) as [Hg1 Hg2].
  unfold put.
  destruct (checkGhostCaches key s) as [g s1]. simpl in *.
  rewrite (proj2 (ArcFacts.existsInMain_lru_false key _) Hm1).
  rewrite (proj2 (ArcFacts.existsInMain_lfu_false key _) Hm2). simpl.
  pose proof (ArcLruFacts.arclru_put_absent key v (lruPart_ s1) Hm1) as Hput.
  rewrite bool_decide_eq_false_2 in Hput by done.
  destruct Hput as (l & Hmain & Hl).
  pose proof (arc_ghost_put key v (lruPart_ s1) Hm1 Hg1) as Hg1'.
  unfold get. rewrite arc_checkGhostCaches_none by done. simpl.
  unfold ArcLru.existsInMain, ArcLfu.existsInMain, ArcLru.get.
  rewrite Hmain. simpl. rewrite decide_True by done.
  rewrite bool_decide_eq_true_2 by eauto.
  rewrite bool_decide_eq_false_2 by by rewrite Hm2, <- eq_None_not_Some.
  simpl.
  by destruct (transform _ _ _ _ _).
Qed.


(** After the ghost check of a key, neither ghost index holds it. *)
Lemma checked_no_ghost key s :
  coherent s →
  (key ∉ ArcLru.ghostKeys (lruPart_ (checkGhostCaches key s).2))
  ∧ (key ∉ ArcLfu.ghostKeys (lfuPart_ (checkGhostCaches key s).2)).
Proof.
  intros Hc. unfold ArcLru.ghostKeys, ArcLfu.ghostKeys.
  rewrite !not_elem_of_dom.
  destruct (ArcLru.find_node key (ArcLru.main_ (lruPart_ s))) as [n|] eqn:Hf;
    [|by apply arc_checked_ghosts].
  assert (Hin : key ∈ ArcLru.mainKeys (lruPart_ s)).
  { apply ArcLruKeys.lrupart_existsInMain_keys. unfold ArcLru.existsInMain.
    rewrite Hf. by apply bool_decide_eq_true_2. }
  pose proof (coherent_lru_ghost s Hc) as Hg1.
  pose proof (coherent_lfu_ghost s Hc) as Hg2.
  assert (Hn1 : ArcLru.ghostCache_ (lruPart_ s) !! key = None).
  { apply not_elem_of_dom. unfold ArcLru.ghostKeys in Hg1. set_solver. }
  assert (Hn2 : ArcLfu.ghostCache_ (lfuPart_ s) !! key = None).
  { apply not_elem_of_dom. unfold ArcLfu.ghostKeys in Hg2. set_solver. }
  by rewrite arc_checkGhostCaches_none.
Qed.

(** The move of an entry from the LRU part to the LFU part. *)
Lemma coherent_transform key value (b : bool) c t lru lfu lru1 :
  coherent (mkKArcCache c t lru lfu) →
  ArcLfu.linked lfu → 0 ≤ ArcLfu.capacity_ lfu →
  key ∉ ArcLru.ghostKeys lru → key ∉ ArcLfu.ghostKeys lfu →
  key ∉ ArcLfu.mainKeys lfu →
  NoDup (key_ <$> ArcLru.main_ lru1) →
  ArcLru.mainKeys lru1 ⊆ ArcLru.mainKeys lru ∪ {[key]} →
  ArcLru.ghostKeys lru1 = ArcLru.ghostKeys lru →
  Z.of_nat (length (ArcLru.main_ lru1)) ≤ ArcLru.capacity_ lru1 →
  coherent (mkKArcCache c t (transform key value b lru1 lfu).1
              (transform key value b lru1 lfu).2).
Proof.
  intros Hc Hlinked Hcap Hg1 Hg2 Hm2 Hnd1 HM1 HG1 Hr1.
  pose proof (coherent_lfu_room _ Hc) as Hroom. unfold lfuCapacity in Hroom.
  simpl in Hroom.
  destruct b; simpl.
  - destruct (ArcLruKeys.keys_remove key lru1 Hnd1)
      as (Hnd2 & HM2 & HG2 & Hlen & Hcap2).
    destruct (ArcLfuKeys.lfupart_keys_put key value lfu Hlinked) as [HMf HGf].
    pose proof (ArcLfuKeys.lfupart_room_put key value lfu Hlinked Hcap Hroom) as Hrf.
    apply (coherent_lfu_update {[key]} c t c t (ArcLru.remove key lru1) lfu);
      [|done|done| |done].
    + apply (coherent_lru_update ∅ c t c t lru lfu);
        [done|done|set_solver|set_solver|set_solver|lia].
    + set_solver.
  - apply (coherent_lru_update {[key]} c t c t lru lfu);
      [done|done|done|set_solver|set_solver|done].
Qed.

Lemma keys_put_present key value lru :
  key ∈ ArcLru.mainKeys lru →
  ArcLru.ghostKeys (ArcLru.put key value lru).2 = ArcLru.ghostKeys lru.
Proof.
  intros Hin. unfold ArcLru.put. case_bool_decide; [done|].
  destruct (ArcLru.find_node key (ArcLru.main_ lru)) as [n|] eqn:Hf; [done|].
  apply ArcLruKeys.find_node_keys in Hf.
  by apply ArcLruKeys.elem_of_mainKeys in Hin.
Qed.

Lemma coherent_put total key value s :
  balanced total s → coherent s → coherent (put key value s).
Proof.
  intros Hb Hc.
  pose proof (ArcFacts.balanced_checkGhostCaches total key s Hb) as Hb1.
  pose proof (coherent_checkGhostCaches total key s Hb Hc) as Hc1.
  destruct (checked_no_ghost key s Hc) as [Hg1 Hg2].
  unfold put. destruct (checkGhostCaches key s) as [g [c t lru lfu]].
  simpl in *. clear Hb Hc s g.
  destruct Hb1 as (Hlru0 & Hlfu0 & _ & _ & Hlinked).
  unfold lruCapacity, lfuCapacity in *. simpl in *.
  pose proof (coherent_once _ Hc1) as Hnd.
  pose proof (coherent_mains _ Hc1) as Hmains.
  pose proof (coherent_lru_room _ Hc1) as Hroom1.
  pose proof (coherent_lfu_room _ Hc1) as Hroom2.
  unfold lruCapacity, lfuCapacity in *. simpl in *.
  destruct (ArcLruKeys.lrupart_keys_put key value lru Hnd) as (Hnd1 & HM1 & HG1).
  pose proof (ArcLruKeys.lrupart_room_put key value lru Hlru0 Hroom1) as Hr1.
  destruct (ArcLfuKeys.lfupart_keys_put key value lfu Hlinked) as [HMf HGf].
  pose proof (ArcLfuKeys.lfupart_room_put key value lfu Hlinked Hlfu0 Hroom2) as Hrf.
  destruct (ArcLru.existsInMain key lru) eqn:Hin1;
    destruct (ArcLfu.existsInMain key lfu) eqn:Hin2; simpl.
  - apply ArcLruKeys.lrupart_existsInMain_keys in Hin1.
    apply ArcLfuKeys.lfupart_existsInMain_keys in Hin2. set_solver.
  - apply ArcLruKeys.lrupart_existsInMain_keys in Hin1.
    pose proof (keys_put_present key value lru Hin1) as HG1'.
    assert (Hm2 : key ∉ ArcLfu.mainKeys lfu).
    { rewrite <- ArcLfuKeys.lfupart_existsInMain_keys. by rewrite Hin2. }
    pose proof (coherent_transform key value (ArcLru.put key value lru).1
                  c t lru lfu (ArcLru.put key value lru).2 Hc1 Hlinked Hlfu0
                  Hg1 Hg2 Hm2 Hnd1 HM1 HG1' Hr1) as Ht.
    destruct (ArcLru.put key value lru) as [st lru1]. simpl in *.
    by destruct (transform key value st lru1 lfu).
  - assert (Hm1 : key ∉ ArcLru.mainKeys lru).
    { rewrite <- ArcLruKeys.lrupart_existsInMain_keys. by rewrite Hin1. }
    apply (coherent_lfu_update {[key]} c t c t lru lfu);
      [done|done|done|set_solver|done].
  - assert (Hm2 : key ∉ ArcLfu.mainKeys lfu).
    { rewrite <- ArcLfuKeys.lfupart_existsInMain_keys. by rewrite Hin2. }
    apply (coherent_lru_update {[key]} c t c t lru lfu);
      [done|done|done|done|set_solver|done].
Qed.

Lemma coherent_get total key value s :
  balanced total s → coherent s → coherent (get key value s).2.
Proof.
  intros Hb Hc.
  pose proof (ArcFacts.balanced_checkGhostCaches total key s Hb) as Hb1.
  pose proof (coherent_checkGhostCaches total key s Hb Hc) as Hc1.
  destruct (checked_no_ghost key s Hc) as [Hg1 Hg2].
  unfold get. destruct (checkGhostCaches key s) as [g [c t lru lfu]].
  simpl in *. clear Hb Hc s.
  destruct Hb1 as (Hlru0 & Hlfu0 & _ & _ & Hlinked).
  unfold lruCapacity, lfuCapacity in *. simpl in *.
  pose proof (coherent_once _ Hc1) as Hnd.
  pose proof (coherent_mains _ Hc1) as Hmains.
  pose proof (coherent_lru_room _ Hc1) as Hroom1.
  pose proof (coherent_lfu_room _ Hc1) as Hroom2.
  unfold lruCapacity, lfuCapacity in *. simpl in *.
  destruct (ArcLru.existsInMain key lru) eqn:Hin1;
    destruct (ArcLfu.existsInMain key lfu) eqn:Hin2; simpl.
  - apply ArcLruKeys.lrupart_existsInMain_keys in Hin1.
    apply ArcLfuKeys.lfupart_existsInMain_keys in Hin2. set_solver.
  - assert (Hm2 : key ∉ ArcLfu.mainKeys lfu).
    { rewrite <- ArcLfuKeys.lfupart_existsInMain_keys. by rewrite Hin2. }
    destruct (ArcLruKeys.lrupart_keys_get key value false lru Hnd)
      as (Hnd1 & HM1 & HG1 & Hlen1 & Hcap1).
    destruct (ArcLru.get key value false lru) as [[[hit value2] st] lru1].
    simpl in *.
    pose proof (coherent_transform key value2 st c t lru lfu lru1 Hc1 Hlinked
                  Hlfu0 Hg1 Hg2 Hm2 Hnd1 ltac:(set_solver) HG1 ltac:(lia)) as Ht.
    by destruct (transform key value2 st lru1 lfu).
  - destruct (ArcLfuKeys.lfupart_keys_get key value lfu Hlinked)
      as (HMf & HGf & Hsz & Hcapf).
    destruct (ArcLfu.get key value lfu) as [[hit value1] lfu1]. simpl in *.
    apply (coherent_lfu_update ∅ c t c t lru lfu);
      [done|set_solver|set_solver|set_solver|lia].
  - destruct g as [gv|]; simpl; [|done].
    assert (Hm2 : key ∉ ArcLfu.mainKeys lfu).
    { rewrite <- ArcLfuKeys.lfupart_existsInMain_keys. by rewrite Hin2. }
    destruct (ArcLruKeys.lrupart_keys_put key gv lru Hnd) as (Hnd1 & HM1 & HG1).
    pose proof (ArcLruKeys.lrupart_room_put key gv lru Hlru0 Hroom1) as Hr1.
    apply (coherent_lru_update {[key]} c t c t lru lfu);
      [done|done|done|done|set_solver|done].
Qed.

Lemma coherent_run total cs s :
  balanced total s → coherent s → coherent (run cs s).
Proof.
  unfold run. revert s. induction cs as [|c cs IH]; simpl; [done|].
  intros s Hb Hc. apply IH.
  - destruct c; simpl;
      [by apply ArcFacts.balanced_put|by apply ArcFacts.balanced_get].
  - destruct c; simpl;
      [by apply (coherent_put total)|by apply (coherent_get total)].
Qed.

Lemma reachable_coherent s :
  reachable s → coherent s ∧ ∃ total, balanced total s.
Proof.
  intros (capacity & transformThreshold & cs & Hc & ->).
  pose proof (ArcFacts.balanced_new (Key:=Key) (Value:=Value) capacity
                transformThreshold Hc) as Hb.
  split; [|eexists; by apply ArcFacts.balanced_run].
  eapply coherent_run; [done|]. apply coherent_new. lia.
Qed.

(** *** [put] then [get] *)

(** A key in the LFU part: [put] updates it in place. *)
Lemma arc_put_get_lfu key v v0 s n :
  coherent s → ArcLfu.linked (lfuPart_ s) →
  ArcLfu.mainCache_ (lfuPart_ s) !! key = Some n →
  (get key v0 (put key v s)).1 = (true, v).
Proof.
  intros Hc Hlinked Hn.
  assert (Hin : key ∈ ArcLfu.mainKeys (lfuPart_ s)) by by eapply elem_of_dom_2.
  pose proof (coherent_mains s Hc) as Hmains.
  pose proof (coherent_lru_ghost s Hc) as Hg1.
  pose proof (coherent_lfu_ghost s Hc) as Hg2.
  pose proof (coherent_lfu_room s Hc) as Hroom.
  assert (Hn1 : ArcLru.ghostCache_ (lruPart_ s) !! key = None).
  { apply not_elem_of_dom. unfold ArcLru.ghostKeys in Hg1. set_solver. }
  assert (Hn2 : ArcLfu.ghostCache_ (lfuPart_ s) !! key = None).
  { apply not_elem_of_dom. unfold ArcLfu.ghostKeys in Hg2. set_solver. }
  assert (Hex1 : ArcLru.existsInMain key (lruPart_ s) = false).
  { apply not_true_is_false. rewrite ArcLruKeys.lrupart_existsInMain_keys. set_solver. }
  assert (Hex2 : ArcLfu.existsInMain key (lfuPart_ s) = true)
    by by apply ArcLfuKeys.lfupart_existsInMain_keys.
  assert (Hcap : ArcLfu.capacity_ (lfuPart_ s) ≠ 0).
  { unfold lfuCapacity in Hroom.
    assert (size (ArcLfu.mainCache_ (lfuPart_ s)) ≠ 0%nat); [|lia].
    apply map_size_non_empty_iff. intros He. by rewrite He in Hn. }
  destruct (ArcLfu.linked_index _ Hlinked key n Hn) as [Hk _].
  unfold put. rewrite arc_checkGhostCaches_none by done.
  rewrite Hex1, Hex2. simpl.
  unfold ArcLfu.put. rewrite bool_decide_eq_false_2 by done. rewrite Hn.
  cbn [snd].
  unfold get. rewrite arc_checkGhostCaches_none by done.
  cbn [lruPart_ lfuPart_ with_parts]. rewrite Hex1.
  unfold ArcLfu.existsInMain, ArcLfu.get.
  rewrite ArcLfuFacts.mainCache_updateExistingNode, Hk, lookup_insert_eq.
  by rewrite bool_decide_eq_true_2 by eauto.
Qed.

(** A key in the LRU part: [put] updates it, and moves it to the LFU part
    when its count reaches the threshold. *)
Lemma arc_put_get_lru key v v0 s n :
  coherent s → ArcLfu.linked (lfuPart_ s) →
  ArcLru.find_node key (ArcLru.main_ (lruPart_ s)) = Some n →
  (ArcLru.shouldPromote (lruPart_ s) n = true → lfuCapacity s ≠ 0) →
  (get key v0 (put key v s)).1 = (true, v).
Proof.
  intros Hc Hlinked Hn Hpromote.
  apply ArcLruKeys.find_node_key in Hn as Hk.
  assert (Hex1 : ArcLru.existsInMain key (lruPart_ s) = true).
  { unfold ArcLru.existsInMain. rewrite Hn. by apply bool_decide_eq_true_2. }
  apply ArcLruKeys.lrupart_existsInMain_keys in Hex1 as Hin.
  pose proof (coherent_once s Hc) as Hnd.
  pose proof (coherent_mains s Hc) as Hmains.
  pose proof (coherent_lru_ghost s Hc) as Hg1.
  pose proof (coherent_lfu_ghost s Hc) as Hg2.
  pose proof (coherent_lru_room s Hc) as Hroom.
  assert (Hn1 : ArcLru.ghostCache_ (lruPart_ s) !! key = None).
  { apply not_elem_of_dom. unfold ArcLru.ghostKeys in Hg1. set_solver. }
  assert (Hn2 : ArcLfu.ghostCache_ (lfuPart_ s) !! key = None).
  { apply not_elem_of_dom. unfold ArcLfu.ghostKeys in Hg2. set_solver. }
  assert (Hm2 : ArcLfu.mainCache_ (lfuPart_ s) !! key = None).
  { apply not_elem_of_dom. unfold ArcLfu.mainKeys in Hmains. set_solver. }
  assert (Hex2 : ArcLfu.existsInMain key (lfuPart_ s) = false).
  { unfold ArcLfu.existsInMain. rewrite Hm2.
    apply bool_decide_eq_false_2. by intros [? ?]. }
  assert (Hcap : ArcLru.capacity_ (lruPart_ s) ≠ 0).
  { unfold lruCapacity in Hroom.
    destruct (ArcLru.main_ (lruPart_ s)); [done|]. simpl in Hroom. lia. }
  pose proof (ArcLruKeys.unlink_gone key _ Hnd) as Hgone.
  apply ArcLruKeys.find_node_keys in Hgone.
  unfold put. rewrite arc_checkGhostCaches_none by done.
  rewrite Hex1, Hex2. simpl.
  unfold ArcLru.put. rewrite bool_decide_eq_false_2 by done. rewrite Hn.
  destruct (ArcLru.shouldPromote (lruPart_ s) n) eqn:Hp; simpl.
  - specialize (Hpromote eq_refl). unfold lfuCapacity in Hpromote.
    unfold ArcLru.remove. simpl. rewrite Hk, decide_True by done. simpl.
    unfold ArcLfu.put. rewrite bool_decide_eq_false_2 by done. rewrite Hm2.
    cbn [snd].
    assert (Hn2' : ArcLfu.ghostCache_ (ArcLfu.addNewNode key v (lfuPart_ s))
                     !! key = None).
    { unfold ArcLfu.addNewNode. simpl. case_bool_decide; [|done].
      by apply ArcLfuFacts.ghostCache_evictLeastFrequent. }
    unfold get. rewrite arc_checkGhostCaches_none by done.
    cbn [lruPart_ lfuPart_ with_parts].
    unfold ArcLru.existsInMain, ArcLfu.existsInMain, ArcLfu.get. simpl.
    rewrite !decide_True by done. rewrite Hgone, lookup_insert_eq.
    rewrite bool_decide_eq_false_2 by by intros [? ?].
    by rewrite bool_decide_eq_true_2 by eauto.
  - unfold get. rewrite arc_checkGhostCaches_none by done.
    cbn [lruPart_ lfuPart_ with_parts]. rewrite Hex2.
    unfold ArcLru.existsInMain, ArcLru.get. simpl.
    rewrite Hk, decide_True by done.
    rewrite bool_decide_eq_true_2 by eauto. simpl.
    by destruct (transform _ _ _ _ _).
Qed.

(** In every state a client can reach. *)
Lemma arc_put_get key v v0 s :
  reachable s →
  match ArcLru.find_node key (ArcLru.main_ (lruPart_ s)) with
  | Some n => ArcLru.shouldPromote (lruPart_ s) n = true → lfuCapacity s ≠ 0
  | None => ArcLfu.existsInMain key (lfuPart_ s) = true
            ∨ lruCapacity (checkGhostCaches key s).2 ≠ 0
  end →
  (get key v0 (put key v s)).1 = (true, v).
Proof.
  intros [Hc [total Hb]]%reachable_coherent Hcase.
  assert (Hlinked : ArcLfu.linked (lfuPart_ s)) by apply Hb.
  destruct (ArcLru.find_node key (ArcLru.main_ (lruPart_ s))) as [n|] eqn:Hf.
  - by eapply arc_put_get_lru.
  - destruct (ArcLfu.mainCache_ (lfuPart_ s) !! key) as [n|] eqn:Hn.
    + by eapply arc_put_get_lfu.
    + assert (Hex2 : ArcLfu.existsInMain key (lfuPart_ s) = false)
        by by apply ArcFacts.existsInMain_lfu_false.
      destruct Hcase as [Hcase|Hcase]; [congruence|].
      apply arc_put_get_fresh; [|done..].
      by apply ArcFacts.existsInMain_lru_false.
Qed.

End KArcCache.
End ArcCoherence.

(** ** Reading back what was just written *)

Module PolicyFacts.
Import ArcNode.
Section Policies.
Context {Key : Type} `{Countable Key} {Value : Type}.
Variable Hash : Key → Z.
Variable sentinelKey : Key.
Implicit Types (key : Key) (v : Value).

(** *** LRU-K: the main cache after [put] *)

Lemma lruk_base_put key v (s : LruK.KLruKCache Key Value) :
  Lru.contains key (LruK.base s) = true
  ∨ LruK.k_ s ≤ LruK.read_count key s + 1 →
  LruK.base (LruK.put key v s) = Lru.put key v (LruK.base s).
Proof.
  intros Hc. destruct (Lru.contains key (LruK.base s)) eqn:Hin.
  - unfold LruK.put. by rewrite Hin.
  - destruct Hc as [|Hk]; [done|].
    rewrite LruKFacts.lruk_put_absent by by apply LruKFacts.contains_false.
    by rewrite bool_decide_eq_true_2.
Qed.

Lemma lruk_get_present key v0 (s : LruK.KLruKCache Key Value) :
  Lru.contains key (LruK.base s) = true →
  (LruK.get key v0 s).1 = (Lru.get key v0 (LruK.base s)).1.
Proof.
  intros Hin. unfold LruK.get. rewrite Hin.
  by destruct (Lru.get key v0 (LruK.base s)) as [[hit v'] b].
Qed.

Lemma lruk_put_get key v v0 (s : LruK.KLruKCache Key Value) :
  Lru.well_formed (LruK.base s) → 0 < Lru.capacity_ (LruK.base s) →
  Lru.contains key (LruK.base s) = true
  ∨ LruK.k_ s ≤ LruK.read_count key s + 1 →
  (LruK.get key v0 (LruK.put key v s)).1 = (true, v).
Proof.
  intros Hwf Hcap Hc.
  pose proof (lruk_base_put key v s Hc) as Hb.
  rewrite lruk_get_present.
  - rewrite Hb. by apply LruFacts.lru_put_get.
  - rewrite Hb, LruFacts.contains_stored, LruFacts.stored_put by done.
    by apply bool_decide_eq_true_2.
Qed.

(** *** LFU: [put] then [get] *)

Lemma lfu_put_get key v v0 (s : Lfu.KLfuCache Key Value) :
  Lfu.well_formed s → Lfu.capacity_ s ≠ 0 →
  ∃ s' s'', Lfu.put sentinelKey key v s = Some s'
            ∧ Lfu.get key v0 s' = Some (true, v, s'').
Proof.
  intros Hwf Hcap.
  destruct (LfuFacts.put_spec sentinelKey key v s Hwf Hcap)
    as (s' & f & Hp & Hwf' & Hv & _).
  destruct (LfuFacts.get_spec key v0 s' Hwf') as (s'' & Hg & _).
  exists s', s''. split; [done|]. by rewrite Hg, Hv.
Qed.

(** *** Capacity zero *)

Lemma arc_step_empty capacity transformThreshold (c : Arc.call Key Value) :
  capacity `div` 2 = 0 →
  Arc.step (Arc.KArcCache_new capacity transformThreshold) c
  = Arc.KArcCache_new capacity transformThreshold.
Proof.
  intros Hc. unfold Arc.KArcCache_new. rewrite Hc.
  destruct c as [key v|key v]; simpl; unfold Arc.put, Arc.get;
    rewrite ArcCoherence.arc_checkGhostCaches_none by apply lookup_empty; simpl;
    unfold ArcLru.existsInMain, ArcLfu.existsInMain; simpl;
    rewrite !bool_decide_eq_false_2
      by (rewrite ?lookup_empty; by intros [? ?]);
    done.
Qed.

Lemma arc_run_empty capacity transformThreshold (cs : list (Arc.call Key Value)) :
  capacity `div` 2 = 0 →
  Arc.run cs (Arc.KArcCache_new capacity transformThreshold)
  = Arc.KArcCache_new capacity transformThreshold.
Proof.
  intros Hc. induction cs as [|c cs IH]; [done|].
  unfold Arc.run in *. simpl. by rewrite arc_step_empty.
Qed.

Lemma lruk_base_put_nonpositive key v (s : LruK.KLruKCache Key Value) :
  Lru.capacity_ (LruK.base s) ≤ 0 →
  LruK.base (LruK.put key v s) = LruK.base s.
Proof.
  intros Hc. unfold LruK.put.
  destruct (Lru.contains key (LruK.base s)); simpl.
  - by apply LruFacts.put_nonpositive.
  - destruct (Lru.get_value 0 key (LruK.historyList_ s)) as [hv h1].
    case_bool_decide; simpl; [|done]. by apply LruFacts.put_nonpositive.
Qed.

(** An LFU engine of capacity zero, aging or not, stays as it was built. *)
Lemma lfu_run_empty (cs : list (Lfu.call Key Value)) :
  Lfu.run sentinelKey cs (Lfu.KLfuCache_new 0) = Some (Lfu.KLfuCache_new 0).
Proof. induction cs as [|[key v|key v|] cs IH]; simpl; done. Qed.

Lemma aging_run_empty maxAverageNum
    (cs : list (LfuAging.Iteration Key Value * LfuAging.call Key Value)) :
  LfuAging.run sentinelKey cs (LfuAging.KLfuAgingCache_new 0 maxAverageNum)
  = Some (LfuAging.KLfuAgingCache_new 0 maxAverageNum).
Proof. induction cs as [|[order [key v|key v|]] cs IH]; simpl; done. Qed.

(** An LFU engine of negative capacity: the capacity, compared as a
    [size_t], is out of reach, and [put] stores the key and evicts
    nothing. *)
Lemma lfu_put_negative key v (s : Lfu.KLfuCache Key Value) :
  Lfu.well_formed s → - 2 ^ 31 ≤ Lfu.capacity_ s < 0 →
  ∃ s' f, Lfu.put sentinelKey key v s = Some s'
    ∧ Lfu.nodeMap_ s' !! key = Some (Lfu.mkNode f v)
    ∧ (Z.of_nat (size (Lfu.nodeMap_ s)) < 2 ^ 63 →
       ∀ key', is_Some (Lfu.nodeMap_ s !! key') →
               is_Some (Lfu.nodeMap_ s' !! key')).
Proof.
  intros Hwf Hc. unfold Lfu.put. rewrite bool_decide_eq_false_2 by lia.
  destruct (Lfu.nodeMap_ s !! key) as [n|] eqn:Hn.
  - assert (Hn' : Lfu.nodeMap_ (Lfu.setValue key v s) !! key
                  = Some (Lfu.mkNode (Lfu.freq n) v)).
    { simpl. by rewrite lookup_alter_eq, Hn. }
    destruct (LfuFacts.getInternal_spec key _ _
                (LfuFacts.well_formed_setValue key v s Hwf) Hn')
      as (s' & -> & _ & Hm & _).
    exists s', (Lfu.freq n + 1). simpl. split; [done|].
    rewrite Hm. split; [by rewrite lookup_insert_eq|].
    intros _ key' Hk'. destruct (decide (key' = key)) as [->|Hne].
    + by rewrite lookup_insert_eq.
    + rewrite lookup_insert_ne by done. simpl. by rewrite lookup_alter_ne.
  - unfold Lfu.putInternal.
    destruct (Lfu.full s) eqn:Hfull; simpl.
    + destruct (LfuFacts.kickOut_spec sentinelKey s Hwf) as (key0 & l & _ & -> & _).
      { apply LfuFacts.full_nonempty; [lia|lia|done]. }
      simpl. eexists _, 1. split; [done|]. simpl.
      split; [by rewrite lookup_insert_eq|].
      intros Hsize. exfalso. unfold Lfu.full in Hfull.
      apply bool_decide_eq_true_1 in Hfull. unfold to_size_t in Hfull.
      assert (Lfu.capacity_ s mod 2 ^ 64 = Lfu.capacity_ s + 2 ^ 64); [|lia].
      symmetry. apply (Z.mod_unique_pos _ _ (-1)); lia.
    + eexists _, 1. split; [done|]. simpl.
      split; [by rewrite lookup_insert_eq|].
      intros _ key' Hk'. destruct (decide (key' = key)) as [->|Hne].
      * by rewrite lookup_insert_eq.
      * by rewrite lookup_insert_ne.
Qed.

(** An LRU-K cache whose main cache has no capacity: the main cache is
    empty and stays so, and a [put] that leaves the count below [k_]
    writes the count to the history all the same. *)
Lemma lruk_put_nonpositive key v (s : LruK.KLruKCache Key Value) :
  LruK.well_formed s → Lru.capacity_ (LruK.base s) ≤ 0 →
  Lru.nodes_ (LruK.base s) = []
  ∧ LruK.base (LruK.put key v s) = LruK.base s
  ∧ (0 < Lru.capacity_ (LruK.historyList_ s) →
     LruK.read_count key s + 1 < LruK.k_ s →
     Lru.stored key (LruK.historyList_ (LruK.put key v s))
     = Some (to_size_t (LruK.read_count key s + 1))).
Proof.
  intros [Hb Hh] Hc. pose proof (proj2 Hb Hc) as Hempty.
  split; [done|]. split; [by apply lruk_base_put_nonpositive|].
  intros Hhc Hk.
  assert (Hnone : Lru.stored key (LruK.base s) = None).
  { unfold Lru.stored. by rewrite Hempty. }
  rewrite LruKFacts.lruk_put_absent by done.
  rewrite bool_decide_eq_false_2 by lia. simpl.
  rewrite LruKFacts.stored_counted by done.
  by rewrite bool_decide_eq_false_2 by lia.
Qed.

(** A shard without capacity: [put] on the sharded cache changes
    nothing. *)
Lemma shard_lru_put_nonpositive key v (s : HashLru.KHashLruCaches Key Value)
    i shard :
  Slices.sliceIndex (Hash key) (HashLru.sliceNum_ s) = Some i →
  HashLru.lruSliceCaches_ s !! i = Some shard →
  Lru.capacity_ shard ≤ 0 →
  HashLru.put Hash key v s = Some s.
Proof.
  intros Hi Hshard Hc. unfold HashLru.put. rewrite Hi. simpl.
  rewrite Hshard. simpl. rewrite LruFacts.put_nonpositive by done.
  unfold HashLru.with_shard. rewrite list_insert_id by done. by destruct s.
Qed.

Lemma shard_lfu_put_zero order key v (s : HashLfu.KHashLfuCache Key Value)
    i shard :
  Slices.sliceIndex (Hash key) (HashLfu.sliceNum_ s) = Some i →
  HashLfu.lfuSliceCaches_ s !! i = Some shard →
  Lfu.capacity_ (LfuAging.lfu shard) = 0 →
  HashLfu.put Hash sentinelKey order key v s = Some s.
Proof.
  intros Hi Hshard Hc. unfold HashLfu.put. rewrite Hi. simpl.
  rewrite Hshard. simpl. unfold LfuAging.put.
  rewrite bool_decide_eq_true_2 by done. simpl.
  unfold HashLfu.with_shard. rewrite list_insert_id by done. by destruct s.
Qed.

(** C6, as the code has it.  What [put] stores is what the next [get] of
    the key hands back: for the LRU engine and the LFU engines in every
    state a client can reach, the capacity not zero (positive, for LRU);
    for the sharded caches when the shard of the key has such a capacity;
    for LRU-K when the key is already in the main cache or this [put] is
    the access that brings its count to [k]; for ARC in every state a
    client can reach in which the part that takes the entry has capacity:
    the LFU part for a key of the LRU part that this [put] moves over, the
    LRU part, after the ghost check, for a key in neither main part (a key
    of the LFU part is updated in place).  [get] is [get(key, value)];
    [v0] is what [value] held.  [Value get(Key)] calls it on a local and
    returns the local, so it returns [v] as well, whatever the local held
    ([get_value], where the local is value-initialised); that of LRU-K,
    which does not return, is not part of the statement.  Each [order] is
    the order in which [nodeMap_] is walked, should the call walk it. *)
Theorem put_then_get key v v0 order order' :
  (∀ s : Lru.KLruCache Key Value,
     Lru.reachable s → 0 < Lru.capacity_ s →
     (Lru.get key v0 (Lru.put key v s)).1 = (true, v)
     ∧ (Lru.get_value v0 key (Lru.put key v s)).1 = v)
  ∧ (∀ s : LruK.KLruKCache Key Value,
       LruK.reachable s → 0 < Lru.capacity_ (LruK.base s) →
       Lru.contains key (LruK.base s) = true
       ∨ LruK.k_ s ≤ LruK.read_count key s + 1 →
       (LruK.get key v0 (LruK.put key v s)).1 = (true, v))
  ∧ (∀ s : HashLru.KHashLruCaches Key Value,
       HashLru.sound s →
       (∀ i shard,
          Slices.sliceIndex (Hash key) (HashLru.sliceNum_ s) = Some i →
          HashLru.lruSliceCaches_ s !! i = Some shard →
          0 < Lru.capacity_ shard) →
       ∃ s' s'', HashLru.put Hash key v s = Some s'
                 ∧ HashLru.sound s'
                 ∧ HashLru.get Hash key v0 s' = Some (true, v, s''))
  ∧ (∀ s : Lfu.KLfuCache Key Value,
       Lfu.reachable sentinelKey s → Lfu.capacity_ s ≠ 0 →
       ∃ s' s'', Lfu.put sentinelKey key v s = Some s'
                 ∧ Lfu.get key v0 s' = Some (true, v, s''))
  ∧ (∀ a : LfuAging.KLfuAgingCache Key Value,
       LfuAging.iterates order → LfuAging.iterates order' →
       LfuAging.reachable sentinelKey a →
       Lfu.capacity_ (LfuAging.lfu a) ≠ 0 →
       ∃ a' a'', LfuAging.put sentinelKey order key v a = Some a'
                 ∧ LfuAging.get order' key v0 a' = Some (true, v, a''))
  ∧ (∀ s : HashLfu.KHashLfuCache Key Value,
       LfuAging.iterates order → LfuAging.iterates order' →
       HashLfu.sound s →
       (∀ i shard,
          Slices.sliceIndex (Hash key) (HashLfu.sliceNum_ s) = Some i →
          HashLfu.lfuSliceCaches_ s !! i = Some shard →
          0 < Lfu.capacity_ (LfuAging.lfu shard)) →
       ∃ s' s'', HashLfu.put Hash sentinelKey order key v s = Some s'
                 ∧ HashLfu.sound s'
                 ∧ HashLfu.get Hash order' key v0 s' = Some (true, v, s''))
  ∧ (∀ s : Arc.KArcCache Key Value,
       Arc.reachable s →
       match ArcLru.find_node key (ArcLru.main_ (Arc.lruPart_ s)) with
       | Some n =>
           ArcLru.shouldPromote (Arc.lruPart_ s) n = true →
           Arc.lfuCapacity s ≠ 0
       | None =>
           ArcLfu.existsInMain key (Arc.lfuPart_ s) = true
           ∨ Arc.lruCapacity (Arc.checkGhostCaches key s).2 ≠ 0
       end →
       (Arc.get key v0 (Arc.put key v s)).1 = (true, v)
       ∧ (Arc.get_value v0 key (Arc.put key v s)).1 = v).
Proof.
  split; [|split; [|split; [|split; [|split; [|split]]]]].
  - intros s Hr Hc.
    pose proof (LruFacts.lru_put_get key v v0 s
                  (LruFacts.lru_reachable_well_formed s Hr) Hc) as Hg.
    split; [done|]. unfold Lru.get_value.
    destruct (Lru.get key v0 (Lru.put key v s)) as [[hit v'] s'].
    simpl in *. congruence.
  - intros s Hr Hc Hk. apply lruk_put_get; [|done..].
    by apply LruKFacts.lruk_reachable_well_formed.
  - intros s Hs Hc. by apply ShardFacts.shard_lru_put_get.
  - intros s Hr Hc. apply lfu_put_get; [|done].
    by eapply LfuFacts.lfu_reachable_well_formed.
  - intros a Ho Ho' Hr Hc. apply LfuAgingFacts.aging_put_get; [done..| |done].
    by eapply LfuAgingFacts.aging_reachable_usable.
  - intros s Ho Ho' Hs Hc. by apply ShardFacts.shard_lfu_put_get.
  - intros s Hr Hcase.
    pose proof (ArcCoherence.arc_put_get key v v0 s Hr Hcase) as Hg.
    split; [done|]. unfold Arc.get_value.
    destruct (Arc.get key v0 (Arc.put key v s)) as [[hit v'] s'].
    simpl in *. congruence.
Qed.


End Policies.

(** [put] then [get] on each of the seven caches, in states that hold
    other keys: the LRU-K [put] is the third access to key 1, the aging
    engine walks its map backwards, the ARC [put] moves key 1 to the LFU
    part. *)
Lemma put_then_get_witness :
  let back : LfuAging.Iteration Z Z := LfuAging.backwards in
  (Lru.get 1 0 (Lru.put 1 10 (Lru.run [Lru.CallPut 2 20; Lru.CallPut 3 30]
                                (Lru.KLruCache_new 2)))).1 = (true, 10)
  ∧ (LruK.get 1 0
       (LruK.put 1 11 (LruK.run [LruK.CallPut 1 10; LruK.CallGet 1 0]
                         (LruK.KLruKCache_new 2 2 3)))).1 = (true, 11)
  ∧ (∃ s' s'', HashLru.put (λ k : Z, k) 1 10 (HashLru.KHashLruCaches_new 8 4 2)
               = Some s'
               ∧ HashLru.get (λ k : Z, k) 1 0 s' = Some (true, 10, s''))
  ∧ (∃ s' s'', Lfu.put 0 1 10 (Lfu.KLfuCache_new 2) = Some s'
               ∧ Lfu.get 1 0 s' = Some (true, 10, s''))
  ∧ (∃ a' a'', LfuAging.put 0 back 1 10 (LfuAging.KLfuAgingCache_new 2 10)
               = Some a'
               ∧ LfuAging.get back 1 0 a' = Some (true, 10, a''))
  ∧ (∃ s' s'', HashLfu.put (λ k : Z, k) 0 back 1 10
                 (HashLfu.KHashLfuCache_new 8 4 2 10) = Some s'
               ∧ HashLfu.get (λ k : Z, k) back 1 0 s' = Some (true, 10, s''))
  ∧ (Arc.get 1 0 (Arc.put 1 11 (Arc.run [Arc.CallPut 1 10]
                                  (Arc.KArcCache_new 4 2)))).1 = (true, 11).
Proof.
  intros back.
  pose proof (LfuAgingFacts.iterates_backwards (Key:=Z) (Value:=Z)) as Hback.
  destruct (put_then_get (Key:=Z) (Value:=Z) (λ k, k) 0 1 10 0 back back)
    as (Hlru & _ & Hshard & Hlfu & Haging & Hshlfu & _).
  destruct (put_then_get (Key:=Z) (Value:=Z) (λ k, k) 0 1 11 0 back back)
    as (_ & Hlruk & _ & _ & _ & _ & Harc).
  split; [|split; [|split; [|split; [|split; [|split]]]]].
  - apply Hlru; [by eexists _, _|]. vm_compute. reflexivity.
  - apply Hlruk.
    + by exists 2, 2, 3, [LruK.CallPut 1 10; LruK.CallGet 1 0].
    + vm_compute. reflexivity.
    + right. vm_compute. discriminate.
  - destruct (Hshard (HashLru.KHashLruCaches_new 8 4 2)) as (s' & s'' & ? & _ & ?).
    + apply ShardFacts.shard_lru_sound_new. vm_compute. by split.
    + intros i shard Hi Hs. vm_compute in Hi. injection Hi as <-.
      vm_compute in Hs. injection Hs as <-. vm_compute. reflexivity.
    + by exists s', s''.
  - apply Hlfu.
    + exists 2, []. split; [lia|done].
    + discriminate.
  - apply Haging; [done|done| |discriminate].
    exists 2, 10, []. split; [lia|]. split; [constructor|done].
  - destruct (Hshlfu (HashLfu.KHashLfuCache_new 8 4 2 10) Hback Hback)
      as (s' & s'' & ? & _ & ?).
    + apply ShardFacts.shard_lfu_sound_new. vm_compute. by split.
    + intros i shard Hi Hs. vm_compute in Hi. injection Hi as <-.
      vm_compute in Hs. injection Hs as <-. vm_compute. reflexivity.
    + by exists s', s''.
  - apply Harc.
    + exists 4, 2, [Arc.CallPut 1 10]. split; [lia|done].
    + vm_compute. intros _ [=].
Defined.

(** Against C6 as the specification words it.  LRU-K, capacity 2,
    [k = 3]: the first [put] of a key only counts it, and the [get] after
    it, the second access, misses; it takes the third access to bring the
    key in. *)
Lemma put_then_get_misses :
  (LruK.get 1 0 (LruK.put 1 10 (LruK.KLruKCache_new 2 2 3))).1 = (false, 0)
  ∧ Lru.stored 1 (LruK.base (LruK.put 1 10 (LruK.KLruKCache_new 2 2 3)))
    = None
  ∧ Lru.stored 1 (LruK.historyList_ (LruK.put 1 10 (LruK.KLruKCache_new 2 2 3)))
    = Some 1.
Proof. repeat split; vm_compute; reflexivity. Qed.

(** Where the ARC cache loses what was put.  Capacity 2, threshold 2:
    after [put 1], [put 2], [put 1] the LRU part has taken the LFU part's
    whole capacity; the next [put 1] takes key 1 out of the LRU part to
    move it to the LFU part, whose [put] returns at once on capacity 0, a
    result the caller does not look at: key 1 is in no part, and the [get]
    misses.  Capacity 1: each part gets capacity [1/2 = 0]. *)
Lemma arc_put_lost :
  (let s := Arc.run [Arc.CallPut 1 10; Arc.CallPut 2 20; Arc.CallPut 1 11]
              (Arc.KArcCache_new 2 2) in
   Arc.lruCapacity s = 2 ∧ Arc.lfuCapacity s = 0
   ∧ ArcLru.existsInMain 1 (Arc.lruPart_ s) = true
   ∧ ArcLru.existsInMain 1 (Arc.lruPart_ (Arc.put 1 12 s)) = false
   ∧ ArcLfu.existsInMain 1 (Arc.lfuPart_ (Arc.put 1 12 s)) = false
   ∧ (Arc.get 1 0 (Arc.put 1 12 s)).1 = (false, 0))
  ∧ (Arc.get 1 0 (Arc.put 1 10 (Arc.KArcCache_new 1 2))).1 = (false, 0).
Proof. repeat split; vm_compute; reflexivity. Qed.



End PolicyFacts.
(** * Further properties of the code *)

(** ** The LRU engine: capacity, eviction order, [get], [remove] *)

Module LruBehaviour.
Import Lru.
Section KLruCache.
Context {Key : Type} `{EqDecision Key} {Value : Type}.
Implicit Types (s : KLruCache Key Value) (l : list (LruNode Key Value)).
Implicit Types (n : LruNode Key Value) (key : Key) (value : Value).

Lemma lru_capacity_step s (c : call Key Value) : capacity_ (step s c) = capacity_ s.
Proof.
  destruct c as [key value|key value|key]; simpl.
  - apply LruFacts.lru_capacity_put.
  - unfold get. by destruct (find_node key (nodes_ s)).
  - unfold remove. by destruct (find_node key (nodes_ s)).
Qed.

Lemma lru_capacity_run (cs : list (call Key Value)) s :
  capacity_ (run cs s) = capacity_ s.
Proof.
  unfold run. revert s. induction cs as [|c cs IH]; [done|]. intros s. simpl.
  by rewrite IH, lru_capacity_step.
Qed.

Lemma length_get key value s :
  length (nodes_ (get key value s).2) = length (nodes_ s).
Proof.
  unfold get. destruct (find_node key (nodes_ s)) as [n|] eqn:Hf; [|done].
  simpl. unfold moveToMostRecent, insertNode.
  destruct (LruFacts.find_node_Some _ _ _ Hf) as [-> _].
  rewrite length_app. simpl.
  pose proof (LruFacts.length_removeNode _ _ _ Hf). lia.
Qed.

Lemma length_remove key s :
  (length (nodes_ (remove key s)) ≤ length (nodes_ s))%nat.
Proof.
  unfold remove. destruct (find_node key (nodes_ s)) as [n|] eqn:Hf; [|done].
  simpl. destruct (LruFacts.find_node_Some _ _ _ Hf) as [-> _].
  pose proof (LruFacts.length_removeNode _ _ _ Hf). lia.
Qed.

Lemma length_put key value s :
  capacity_ s < 2 ^ 64 →
  Z.of_nat (length (nodes_ s)) ≤ Z.max 0 (capacity_ s) →
  Z.of_nat (length (nodes_ (put key value s))) ≤ Z.max 0 (capacity_ s).
Proof.
  intros Hc Hb. unfold put. case_bool_decide as Hpos; [done|].
  destruct (find_node key (nodes_ s)) as [n|] eqn:Hf; simpl.
  - unfold updateExistingNode, moveToMostRecent, insertNode. simpl.
    destruct (LruFacts.find_node_Some _ _ _ Hf) as [-> _].
    rewrite length_app. simpl.
    pose proof (LruFacts.length_removeNode _ _ _ Hf). lia.
  - unfold insertNode. rewrite length_app. simpl.
    rewrite MachineIntFacts.to_size_t_small by lia.
    case_bool_decide as Hfull; [|lia].
    destruct (nodes_ s) as [|m l]; simpl in *; lia.
Qed.

(** A key lost to a [put] of another key was the least recent one, in a
    full cache, and the other key was new. *)
Lemma stored_put_lost key key' value s :
  well_formed s → 0 < capacity_ s < 2 ^ 64 → key' ≠ key →
  is_Some (stored key s) → stored key (put key' value s) = None →
  find_node key' (nodes_ s) = None
  ∧ capacity_ s ≤ Z.of_nat (length (nodes_ s))
  ∧ ∃ n0 rest, nodes_ s = n0 :: rest ∧ key_ n0 = key.
Proof.
  intros [Hnd _] Hc Hne [v Hv]. unfold put.
  rewrite bool_decide_eq_false_2 by lia.
  destruct (find_node key' (nodes_ s)) as [n|] eqn:Hf; unfold stored in *;
    simpl.
  - unfold updateExistingNode, moveToMostRecent, insertNode. simpl.
    destruct (LruFacts.find_node_Some _ _ _ Hf) as [Hk _].
    rewrite LruFacts.find_node_app, Hk, LruFacts.find_node_removeNode_ne by done.
    destruct (find_node key (nodes_ s)); done.
  - unfold insertNode. rewrite LruFacts.find_node_app.
    rewrite MachineIntFacts.to_size_t_small by lia.
    case_bool_decide as Hfull.
    + destruct (nodes_ s) as [|m l]; simpl in *; [done|].
      destruct (decide (key_ m = key)) as [Hm|Hm]; [by eauto 6|].
      destruct (find_node key l); done.
    + destruct (find_node key (nodes_ s)); done.
Qed.

Lemma stored_get_same key value s :
  well_formed s → stored key (get key value s).2 = stored key s.
Proof.
  intros [Hnd _]. unfold get, stored.
  destruct (find_node key (nodes_ s)) as [n|] eqn:Hf; simpl; [|by rewrite Hf].
  unfold moveToMostRecent, insertNode.
  destruct (LruFacts.find_node_Some _ _ _ Hf) as [Hk _].
  rewrite LruFacts.find_node_app, Hk, LruFacts.find_node_removeNode_eq by done.
  simpl. by rewrite decide_True.
Qed.

(** X1.  The LRU engine never holds more entries than its capacity, and
    none when the capacity is not positive. *)
Theorem lru_holds_at_most_capacity s :
  reachable s → capacity_ s < 2 ^ 31 →
  Z.of_nat (length (nodes_ s)) ≤ Z.max 0 (capacity_ s).
Proof.
  intros (capacity & cs & ->). rewrite lru_capacity_run. simpl. intros Hc.
  assert (Hgen : ∀ s, capacity_ s < 2 ^ 31 →
            Z.of_nat (length (nodes_ s)) ≤ Z.max 0 (capacity_ s) →
            Z.of_nat (length (nodes_ (run cs s))) ≤ Z.max 0 (capacity_ s)).
  { unfold run. induction cs as [|c cs IH]; [done|]. intros s Hs Hb. simpl.
    rewrite <- (lru_capacity_step s c). apply IH; rewrite lru_capacity_step; [done|].
    destruct c as [key value|key value|key]; simpl.
    - apply length_put; [lia|done].
    - by rewrite length_get.
    - pose proof (length_remove key s). lia. }
  apply (Hgen (KLruCache_new capacity)); simpl; [done|lia].
Qed.

(** X2.  A [put] of a new key into a cache that is not full evicts
    nothing; into a full cache it evicts the least recently used entry,
    the one at the head of the list, and no other. *)
Theorem lru_put_evicts_least_recent key value s :
  reachable s → 0 < capacity_ s < 2 ^ 31 → stored key s = None →
  (Z.of_nat (length (nodes_ s)) < capacity_ s →
   nodes_ (put key value s) = nodes_ s ++ [mkLruNode key value 1])
  ∧ (∀ n0 rest, nodes_ s = n0 :: rest →
       Z.of_nat (length (nodes_ s)) = capacity_ s →
       nodes_ (put key value s) = rest ++ [mkLruNode key value 1]
       ∧ stored (key_ n0) (put key value s) = None
       ∧ ∀ key', key' ≠ key_ n0 → key' ≠ key →
           stored key' (put key value s) = stored key' s).
Proof.
  intros [Hnd _]%LruFacts.lru_reachable_well_formed Hc Hnone.
  assert (Hf : find_node key (nodes_ s) = None).
  { unfold stored in Hnone. by destruct (find_node key (nodes_ s)). }
  unfold put. rewrite bool_decide_eq_false_2 by lia. rewrite Hf.
  unfold addNewNode, insertNode. simpl.
  rewrite MachineIntFacts.to_size_t_small by lia.
  split.
  - intros Hlt. by rewrite bool_decide_eq_false_2 by lia.
  - intros n0 rest Hs Hfull. rewrite bool_decide_eq_true_2 by lia.
    rewrite Hs in *. simpl in *. split; [done|].
    apply NoDup_cons in Hnd as [Hn0 Hrest].
    destruct (decide (key_ n0 = key)) as [|Hk]; [done|].
    unfold stored. simpl. split.
    + rewrite LruFacts.find_node_app.
      assert (find_node (key_ n0) rest = None) as ->
        by by apply LruFacts.find_node_None.
      simpl. by rewrite decide_False by done.
    + intros key' Hne Hne'. rewrite LruFacts.find_node_app. simpl.
      rewrite !decide_False by done. rewrite Hs. simpl.
      rewrite decide_False by done. by destruct (find_node key' rest).
Qed.

(** X3.  [get] returns the stored value on a hit and leaves the caller's
    value on a miss ([Value get(Key)] then returns the value-initialised
    one); it changes no stored value, makes the key it hit the most recent
    one, and on a miss changes nothing. *)
Theorem lru_get_behaviour key value s :
  reachable s →
  (get key value s).1
  = match stored key s with Some v => (true, v) | None => (false, value) end
  ∧ (∀ key', stored key' (get key value s).2 = stored key' s)
  ∧ length (nodes_ (get key value s).2) = length (nodes_ s)
  ∧ (∀ n, find_node key (nodes_ s) = Some n →
          last (nodes_ (get key value s).2) = Some n)
  ∧ (stored key s = None → (get key value s).2 = s)
  ∧ (get_value value key s).1 = default value (stored key s).
Proof.
  intros Hwf%LruFacts.lru_reachable_well_formed.
  split; [apply LruFacts.get_stored|]. split.
  { intros key'. destruct (decide (key = key')) as [<-|Hne].
    - by apply stored_get_same.
    - by apply LruFacts.stored_get_ne. }
  split; [apply length_get|]. split.
  - intros n Hf. unfold get. rewrite Hf. simpl.
    unfold moveToMostRecent, insertNode. apply last_snoc.
  - split; [|apply LruFacts.stored_get_value].
    unfold stored, get. by destruct (find_node key (nodes_ s)).
Qed.

(** X4.  [remove] takes out the key and nothing else; on a key that is
    not stored it changes nothing. *)
Theorem lru_remove_behaviour key s :
  reachable s →
  stored key (remove key s) = None
  ∧ contains key (remove key s) = false
  ∧ (∀ key', key' ≠ key → stored key' (remove key s) = stored key' s)
  ∧ (is_Some (stored key s) →
     S (length (nodes_ (remove key s))) = length (nodes_ s))
  ∧ (stored key s = None → remove key s = s)
  ∧ capacity_ (remove key s) = capacity_ s.
Proof.
  intros Hwf%LruFacts.lru_reachable_well_formed.
  pose proof (LruFacts.stored_remove_eq key s Hwf) as Hgone.
  split; [done|]. split.
  { rewrite LruFacts.contains_stored, Hgone.
    apply bool_decide_eq_false_2. by intros [? ?]. }
  split; [intros key' Hne; by apply LruFacts.stored_remove_ne|].
  unfold stored, remove.
  destruct (find_node key (nodes_ s)) as [n|] eqn:Hf; simpl.
  - split; [|done]. intros _.
    destruct (LruFacts.find_node_Some _ _ _ Hf) as [-> _].
    by apply (LruFacts.length_removeNode _ _ n).
  - split; [by intros [? ?]|done].
Qed.

(** X5.  An entry that was just read or written is not the next one to
    go: with room for two entries, a [put] of another key right after
    leaves it in the cache. *)
Theorem lru_recent_survives key key' value value' value0 s v :
  reachable s → 2 ≤ capacity_ s < 2 ^ 31 → key' ≠ key →
  (stored key s = Some v →
   stored key (put key' value' (get key value0 s).2) = Some v)
  ∧ stored key (put key' value' (put key value s)) = Some value.
Proof.
  intros Hwf%LruFacts.lru_reachable_well_formed Hc Hne.
  assert (Hlast : ∀ s1 l n,
            well_formed s1 → capacity_ s1 = capacity_ s →
            nodes_ s1 = l ++ [n] → key_ n = key →
            stored key (put key' value' s1) = stored key s1).
  { intros s1 l n Hwf1 Hcap1 Hn1 Hk.
    assert (Hs1 : is_Some (stored key s1)).
    { unfold stored. rewrite Hn1, LruFacts.find_node_app.
      destruct (find_node key l); simpl; [by eauto|].
      rewrite decide_True by done. by eauto. }
    destruct (stored key (put key' value' s1)) as [v1|] eqn:Hput.
    - destruct (LruFacts.stored_put_ne key key' value' s1 Hwf1 Hne)
        as [He|He]; congruence.
    - exfalso.
      destruct (stored_put_lost key key' value' s1 Hwf1 ltac:(lia) Hne Hs1 Hput)
        as (_ & Hfull & n0 & rest & Hn0 & Hk0).
      destruct Hwf1 as [Hnd1 _]. rewrite Hn1 in Hnd1, Hn0, Hfull.
      rewrite length_app in Hfull. simpl in Hfull.
      destruct l as [|m l]; simpl in *; [lia|].
      injection Hn0 as <- <-.
      apply NoDup_cons in Hnd1 as [Hin _]. apply Hin.
      unfold keys. rewrite fmap_app. simpl. rewrite Hk0, Hk.
      apply elem_of_app. right. by left. }
  split.
  - intros Hv. unfold stored in Hv.
    destruct (find_node key (nodes_ s)) as [n|] eqn:Hf; [|done].
    destruct (LruFacts.find_node_Some _ _ _ Hf) as [Hk _].
    rewrite (Hlast (get key value0 s).2 (removeNode (key_ n) (nodes_ s)) n).
    + rewrite stored_get_same by done. unfold stored. by rewrite Hf.
    + by apply LruFacts.lru_well_formed_get.
    + unfold get. by rewrite Hf.
    + unfold get. by rewrite Hf.
    + done.
  - pose proof (LruFacts.stored_put key value s Hwf ltac:(lia)) as Hput.
    assert (Hshape : ∃ l n, nodes_ (put key value s) = l ++ [n] ∧ key_ n = key).
    { destruct (find_node key (nodes_ s)) as [n|] eqn:Hf.
      - rewrite (LruFacts.put_present key value s n) by (done || lia).
        destruct (LruFacts.find_node_Some _ _ _ Hf) as [Hk _].
        eexists _, _. split; [done|]. done.
      - destruct (LruFacts.lru_put_absent key value s ltac:(lia) Hf)
          as (l & -> & _). eexists _, _. split; [done|]. done. }
    destruct Hshape as (l & n & Hn & Hk).
    rewrite (Hlast (put key value s) l n); [done| | |done..].
    + by apply LruFacts.lru_well_formed_put.
    + apply LruFacts.lru_capacity_put.
Qed.

End KLruCache.

Lemma lru_holds_at_most_capacity_witness :
  Z.of_nat (length (nodes_ (run [CallPut 1 10; CallPut 2 20; CallPut 3 30]
                              (KLruCache_new (Key:=Z) (Value:=Z) 2))))
  ≤ Z.max 0 2.
Proof.
  pose (s := run [CallPut 1 10; CallPut 2 20; CallPut 3 30]
               (@KLruCache_new Z Z 2)).
  assert (Hr : reachable s) by (by eexists 2, _).
  exact (lru_holds_at_most_capacity s Hr eq_refl).
Defined.

Lemma lru_put_evicts_least_recent_witness :
  nodes_ (put 3 30 (run [CallPut 1 10; CallPut 2 20]
                      (KLruCache_new (Key:=Z) (Value:=Z) 2)))
  = [mkLruNode 2 20 1; mkLruNode 3 30 1].
Proof.
  pose (s := run [CallPut 1 10; CallPut 2 20] (@KLruCache_new Z Z 2)).
  assert (Hr : reachable s) by (by exists 2, [CallPut 1 10; CallPut 2 20]).
  destruct (lru_put_evicts_least_recent 3 30 s Hr ltac:(by vm_compute) eq_refl)
    as [_ Hfull].
  destruct (Hfull (mkLruNode 1 10 1) [mkLruNode 2 20 1] eq_refl eq_refl)
    as [Hn _].
  exact Hn.
Defined.

Lemma lru_get_behaviour_witness :
  (get 1 0 (run [CallPut 1 10; CallPut 2 20]
              (KLruCache_new (Key:=Z) (Value:=Z) 2))).1 = (true, 10).
Proof.
  pose (s := run [CallPut 1 10; CallPut 2 20] (@KLruCache_new Z Z 2)).
  assert (Hr : reachable s) by (by exists 2, [CallPut 1 10; CallPut 2 20]).
  exact (proj1 (lru_get_behaviour 1 0 s Hr)).
Defined.

Lemma lru_remove_behaviour_witness :
  stored 1 (remove 1 (run [CallPut 1 10; CallPut 2 20]
                        (KLruCache_new (Key:=Z) (Value:=Z) 2))) = None.
Proof.
  pose (s := run [CallPut 1 10; CallPut 2 20] (@KLruCache_new Z Z 2)).
  assert (Hr : reachable s) by (by exists 2, [CallPut 1 10; CallPut 2 20]).
  exact (proj1 (lru_remove_behaviour 1 s Hr)).
Defined.

Lemma lru_recent_survives_witness :
  let s := run [CallPut 1 10; CallPut 2 20] (KLruCache_new (Key:=Z) (Value:=Z) 2) in
  stored 1 (put 3 30 (get 1 0 s).2) = Some 10.
Proof.
  pose (s := run [CallPut 1 10; CallPut 2 20] (@KLruCache_new Z Z 2)).
  assert (Hr : reachable s) by (by exists 2, [CallPut 1 10; CallPut 2 20]).
  refine (proj1 (lru_recent_survives 1 3 0 30 0 s 10 Hr _ _) eq_refl).
  - vm_compute. split; [discriminate|reflexivity].
  - discriminate.
Defined.

End LruBehaviour.

(** ** LRU-K: what the history records *)

Module LruKBehaviour.
Import LruK.
Section KLruKCache.
Context {Key : Type} `{EqDecision Key} {Value : Type}.
Implicit Types (s : KLruKCache Key Value) (key : Key) (value : Value).
Implicit Types (c : call Key Value).

(** The three ways a call goes: the key is in the main cache; it is not
    and the access is counted; it is not and the access moves it in. *)
Lemma step_shape s c :
  k_ (step s c) = k_ s
  ∧ ((Lru.contains (call_key c) (base s) = true
      ∧ historyList_ (step s c) = historyList_ s
      ∧ ∃ value, base (step s c) = Lru.put (call_key c) value (base s)
                 ∨ base (step s c) = (Lru.get (call_key c) value (base s)).2)
     ∨ (Lru.stored (call_key c) (base s) = None
        ∧ read_count (call_key c) s + 1 < k_ s
        ∧ base (step s c) = base s
        ∧ historyList_ (step s c) = counted (call_key c) s)
     ∨ (Lru.stored (call_key c) (base s) = None
        ∧ k_ s ≤ read_count (call_key c) s + 1
        ∧ historyList_ (step s c) = Lru.remove (call_key c) (counted (call_key c) s)
        ∧ ∃ value,
            base (step s c) = Lru.put (call_key c) value (base s)
            ∨ base (step s c)
              = (Lru.get (call_key c) value
                   (Lru.put (call_key c) value (base s))).2)).
Proof.
  destruct (Lru.contains (call_key c) (base s)) eqn:Hin.
  - destruct c as [key value|key value]; simpl in *.
    + unfold put. rewrite Hin. simpl. split; [done|]. left.
      split; [done|]. split; [done|]. exists value. by left.
    + unfold get. rewrite Hin.
      destruct (Lru.get key value (base s)) as [[hit v] b] eqn:Hg. simpl.
      split; [done|]. left. split; [done|]. split; [done|].
      exists value. right. by rewrite Hg.
  - apply LruKFacts.contains_false in Hin.
    destruct c as [key value|key value]; simpl in *.
    + rewrite LruKFacts.lruk_put_absent by done.
      case_bool_decide; simpl; (split; [done|]); right.
      * right. split; [done|]. split; [done|]. split; [done|].
        exists value. by left.
      * left. split; [done|]. split; [lia|]. done.
    + rewrite LruKFacts.get_absent by done.
      case_bool_decide; simpl; (split; [done|]); right.
      * right. split; [done|]. split; [done|]. split; [done|].
        exists value. by right.
      * left. split; [done|]. split; [lia|]. done.
Qed.

Lemma length_get_value {V} (dflt : V) key (h : Lru.KLruCache Key V) :
  length (Lru.nodes_ (Lru.get_value dflt key h).2) = length (Lru.nodes_ h).
Proof.
  rewrite <- (LruBehaviour.length_get key dflt h). unfold Lru.get_value.
  by destruct (Lru.get key dflt h) as [[hit v] h'].
Qed.

Lemma length_counted key s :
  Lru.capacity_ (historyList_ s) < 2 ^ 64 →
  Z.of_nat (length (Lru.nodes_ (historyList_ s)))
  ≤ Z.max 0 (Lru.capacity_ (historyList_ s)) →
  Z.of_nat (length (Lru.nodes_ (counted key s)))
  ≤ Z.max 0 (Lru.capacity_ (historyList_ s)).
Proof.
  intros Hc Hb. unfold counted.
  rewrite <- (LruFacts.capacity_get_value key 0 (historyList_ s)).
  apply LruBehaviour.length_put.
  - by rewrite LruFacts.capacity_get_value.
  - by rewrite length_get_value, LruFacts.capacity_get_value.
Qed.

Lemma lruk_capacity_step s c :
  Lru.capacity_ (base (step s c)) = Lru.capacity_ (base s)
  ∧ Lru.capacity_ (historyList_ (step s c)) = Lru.capacity_ (historyList_ s).
Proof.
  assert (Hget : ∀ key value (b : Lru.KLruCache Key Value),
            Lru.capacity_ (Lru.get key value b).2 = Lru.capacity_ b).
  { intros key value b. unfold Lru.get.
    by destruct (Lru.find_node key (Lru.nodes_ b)). }
  assert (Hrem : ∀ key (h : Lru.KLruCache Key Z),
            Lru.capacity_ (Lru.remove key h) = Lru.capacity_ h).
  { intros key h. unfold Lru.remove.
    by destruct (Lru.find_node key (Lru.nodes_ h)). }
  destruct (step_shape s c) as [_ [(_ & -> & v & [->| ->])|
    [(_ & _ & -> & ->)|(_ & _ & -> & v & [->| ->])]]];
    rewrite ?Hget, ?Hrem, ?LruFacts.lru_capacity_put,
      ?LruKFacts.capacity_counted; done.
Qed.

Lemma lruk_capacity_run (cs : list (call Key Value)) s :
  k_ (run cs s) = k_ s
  ∧ Lru.capacity_ (base (run cs s)) = Lru.capacity_ (base s)
  ∧ Lru.capacity_ (historyList_ (run cs s)) = Lru.capacity_ (historyList_ s).
Proof.
  unfold run. revert s. induction cs as [|c cs IH]; [done|]. intros s. simpl.
  destruct (IH (step s c)) as (-> & -> & ->).
  destruct (lruk_capacity_step s c) as [-> ->].
  by rewrite (proj1 (step_shape s c)).
Qed.

(** Both lists stay within their capacities. *)
Lemma bounded_step s c :
  Lru.capacity_ (base s) < 2 ^ 64 → Lru.capacity_ (historyList_ s) < 2 ^ 64 →
  Z.of_nat (length (Lru.nodes_ (base s))) ≤ Z.max 0 (Lru.capacity_ (base s)) →
  Z.of_nat (length (Lru.nodes_ (historyList_ s)))
  ≤ Z.max 0 (Lru.capacity_ (historyList_ s)) →
  Z.of_nat (length (Lru.nodes_ (base (step s c))))
  ≤ Z.max 0 (Lru.capacity_ (base s))
  ∧ Z.of_nat (length (Lru.nodes_ (historyList_ (step s c))))
    ≤ Z.max 0 (Lru.capacity_ (historyList_ s)).
Proof.
  intros Hc Hhc Hb Hh.
  pose proof (length_counted (call_key c) s Hhc Hh) as Hcounted.
  pose proof (LruBehaviour.length_remove (call_key c) (counted (call_key c) s))
    as Hrem.
  assert (Hput : ∀ v, Z.of_nat (length (Lru.nodes_
                        (Lru.put (call_key c) v (base s))))
                      ≤ Z.max 0 (Lru.capacity_ (base s))).
  { intros v. by apply LruBehaviour.length_put. }
  destruct (step_shape s c) as [_ [(_ & -> & v & [->| ->])|
    [(_ & _ & -> & ->)|(_ & _ & -> & v & [->| ->])]]];
    rewrite ?LruBehaviour.length_get; (split; [done || apply Hput|]);
    (done || lia).
Qed.

Lemma counts_below_read_count key s :
  counts_below s → k_ s < 2 ^ 31 →
  0 ≤ read_count key s ∧ (read_count key s < k_ s ∨ read_count key s = 0).
Proof.
  intros Hcb Hk. unfold read_count.
  destruct (Lru.stored key (historyList_ s)) as [n|] eqn:Hn; simpl.
  - destruct (Hcb key n Hn). rewrite MachineIntFacts.to_int_small; lia.
  - rewrite MachineIntFacts.to_int_small; lia.
Qed.

Lemma counts_below_step s c :
  well_formed s → k_ s < 2 ^ 31 → counts_below s → counts_below (step s c).
Proof.
  intros [Hb Hh] Hk Hcb key n.
  destruct (counts_below_read_count (call_key c) s Hcb Hk) as [Hr0 Hr].
  pose proof (LruKFacts.well_formed_counted (call_key c) s Hh) as Hwc.
  destruct (step_shape s c) as [-> [(_ & -> & _)|
    [(_ & Hlt & _ & ->)|(_ & Hge & -> & _)]]].
  - apply Hcb.
  - destruct (decide (call_key c = key)) as [<-|Hne].
    + rewrite LruKFacts.stored_counted by done. case_bool_decide; [apply Hcb|].
      intros [= <-]. rewrite MachineIntFacts.to_size_t_small; lia.
    + destruct (LruKFacts.stored_counted_ne key (call_key c) s Hh Hne)
        as [-> | ->]; [apply Hcb|done].
  - destruct (decide (call_key c = key)) as [<-|Hne].
    + by rewrite LruFacts.stored_remove_eq.
    + rewrite LruFacts.stored_remove_ne by done.
      destruct (LruKFacts.stored_counted_ne key (call_key c) s Hh Hne)
        as [-> | ->]; [apply Hcb|done].
Qed.

Lemma counts_below_run (cs : list (call Key Value)) s :
  well_formed s → k_ s < 2 ^ 31 → counts_below s → counts_below (run cs s).
Proof.
  unfold run. revert s. induction cs as [|c cs IH]; [done|]. intros s Hwf Hk Hcb.
  simpl. apply IH.
  - by apply LruKFacts.lruk_well_formed_step.
  - by rewrite (proj1 (step_shape s c)).
  - by apply counts_below_step.
Qed.

Lemma reachable_counts_below s : reachable s → k_ s < 2 ^ 31 → counts_below s.
Proof.
  intros (capacity & historyCapacity & k & cs & ->) Hk.
  rewrite (proj1 (lruk_capacity_run cs _)) in Hk.
  apply counts_below_run; [apply LruKFacts.lruk_well_formed_new|done|].
  by intros key n.
Qed.

(** X6.  The main cache and the history of an LRU-K cache never hold more
    entries than their capacities. *)
Theorem lruk_holds_at_most_capacity s :
  reachable s →
  Lru.capacity_ (base s) < 2 ^ 31 → Lru.capacity_ (historyList_ s) < 2 ^ 31 →
  Z.of_nat (length (Lru.nodes_ (base s))) ≤ Z.max 0 (Lru.capacity_ (base s))
  ∧ Z.of_nat (length (Lru.nodes_ (historyList_ s)))
    ≤ Z.max 0 (Lru.capacity_ (historyList_ s)).
Proof.
  intros (capacity & historyCapacity & k & cs & ->).
  destruct (lruk_capacity_run cs (KLruKCache_new (Key:=Key) (Value:=Value)
              capacity historyCapacity k)) as (_ & -> & ->).
  intros Hc Hhc.
  assert (Hgen : ∀ s,
    Lru.capacity_ (base s) < 2 ^ 31 → Lru.capacity_ (historyList_ s) < 2 ^ 31 →
    Z.of_nat (length (Lru.nodes_ (base s))) ≤ Z.max 0 (Lru.capacity_ (base s)) →
    Z.of_nat (length (Lru.nodes_ (historyList_ s)))
    ≤ Z.max 0 (Lru.capacity_ (historyList_ s)) →
    Z.of_nat (length (Lru.nodes_ (base (run cs s))))
    ≤ Z.max 0 (Lru.capacity_ (base s))
    ∧ Z.of_nat (length (Lru.nodes_ (historyList_ (run cs s))))
      ≤ Z.max 0 (Lru.capacity_ (historyList_ s))).
  { unfold run. induction cs as [|c cs IH]; [done|].
    intros s Hs Hhs Hb Hh. simpl.
    destruct (bounded_step s c ltac:(lia) ltac:(lia) Hb Hh) as [Hb' Hh'].
    destruct (lruk_capacity_step s c) as [Hc1 Hc2].
    rewrite <- Hc1, <- Hc2. apply IH; rewrite ?Hc1, ?Hc2; done. }
  apply Hgen; simpl; (done || lia).
Qed.

(** X7.  An access to a key that is not in the main cache and stays
    below [k_] leaves the main cache alone and raises the count the
    history holds for the key by one; the counts the history holds are
    always at least 1 and below [k_]. *)
Theorem lruk_access_counts key s c :
  reachable s → k_ s < 2 ^ 31 → 0 < Lru.capacity_ (historyList_ s) →
  Lru.stored key (base s) = None → call_key c = key →
  read_count key s + 1 < k_ s →
  base (step s c) = base s
  ∧ Lru.stored key (historyList_ (step s c)) = Some (read_count key s + 1)
  ∧ read_count key (step s c) = read_count key s + 1
  ∧ ∀ key' n, Lru.stored key' (historyList_ s) = Some n → 1 ≤ n < k_ s.
Proof.
  intros Hr Hk Hhc Hb Hc Hlt.
  pose proof (LruKFacts.lruk_reachable_well_formed s Hr) as [Hwb Hwh].
  pose proof (reachable_counts_below s Hr Hk) as Hcb.
  destruct (counts_below_read_count key s Hcb Hk) as [Hr0 _].
  rewrite (LruKFacts.step_counted key s c) by done.
  split; [done|]. split; [|split; [|done]].
  - simpl. rewrite LruKFacts.stored_counted by done.
    rewrite bool_decide_eq_false_2 by lia.
    by rewrite MachineIntFacts.to_size_t_small by lia.
  - apply LruKFacts.read_count_counted; [done|done|lia].
Qed.

(** X8.  The [put] on which the count of a key reaches [k_] moves the key
    into the main cache with its value and drops its count from the
    history. *)
Theorem lruk_put_reaches_k key value s :
  reachable s → Lru.stored key (base s) = None →
  k_ s ≤ read_count key s + 1 →
  base (put key value s) = Lru.put key value (base s)
  ∧ Lru.stored key (historyList_ (put key value s)) = None
  ∧ (0 < Lru.capacity_ (base s) →
     Lru.stored key (base (put key value s)) = Some value).
Proof.
  intros Hr Hb Hge.
  pose proof (LruKFacts.lruk_reachable_well_formed s Hr) as [Hwb Hwh].
  rewrite LruKFacts.lruk_put_absent by done.
  rewrite bool_decide_eq_true_2 by done. simpl.
  split; [done|]. split.
  - apply LruFacts.stored_remove_eq. by apply LruKFacts.well_formed_counted.
  - intros Hc. by apply LruFacts.stored_put.
Qed.

End KLruKCache.

Lemma lruk_holds_at_most_capacity_witness :
  let s := run [CallPut 1 10; CallPut 1 11; CallPut 2 20; CallPut 2 21;
                CallGet 3 0]
             (KLruKCache_new (Key:=Z) (Value:=Z) 1 1 2) in
  Z.of_nat (length (Lru.nodes_ (base s))) ≤ Z.max 0 1
  ∧ Z.of_nat (length (Lru.nodes_ (historyList_ s))) ≤ Z.max 0 1.
Proof.
  pose (s := run [CallPut 1 10; CallPut 1 11; CallPut 2 20; CallPut 2 21;
                  CallGet 3 0] (@KLruKCache_new Z Z 1 1 2)).
  assert (Hr : reachable s) by (by eexists 1, 1, 2, _).
  exact (lruk_holds_at_most_capacity s Hr eq_refl eq_refl).
Defined.

Lemma lruk_access_counts_witness :
  Lru.stored 7 (historyList_ (step (KLruKCache_new (Key:=Z) (Value:=Z) 2 2 3)
                                (CallGet 7 0))) = Some 1.
Proof.
  assert (Hr : reachable (@KLruKCache_new Z Z 2 2 3)) by (by exists 2, 2, 3, []).
  refine (proj1 (proj2 (lruk_access_counts 7 (KLruKCache_new 2 2 3)
                          (CallGet 7 0) Hr _ _ eq_refl eq_refl _))).
  - vm_compute. reflexivity.
  - vm_compute. reflexivity.
  - vm_compute. reflexivity.
Defined.

Lemma lruk_put_reaches_k_witness :
  Lru.stored 7 (base (put 7 5 (run [CallGet 7 0; CallGet 8 0; CallGet 7 0]
                                 (KLruKCache_new (Key:=Z) (Value:=Z) 2 2 3))))
  = Some 5.
Proof.
  pose (s := run [CallGet 7 0; CallGet 8 0; CallGet 7 0]
               (@KLruKCache_new Z Z 2 2 3)).
  assert (Hr : reachable s) by (by eexists 2, 2, 3, _).
  refine (proj2 (proj2 (lruk_put_reaches_k 7 5 s Hr eq_refl _)) _).
  - vm_compute. discriminate.
  - vm_compute. reflexivity.
Defined.

End LruKBehaviour.

(** ** The LFU engine: capacity, eviction, counting, [purge] *)

Module LfuBehaviour.
Import Lfu.
Section KLfuCache.
Context {Key : Type} `{Countable Key} {Value : Type}.
Variable sentinelKey : Key.
Implicit Types (s : KLfuCache Key Value) (key : Key) (v : Value).
Implicit Types (n : Node Value).

Lemma insert_setValue key v s n :
  <[key := n]> (nodeMap_ (setValue key v s)) = <[key := n]> (nodeMap_ s).
Proof.
  apply map_eq. intros key'. simpl.
  destruct (decide (key = key')) as [<-|Hne].
  - by rewrite !lookup_insert_eq.
  - by rewrite !lookup_insert_ne, lookup_alter_ne by done.
Qed.

(** What [put] does to the index, case by case. *)
Lemma put_shape key v s :
  well_formed s → capacity_ s ≠ 0 →
  ∃ s', put sentinelKey key v s = Some s'
    ∧ well_formed s' ∧ capacity_ s' = capacity_ s
    ∧ match nodeMap_ s !! key with
      | Some n => nodeMap_ s' = <[key := mkNode (freq n + 1) v]> (nodeMap_ s)
      | None =>
          if full s
          then ∃ victim l,
                 freqToFreqList_ s !! minFreq_ s = Some (victim :: l)
                 ∧ nodeMap_ s'
                   = <[key := mkNode 1 v]> (delete victim (nodeMap_ s))
          else nodeMap_ s' = <[key := mkNode 1 v]> (nodeMap_ s)
      end.
Proof.
  intros Hwf Hc. unfold put. rewrite bool_decide_eq_false_2 by done.
  destruct (nodeMap_ s !! key) as [n|] eqn:Hn.
  - assert (Hn' : nodeMap_ (setValue key v s) !! key = Some (mkNode (freq n) v)).
    { simpl. by rewrite lookup_alter_eq, Hn. }
    destruct (LfuFacts.getInternal_spec key _ _
                (LfuFacts.well_formed_setValue key v s Hwf) Hn')
      as (s' & -> & Hwf' & Hm & Hc').
    exists s'. simpl. split; [done|]. split; [done|]. split; [done|].
    by rewrite Hm, insert_setValue.
  - unfold putInternal. destruct (full s) eqn:Hfull.
    + pose proof (LfuFacts.full_nonempty s (linked_capacity s (proj1 Hwf))
                    Hc Hfull) as Hne.
      destruct (LfuFacts.kickOut_spec sentinelKey s Hwf Hne)
        as (victim & l & Hl & -> & Hlinked).
      simpl. eexists. split; [done|]. split; [|split; [done|]].
      * apply LfuFacts.insertNew_well_formed; [done|]. simpl.
        destruct (decide (key = victim)) as [->|Hne0].
        -- by rewrite lookup_delete_eq.
        -- by rewrite lookup_delete_ne.
      * exists victim, l. by split.
    + simpl. eexists. split; [done|]. split; [|split; [done|done]].
      apply LfuFacts.insertNew_well_formed; [by destruct Hwf|done].
Qed.

(** The first key of the bucket of [minFreq_] is in the index, with the
    least frequency of all. *)
Lemma first_least s victim l :
  well_formed s → freqToFreqList_ s !! minFreq_ s = Some (victim :: l) →
  ∃ n, nodeMap_ s !! victim = Some n ∧ freq n = minFreq_ s
       ∧ ∀ key' n', nodeMap_ s !! key' = Some n' → freq n ≤ freq n'.
Proof.
  intros [Hs Hmin] Hl.
  destruct (linked_bucket s Hs _ _ Hl) as [_ Hin].
  destruct (Hin victim ltac:(by left)) as [v Hv].
  exists (mkNode (minFreq_ s) v). split; [done|]. split; [done|].
  intros key' n' Hn'. simpl.
  assert (Hne : nodeMap_ s ≠ ∅) by (intros He; by rewrite He in Hv).
  destruct (Hmin Hne) as [_ Hleast].
  destruct (linked_index s Hs key' n' Hn') as (l' & Hl' & Hin').
  apply (Hleast _ l' Hl'). intros ->. by apply elem_of_nil in Hin'.
Qed.

Lemma size_insert_present {A} (m : gmap Key A) key (x : A) :
  is_Some (m !! key) → size (<[key := x]> m) = size m.
Proof.
  intros Hin. rewrite <- !size_dom, dom_insert_L.
  apply elem_of_dom in Hin. f_equal. set_solver.
Qed.

(** What [get] does, hit or miss. *)
Lemma get_shape key v s :
  well_formed s →
  match nodeMap_ s !! key with
  | Some n =>
      ∃ s', get key v s = Some (true, value n, s')
        ∧ well_formed s' ∧ capacity_ s' = capacity_ s
        ∧ nodeMap_ s' = <[key := mkNode (freq n + 1) (value n)]> (nodeMap_ s)
  | None => get key v s = Some (false, v, s)
  end.
Proof.
  intros Hwf. unfold get. destruct (nodeMap_ s !! key) as [n|] eqn:Hn; [|done].
  destruct (LfuFacts.getInternal_spec key s n Hwf Hn)
    as (s' & -> & Hwf' & Hm & Hc).
  by exists s'.
Qed.

Lemma size_step s c s' :
  well_formed s → 0 ≤ capacity_ s →
  Z.of_nat (size (nodeMap_ s)) ≤ capacity_ s →
  step sentinelKey s c = Some s' →
  capacity_ s' = capacity_ s ∧ Z.of_nat (size (nodeMap_ s')) ≤ capacity_ s.
Proof.
  intros Hwf Hc Hb. destruct c as [key v|key v|]; simpl.
  - destruct (decide (capacity_ s = 0)) as [Hz|Hz].
    { unfold put. rewrite bool_decide_eq_true_2 by done. by intros [= <-]. }
    destruct (put_shape key v s Hwf Hz) as (s1 & -> & _ & Hc1 & Hm).
    intros [= <-]. split; [done|].
    destruct (nodeMap_ s !! key) as [n|] eqn:Hn.
    + rewrite Hm, size_insert_present by eauto. done.
    + destruct (full s) eqn:Hfull.
      * destruct Hm as (victim & l & Hl & ->).
        destruct (first_least s victim l Hwf Hl) as (n & Hn' & _).
        rewrite map_size_insert_None.
        -- pose proof (map_size_delete victim (nodeMap_ s)) as Hd.
           rewrite Hn' in Hd.
           assert (size (nodeMap_ s) ≠ 0%nat); [|lia].
           apply map_size_non_empty_iff. intros He. by rewrite He in Hn'.
        -- destruct (decide (key = victim)) as [->|Hne];
             [by rewrite lookup_delete_eq|by rewrite lookup_delete_ne].
      * rewrite Hm, map_size_insert_None by done.
        unfold full in Hfull. apply bool_decide_eq_false_1 in Hfull.
        destruct (linked_capacity s (proj1 Hwf)).
        rewrite MachineIntFacts.to_size_t_small in Hfull by lia. lia.
  - pose proof (get_shape key v s Hwf) as Hg.
    destruct (nodeMap_ s !! key) as [n|] eqn:Hn.
    + destruct Hg as (s1 & -> & _ & Hc1 & Hm). simpl. intros [= <-].
      split; [done|]. rewrite Hm, size_insert_present by eauto. done.
    + rewrite Hg. simpl. by intros [= <-].
  - intros [= <-]. simpl. by rewrite map_size_empty.
Qed.

Lemma size_run cs : ∀ s s',
  well_formed s → 0 ≤ capacity_ s →
  Z.of_nat (size (nodeMap_ s)) ≤ capacity_ s →
  run sentinelKey cs s = Some s' →
  capacity_ s' = capacity_ s ∧ Z.of_nat (size (nodeMap_ s')) ≤ capacity_ s.
Proof.
  induction cs as [|c cs IH]; simpl; intros s s' Hwf Hc Hb.
  - by intros [= <-].
  - destruct (LfuFacts.step_total sentinelKey s c Hwf) as (s1 & Hs1 & Hwf1).
    rewrite Hs1. simpl. intros Hrun.
    destruct (size_step s c s1 Hwf Hc Hb Hs1) as [Hc1 Hb1].
    destruct (IH s1 s' Hwf1 ltac:(lia) ltac:(lia) Hrun) as [Hc' Hb'].
    split; lia.
Qed.

(** X9.  The LFU engine never holds more entries than its capacity. *)
Theorem lfu_holds_at_most_capacity s :
  reachable sentinelKey s → 0 ≤ capacity_ s →
  Z.of_nat (size (nodeMap_ s)) ≤ capacity_ s.
Proof.
  intros (capacity & cs & Hc & Hrun) Hpos.
  assert (Hwf : well_formed (KLfuCache_new (Key:=Key) (Value:=Value) capacity))
    by by apply LfuFacts.lfu_well_formed_new.
  destruct (decide (0 ≤ capacity)) as [Hc0|Hc0].
  - destruct (size_run cs _ s Hwf Hc0 ltac:(by simpl; rewrite map_size_empty)
                Hrun) as [Hcap Hb].
    simpl in *. lia.
  - exfalso. clear Hwf.
    assert (Hgen : ∀ s0, well_formed s0 → run sentinelKey cs s0 = Some s →
              capacity_ s = capacity_ s0).
    { clear Hrun. induction cs as [|c cs IH]; simpl; intros s0 Hwf0.
      - by intros [= <-].
      - destruct (LfuFacts.step_total sentinelKey s0 c Hwf0)
          as (s1 & Hs1 & Hwf1).
        rewrite Hs1. simpl. intros Hrun. rewrite (IH s1 Hwf1 Hrun).
        destruct c as [key v|key v|]; simpl in Hs1.
        + destruct (decide (capacity_ s0 = 0)) as [Hz|Hz].
          * unfold put in Hs1. rewrite bool_decide_eq_true_2 in Hs1 by done.
            by injection Hs1 as <-.
          * destruct (put_shape key v s0 Hwf0 Hz) as (s2 & Hs2 & _ & Hc2 & _).
            congruence.
        + destruct (LfuFacts.get_spec key v s0 Hwf0) as (s2 & Hs2 & _ & Hc2).
          rewrite Hs2 in Hs1. simpl in Hs1. congruence.
        + by injection Hs1 as <-. }
    rewrite (Hgen _ (LfuFacts.lfu_well_formed_new capacity Hc) Hrun) in Hpos.
    simpl in Hpos. lia.
Qed.

(** X10.  A [put] of a new key into a full cache evicts the oldest key of
    the bucket of [minFreq_], and none of the stored keys has a lower
    frequency than the evicted one; the new key comes in with frequency
    1. *)
Theorem lfu_put_evicts_least_frequent key v s :
  reachable sentinelKey s → capacity_ s ≠ 0 → nodeMap_ s !! key = None →
  Z.of_nat (size (nodeMap_ s)) = capacity_ s →
  ∃ victim n l s',
    put sentinelKey key v s = Some s'
    ∧ freqToFreqList_ s !! minFreq_ s = Some (victim :: l)
    ∧ nodeMap_ s !! victim = Some n
    ∧ (∀ key' n', nodeMap_ s !! key' = Some n' → freq n ≤ freq n')
    ∧ nodeMap_ s' = <[key := mkNode 1 v]> (delete victim (nodeMap_ s)).
Proof.
  intros Hwf%LfuFacts.lfu_reachable_well_formed Hc Hn Hfull.
  destruct (put_shape key v s Hwf Hc) as (s' & Hput & _ & _ & Hm).
  rewrite Hn in Hm.
  assert (full s = true) as Hf.
  { unfold full. apply bool_decide_eq_true_2.
    destruct (linked_capacity s (proj1 Hwf)).
    rewrite MachineIntFacts.to_size_t_small; lia. }
  rewrite Hf in Hm. destruct Hm as (victim & l & Hl & Hm).
  destruct (first_least s victim l Hwf Hl) as (n & Hv & _ & Hleast).
  by exists victim, n, l, s'.
Qed.

(** X11.  A [get] that hits returns the stored value and raises the
    frequency of the key by one, leaving every other entry as it was; a
    [get] that misses changes nothing and leaves the caller's value. *)
Theorem lfu_get_counts key v s :
  reachable sentinelKey s →
  match nodeMap_ s !! key with
  | Some n =>
      ∃ s', get key v s = Some (true, value n, s')
        ∧ nodeMap_ s' = <[key := mkNode (freq n + 1) (value n)]> (nodeMap_ s)
        ∧ capacity_ s' = capacity_ s
  | None => get key v s = Some (false, v, s)
  end.
Proof.
  intros Hwf%LfuFacts.lfu_reachable_well_formed.
  pose proof (get_shape key v s Hwf) as Hg.
  destruct (nodeMap_ s !! key) as [n|]; [|done].
  destruct Hg as (s' & Hget & _ & Hc & Hm). by exists s'.
Qed.

(** X12.  A [put] on a stored key replaces its value and counts as an
    access; a [put] of a new key into a cache that is not full evicts
    nothing and stores the key with frequency 1. *)
Theorem lfu_put_counts key v s :
  reachable sentinelKey s → 0 < capacity_ s →
  (nodeMap_ s !! key = None → Z.of_nat (size (nodeMap_ s)) ≠ capacity_ s) →
  ∃ s', put sentinelKey key v s = Some s'
    ∧ nodeMap_ s'
      = <[key := mkNode (match nodeMap_ s !! key with
                         | Some n => freq n + 1
                         | None => 1
                         end) v]> (nodeMap_ s).
Proof.
  intros Hr Hc Hroom.
  pose proof (LfuFacts.lfu_reachable_well_formed sentinelKey s Hr) as Hwf.
  destruct (put_shape key v s Hwf ltac:(lia)) as (s' & Hput & _ & _ & Hm).
  exists s'. split; [done|].
  destruct (nodeMap_ s !! key) as [n|]; [done|].
  assert (full s = false) as Hf; [|by rewrite Hf in Hm].
  unfold full. apply bool_decide_eq_false_2. specialize (Hroom eq_refl).
  destruct (linked_capacity s (proj1 Hwf)).
  rewrite MachineIntFacts.to_size_t_small; lia.
Qed.

(** X13.  [purge] empties the cache: every [get] after it misses, and the
    cache takes and returns entries as before. *)
Theorem lfu_purge_empties key v v0 s :
  reachable sentinelKey s →
  nodeMap_ (purge s) = ∅
  ∧ capacity_ (purge s) = capacity_ s
  ∧ get key v0 (purge s) = Some (false, v0, purge s)
  ∧ reachable sentinelKey (purge s)
  ∧ (capacity_ s ≠ 0 →
     ∃ s' s'', put sentinelKey key v (purge s) = Some s'
               ∧ nodeMap_ s' = {[key := mkNode 1 v]}
               ∧ get key v0 s' = Some (true, v, s'')).
Proof.
  intros Hr.
  assert (Hrp : reachable sentinelKey (purge s)).
  { by apply (LfuFacts.reachable_step sentinelKey s CallPurge). }
  pose proof (LfuFacts.lfu_reachable_well_formed sentinelKey _ Hrp) as Hwf.
  split; [done|]. split; [done|]. split; [done|]. split; [done|].
  intros Hc.
  destruct (put_shape key v (purge s) Hwf Hc) as (s' & Hput & Hwf' & _ & Hm).
  simpl in Hm. rewrite lookup_empty in Hm.
  assert (Hm' : nodeMap_ s' = {[key := mkNode 1 v]}).
  { destruct (full (purge s)); [|done].
    destruct Hm as (victim & l & _ & ->). by rewrite delete_empty. }
  pose proof (get_shape key v0 s' Hwf') as Hg.
  rewrite Hm', lookup_singleton_eq in Hg.
  destruct Hg as (s'' & Hg & _). by exists s', s''.
Qed.

End KLfuCache.

Lemma lfu_holds_at_most_capacity_witness :
  ∃ s, run 0 [CallPut 1 10; CallPut 2 20; CallPut 3 30]
         (KLfuCache_new (Value:=Z) 2) = Some s
       ∧ Z.of_nat (size (nodeMap_ s)) ≤ capacity_ s.
Proof.
  eexists. split; [reflexivity|].
  refine (lfu_holds_at_most_capacity 0 _ _ _).
  - exists 2, [CallPut 1 10; CallPut 2 20; CallPut 3 30].
    split; [lia|reflexivity].
  - vm_compute. discriminate.
Defined.

Lemma lfu_put_evicts_least_frequent_witness :
  ∃ s, run 0 [CallPut 1 10; CallPut 2 20; CallGet 1 0]
         (KLfuCache_new (Value:=Z) 2) = Some s
       ∧ ∃ victim n l s',
           put 0 3 30 s = Some s'
           ∧ freqToFreqList_ s !! minFreq_ s = Some (victim :: l)
           ∧ nodeMap_ s !! victim = Some n
           ∧ (∀ key' n', nodeMap_ s !! key' = Some n' → freq n ≤ freq n')
           ∧ nodeMap_ s' = <[3 := mkNode 1 30]> (delete victim (nodeMap_ s)).
Proof.
  eexists. split; [reflexivity|].
  refine (lfu_put_evicts_least_frequent 0 3 30 _ _ _ _ _).
  - exists 2, [CallPut 1 10; CallPut 2 20; CallGet 1 0].
    split; [lia|reflexivity].
  - vm_compute. discriminate.
  - vm_compute. reflexivity.
  - vm_compute. reflexivity.
Defined.

Lemma lfu_get_counts_witness :
  ∃ s, run 0 [CallPut 1 10] (KLfuCache_new (Value:=Z) 2) = Some s
       ∧ ∃ s', get 1 0 s = Some (true, 10, s')
               ∧ nodeMap_ s' = <[1 := mkNode 2 10]> (nodeMap_ s)
               ∧ capacity_ s' = capacity_ s.
Proof.
  eexists. split; [reflexivity|].
  match goal with
  | |- ∃ s', get _ _ ?s = _ ∧ _ =>
      assert (Hr : reachable 0 s)
        by (exists 2, [CallPut 1 10]; split; [lia|reflexivity]);
      exact (lfu_get_counts 0 1 0 s Hr)
  end.
Defined.

Lemma lfu_put_counts_witness :
  ∃ s, run 0 [CallPut 1 10] (KLfuCache_new (Value:=Z) 2) = Some s
       ∧ ∃ s', put 0 1 11 s = Some s'
               ∧ nodeMap_ s' = <[1 := mkNode 2 11]> (nodeMap_ s).
Proof.
  eexists. split; [reflexivity|].
  match goal with
  | |- ∃ s', put _ _ _ ?s = _ ∧ _ =>
      assert (Hr : reachable 0 s)
        by (exists 2, [CallPut 1 10]; split; [lia|reflexivity]);
      exact (lfu_put_counts 0 1 11 s Hr eq_refl ltac:(discriminate))
  end.
Defined.

Lemma lfu_purge_empties_witness :
  ∃ s, run 0 [CallPut 1 10; CallPut 2 20] (KLfuCache_new (Value:=Z) 2) = Some s
       ∧ get 1 0 (purge s) = Some (false, 0, purge s).
Proof.
  eexists. split; [reflexivity|].
  refine (proj1 (proj2 (proj2 (lfu_purge_empties 0 1 0 0 _ _)))).
  exists 2, [CallPut 1 10; CallPut 2 20]. split; [lia|reflexivity].
Defined.

End LfuBehaviour.

(** ** The LFU aging engine: every call is defined, [get] keeps values *)

Module LfuAgingBehaviour.
Import LfuAging.
Section KLfuAgingCache.
Context {Key : Type} `{Countable Key} {Value : Type}.
Variable sentinelKey : Key.
Implicit Types (a : KLfuAgingCache Key Value) (key : Key) (v : Value).
Implicit Types (order : Iteration Key Value).

Lemma aging_run_snoc cs order (c : call Key Value) a a1 a2 :
  run sentinelKey cs a = Some a1 → step sentinelKey order a1 c = Some a2 →
  run sentinelKey (cs ++ [(order, c)]) a = Some a2.
Proof.
  revert a. induction cs as [|c0 cs IH]; simpl; intros a.
  - intros [= ->] ->. done.
  - destruct (step sentinelKey c0.1 a c0.2) as [a0|]; simpl; [|done].
    apply IH.
Qed.

Lemma aging_reachable_step order a (c : call Key Value) a' :
  iterates order →
  reachable sentinelKey a → step sentinelKey order a c = Some a' →
  reachable sentinelKey a'.
Proof.
  intros Ho (capacity & maxAverageNum & cs & Hc & Hos & Hrun) Hstep.
  exists capacity, maxAverageNum, (cs ++ [(order, c)]). split; [done|].
  split; [|by eapply aging_run_snoc].
  apply Forall_app. split; [done|]. by apply Forall_singleton.
Qed.

(** A [get] that hits: the value, and the values after it. *)
Lemma get_values order key v a :
  iterates order → usable (lfu a) →
  ∃ a', get order key v a =
          Some (match Lfu.nodeMap_ (lfu a) !! key with
                | Some n => (true, Lfu.value n)
                | None => (false, v)
                end, a')
        ∧ ∀ key', Lfu.value <$> Lfu.nodeMap_ (lfu a') !! key'
                  = Lfu.value <$> Lfu.nodeMap_ (lfu a) !! key'.
Proof.
  intros Ho Hu. unfold get.
  destruct (Lfu.nodeMap_ (lfu a) !! key) as [n|] eqn:Hn.
  - unfold getInternal.
    destruct (LfuAgingFacts.usable_getInternal key _ _ Hu Hn)
      as (s' & -> & Hu' & Hm). simpl.
    match goal with
    | |- context [addFreqNum order ?x] =>
        destruct (LfuAgingFacts.addFreqNum_spec order x Ho Hu')
          as (a' & -> & Hu'' & Hv)
    end.
    simpl. exists a'. split; [done|]. intros key'. rewrite Hv. simpl.
    rewrite Hm. destruct (decide (key = key')) as [<-|Hne].
    + by rewrite lookup_insert_eq, Hn.
    + by rewrite lookup_insert_ne.
  - by exists a.
Qed.

(** X14.  In every state a client can reach, and whatever the order in
    which [nodeMap_] is walked, [put], [get] and [purge] of the aging
    engine are defined (no bucket that is dereferenced is missing), and
    [get] returns the stored value on a hit and leaves the caller's value
    on a miss. *)
Theorem aging_calls_defined order key v a :
  iterates order → reachable sentinelKey a →
  (∃ a', put sentinelKey order key v a = Some a' ∧ reachable sentinelKey a')
  ∧ (∃ a', get order key v a =
             Some (match Lfu.nodeMap_ (lfu a) !! key with
                   | Some n => (true, Lfu.value n)
                   | None => (false, v)
                   end, a')
           ∧ reachable sentinelKey a')
  ∧ reachable sentinelKey (purge a).
Proof.
  intros Ho Hr.
  pose proof (LfuAgingFacts.aging_reachable_usable sentinelKey a Hr) as Hu.
  split; [|split].
  - destruct (LfuAgingFacts.aging_put_total sentinelKey order key v a Ho Hu)
      as (a' & Hput & _).
    exists a'. split; [done|].
    by apply (aging_reachable_step order a (CallPut key v)).
  - destruct (LfuAgingFacts.aging_get_spec order key v a Ho Hu)
      as (a' & Hget & _).
    exists a'. split; [done|].
    apply (aging_reachable_step order a (CallGet key v)); [done|done|].
    simpl. by rewrite Hget.
  - by apply (aging_reachable_step order a CallPurge).
Qed.

(** X15.  A [get] of the aging engine changes no stored value and evicts
    nothing, also when it sets off the lowering of all frequencies, and
    whatever the order in which [nodeMap_] is walked then. *)
Theorem aging_get_keeps_values order key v a :
  iterates order → reachable sentinelKey a →
  ∃ r, get order key v a = Some r
       ∧ ∀ key', Lfu.value <$> Lfu.nodeMap_ (lfu r.2) !! key'
                 = Lfu.value <$> Lfu.nodeMap_ (lfu a) !! key'.
Proof.
  intros Ho Hu%LfuAgingFacts.aging_reachable_usable.
  destruct (get_values order key v a Ho Hu) as (a' & Hget & Hv).
  eexists. split; [done|]. done.
Qed.

End KLfuAgingCache.

(** The walk is felt.  After the same calls the bucket of frequency 1
    holds keys 2 and 3 in the order in which the map was walked, and the
    next [put] evicts the one or the other. *)
Lemma aging_walk_decides_victim :
  (∃ a a', run 0 (three_keys map_to_list) (KLfuAgingCache_new 3 1) = Some a
           ∧ Lfu.freqToFreqList_ (lfu a) !! 1 = Some [3; 2]
           ∧ put 0 map_to_list 4 40 a = Some a'
           ∧ Lfu.nodeMap_ (lfu a') !! 3 = None
           ∧ Lfu.nodeMap_ (lfu a') !! 2 = Some (Lfu.mkNode 1 20))
  ∧ (∃ a a', run 0 (three_keys backwards) (KLfuAgingCache_new 3 1) = Some a
             ∧ Lfu.freqToFreqList_ (lfu a) !! 1 = Some [2; 3]
             ∧ put 0 backwards 4 40 a = Some a'
             ∧ Lfu.nodeMap_ (lfu a') !! 2 = None
             ∧ Lfu.nodeMap_ (lfu a') !! 3 = Some (Lfu.mkNode 1 30)).
Proof.
  split.
  - eexists _, _. split; [vm_compute; reflexivity|].
    split; [vm_compute; reflexivity|]. split; [vm_compute; reflexivity|].
    split; vm_compute; reflexivity.
  - eexists _, _. split; [vm_compute; reflexivity|].
    split; [vm_compute; reflexivity|]. split; [vm_compute; reflexivity|].
    split; vm_compute; reflexivity.
Qed.

Lemma three_keys_reachable order a :
  iterates order →
  run 0 (three_keys order) (KLfuAgingCache_new 3 1) = Some a → reachable 0 a.
Proof.
  intros Ho Hrun. exists 3, 1, (three_keys order). split; [lia|].
  split; [|done]. unfold three_keys. apply Forall_fmap. by apply Forall_true.
Qed.

(** On the cache of three keys, the map walked backwards: the [put] of a
    fourth key, which evicts, lowers the frequencies and has a result. *)
Lemma aging_calls_defined_witness :
  ∃ a, run 0 (three_keys backwards) (KLfuAgingCache_new 3 1) = Some a
       ∧ ∃ a', put 0 backwards 4 40 a = Some a' ∧ reachable 0 a'.
Proof.
  pose proof (LfuAgingFacts.iterates_backwards (Key:=Z) (Value:=Z)) as Ho.
  destruct (run 0 (three_keys backwards) (KLfuAgingCache_new 3 1))
    as [a|] eqn:Hrun; [|by vm_compute in Hrun].
  exists a. split; [done|].
  exact (proj1 (aging_calls_defined 0 backwards 4 40 a Ho
                  (three_keys_reachable backwards a Ho Hrun))).
Defined.

(** On the same cache: a [get] that lowers the frequencies keeps the
    values. *)
Lemma aging_get_keeps_values_witness :
  ∃ a, run 0 (three_keys backwards) (KLfuAgingCache_new 3 1) = Some a
       ∧ ∃ r, get backwards 1 0 a = Some r
              ∧ ∀ key', Lfu.value <$> Lfu.nodeMap_ (lfu r.2) !! key'
                        = Lfu.value <$> Lfu.nodeMap_ (lfu a) !! key'.
Proof.
  pose proof (LfuAgingFacts.iterates_backwards (Key:=Z) (Value:=Z)) as Ho.
  destruct (run 0 (three_keys backwards) (KLfuAgingCache_new 3 1))
    as [a|] eqn:Hrun; [|by vm_compute in Hrun].
  exists a. split; [done|].
  exact (aging_get_keeps_values 0 backwards 1 0 a Ho
           (three_keys_reachable backwards a Ho Hrun)).
Defined.

End LfuAgingBehaviour.

(** ** The sharded caches: shards do not interfere *)

Module ShardBehaviour.
Section Shards.
Context {Key : Type} `{Countable Key} {Value : Type}.
Variable Hash : Key → Z.
Variable hardware_concurrency : Z.
Variable sentinelKey : Key.
Implicit Types (key : Key) (v : Value).

(** X16.  A [put] on the sharded LRU cache changes the shard of its key
    and no other: what a [get] of a key of another shard returns is the
    same before and after. *)
Theorem shard_lru_put_isolated key key' v v0
    (s : HashLru.KHashLruCaches Key Value) :
  HashLru.sound s →
  Slices.sliceIndex (Hash key) (HashLru.sliceNum_ s)
  ≠ Slices.sliceIndex (Hash key') (HashLru.sliceNum_ s) →
  ∃ s', HashLru.put Hash key v s = Some s'
    ∧ HashLru.sound s'
    ∧ HashLru.sliceNum_ s' = HashLru.sliceNum_ s
    ∧ (∀ j, Slices.sliceIndex (Hash key) (HashLru.sliceNum_ s) ≠ Some j →
            HashLru.lruSliceCaches_ s' !! j = HashLru.lruSliceCaches_ s !! j)
    ∧ fst <$> HashLru.get Hash key' v0 s' = fst <$> HashLru.get Hash key' v0 s.
Proof.
  intros (Hn & Hlen & Hwf) Hother.
  destruct (ShardFacts.sliceIndex_valid (Hash key) _ Hn) as (i & Hi & Hlt).
  destruct (ShardFacts.sliceIndex_valid (Hash key') _ Hn) as (i' & Hi' & Hlt').
  destruct (lookup_lt_is_Some_2 (HashLru.lruSliceCaches_ s) i ltac:(lia))
    as [shard Hshard].
  unfold HashLru.put. rewrite Hi. simpl. rewrite Hshard. simpl.
  eexists. split; [done|]. split; [|split; [done|split]].
  - split; [done|]. simpl. split; [by rewrite length_insert|].
    apply Forall_insert; [done|]. apply LruFacts.lru_well_formed_put.
    rewrite Forall_lookup in Hwf. by apply (Hwf i).
  - intros j Hj. simpl. rewrite list_lookup_insert_ne; [done|]. congruence.
  - unfold HashLru.get. simpl. rewrite Hi'. simpl.
    rewrite list_lookup_insert_ne by congruence.
    by destruct (HashLru.lruSliceCaches_ s !! i').
Qed.

(** X17.  The same for the sharded LFU cache, whose [put] is defined in
    every state with a positive shard count and usable shards, whatever
    the order in which a shard walks its map. *)
Theorem shard_lfu_put_isolated order order' key key' v v0
    (s : HashLfu.KHashLfuCache Key Value) :
  LfuAging.iterates order →
  HashLfu.sound s →
  Slices.sliceIndex (Hash key) (HashLfu.sliceNum_ s)
  ≠ Slices.sliceIndex (Hash key') (HashLfu.sliceNum_ s) →
  ∃ s', HashLfu.put Hash sentinelKey order key v s = Some s'
    ∧ HashLfu.sound s'
    ∧ HashLfu.sliceNum_ s' = HashLfu.sliceNum_ s
    ∧ (∀ j, Slices.sliceIndex (Hash key) (HashLfu.sliceNum_ s) ≠ Some j →
            HashLfu.lfuSliceCaches_ s' !! j = HashLfu.lfuSliceCaches_ s !! j)
    ∧ fst <$> HashLfu.get Hash order' key' v0 s'
      = fst <$> HashLfu.get Hash order' key' v0 s.
Proof.
  intros Ho (Hn & Hlen & Hwf) Hother.
  destruct (ShardFacts.sliceIndex_valid (Hash key) _ Hn) as (i & Hi & Hlt).
  destruct (ShardFacts.sliceIndex_valid (Hash key') _ Hn) as (i' & Hi' & Hlt').
  destruct (lookup_lt_is_Some_2 (HashLfu.lfuSliceCaches_ s) i ltac:(lia))
    as [shard Hshard].
  assert (Hu : LfuAging.usable (LfuAging.lfu shard)).
  { rewrite Forall_lookup in Hwf. by apply (Hwf i). }
  destruct (LfuAgingFacts.aging_put_total sentinelKey order key v shard Ho Hu)
    as (shard' & Hp & Hu').
  unfold HashLfu.put. rewrite Hi. simpl. rewrite Hshard. simpl.
  rewrite Hp. simpl.
  eexists. split; [done|]. split; [|split; [done|split]].
  - split; [done|]. simpl. split; [by rewrite length_insert|].
    by apply Forall_insert.
  - intros j Hj. simpl. rewrite list_lookup_insert_ne; [done|]. congruence.
  - unfold HashLfu.get. simpl. rewrite Hi'. simpl.
    rewrite list_lookup_insert_ne by congruence.
    destruct (HashLfu.lfuSliceCaches_ s !! i') as [shard0|]; simpl; [|done].
    by destruct (LfuAging.get order' key' v0 shard0).
Qed.

(** X18.  [purge] of the sharded LFU cache empties every shard and keeps
    the shards' capacities: each [get] after it misses and changes
    nothing, and the cache takes and returns entries again as the shards'
    capacities allow. *)
Theorem shard_lfu_purge_empties order key v v0
    (s : HashLfu.KHashLfuCache Key Value) :
  LfuAging.iterates order →
  HashLfu.sound s →
  HashLfu.sound (HashLfu.purge s)
  ∧ Forall (λ a, Lfu.nodeMap_ (LfuAging.lfu a) = ∅)
      (HashLfu.lfuSliceCaches_ (HashLfu.purge s))
  ∧ HashLfu.get Hash order key v0 (HashLfu.purge s)
    = Some (false, v0, HashLfu.purge s)
  ∧ (∀ i shard,
       Slices.sliceIndex (Hash key) (HashLfu.sliceNum_ s) = Some i →
       HashLfu.lfuSliceCaches_ s !! i = Some shard →
       0 < Lfu.capacity_ (LfuAging.lfu shard) →
       ∃ s' s'',
         HashLfu.put Hash sentinelKey order key v (HashLfu.purge s) = Some s'
         ∧ HashLfu.get Hash order key v0 s' = Some (true, v, s'')).
Proof.
  intros Ho (Hn & Hlen & Hwf).
  assert (Hsound : HashLfu.sound (HashLfu.purge s)).
  { split; [done|]. simpl. split; [by rewrite length_fmap|].
    apply Forall_fmap. eapply Forall_impl; [done|].
    intros a Ha. simpl. by apply LfuAgingFacts.usable_purge. }
  split; [done|]. split.
  { simpl. apply Forall_fmap. by apply Forall_true. }
  destruct (ShardFacts.sliceIndex_valid (Hash key) _ Hn) as (i & Hi & Hlt).
  destruct (lookup_lt_is_Some_2 (HashLfu.lfuSliceCaches_ s) i ltac:(lia))
    as [shard Hshard].
  split.
  - unfold HashLfu.get. simpl. rewrite Hi. simpl.
    rewrite list_lookup_fmap, Hshard. simpl.
    unfold LfuAging.get. simpl. rewrite lookup_empty. simpl.
    unfold HashLfu.with_shard, HashLfu.purge. simpl. do 3 f_equal.
    apply list_insert_id. by rewrite list_lookup_fmap, Hshard.
  - intros j shard0 Hj Hshard0 Hcap.
    destruct (ShardFacts.shard_lfu_put_get Hash sentinelKey order order
                key v v0 (HashLfu.purge s) Ho Ho Hsound)
      as (s' & s'' & Hp & _ & Hg); [|by exists s', s''].
    intros j' shard' Hj'. simpl in Hj'. simpl.
    rewrite list_lookup_fmap. intros Hs'.
    assert (j' = j) as -> by congruence.
    rewrite Hshard0 in Hs'. simpl in Hs'. by injection Hs' as <-.
Qed.

(** X19.  A shard count that is not positive on a host that reports no
    hardware concurrency gives a cache without shards, on which [put] and
    [get] have no shard to go to. *)
Theorem shard_count_zero capacity sliceNum key v :
  sliceNum ≤ 0 → to_int hardware_concurrency = 0 →
  HashLru.lruSliceCaches_
    (@HashLru.KHashLruCaches_new Key Value hardware_concurrency
       capacity sliceNum) = []
  ∧ HashLru.put Hash key v
      (HashLru.KHashLruCaches_new hardware_concurrency capacity sliceNum)
    = None
  ∧ HashLru.get Hash key v
      (HashLru.KHashLruCaches_new hardware_concurrency capacity sliceNum)
    = None.
Proof.
  intros Hs Hhw.
  assert (Hr : Slices.resolve hardware_concurrency sliceNum = 0).
  { unfold Slices.resolve. by rewrite bool_decide_eq_false_2 by lia. }
  unfold HashLru.KHashLruCaches_new, HashLru.put, HashLru.get. simpl.
  rewrite Hr. done.
Qed.

End Shards.

Lemma shard_lru_put_isolated_witness :
  ∃ s', HashLru.put (λ k : Z, k) 1 10 (HashLru.KHashLruCaches_new (Value:=Z) 8 4 2)
        = Some s'
        ∧ fst <$> HashLru.get (λ k : Z, k) 2 0 s'
          = fst <$> HashLru.get (λ k : Z, k) 2 0
                      (HashLru.KHashLruCaches_new (Value:=Z) 8 4 2).
Proof.
  destruct (shard_lru_put_isolated (λ k : Z, k) 1 2 10 0
              (HashLru.KHashLruCaches_new (Value:=Z) 8 4 2))
    as (s' & Hp & _ & _ & _ & Hg).
  - apply ShardFacts.shard_lru_sound_new. vm_compute. by split.
  - vm_compute. discriminate.
  - by exists s'.
Defined.

Lemma shard_lfu_put_isolated_witness :
  ∃ s', HashLfu.put (λ k : Z, k) 0 LfuAging.backwards 1 10
          (HashLfu.KHashLfuCache_new (Value:=Z) 8 4 2 10) = Some s'
        ∧ fst <$> HashLfu.get (λ k : Z, k) LfuAging.backwards 2 0 s'
          = fst <$> HashLfu.get (λ k : Z, k) LfuAging.backwards 2 0
                      (HashLfu.KHashLfuCache_new (Value:=Z) 8 4 2 10).
Proof.
  destruct (shard_lfu_put_isolated (λ k : Z, k) 0 LfuAging.backwards
              LfuAging.backwards 1 2 10 0
              (HashLfu.KHashLfuCache_new (Value:=Z) 8 4 2 10))
    as (s' & Hp & _ & _ & _ & Hg).
  - apply LfuAgingFacts.iterates_backwards.
  - apply ShardFacts.shard_lfu_sound_new. vm_compute. by split.
  - vm_compute. discriminate.
  - by exists s'.
Defined.

(** A sharded cache of two shards that holds keys 1, 2 and 3: key 1 is
    read back before [purge] and missed after it, and a [put] brings it
    back. *)
Lemma shard_lfu_purge_empties_witness :
  ∃ s1 s2 s3,
    HashLfu.put (λ k : Z, k) 0 LfuAging.backwards 1 10
      (HashLfu.KHashLfuCache_new 8 4 2 10) = Some s1
    ∧ HashLfu.put (λ k : Z, k) 0 LfuAging.backwards 2 20 s1 = Some s2
    ∧ HashLfu.put (λ k : Z, k) 0 LfuAging.backwards 3 30 s2 = Some s3
    ∧ fst <$> HashLfu.get (λ k : Z, k) LfuAging.backwards 1 0 s3
      = Some (true, 10)
    ∧ HashLfu.get (λ k : Z, k) LfuAging.backwards 1 0 (HashLfu.purge s3)
      = Some (false, 0, HashLfu.purge s3)
    ∧ ∃ s' s'',
        HashLfu.put (λ k : Z, k) 0 LfuAging.backwards 1 11 (HashLfu.purge s3)
        = Some s'
        ∧ HashLfu.get (λ k : Z, k) LfuAging.backwards 1 0 s'
          = Some (true, 11, s'').
Proof.
  pose proof (LfuAgingFacts.iterates_backwards (Key:=Z) (Value:=Z)) as Ho.
  assert (Hs0 : HashLfu.sound (HashLfu.KHashLfuCache_new (Key:=Z) (Value:=Z)
                                 8 4 2 10)).
  { apply ShardFacts.shard_lfu_sound_new. vm_compute. by split. }
  destruct (ShardFacts.shard_lfu_put_sound (λ k : Z, k) 0 LfuAging.backwards
              1 10 _ Ho Hs0) as (s1 & Hp1 & Hs1).
  destruct (ShardFacts.shard_lfu_put_sound (λ k : Z, k) 0 LfuAging.backwards
              2 20 _ Ho Hs1) as (s2 & Hp2 & Hs2).
  destruct (ShardFacts.shard_lfu_put_sound (λ k : Z, k) 0 LfuAging.backwards
              3 30 _ Ho Hs2) as (s3 & Hp3 & Hs3).
  exists s1, s2, s3.
  destruct (shard_lfu_purge_empties (λ k : Z, k) 0 LfuAging.backwards
              1 11 0 s3 Ho Hs3) as (_ & _ & Hmiss & Hagain).
  split; [done|]. split; [done|]. split; [done|].
  vm_compute in Hp1. injection Hp1 as <-.
  vm_compute in Hp2. injection Hp2 as <-.
  vm_compute in Hp3. injection Hp3 as <-.
  split; [vm_compute; reflexivity|]. split; [exact Hmiss|].
  eapply (Hagain 1%nat); reflexivity.
Defined.

Lemma shard_count_zero_witness :
  HashLru.put (λ k : Z, k) 1 10 (HashLru.KHashLruCaches_new (Value:=Z) 0 4 0)
  = None.
Proof.
  refine (proj1 (proj2 (shard_count_zero (λ k : Z, k) 0 4 0 1 10 _ _))).
  - vm_compute. discriminate.
  - reflexivity.
Defined.

End ShardBehaviour.

(** ** ARC: residence, reads, promotion, eviction to the ghost list *)

Module ArcBehaviour.
Import ArcNode Arc.
Section KArcCache.
Context {Key : Type} `{Countable Key} {Value : Type}.
Implicit Types (s : KArcCache Key Value) (key : Key) (value : Value).

(** The ghost check of a key that is in a main part changes nothing. *)
Lemma check_resident key s :
  coherent s →
  key ∈ ArcLru.mainKeys (lruPart_ s) ∨ key ∈ ArcLfu.mainKeys (lfuPart_ s) →
  checkGhostCaches key s = (None, s).
Proof.
  intros Hc Hin.
  pose proof (coherent_lru_ghost s Hc) as Hg1.
  pose proof (coherent_lfu_ghost s Hc) as Hg2.
  apply ArcCoherence.arc_checkGhostCaches_none; apply not_elem_of_dom.
  - unfold ArcLru.ghostKeys in Hg1. set_solver.
  - unfold ArcLfu.ghostKeys in Hg2. set_solver.
Qed.

(** X20.  In every state a client can reach a key is in at most one of
    the two main parts, there once, and then in neither ghost index; no
    part holds more than its capacity, and the two parts together hold no
    more than the capacity the cache was built with. *)
Theorem arc_single_residence capacity transformThreshold
    (cs : list (call Key Value)) :
  0 ≤ capacity < 2 ^ 64 →
  coherent (run cs (KArcCache_new capacity transformThreshold))
  ∧ Z.of_nat (length (ArcLru.main_
                (lruPart_ (run cs (KArcCache_new capacity transformThreshold)))))
    + Z.of_nat (size (ArcLfu.mainCache_
                  (lfuPart_ (run cs (KArcCache_new capacity transformThreshold)))))
    ≤ capacity.
Proof.
  intros Hc.
  pose proof (ArcFacts.balanced_new (Key:=Key) (Value:=Value) capacity
                transformThreshold Hc) as Hb.
  pose proof (ArcFacts.balanced_run _ cs _ Hb) as (_ & _ & Hsum & _).
  assert (Hcoh : coherent (run cs (KArcCache_new (Key:=Key) (Value:=Value)
                                     capacity transformThreshold))).
  { eapply ArcCoherence.coherent_run; [done|].
    apply ArcCoherence.coherent_new. lia. }
  split; [done|].
  pose proof (coherent_lru_room _ Hcoh). pose proof (coherent_lfu_room _ Hcoh).
  pose proof (Z.mul_div_le capacity 2 ltac:(lia)). lia.
Qed.

(** X21.  The frequency lists of ARC's LFU part and its index hold the
    same nodes in every reachable state: no list is empty, each node is
    once in the list of its count, and while the part holds a node the
    list of [minFreq_] exists. *)
Theorem arc_lfu_part_linked s : reachable s → ArcLfu.linked (lfuPart_ s).
Proof.
  intros [_ [total Hb]]%ArcCoherence.reachable_coherent. apply Hb.
Qed.

(** X22.  What [get] reads: the value stored in the part that holds the
    key, and the caller's value (for [Value get(Key)] the
    value-initialised one) on a miss; a key that is in no main part and
    no ghost index leaves the cache as it was. *)
Theorem arc_get_reads key value s :
  reachable s →
  (get key value s).1
  = match ArcLru.find_node key (ArcLru.main_ (lruPart_ s)) with
    | Some n => (true, value_ n)
    | None =>
        match ArcLfu.mainCache_ (lfuPart_ s) !! key with
        | Some n => (true, value_ n)
        | None => (false, value)
        end
    end
  ∧ (get_value value key s).1 = (get key value s).1.2
  ∧ (ArcLru.find_node key (ArcLru.main_ (lruPart_ s)) = None →
     ArcLfu.mainCache_ (lfuPart_ s) !! key = None →
     ArcLru.ghostCache_ (lruPart_ s) !! key = None →
     ArcLfu.ghostCache_ (lfuPart_ s) !! key = None →
     get key value s = (false, value, s)).
Proof.
  intros [Hc [total Hb]]%ArcCoherence.reachable_coherent.
  assert (Hlinked : ArcLfu.linked (lfuPart_ s)) by apply Hb.
  pose proof (coherent_mains s Hc) as Hmains.
  split; [|split].
  - destruct (ArcLru.find_node key (ArcLru.main_ (lruPart_ s))) as [n|] eqn:Hf.
    + assert (Hex1 : ArcLru.existsInMain key (lruPart_ s) = true).
      { unfold ArcLru.existsInMain. rewrite Hf. by apply bool_decide_eq_true_2. }
      apply ArcLruKeys.lrupart_existsInMain_keys in Hex1 as Hin.
      assert (Hex2 : ArcLfu.existsInMain key (lfuPart_ s) = false).
      { apply not_true_is_false. rewrite ArcLfuKeys.lfupart_existsInMain_keys.
        set_solver. }
      unfold get. rewrite check_resident by auto. rewrite Hex1, Hex2. simpl.
      unfold ArcLru.get. rewrite Hf.
      by destruct (transform _ _ _ _ _).
    + assert (Hex1 : ArcLru.existsInMain key (lruPart_ s) = false)
        by by apply ArcFacts.existsInMain_lru_false.
      destruct (ArcLfu.mainCache_ (lfuPart_ s) !! key) as [n|] eqn:Hn.
      * assert (Hin : key ∈ ArcLfu.mainKeys (lfuPart_ s))
          by by eapply elem_of_dom_2.
        apply ArcLfuKeys.lfupart_existsInMain_keys in Hin as Hex2.
        unfold get. rewrite check_resident by auto. rewrite Hex1, Hex2. simpl.
        unfold ArcLfu.get. by rewrite Hn.
      * pose proof (ArcFacts.checkGhostCaches_main key key s) as [Hm1 Hm2].
        specialize (Hm1 Hf). specialize (Hm2 Hn).
        unfold get. destruct (checkGhostCaches key s) as [g s1]. simpl in *.
        rewrite (proj2 (ArcFacts.existsInMain_lru_false key _) Hm1).
        rewrite (proj2 (ArcFacts.existsInMain_lfu_false key _) Hm2). simpl.
        by destruct g.
  - unfold get_value. by destruct (get key value s) as [[hit v] s'].
  - intros Hf Hn Hg1 Hg2. unfold get.
    rewrite ArcCoherence.arc_checkGhostCaches_none by done.
    rewrite (proj2 (ArcFacts.existsInMain_lru_false key _) Hf).
    by rewrite (proj2 (ArcFacts.existsInMain_lfu_false key _) Hn).
Qed.

(** X23.  A [get] that hits a key of the LRU part moves it to the front
    and counts the access; when the count reaches the threshold the key
    leaves the LRU part for the LFU part, which takes it with its value
    and count 1, or, when its capacity is zero, refuses it. *)
Theorem arc_get_promotes key value s n :
  reachable s →
  ArcLru.find_node key (ArcLru.main_ (lruPart_ s)) = Some n →
  (get key value s).1 = (true, value_ n)
  ∧ if ArcLru.shouldPromote (lruPart_ s) n
    then ArcLru.find_node key (ArcLru.main_ (lruPart_ (get key value s).2))
         = None
         ∧ (if bool_decide (lfuCapacity s = 0)
            then lfuPart_ (get key value s).2 = lfuPart_ s
            else ArcLfu.mainCache_ (lfuPart_ (get key value s).2) !! key
                 = Some (mkArcNode key (value_ n) 1))
    else ArcLru.main_ (lruPart_ (get key value s).2)
         = ArcLru.accessed n :: ArcLru.unlink key (ArcLru.main_ (lruPart_ s))
         ∧ lfuPart_ (get key value s).2 = lfuPart_ s.
Proof.
  intros [Hc [total Hb]]%ArcCoherence.reachable_coherent Hf.
  pose proof (coherent_mains s Hc) as Hmains.
  pose proof (coherent_once s Hc) as Hnd.
  apply ArcLruKeys.find_node_key in Hf as Hk.
  assert (Hex1 : ArcLru.existsInMain key (lruPart_ s) = true).
  { unfold ArcLru.existsInMain. rewrite Hf. by apply bool_decide_eq_true_2. }
  apply ArcLruKeys.lrupart_existsInMain_keys in Hex1 as Hin.
  assert (Hm2 : ArcLfu.mainCache_ (lfuPart_ s) !! key = None).
  { apply not_elem_of_dom. unfold ArcLfu.mainKeys in Hmains. set_solver. }
  assert (Hex2 : ArcLfu.existsInMain key (lfuPart_ s) = false)
    by by apply ArcFacts.existsInMain_lfu_false.
  pose proof (ArcLruKeys.unlink_gone key _ Hnd) as Hgone.
  apply ArcLruKeys.find_node_keys in Hgone.
  unfold get. rewrite check_resident by auto. rewrite Hex1, Hex2. simpl.
  unfold ArcLru.get. rewrite Hf. unfold transform, lfuCapacity.
  destruct (ArcLru.shouldPromote (lruPart_ s) n); simpl; [|done].
  split; [done|]. split.
  - unfold ArcLru.remove. simpl. rewrite Hk, decide_True by done. simpl.
    by rewrite decide_True by done.
  - unfold ArcLfu.put. case_bool_decide; [done|]. rewrite Hm2. simpl.
    by rewrite lookup_insert_eq.
Qed.

(** X24.  A [put] of a key the cache has no trace of goes to the front of
    the LRU part and leaves the LFU part alone.  With room in the LRU part
    nothing is evicted; into a full LRU part the least recent entry, the
    one at the tail, moves to the ghost index with its value and count
    1. *)
Theorem arc_put_evicts_to_ghost key value s :
  ArcLru.find_node key (ArcLru.main_ (lruPart_ s)) = None →
  ArcLfu.mainCache_ (lfuPart_ s) !! key = None →
  ArcLru.ghostCache_ (lruPart_ s) !! key = None →
  ArcLfu.ghostCache_ (lfuPart_ s) !! key = None →
  lruCapacity s ≠ 0 →
  lfuPart_ (put key value s) = lfuPart_ s
  ∧ (Z.of_nat (length (ArcLru.main_ (lruPart_ s))) < lruCapacity s →
     ArcLru.main_ (lruPart_ (put key value s))
     = mkArcNode key value 1 :: ArcLru.main_ (lruPart_ s)
     ∧ ArcLru.ghostCache_ (lruPart_ (put key value s))
       = ArcLru.ghostCache_ (lruPart_ s))
  ∧ (∀ n0, last (ArcLru.main_ (lruPart_ s)) = Some n0 →
       lruCapacity s ≤ Z.of_nat (length (ArcLru.main_ (lruPart_ s))) →
       ArcLru.main_ (lruPart_ (put key value s))
       = mkArcNode key value 1 :: removelast (ArcLru.main_ (lruPart_ s))
       ∧ ArcLru.ghostCache_ (lruPart_ (put key value s)) !! key_ n0
         = Some (resetAccessCount n0)).
Proof.
  intros Hf Hn Hg1 Hg2 Hcap. unfold lruCapacity in *.
  unfold put. rewrite ArcCoherence.arc_checkGhostCaches_none by done.
  rewrite (proj2 (ArcFacts.existsInMain_lru_false key _) Hf).
  rewrite (proj2 (ArcFacts.existsInMain_lfu_false key _) Hn). simpl.
  split; [done|].
  unfold ArcLru.put. rewrite bool_decide_eq_false_2 by done. rewrite Hf.
  simpl. unfold ArcLru.addNewNode. split.
  - intros Hroom. by rewrite bool_decide_eq_false_2 by lia.
  - intros n0 Hlast Hfull. rewrite bool_decide_eq_true_2 by done.
    unfold ArcLru.evictLeastRecent. rewrite Hlast. simpl.
    by rewrite lookup_insert_eq.
Qed.

End KArcCache.

Lemma arc_single_residence_witness :
  let s := run [CallPut 1 10; CallPut 2 20; CallPut 3 30; CallGet 1 0]
             (KArcCache_new (Key:=Z) (Value:=Z) 4 2) in
  Z.of_nat (length (ArcLru.main_ (lruPart_ s)))
  + Z.of_nat (size (ArcLfu.mainCache_ (lfuPart_ s))) ≤ 4.
Proof.
  assert (Hc : 0 ≤ 4 < 2 ^ 64) by lia.
  exact (proj2 (arc_single_residence (Key:=Z) (Value:=Z) 4 2
                  [CallPut 1 10; CallPut 2 20; CallPut 3 30; CallGet 1 0] Hc)).
Defined.

Lemma arc_lfu_part_linked_witness :
  ArcLfu.linked
    (lfuPart_ (run [CallPut 1 10; CallPut 1 11; CallGet 1 0]
                 (KArcCache_new (Key:=Z) (Value:=Z) 4 2))).
Proof.
  apply arc_lfu_part_linked.
  exists 4, 2, [CallPut 1 10; CallPut 1 11; CallGet 1 0]. split; [lia|done].
Defined.

Lemma arc_get_reads_witness :
  (get 1 0 (run [CallPut 1 10; CallPut 2 20]
              (KArcCache_new (Key:=Z) (Value:=Z) 4 2))).1 = (true, 10).
Proof.
  pose (s := run [CallPut 1 10; CallPut 2 20] (@KArcCache_new Z _ _ Z 4 2)).
  assert (Hr : reachable s).
  { exists 4, 2, [CallPut 1 10; CallPut 2 20]. split; [lia|done]. }
  exact (proj1 (arc_get_reads 1 0 s Hr)).
Defined.

Lemma arc_get_promotes_witness :
  let s := run [CallPut 1 10] (KArcCache_new (Key:=Z) (Value:=Z) 4 2) in
  ArcLfu.mainCache_ (lfuPart_ (get 1 0 s).2) !! 1 = Some (mkArcNode 1 10 1).
Proof.
  pose (s := run [CallPut 1 10] (@KArcCache_new Z _ _ Z 4 2)).
  assert (Hr : reachable s).
  { exists 4, 2, [CallPut 1 10]. split; [lia|done]. }
  exact (proj2 (proj2 (arc_get_promotes 1 0 s (mkArcNode 1 10 1) Hr eq_refl))).
Defined.

Lemma arc_put_evicts_to_ghost_witness :
  let s := run [CallPut 1 10; CallPut 2 20]
             (KArcCache_new (Key:=Z) (Value:=Z) 4 2) in
  ArcLru.main_ (lruPart_ (put 3 30 s)) = [mkArcNode 3 30 1; mkArcNode 2 20 1]
  ∧ ArcLru.ghostCache_ (lruPart_ (put 3 30 s)) !! 1 = Some (mkArcNode 1 10 1).
Proof.
  pose (s := run [CallPut 1 10; CallPut 2 20] (@KArcCache_new Z _ _ Z 4 2)).
  destruct (arc_put_evicts_to_ghost 3 30 s eq_refl eq_refl eq_refl eq_refl
              ltac:(discriminate)) as (_ & _ & Hfull).
  exact (Hfull (mkArcNode 1 10 1) eq_refl ltac:(discriminate)).
Defined.

End ArcBehaviour.

(** ** ARC: the ghost lists stay within their capacity *)

Module ArcGhosts.
Import ArcNode.

Section Lists.
Context {Key : Type} `{Countable Key} {Value : Type}.
Implicit Types (l : list (ArcNode Key Value)) (key : Key).

Lemma size_keys (m : gmap Key (ArcNode Key Value)) l :
  NoDup (key_ <$> l) → dom m = list_to_set (key_ <$> l) → size m = length l.
Proof.
  intros Hnd Hdom. rewrite <- size_dom, Hdom, size_list_to_set by done.
  by rewrite length_fmap.
Qed.

Lemma lru_unlink_keys key l :
  NoDup (key_ <$> l) →
  list_to_set (C:=gset Key) (key_ <$> ArcLru.unlink key l)
  = list_to_set (key_ <$> l) ∖ {[key]}.
Proof.
  intros Hnd. apply set_eq. intros k.
  rewrite elem_of_difference, elem_of_singleton, !elem_of_list_to_set.
  split.
  - intros Hin. split; [by apply (ArcLruKeys.keys_unlink key)|].
    intros ->. by apply (ArcLruKeys.unlink_gone key l).
  - intros [Hin Hne]. by apply ArcLruKeys.unlink_other.
Qed.

Lemma lfu_unlink_elem key l :
  NoDup (key_ <$> l) →
  NoDup (key_ <$> ArcLfu.unlink key l)
  ∧ ∀ k, k ∈ key_ <$> ArcLfu.unlink key l ↔ k ∈ key_ <$> l ∧ k ≠ key.
Proof.
  induction l as [|n l IH]; simpl.
  { intros _. split; [apply NoDup_nil_2|]. intros k. split.
    - by intros ?%elem_of_nil.
    - by intros [?%elem_of_nil _]. }
  intros [Hn Hl]%NoDup_cons. destruct (IH Hl) as [IH1 IH2].
  destruct (decide (key ∈ key_ <$> l)) as [Hin|Hin]; simpl.
  - assert (Hne : key_ n ≠ key) by (intros Hk; by rewrite Hk in Hn).
    split.
    + apply NoDup_cons. split; [|done]. intros Hn'. apply Hn.
      by apply IH2 in Hn' as [? _].
    + intros k. rewrite !elem_of_cons, IH2. split.
      * intros [->|[? ?]]; [by split; [left|]|by split; [right|]].
      * intros [[->|?] ?]; [by left|by right].
  - destruct (decide (key_ n = key)) as [Hk|Hk]; simpl.
    + split; [done|]. intros k. rewrite elem_of_cons, Hk. split.
      * intros Hkl. split; [by right|]. by intros ->.
      * by intros [[->|?] ?].
    + split; [by apply NoDup_cons|]. intros k. rewrite !elem_of_cons. split.
      * intros [->|Hkl]; [by split; [left|]|].
        split; [by right|]. by intros ->.
      * by intros [? _].
Qed.

Lemma lfu_unlink_spec key l :
  NoDup (key_ <$> l) →
  NoDup (key_ <$> ArcLfu.unlink key l)
  ∧ list_to_set (C:=gset Key) (key_ <$> ArcLfu.unlink key l)
    = list_to_set (key_ <$> l) ∖ {[key]}.
Proof.
  intros Hnd. destruct (lfu_unlink_elem key l Hnd) as [Hnd' Helem].
  split; [done|]. apply set_eq. intros k.
  by rewrite elem_of_difference, elem_of_singleton, !elem_of_list_to_set.
Qed.

End Lists.

Section ArcLruPart.
Import ArcLru.
Context {Key : Type} `{Countable Key} {Value : Type}.
Implicit Types (s : ArcLruPart Key Value) (key : Key) (g : Z).

Lemma lru_ghost_removeOldestGhost g s :
  ghost_bounded g s →
  ghost_bounded g (removeOldestGhost s)
  ∧ ghostKeys (removeOldestGhost s) ⊆ ghostKeys s
  ∧ (ghostCache_ s ≠ ∅ →
     S (size (ghostCache_ (removeOldestGhost s))) = size (ghostCache_ s)).
Proof.
  intros (Hg & Hnd & Hdom & Hb).
  pose proof (size_keys _ _ Hnd Hdom) as Hsz.
  unfold removeOldestGhost.
  destruct (last (ghost_ s)) as [n|] eqn:Hlast.
  - apply ArcLruKeys.last_snoc in Hlast.
    assert (Hk : key_ <$> ghost_ s
                 = (key_ <$> removelast (ghost_ s)) ++ [key_ n]).
    { by rewrite Hlast at 1; rewrite fmap_app. }
    rewrite Hk in Hnd. apply NoDup_app in Hnd as (Hnd' & Hdis & _).
    assert (Hn : key_ n ∉ key_ <$> removelast (ghost_ s)).
    { intros Hin. apply (Hdis _ Hin). by left. }
    assert (Hdom' : dom (delete (key_ n) (ghostCache_ s))
                    = list_to_set (key_ <$> removelast (ghost_ s))).
    { rewrite dom_delete_L. unfold ghostKeys in Hdom.
      rewrite Hdom, Hk, list_to_set_app_L. simpl.
      rewrite <- (elem_of_list_to_set (C:=gset Key)) in Hn. set_solver. }
    pose proof (size_keys _ _ Hnd' Hdom') as Hsz'.
    assert (Hlen : S (length (removelast (ghost_ s))) = length (ghost_ s)).
    { rewrite Hlast at 2. rewrite length_app. simpl. lia. }
    unfold ghost_bounded, ghostKeys. simpl.
    split; [split; [done|split; [done|split; [done|lia]]]|].
    split; [rewrite dom_delete_L; set_solver|]. intros _. lia.
  - split; [done|]. split; [done|]. intros Hne. exfalso. apply Hne.
    apply map_size_empty_iff. rewrite Hsz.
    by destruct (ghost_ s) as [|m l] using rev_ind;
      [|rewrite last_snoc in Hlast].
Qed.

Lemma lru_ghost_evictLeastRecent g s :
  ghost_bounded g s → ghostKeys s ## mainKeys s →
  ghost_bounded g (evictLeastRecent s).
Proof.
  intros Hgb Hdis. unfold evictLeastRecent.
  destruct (last (main_ s)) as [n|] eqn:Hlast; [|done].
  assert (Hin : key_ n ∈ mainKeys s).
  { apply ArcLruKeys.elem_of_mainKeys. apply ArcLruKeys.last_snoc in Hlast.
    rewrite Hlast, fmap_app. apply elem_of_app. right. by left. }
  set (s1 := if bool_decide (ghostCapacity_ s ≤ Z.of_nat (size (ghostCache_ s)))
             then removeOldestGhost s else s).
  assert (Hs1 : ghost_bounded g s1 ∧ ghostKeys s1 ⊆ ghostKeys s
                ∧ Z.of_nat (size (ghostCache_ s1)) + 1 ≤ Z.max 1 g).
  { destruct (lru_ghost_removeOldestGhost g s Hgb) as (Hr1 & Hr2 & Hr3).
    pose proof Hgb as (Hg & _ & _ & Hb). unfold s1. case_bool_decide as Hfull.
    - split; [done|]. split; [done|].
      destruct (decide (ghostCache_ s = ∅)) as [He|Hne].
      + unfold removeOldestGhost.
        destruct (last (ghost_ s)); simpl;
          rewrite He, ?delete_empty, map_size_empty; lia.
      + specialize (Hr3 Hne). lia.
    - split; [done|]. split; [done|]. lia. }
  destruct Hs1 as ((Hg1 & Hnd1 & Hdom1 & _) & Hsub & Hb1).
  assert (Hfresh : key_ n ∉ ghostKeys s1) by set_solver.
  unfold ghost_bounded, ghostKeys in *. simpl.
  split; [done|]. split.
  { apply NoDup_cons. split; [|done]. intros Hin'. apply Hfresh.
    rewrite Hdom1. by apply elem_of_list_to_set. }
  split; [by rewrite dom_insert_L, Hdom1|].
  rewrite map_size_insert_None by by apply not_elem_of_dom. lia.
Qed.

Lemma lru_ghost_checkGhost g key s :
  ghost_bounded g s → ghost_bounded g (checkGhost key s).2.
Proof.
  intros (Hg & Hnd & Hdom & Hb). unfold checkGhost.
  destruct (ghostCache_ s !! key) as [n|] eqn:Hn; [|done].
  unfold ghost_bounded, ghostKeys in *. simpl.
  split; [done|]. split; [by apply ArcLruKeys.NoDup_unlink|].
  split; [by rewrite dom_delete_L, Hdom, lru_unlink_keys|].
  pose proof (map_size_delete key (ghostCache_ s)) as Hd. rewrite Hn in Hd. lia.
Qed.

Lemma lru_ghost_decreaseCapacity g s :
  ghost_bounded g s → ghostKeys s ## mainKeys s →
  ghost_bounded g (decreaseCapacity s).2.
Proof.
  intros Hgb Hdis. unfold decreaseCapacity. case_bool_decide; [done|].
  simpl. case_bool_decide; [|done].
  by apply (lru_ghost_evictLeastRecent g s).
Qed.

Lemma lru_ghost_put g key value s :
  ghost_bounded g s → ghostKeys s ## mainKeys s →
  ghost_bounded g (put key value s).2.
Proof.
  intros Hgb Hdis. unfold put. case_bool_decide; [done|].
  destruct (find_node key (main_ s)); [done|]. simpl. unfold addNewNode.
  case_bool_decide; [|done]. by apply (lru_ghost_evictLeastRecent g s).
Qed.

Lemma lru_ghost_get g key value b s :
  ghost_bounded g s → ghost_bounded g (get key value b s).2.
Proof. intros Hgb. unfold get. by destruct (find_node key (main_ s)). Qed.

Lemma lru_ghost_remove g key s :
  ghost_bounded g s → ghost_bounded g (remove key s).
Proof. intros Hgb. unfold remove. by destruct (find_node key (main_ s)). Qed.

End ArcLruPart.

Section ArcLfuPart.
Import ArcLfu.
Context {Key : Type} `{Countable Key} {Value : Type}.
Implicit Types (s : ArcLfuPart Key Value) (key : Key) (g : Z).

Lemma lfu_ghost_removeOldestGhost g s :
  ghost_bounded g s →
  ghost_bounded g (removeOldestGhost s)
  ∧ ghostKeys (removeOldestGhost s) ⊆ ghostKeys s
  ∧ (ghostCache_ s ≠ ∅ →
     S (size (ghostCache_ (removeOldestGhost s))) = size (ghostCache_ s)).
Proof.
  intros (Hg & Hnd & Hdom & Hb).
  pose proof (size_keys _ _ Hnd Hdom) as Hsz.
  unfold removeOldestGhost.
  destruct (ghost_ s) as [|n l] eqn:Hl.
  - split; [by rewrite <- Hl in *|]. split; [done|]. intros Hne. exfalso.
    apply Hne. by apply map_size_empty_iff.
  - simpl in Hnd. apply NoDup_cons in Hnd as [Hn Hnd'].
    assert (Hdom' : dom (delete (key_ n) (ghostCache_ s))
                    = list_to_set (key_ <$> l)).
    { rewrite dom_delete_L. unfold ghostKeys in Hdom. rewrite Hdom. simpl.
      rewrite <- (elem_of_list_to_set (C:=gset Key)) in Hn. set_solver. }
    pose proof (size_keys _ _ Hnd' Hdom') as Hsz'. simpl in Hsz.
    unfold ghost_bounded, ghostKeys. simpl.
    split; [split; [done|split; [done|split; [done|lia]]]|].
    split; [rewrite dom_delete_L; set_solver|]. intros _. lia.
Qed.

Lemma lfu_ghost_evictLeastFrequent g s :
  linked s → ghost_bounded g s → ghostKeys s ## mainKeys s →
  ghost_bounded g (evictLeastFrequent s).
Proof.
  intros Hlinked Hgb Hdis. unfold evictLeastFrequent.
  destruct (decide (size (freqMap_ s) = 0%nat)) as [|Hsz]; [done|].
  destruct (freqMap_ s !! minFreq_ s) as [[|n rest]|] eqn:Hl; [done| |done].
  destruct (linked_list s Hlinked _ _ Hl) as (_ & _ & Hall).
  destruct (Hall n ltac:(by left)) as [Hn _].
  assert (Hin : key_ n ∈ mainKeys s) by by eapply elem_of_dom_2.
  set (s1 := if bool_decide (ghostCapacity_ s ≤ Z.of_nat (size (ghostCache_ s)))
             then removeOldestGhost s else s).
  assert (Hs1 : ghost_bounded g s1 ∧ ghostKeys s1 ⊆ ghostKeys s
                ∧ Z.of_nat (size (ghostCache_ s1)) + 1 ≤ Z.max 1 g).
  { destruct (lfu_ghost_removeOldestGhost g s Hgb) as (Hr1 & Hr2 & Hr3).
    pose proof Hgb as (Hg & _ & _ & Hb). unfold s1. case_bool_decide as Hfull.
    - split; [done|]. split; [done|].
      destruct (decide (ghostCache_ s = ∅)) as [He|Hne].
      + unfold removeOldestGhost.
        destruct (ghost_ s); simpl;
          rewrite He, ?delete_empty, map_size_empty; lia.
      + specialize (Hr3 Hne). lia.
    - split; [done|]. split; [done|]. lia. }
  destruct Hs1 as ((Hg1 & Hnd1 & Hdom1 & _) & Hsub & Hb1).
  assert (Hfresh : key_ n ∉ ghostKeys s1) by set_solver.
  unfold ghost_bounded, ghostKeys in *. simpl.
  split; [done|]. split.
  { rewrite fmap_app. simpl. apply NoDup_app. split; [done|].
    split; [|apply NoDup_singleton].
    intros k Hk [->|[]%elem_of_nil]%elem_of_cons. apply Hfresh.
    by rewrite Hdom1, elem_of_list_to_set. }
  split.
  { rewrite dom_insert_L, Hdom1, fmap_app, list_to_set_app_L. simpl.
    set_solver. }
  rewrite map_size_insert_None by by apply not_elem_of_dom. lia.
Qed.

Lemma lfu_ghost_checkGhost g key s :
  ghost_bounded g s → ghost_bounded g (checkGhost key s).2.
Proof.
  intros (Hg & Hnd & Hdom & Hb). unfold checkGhost.
  destruct (ghostCache_ s !! key) as [n|] eqn:Hn; [|done].
  destruct (lfu_unlink_spec key (ghost_ s) Hnd) as [Hnd' Hset].
  unfold ghost_bounded, ghostKeys in *. simpl.
  split; [done|]. split; [done|].
  split; [by rewrite dom_delete_L, Hdom, Hset|].
  pose proof (map_size_delete key (ghostCache_ s)) as Hd. rewrite Hn in Hd. lia.
Qed.

Lemma lfu_ghost_decreaseCapacity g s :
  linked s → ghost_bounded g s → ghostKeys s ## mainKeys s →
  ghost_bounded g (decreaseCapacity s).2.
Proof.
  intros Hlinked Hgb Hdis. unfold decreaseCapacity. case_bool_decide; [done|].
  simpl. case_bool_decide; [|done].
  by apply (lfu_ghost_evictLeastFrequent g s).
Qed.

Lemma lfu_ghost_put g key value s :
  linked s → ghost_bounded g s → ghostKeys s ## mainKeys s →
  ghost_bounded g (put key value s).2.
Proof.
  intros Hlinked Hgb Hdis. unfold put. case_bool_decide; [done|].
  destruct (mainCache_ s !! key); [done|]. simpl. unfold addNewNode.
  case_bool_decide; [|done]. by apply (lfu_ghost_evictLeastFrequent g s).
Qed.

Lemma lfu_ghost_get g key value s :
  ghost_bounded g s → ghost_bounded g (get key value s).2.
Proof. intros Hgb. unfold get. by destruct (mainCache_ s !! key). Qed.

End ArcLfuPart.

Section KArcCache.
Import Arc.
Context {Key : Type} `{Countable Key} {Value : Type}.
Implicit Types (s : KArcCache Key Value) (key : Key) (value : Value) (g : Z).

Lemma ghosts_checkLruGhost total g key s :
  balanced total s → coherent s →
  ArcLru.ghost_bounded g (lruPart_ s) → ArcLfu.ghost_bounded g (lfuPart_ s) →
  ArcLru.ghost_bounded g (lruPart_ (checkLruGhost key s).2)
  ∧ ArcLfu.ghost_bounded g (lfuPart_ (checkLruGhost key s).2).
Proof.
  intros (_ & _ & _ & _ & Hlinked) Hc H1 H2.
  pose proof (coherent_lfu_ghost s Hc) as Hdis.
  pose proof (lru_ghost_checkGhost g key _ H1) as H1'.
  pose proof (lfu_ghost_decreaseCapacity g _ Hlinked H2 ltac:(set_solver)) as H2'.
  unfold checkLruGhost.
  destruct (ArcLru.checkGhost key (lruPart_ s)) as [[gv|] lru1]; simpl in *;
    [|done].
  destruct (ArcLfu.decreaseCapacity (lfuPart_ s)) as [[] lfu1]; simpl in *;
    done.
Qed.

Lemma ghosts_checkLfuGhost total g key s :
  balanced total s → coherent s →
  ArcLru.ghost_bounded g (lruPart_ s) → ArcLfu.ghost_bounded g (lfuPart_ s) →
  ArcLru.ghost_bounded g (lruPart_ (checkLfuGhost key s).2)
  ∧ ArcLfu.ghost_bounded g (lfuPart_ (checkLfuGhost key s).2).
Proof.
  intros _ Hc H1 H2.
  pose proof (coherent_lru_ghost s Hc) as Hdis.
  pose proof (lfu_ghost_checkGhost g key _ H2) as H2'.
  pose proof (lru_ghost_decreaseCapacity g _ H1 ltac:(set_solver)) as H1'.
  unfold checkLfuGhost.
  destruct (ArcLfu.checkGhost key (lfuPart_ s)) as [[gv|] lfu1]; simpl in *;
    [|done].
  destruct (ArcLru.decreaseCapacity (lruPart_ s)) as [[] lru1]; simpl in *;
    done.
Qed.

Lemma ghosts_checkGhostCaches total g key s :
  balanced total s → coherent s →
  ArcLru.ghost_bounded g (lruPart_ s) → ArcLfu.ghost_bounded g (lfuPart_ s) →
  ArcLru.ghost_bounded g (lruPart_ (checkGhostCaches key s).2)
  ∧ ArcLfu.ghost_bounded g (lfuPart_ (checkGhostCaches key s).2).
Proof.
  intros Hb Hc H1 H2. rewrite ArcFacts.checkGhostCaches_halves.
  destruct (ghosts_checkLruGhost total g key s Hb Hc H1 H2) as [H1' H2'].
  apply (ghosts_checkLfuGhost total); [|by apply (ArcCoherence.coherent_checkLruGhost total)|done..].
  by apply ArcFacts.checkLruGhost_capacity.
Qed.

Lemma ghosts_transform g key value (b : bool)
    (lru : ArcLru.ArcLruPart Key Value) (lfu : ArcLfu.ArcLfuPart Key Value) :
  ArcLfu.linked lfu → ArcLfu.ghostKeys lfu ## ArcLfu.mainKeys lfu →
  ArcLru.ghost_bounded g lru → ArcLfu.ghost_bounded g lfu →
  ArcLru.ghost_bounded g (transform key value b lru lfu).1
  ∧ ArcLfu.ghost_bounded g (transform key value b lru lfu).2.
Proof.
  intros Hlinked Hdis H1 H2. destruct b; simpl; [|done].
  split; [by apply lru_ghost_remove|by apply lfu_ghost_put].
Qed.

Lemma ghosts_put total g key value s :
  balanced total s → coherent s →
  ArcLru.ghost_bounded g (lruPart_ s) → ArcLfu.ghost_bounded g (lfuPart_ s) →
  ArcLru.ghost_bounded g (lruPart_ (put key value s))
  ∧ ArcLfu.ghost_bounded g (lfuPart_ (put key value s)).
Proof.
  intros Hb Hc H1 H2.
  pose proof (ArcFacts.balanced_checkGhostCaches total key s Hb)
    as (_ & _ & _ & _ & Hlinked).
  pose proof (ArcCoherence.coherent_checkGhostCaches total key s Hb Hc) as Hc1.
  destruct (ghosts_checkGhostCaches total g key s Hb Hc H1 H2) as [H1' H2'].
  pose proof (coherent_lru_ghost _ Hc1) as Hd1.
  pose proof (coherent_lfu_ghost _ Hc1) as Hd2.
  unfold put. destruct (checkGhostCaches key s) as [gv s1]. simpl in *.
  assert (Hd1' : ArcLru.ghostKeys (lruPart_ s1) ## ArcLru.mainKeys (lruPart_ s1))
    by set_solver.
  assert (Hd2' : ArcLfu.ghostKeys (lfuPart_ s1) ## ArcLfu.mainKeys (lfuPart_ s1))
    by set_solver.
  pose proof (lru_ghost_put g key value _ H1' Hd1') as Hput1.
  pose proof (lfu_ghost_put g key value _ Hlinked H2' Hd2') as Hput2.
  pose proof (coherent_mains _ Hc1) as Hmains.
  destruct (ArcLru.existsInMain key (lruPart_ s1)) eqn:Hin1;
    destruct (ArcLfu.existsInMain key (lfuPart_ s1)) eqn:Hin2; simpl;
    try done.
  - apply ArcLruKeys.lrupart_existsInMain_keys in Hin1.
    apply ArcLfuKeys.lfupart_existsInMain_keys in Hin2. set_solver.
  - pose proof (ghosts_transform g key value (ArcLru.put key value (lruPart_ s1)).1
                  (ArcLru.put key value (lruPart_ s1)).2 (lfuPart_ s1)
                  Hlinked Hd2' Hput1 H2') as Ht.
    destruct (ArcLru.put key value (lruPart_ s1)) as [st lru1]. simpl in *.
    by destruct (transform key value st lru1 (lfuPart_ s1)).
Qed.

Lemma ghosts_get total g key value s :
  balanced total s → coherent s →
  ArcLru.ghost_bounded g (lruPart_ s) → ArcLfu.ghost_bounded g (lfuPart_ s) →
  ArcLru.ghost_bounded g (lruPart_ (get key value s).2)
  ∧ ArcLfu.ghost_bounded g (lfuPart_ (get key value s).2).
Proof.
  intros Hb Hc H1 H2.
  pose proof (ArcFacts.balanced_checkGhostCaches total key s Hb)
    as (_ & _ & _ & _ & Hlinked).
  pose proof (ArcCoherence.coherent_checkGhostCaches total key s Hb Hc) as Hc1.
  destruct (ghosts_checkGhostCaches total g key s Hb Hc H1 H2) as [H1' H2'].
  pose proof (coherent_lru_ghost _ Hc1) as Hd1.
  pose proof (coherent_lfu_ghost _ Hc1) as Hd2.
  pose proof (coherent_mains _ Hc1) as Hmains.
  unfold get. destruct (checkGhostCaches key s) as [gv s1]. simpl in *.
  assert (Hd1' : ArcLru.ghostKeys (lruPart_ s1) ## ArcLru.mainKeys (lruPart_ s1))
    by set_solver.
  assert (Hd2' : ArcLfu.ghostKeys (lfuPart_ s1) ## ArcLfu.mainKeys (lfuPart_ s1))
    by set_solver.
  destruct (ArcLru.existsInMain key (lruPart_ s1)) eqn:Hin1;
    destruct (ArcLfu.existsInMain key (lfuPart_ s1)) eqn:Hin2; simpl.
  - apply ArcLruKeys.lrupart_existsInMain_keys in Hin1.
    apply ArcLfuKeys.lfupart_existsInMain_keys in Hin2. set_solver.
  - pose proof (lru_ghost_get g key value false _ H1') as Hget1.
    destruct (ArcLru.get key value false (lruPart_ s1))
      as [[[hit value2] st] lru1]. simpl in *.
    pose proof (ghosts_transform g key value2 st lru1 (lfuPart_ s1)
                  Hlinked Hd2' Hget1 H2') as Ht.
    by destruct (transform key value2 st lru1 (lfuPart_ s1)).
  - pose proof (lfu_ghost_get g key value _ H2') as Hget2.
    by destruct (ArcLfu.get key value (lfuPart_ s1)) as [[hit value1] lfu1].
  - destruct gv as [gv|]; simpl; [|done].
    split; [|done]. by apply lru_ghost_put.
Qed.

Lemma ghosts_run total g (cs : list (call Key Value)) s :
  balanced total s → coherent s →
  ArcLru.ghost_bounded g (lruPart_ s) → ArcLfu.ghost_bounded g (lfuPart_ s) →
  ArcLru.ghost_bounded g (lruPart_ (run cs s))
  ∧ ArcLfu.ghost_bounded g (lfuPart_ (run cs s)).
Proof.
  unfold run. revert s. induction cs as [|c cs IH]; simpl; [done|].
  intros s Hb Hc H1 H2.
  assert (Hstep : ArcLru.ghost_bounded g (lruPart_ (step s c))
                  ∧ ArcLfu.ghost_bounded g (lfuPart_ (step s c))).
  { destruct c; simpl;
      [by apply (ghosts_put total)|by apply (ghosts_get total)]. }
  destruct Hstep as [H1' H2']. apply IH; [| |done..].
  - destruct c; simpl;
      [by apply ArcFacts.balanced_put|by apply ArcFacts.balanced_get].
  - destruct c; simpl;
      [by apply (ArcCoherence.coherent_put total)
      |by apply (ArcCoherence.coherent_get total)].
Qed.

(** X25.  Each ghost index of an ARC cache holds as many keys as its
    ghost list has nodes, and never more of them than half the capacity
    the cache was built with. *)
Theorem arc_ghosts_bounded capacity transformThreshold
    (cs : list (call Key Value)) :
  0 ≤ capacity < 2 ^ 64 →
  let s := run cs (KArcCache_new capacity transformThreshold) in
  Z.of_nat (size (ArcLru.ghostCache_ (lruPart_ s))) ≤ capacity `div` 2
  ∧ Z.of_nat (size (ArcLfu.ghostCache_ (lfuPart_ s))) ≤ capacity `div` 2
  ∧ size (ArcLru.ghostCache_ (lruPart_ s)) = length (ArcLru.ghost_ (lruPart_ s))
  ∧ size (ArcLfu.ghostCache_ (lfuPart_ s)) = length (ArcLfu.ghost_ (lfuPart_ s)).
Proof.
  intros Hc s.
  destruct (decide (capacity `div` 2 = 0)) as [Hz|Hz].
  { unfold s. rewrite PolicyFacts.arc_run_empty by done. simpl.
    rewrite !map_size_empty. lia. }
  pose proof (Z.div_pos capacity 2 ltac:(lia) ltac:(lia)) as Hpos.
  pose proof (ArcFacts.balanced_new (Key:=Key) (Value:=Value) capacity
                transformThreshold Hc) as Hb.
  assert (Hcoh : coherent (KArcCache_new (Key:=Key) (Value:=Value)
                             capacity transformThreshold))
    by (apply ArcCoherence.coherent_new; lia).
  destruct (ghosts_run _ (capacity `div` 2) cs _ Hb Hcoh)
    as [(Hg1 & Hnd1 & Hdom1 & Hb1) (Hg2 & Hnd2 & Hdom2 & Hb2)].
  { split; [done|]. simpl. split; [apply NoDup_nil_2|]. split; [set_solver|].
    rewrite map_size_empty. lia. }
  { split; [done|]. simpl. split; [apply NoDup_nil_2|]. split; [set_solver|].
    rewrite map_size_empty. lia. }
  fold s in Hg1, Hnd1, Hdom1, Hb1, Hg2, Hnd2, Hdom2, Hb2.
  split; [lia|]. split; [lia|].
  split; by apply size_keys.
Qed.

End KArcCache.

Lemma arc_ghosts_bounded_witness :
  let s := Arc.run [Arc.CallPut 1 10; Arc.CallPut 2 20; Arc.CallPut 3 30;
                    Arc.CallPut 4 40; Arc.CallPut 5 50]
             (Arc.KArcCache_new (Key:=Z) (Value:=Z) 4 2) in
  Z.of_nat (size (ArcLru.ghostCache_ (Arc.lruPart_ s))) ≤ 4 `div` 2.
Proof.
  assert (Hc : 0 ≤ 4 < 2 ^ 64) by lia.
  exact (proj1 (arc_ghosts_bounded (Key:=Z) (Value:=Z) 4 2
                  [Arc.CallPut 1 10; Arc.CallPut 2 20; Arc.CallPut 3 30;
                   Arc.CallPut 4 40; Arc.CallPut 5 50] Hc)).
Defined.

End ArcGhosts.
